(** * Dijkstra's shortest paths over a city graph, with an indexed binary min-heap

    A shallow embedding of [graph.c], [minheap.c] and [dijkstras.c], and of
    what [main.c] does with them.

    Conventions of the embedding.
    - A C [int] is a [Z]; the one addition and the one subtraction of the
      program that can leave the 32-bit range ([alternateRoute] in
      [dijkstras], [rightValue - leftValue] in [minHeapSiftDown]) are
      wrapped to two's complement by [wrap_int].  ISO C leaves signed
      overflow undefined: wrapping is what the machine instruction does,
      but a compiler may as well decide [(rightValue - leftValue) <= 0]
      as [rightValue <= leftValue].  The two readings agree whenever the
      difference fits an [int], as it does for values in 0 .. [INT_MAX];
      what is proved of [minHeapSiftDown] for other values is proved of
      the wrapped reading.
    - A [Vertex*] is the index of the vertex in [graph->adjLists]; the
      vertices are allocated one by one and never move.  [NULL] is [None].
    - The heap array [Node** heap] is a list of [Node] records, its [size]
      the length of the list.  Array indices are [Z] (a vertex records
      [-1] for "not in a heap"); an access outside the array is [Fault].
      Sizes and indices are assumed to stay below 2^30, so that
      [2*i + 2] is computed exactly.
    - Loops of the C code are recursive functions on a bound, and
      [Timeout] is returned when the bound is used up.  The bounds of the
      heap loops and of the main loop are shown to suffice; the loop that
      follows the predecessors in [dijkstrasWriteToFile] ends whenever the
      predecessors lead back to a vertex without one. *)

From Stdlib Require Import ZArith Lia String Ascii DecimalString Sorted.
From stdpp Require Import base tactics option list.

Local Open Scope Z_scope.

(** ** Results of running C code *)

Inductive result (A : Type) : Type :=
| Ok (a : A)
| Fault
| Timeout.
Arguments Ok {A} a.
Arguments Fault {A}.
Arguments Timeout {A}.

#[global] Instance result_ret : MRet result := fun A a => Ok a.
#[global] Instance result_bind : MBind result := fun A B f m =>
  match m with
  | Ok a => f a
  | Fault => Fault
  | Timeout => Timeout
  end.

Definition of_option {A} (o : option A) : result A :=
  match o with
  | Some a => Ok a
  | None => Fault
  end.

(** ** Machine integers *)

Definition INT_MAX : Z := 2147483647.
Definition INT_MIN : Z := -2147483648.

Definition wrap_int (z : Z) : Z := (z + 2147483648) `mod` 4294967296 - 2147483648.

Definition in_int (z : Z) : Prop := INT_MIN <= z <= INT_MAX.

(** ** graph.c: the data *)

Record Edge : Type := mkEdge {
  edge_start : nat;
  edge_end : nat;
  edge_distance : Z
}.

Record Vertex : Type := mkVertex {
  vertexNumber : nat;
  cityName : string;
  edges : list Edge;
  previous : option nat;
  distanceFromSource : Z;
  positionInHeap : Z;
  visited : bool
}.

(** [numberOfCities] is the length of [adjLists]. *)
Abbreviation Graph := (list Vertex).

(** [vertexConstructor], graph.c:92. *)
Definition vertexConstructor (number : nat) (name : string) : Vertex :=
  {| vertexNumber := number; cityName := name; edges := [];
     previous := None; distanceFromSource := INT_MAX;
     positionInHeap := -1; visited := false |}.

Definition vertexSetDistanceFromSource (d : Z) (x : Vertex) : Vertex :=
  {| vertexNumber := vertexNumber x; cityName := cityName x; edges := edges x;
     previous := previous x; distanceFromSource := d;
     positionInHeap := positionInHeap x; visited := visited x |}.

Definition vertexSetPrevious (p : option nat) (x : Vertex) : Vertex :=
  {| vertexNumber := vertexNumber x; cityName := cityName x; edges := edges x;
     previous := p; distanceFromSource := distanceFromSource x;
     positionInHeap := positionInHeap x; visited := visited x |}.

Definition vertexSetPositionInHeap (p : Z) (x : Vertex) : Vertex :=
  {| vertexNumber := vertexNumber x; cityName := cityName x; edges := edges x;
     previous := previous x; distanceFromSource := distanceFromSource x;
     positionInHeap := p; visited := visited x |}.

Definition vertexSetVisited (b : bool) (x : Vertex) : Vertex :=
  {| vertexNumber := vertexNumber x; cityName := cityName x; edges := edges x;
     previous := previous x; distanceFromSource := distanceFromSource x;
     positionInHeap := positionInHeap x; visited := b |}.

Definition vertexAddEdge (e : Edge) (x : Vertex) : Vertex :=
  {| vertexNumber := vertexNumber x; cityName := cityName x;
     edges := edges x ++ [e];
     previous := previous x; distanceFromSource := distanceFromSource x;
     positionInHeap := positionInHeap x; visited := visited x |}.

(** [graphGetVertex], graph.c:606: [graph->adjLists[vertexNumber]]. *)
Definition graphGetVertex (g : Graph) (v : nat) : result Vertex :=
  of_option (g !! v).

(** A write through a [Vertex*]. *)
Definition graphSetVertex (g : Graph) (v : nat) (f : Vertex -> Vertex)
  : result Graph :=
  x ← graphGetVertex g v; Ok (<[v := f x]> g).

(** ** graph.c: building the graph from edge records *)

(** The loop of [checkStringsKnown], graph.c:460-471: the index of the
    last vertex that carries the name, if any. *)
Fixpoint lastKnown (name : string) (g : list Vertex) (k : nat) (found : option nat)
  : option nat :=
  match g with
  | [] => found
  | x :: rest =>
      lastKnown name rest (S k)
        (if String.eqb (cityName x) name then Some k else found)
  end.

(** [graphVertexResize], graph.c:381. *)
Definition graphVertexResize (g : Graph) (i : nat) (name : string) : Graph :=
  g ++ [vertexConstructor i name].

(** [checkStringsKnown], graph.c:453: the graph with the unknown names
    added, and the two vertex numbers. *)
Definition checkStringsKnown (g : Graph) (stringA stringB : string)
  : Graph * nat * nat :=
  let knownA := lastKnown stringA g 0%nat None in
  let knownB := lastKnown stringB g 0%nat None in
  let '(g1, vertexNumberA) :=
    match knownA with
    | Some k => (g, k)
    | None => (graphVertexResize g (length g) stringA, length g)
    end in
  let '(g2, vertexNumberB) :=
    match knownB with
    | Some k => (g1, k)
    | None => (graphVertexResize g1 (length g1) stringB, length g1)
    end in
  (g2, vertexNumberA, vertexNumberB).

(** [addEdge], graph.c:418. *)
Definition addEdge (g : Graph) (start end_ : nat) (distance : Z) : result Graph :=
  g1 ← graphSetVertex g start (vertexAddEdge (mkEdge start end_ distance));
  graphSetVertex g1 end_ (vertexAddEdge (mkEdge end_ start distance)).

(** The reading loop of [graphPopulateGraph], graph.c:527-544, over the
    records that [fscanf] delivers.  [None] is [exit(-1)]. *)
Fixpoint graphPopulateGraph (g : Graph) (records : list (string * string * Z))
  : option Graph :=
  match records with
  | [] => Some g
  | (start, end_, distance) :: rest =>
      let '(g1, vertexNumberStart, vertexNumberEnd) :=
        checkStringsKnown g start end_ in
      if distance <=? 0 then None
      else
        match addEdge g1 vertexNumberStart vertexNumberEnd distance with
        | Ok g2 => graphPopulateGraph g2 rest
        | _ => None
        end
  end.

(** [graphGetVertexNumber], graph.c:619: the first vertex of that name;
    [None] is [exit(-1)]. *)
Fixpoint graphGetVertexNumber_from (g : list Vertex) (i : nat) (name : string)
  : option nat :=
  match g with
  | [] => None
  | x :: rest =>
      if String.eqb (cityName x) name then Some i
      else graphGetVertexNumber_from rest (S i) name
  end.

Definition graphGetVertexNumber (g : Graph) (name : string) : option nat :=
  graphGetVertexNumber_from g 0%nat name.

(** ** minheap.c: the data *)

Record Node : Type := mkNode {
  value : Z;
  position : Z;
  hasChildLeft : bool;
  hasChildRight : bool;
  vertex : nat
}.

Abbreviation MinHeap := (list Node).

Definition nodeSetValue (v : Z) (n : Node) : Node :=
  mkNode v (position n) (hasChildLeft n) (hasChildRight n) (vertex n).

Definition nodeSetHasChildLeft (b : bool) (n : Node) : Node :=
  mkNode (value n) (position n) b (hasChildRight n) (vertex n).

Definition nodeSetHasChildRight (b : bool) (n : Node) : Node :=
  mkNode (value n) (position n) (hasChildLeft n) b (vertex n).

(** [minHeap->heap[i]], read. *)
Definition heapAt (h : MinHeap) (i : Z) : result Node :=
  if 0 <=? i then of_option (h !! Z.to_nat i) else Fault.

(** [minHeap->heap[i]->field = ...]. *)
Definition heapUpdate (h : MinHeap) (i : Z) (f : Node -> Node) : result MinHeap :=
  n ← heapAt h i; Ok (<[Z.to_nat i := f n]> h).

(** [(int)floor((c - 1)/2)]: the division is the integer one, which
    truncates towards zero, so the parent of slot 0 is slot 0. *)
Definition parentOf (c : Z) : Z := (c - 1) `quot` 2.

(** [nodeConstructor], minheap.c:64. *)
Definition nodeConstructor (position : Z) (x : Vertex) (v : nat) : Node :=
  mkNode (distanceFromSource x) position false false v.

(** [swapNode], minheap.c:160.  The child flags stay with the slots, the
    value and the vertex change slots, and both vertices learn their new
    slot. *)
Definition swapNode (g : Graph) (h : MinHeap) (currentPosition otherPosition : Z)
  : result (Graph * MinHeap) :=
  tempNode ← heapAt h currentPosition;
  other ← heapAt h otherPosition;
  let atCurrent :=
    mkNode (value other) currentPosition
           (hasChildLeft tempNode) (hasChildRight tempNode) (vertex other) in
  let atOther :=
    mkNode (value tempNode) otherPosition
           (hasChildLeft other) (hasChildRight other) (vertex tempNode) in
  let h' := <[Z.to_nat otherPosition := atOther]>
              (<[Z.to_nat currentPosition := atCurrent]> h) in
  g1 ← graphSetVertex g (vertex tempNode) (vertexSetPositionInHeap otherPosition);
  g2 ← graphSetVertex g1 (vertex other) (vertexSetPositionInHeap currentPosition);
  Ok (g2, h').

(** The sift-up loop, minheap.c:231-235 and again 448-452. *)
Fixpoint siftUp (fuel : nat) (g : Graph) (h : MinHeap) (currentPosition : Z)
  : result (Graph * MinHeap) :=
  let parentPosition := parentOf currentPosition in
  cur ← heapAt h currentPosition;
  par ← heapAt h parentPosition;
  if value cur <? value par then
    match fuel with
    | O => Timeout
    | S fuel' =>
        '(g', h') ← swapNode g h currentPosition parentPosition;
        siftUp fuel' g' h' parentPosition
    end
  else Ok (g, h).

(** [minHeapEnqueue], minheap.c:201. *)
Definition minHeapEnqueue (g : Graph) (h : MinHeap) (v : nat)
  : result (Graph * MinHeap) :=
  x ← graphGetVertex g v;
  let size := Z.of_nat (length h) in
  let h1 := h ++ [nodeConstructor size x v] in
  g1 ← graphSetVertex g v (vertexSetPositionInHeap size);
  let currentPosition := size in
  let parentPosition := parentOf currentPosition in
  h2 ← (if 0 <? currentPosition then
          if currentPosition `rem` 2 =? 0
          then heapUpdate h1 parentPosition (nodeSetHasChildRight true)
          else heapUpdate h1 parentPosition (nodeSetHasChildLeft true)
        else Ok h1);
  siftUp (length h2) g1 h2 currentPosition.

(** One round of the loop of [minHeapSiftDown], minheap.c:260-318:
    [None] when the loop is left, otherwise the new position.  The
    difference at minheap.c:273 is an [int], wrapped here when it does not
    fit (in C the overflow is undefined). *)
Definition siftDownStep (g : Graph) (h : MinHeap) (currentPosition : Z)
  : result (option (Z * (Graph * MinHeap))) :=
  let childPositionLeft := 2 * currentPosition + 1 in
  let childPositionRight := 2 * currentPosition + 2 in
  cur ← heapAt h currentPosition;
  if hasChildLeft cur || hasChildRight cur then
    if hasChildLeft cur && hasChildRight cur then
      left ← heapAt h childPositionLeft;
      right ← heapAt h childPositionRight;
      let leftValue := value left in
      let rightValue := value right in
      if (leftValue <=? value cur) || (rightValue <=? value cur) then
        if wrap_int (rightValue - leftValue) <=? 0 then
          s ← swapNode g h currentPosition childPositionRight;
          Ok (Some (childPositionRight, s))
        else
          s ← swapNode g h currentPosition childPositionLeft;
          Ok (Some (childPositionLeft, s))
      else Ok None
    else if hasChildLeft cur then
      left ← heapAt h childPositionLeft;
      if value left <=? value cur then
        s ← swapNode g h currentPosition childPositionLeft;
        Ok (Some (childPositionLeft, s))
      else Ok None
    else
      right ← heapAt h childPositionRight;
      if value right <=? value cur then
        s ← swapNode g h currentPosition childPositionRight;
        Ok (Some (childPositionRight, s))
      else Ok None
  else Ok None.

Fixpoint siftDownFrom (fuel : nat) (g : Graph) (h : MinHeap) (currentPosition : Z)
  : result (Graph * MinHeap) :=
  r ← siftDownStep g h currentPosition;
  match r with
  | None => Ok (g, h)
  | Some (next, (g', h')) =>
      match fuel with
      | O => Timeout
      | S fuel' => siftDownFrom fuel' g' h' next
      end
  end.

(** [minHeapSiftDown], minheap.c:246. *)
Definition minHeapSiftDown (g : Graph) (h : MinHeap) : result (Graph * MinHeap) :=
  siftDownFrom (length h) g h 0.

Definition minHeapGetSize (h : MinHeap) : Z := Z.of_nat (length h).

Definition minHeapIsEmpty (h : MinHeap) : bool := minHeapGetSize h =? 0.

(** [minHeapDequeue], minheap.c:369. *)
Definition minHeapDequeue (g : Graph) (h : MinHeap)
  : result (nat * (Graph * MinHeap)) :=
  tempNode ← heapAt h 0;
  let minVertex := vertex tempNode in
  let size := minHeapGetSize h in
  if 1 <? size then
    last ← heapAt h (size - 1);
    let top := mkNode (value last) 0
                 (hasChildLeft tempNode) (hasChildRight tempNode) (vertex last) in
    let h1 := <[0%nat := top]> h in
    g1 ← graphSetVertex g (vertex last) (vertexSetPositionInHeap 0);
    let parentNode := (size - 2) `quot` 2 in
    h2 ← (if size `rem` 2 =? 0
          then heapUpdate h1 parentNode (nodeSetHasChildLeft false)
          else heapUpdate h1 parentNode (nodeSetHasChildRight false));
    let h3 := take (Z.to_nat (size - 1)) h2 in
    s ← minHeapSiftDown g1 h3;
    Ok (minVertex, s)
  else
    Ok (minVertex, (g, take (Z.to_nat (size - 1)) h)).

(** [minHeapDecreaseNodeValue], minheap.c:434. *)
Definition minHeapDecreaseNodeValue (g : Graph) (h : MinHeap) (v : nat)
  : result (Graph * MinHeap) :=
  x ← graphGetVertex g v;
  let currentPosition := positionInHeap x in
  h1 ← heapUpdate h currentPosition (nodeSetValue (distanceFromSource x));
  siftUp (length h1) g h1 currentPosition.

(** Taking the minimum off until the heap is empty, with nothing added
    or decreased in between: the vertices that [minHeapDequeue] returns,
    each with the value its entry carried in slot 0. *)
Fixpoint drain (fuel : nat) (g : Graph) (h : MinHeap) : result (list (nat * Z)) :=
  if minHeapIsEmpty h then Ok []
  else
    match fuel with
    | O => Timeout
    | S fuel' =>
        top ← heapAt h 0;
        '(u, (g', h')) ← minHeapDequeue g h;
        rest ← drain fuel' g' h';
        Ok ((u, value top) :: rest)
    end.

(** ** dijkstras.c *)

(** The body of the reset loop, dijkstras.c:46-57, for vertex [i]. *)
Definition resetVertex (source : nat) (s : Graph * MinHeap) (i : nat)
  : result (Graph * MinHeap) :=
  let '(g, h) := s in
  g1 ← (if decide (i = source) then Ok g
        else graphSetVertex g i (vertexSetDistanceFromSource INT_MAX));
  g2 ← graphSetVertex g1 i (vertexSetPrevious None);
  g3 ← graphSetVertex g2 i (vertexSetVisited false);
  minHeapEnqueue g3 h i.

Fixpoint forEach {A S : Type} (body : S -> A -> result S) (s : S) (l : list A)
  : result S :=
  match l with
  | [] => Ok s
  | a :: rest => s' ← body s a; forEach body s' rest
  end.

(** The reset phase, dijkstras.c:42-57. *)
Definition dijkstrasReset (g : Graph) (h : MinHeap) (source : nat)
  : result (Graph * MinHeap) :=
  g0 ← graphSetVertex g source (vertexSetDistanceFromSource 0);
  forEach (resetVertex source) (g0, h) (seq 0 (length g0)).

(** The body of the edge loop, dijkstras.c:71-95, for one edge of [u]. *)
Definition relaxEdge (u : nat) (s : Graph * MinHeap) (edgeOfU : Edge)
  : result (Graph * MinHeap) :=
  let '(g, h) := s in
  let v := edge_end edgeOfU in
  xv ← graphGetVertex g v;
  if visited xv then Ok (g, h)
  else
    xu ← graphGetVertex g u;
    let alternateRoute :=
      wrap_int (distanceFromSource xu + edge_distance edgeOfU) in
    if alternateRoute <? distanceFromSource xv then
      g1 ← graphSetVertex g v (vertexSetDistanceFromSource alternateRoute);
      g2 ← graphSetVertex g1 v (vertexSetPrevious (Some u));
      minHeapDecreaseNodeValue g2 h v
    else Ok (g, h).

(** One round of the main loop, dijkstras.c:59-97. *)
Definition dijkstrasRound (g : Graph) (h : MinHeap) : result (Graph * MinHeap) :=
  '(u, (g1, h1)) ← minHeapDequeue g h;
  xu ← graphGetVertex g1 u;
  '(g2, h2) ← forEach (relaxEdge u) (g1, h1) (edges xu);
  g3 ← graphSetVertex g2 u (vertexSetVisited true);
  Ok (g3, h2).

Fixpoint dijkstrasLoop (fuel : nat) (g : Graph) (h : MinHeap)
  : result (Graph * MinHeap) :=
  if minHeapIsEmpty h then Ok (g, h)
  else
    match fuel with
    | O => Timeout
    | S fuel' => '(g', h') ← dijkstrasRound g h; dijkstrasLoop fuel' g' h'
    end.

(** The first [k] rounds of the loop. *)
Fixpoint dijkstrasRounds (k : nat) (g : Graph) (h : MinHeap)
  : result (Graph * MinHeap) :=
  match k with
  | O => Ok (g, h)
  | S k' => '(g', h') ← dijkstrasRound g h; dijkstrasRounds k' g' h'
  end.

(** The vertices that the first [k] rounds of the loop take off the
    heap ([u] of dijkstras.c:67), in the order of the rounds. *)
Fixpoint visitOrder (k : nat) (g : Graph) (h : MinHeap) : result (list nat) :=
  match k with
  | O => Ok []
  | S k' =>
      '(u, _) ← minHeapDequeue g h;
      '(g', h') ← dijkstrasRound g h;
      rest ← visitOrder k' g' h';
      Ok (u :: rest)
  end.

(** [dijkstras], dijkstras.c:39.  Every round takes one node off the heap
    and none is added, so the number of nodes bounds the rounds. *)
Definition dijkstras (g : Graph) (h : MinHeap) (source : nat)
  : result (Graph * MinHeap) :=
  '(g1, h1) ← dijkstrasReset g h source;
  dijkstrasLoop (length h1) g1 h1.

(** ** dijkstras.c: rendering a route *)

Definition nl : string := String (ascii_of_nat 10) EmptyString.

(** [printf]'s [%d]. *)
Definition showInt (z : Z) : string := NilZero.string_of_int (Z.to_int z).

(** The loop at dijkstras.c:165-176: [routeCityNames] holds the route in
    reverse, the destination first.  A chain of predecessors that does not
    repeat a vertex has at most [numberOfCities] members, which bounds the
    rounds of a loop that ends. *)
Fixpoint routeLoop (fuel : nat) (g : Graph) (i : nat) (routeCityNames : list string)
  : result (list string) :=
  x ← graphGetVertex g i;
  match previous x with
  | None => Ok routeCityNames
  | Some p =>
      match fuel with
      | O => Timeout
      | S fuel' =>
          xp ← graphGetVertex g p;
          routeLoop fuel' g (vertexNumber xp) (routeCityNames ++ [cityName xp])
      end
  end.

(** The loop at dijkstras.c:179-183 over the reversed route. *)
Fixpoint printRoute (forward : list string) : string :=
  match forward with
  | [] => EmptyString
  | [name] => (name ++ nl ++ nl)%string
  | name :: rest => (name ++ " ---> " ++ printRoute rest)%string
  end.

(** [dijkstrasWriteToFile], dijkstras.c:145: the text written to the
    output file. *)
Definition dijkstrasWriteToFile (g : Graph)
  (sourceVertexNumber destinationVertexNumber : nat) : result string :=
  src ← graphGetVertex g sourceVertexNumber;
  dst ← graphGetVertex g destinationVertexNumber;
  let sourceName := cityName src in
  let destinationName := cityName dst in
  let distance := distanceFromSource dst in
  routeCityNames ← routeLoop (length g) g destinationVertexNumber [destinationName];
  Ok (sourceName ++ " to " ++ destinationName ++ " is " ++ showInt distance
        ++ "km" ++ nl ++ nl
        ++ "Route:" ++ nl
        ++ printRoute (rev routeCityNames)
        ++ nl ++ nl)%string.

(** One query of [fastestRoute], main.c:146-149, on the graph built from
    the records; the text written for the query, and the state after. *)
Definition answerQuery (g : Graph) (h : MinHeap) (start end_ : string)
  : result (string * (Graph * MinHeap)) :=
  startVertexNumber ← of_option (graphGetVertexNumber g start);
  endVertexNumber ← of_option (graphGetVertexNumber g end_);
  '(g', h') ← dijkstras g h startVertexNumber;
  text ← dijkstrasWriteToFile g' startVertexNumber endVertexNumber;
  Ok (text, (g', h')).


(** ** main.c: the queries *)

(** The loop of [fastestRoute], main.c:141-150, over the pairs of names
    that [fscanf] delivers: the text written to the output file so far,
    and the state that is left, [None] when [graphGetVertexNumber] has
    called [exit(-1)] for a name that no vertex carries.  The comparison
    of the lines read with the lines of the file, main.c:155, is about the
    text of the file and is left out. *)
Fixpoint fastestRoute (g : Graph) (h : MinHeap) (pairs : list (string * string))
  (written : string) : result (string * option (Graph * MinHeap)) :=
  match pairs with
  | [] => Ok (written, Some (g, h))
  | (start, end_) :: rest =>
      match graphGetVertexNumber g start with
      | None => Ok (written, None)
      | Some startVertexNumber =>
          match graphGetVertexNumber g end_ with
          | None => Ok (written, None)
          | Some endVertexNumber =>
              '(g', h') ← dijkstras g h startVertexNumber;
              text ← dijkstrasWriteToFile g' startVertexNumber endVertexNumber;
              fastestRoute g' h' rest (written ++ text)
          end
      end
  end.

(** ** dijkstras.c: the table of results *)

Definition spaces (n : nat) : string := string_of_list_ascii (repeat " "%char n).

(** [printf]'s [%-ws]: the text, then spaces up to the width [w]. *)
Definition padRight (w : nat) (text : string) : string :=
  (text ++ spaces (w - String.length text))%string.

(** [printf]'s [%ws]: spaces up to the width [w], then the text. *)
Definition padLeft (w : nat) (text : string) : string :=
  (spaces (w - String.length text) ++ text)%string.

(** [vertexGetPreviousCityName], graph.c:192: [vertex->previous->cityName],
    which reads through [NULL] when the vertex has no predecessor. *)
Definition vertexGetPreviousCityName (g : Graph) (x : Vertex) : result string :=
  p ← of_option (previous x);
  xp ← graphGetVertex g p;
  Ok (cityName xp).

(** The body of the loop of [dijkstrasPrintResult], dijkstras.c:116-129:
    the line printed for vertex [i]. *)
Definition printResultLine (g : Graph) (i : nat) : result string :=
  vertex ← graphGetVertex g i;
  if distanceFromSource vertex =? 0 then
    Ok (padRight 10 (showInt (Z.of_nat i)) ++ padRight 20 (cityName vertex)
          ++ padRight 10 (showInt (distanceFromSource vertex))
          ++ padLeft 20 "----------" ++ nl)%string
  else
    previousName ← vertexGetPreviousCityName g vertex;
    Ok (padRight 10 (showInt (Z.of_nat i)) ++ padRight 20 (cityName vertex)
          ++ padRight 20 (showInt (distanceFromSource vertex))
          ++ padRight 20 previousName ++ nl)%string.

(** [dijkstrasPrintResult], dijkstras.c:108: the text printed. *)
Definition dijkstrasPrintResult (g : Graph) : result string :=
  let header :=
    (padRight 10 "Vertex" ++ padRight 20 "CityName" ++ padRight 20 "Distance"
       ++ padRight 20 "Previous" ++ nl
       ++ padLeft 41 "From Source" ++ nl ++ nl)%string in
  table ← forEach (fun printed i => line ← printResultLine g i;
                                    Ok (printed ++ line)%string)
            header (seq 0 (length g));
  Ok (table ++ nl)%string.

(** ** main.c: the program *)

(** [graphConstructor], graph.c:364, and [minHeapConstructor],
    minheap.c:97: no vertex, no node. *)
Definition graphConstructor : Graph := [].
Definition minHeapConstructor : MinHeap := [].

(** ** graph.c and main.c: the names that are read *)

(** The size of the buffers [start] and [end], graph.c:498-499 and
    main.c:116-117. *)
Definition STRING_SIZE : nat := 250.

(** [fscanf] with [%[^\t]] into a buffer of [STRING_SIZE] bytes,
    graph.c:527 and main.c:141.  The conversion has no width: a name that
    leaves no room for the terminating byte is written past the end of
    the buffer. *)
Definition scanName (name : string) : result string :=
  if (String.length name <? STRING_SIZE)%nat then Ok name else Fault.

(** [graphPopulateGraph], graph.c:495, from the records of ukcities.txt:
    each round reads the two names of a record into the buffers and goes
    through the body of the reading loop, [graphPopulateGraph] on that one
    record.  [None] is [exit(-1)]. *)
Fixpoint graphPopulateGraphFile (g : Graph) (records : list (string * string * Z))
  : result (option Graph) :=
  match records with
  | [] => Ok (Some g)
  | (start, end_, distance) :: rest =>
      start' ← scanName start;
      end' ← scanName end_;
      match graphPopulateGraph g [(start', end', distance)] with
      | None => Ok None
      | Some g' => graphPopulateGraphFile g' rest
      end
  end.

(** [fastestRoute], main.c:114, from the pairs of citypairs.txt: each
    round reads the two names of a pair into the buffers and goes through
    the body of the loop, [fastestRoute] on that one pair. *)
Fixpoint fastestRouteFile (g : Graph) (h : MinHeap) (pairs : list (string * string))
  (written : string) : result (string * option (Graph * MinHeap)) :=
  match pairs with
  | [] => Ok (written, Some (g, h))
  | (start, end_) :: rest =>
      start' ← scanName start;
      end' ← scanName end_;
      r ← fastestRoute g h [(start', end')] written;
      match r.2 with
      | None => Ok r
      | Some (g', h') => fastestRouteFile g' h' rest r.1
      end
  end.

(** What [main] does between opening and closing its files, main.c:75-86,
    given the records of ukcities.txt and the pairs of citypairs.txt: the
    text written to output.txt, and the state at the end, [None] when the
    program has left through [exit(-1)].  The comparisons of the lines
    read with the lines of the files, graph.c:551 and main.c:155, are
    about the text of the files and are left out. *)
Definition mainProgram (records : list (string * string * Z))
  (pairs : list (string * string)) : result (string * option (Graph * MinHeap)) :=
  r ← graphPopulateGraphFile graphConstructor records;
  match r with
  | None => Ok (EmptyString, None)
  | Some graph => fastestRouteFile graph minHeapConstructor pairs EmptyString
  end.

(** * Invariants of the heap and of a run, and example states *)

(** The parent slot of [c], on [nat]; [parentOf_nat] relates it to the
    code's [(c - 1) / 2] on [int]. *)
Definition par (c : nat) : nat := ((c - 1) / 2)%nat.

(** Two graphs that differ at most in the recorded heap positions. *)
Definition same_but_position (g g' : Graph) : Prop :=
  vertexSetPositionInHeap 0 <$> g = vertexSetPositionInHeap 0 <$> g'.

(** Two graphs with the same recorded heap positions. *)
Definition same_position (g g' : Graph) : Prop :=
  positionInHeap <$> g = positionInHeap <$> g'.

(** What slot [i] of a heap of [len] nodes must record: its own index, the
    child flags that the occupancy of the array dictates, and a vertex
    that records the slot in turn. *)
Definition slot_ok (g : Graph) (len i : nat) (n : Node) : Prop :=
  position n = Z.of_nat i /\
  hasChildLeft n = bool_decide (2 * i + 1 < len)%nat /\
  hasChildRight n = bool_decide (2 * i + 2 < len)%nat /\
  exists x, g !! vertex n = Some x /\ positionInHeap x = Z.of_nat i.

(** Every slot of the heap records what [slot_ok] asks of it. *)
Definition heap_wf (g : Graph) (h : MinHeap) : Prop :=
  forall i n, h !! i = Some n -> slot_ok g (length h) i n.

(** The min-heap order: every entry is at most its children at [2i+1]
    and [2i+2], where they exist. *)
Definition heap_ordered (h : MinHeap) : Prop :=
  forall i c n m, h !! i = Some n -> (c = 2 * i + 1 \/ c = 2 * i + 2)%nat ->
    h !! c = Some m -> value n <= value m.

(** The values of a heap are distances: non-negative [int]s. *)
Definition heap_range (h : MinHeap) : Prop :=
  forall i n, h !! i = Some n -> 0 <= value n <= INT_MAX.

(** Every node carries the current distance of its vertex. *)
Definition heap_mirror (g : Graph) (h : MinHeap) : Prop :=
  forall i n, h !! i = Some n ->
    exists x, g !! vertex n = Some x /\ value n = distanceFromSource x.

(** What a node carries apart from what its slot dictates. *)
Definition payload (n : Node) : Z * nat := (value n, vertex n).

(** Every value and vertex of [h] is found in [h']. *)
Definition payloads_sub (h h' : MinHeap) : Prop :=
  forall i n, h !! i = Some n ->
    exists i' n', h' !! i' = Some n' /\ payload n' = payload n.

(** Vertex [v] has a node in the heap. *)
Definition in_heap (h : MinHeap) (v : nat) : Prop :=
  exists i n, h !! i = Some n /\ vertex n = v.

(** The order read from the child's side. *)
Definition le_parent (h : MinHeap) (c : nat) : Prop :=
  forall n m, h !! c = Some n -> h !! par c = Some m -> value m <= value n.

(** The heap is ordered except that slot [k] may be too small for its
    parent; the parent of [k] is fine for the children of [k]. *)
Definition up_ok (h : MinHeap) (k : nat) : Prop :=
  (forall c, c <> k -> le_parent h c) /\
  (forall c n m, c <> k -> par c = k -> h !! c = Some n -> h !! par k = Some m ->
     value m <= value n).

(** The heap is ordered except that slot [k] may be too large for its
    children; the parent of [k] is fine for the children of [k]. *)
Definition down_ok (h : MinHeap) (k : nat) : Prop :=
  (forall c, par c <> k -> le_parent h c) /\
  (forall c n m, (0 < k)%nat -> c <> k -> par c = k ->
     h !! c = Some n -> h !! par k = Some m -> value m <= value n).

(** The outcome of a round that swaps with the child at [m]. *)
Definition sift_moved (g : Graph) (h : MinHeap) (k m : nat)
  (g' : Graph) (h' : MinHeap) : Prop :=
  (k < m)%nat /\ (m < length h)%nat /\
  heap_wf g' h' /\ same_but_position g g' /\ length h' = length h /\
  payloads_sub h h' /\ payloads_sub h' h.

(** [slot_ok] as a test. *)
Definition slot_ok_b (g : Graph) (len i : nat) (n : Node) : bool :=
  (position n =? Z.of_nat i) &&
  Bool.eqb (hasChildLeft n) (bool_decide (2 * i + 1 < len)%nat) &&
  Bool.eqb (hasChildRight n) (bool_decide (2 * i + 2 < len)%nat) &&
  match g !! vertex n with
  | Some x => positionInHeap x =? Z.of_nat i
  | None => false
  end.

(** [heap_wf] as a test. *)
Definition heap_wf_b (g : Graph) (h : MinHeap) : bool :=
  forallb (fun i => match h !! i with
                    | Some n => slot_ok_b g (length h) i n
                    | None => true
                    end) (seq 0 (length h)).

(** [heap_ordered] as a test, read from the child's side. *)
Definition heap_ordered_b (h : MinHeap) : bool :=
  forallb (fun c => match h !! c, h !! par c with
                    | Some n, Some m => value m <=? value n
                    | _, _ => true
                    end) (seq 0 (length h)).

(** [heap_range] as a test. *)
Definition heap_range_b (h : MinHeap) : bool :=
  forallb (fun n => (0 <=? value n) && (value n <=? INT_MAX)) h.

(** The fields of vertex [v], with a default outside the graph. *)
Definition distOf (g : Graph) (v : nat) : Z :=
  match g !! v with Some x => distanceFromSource x | None => 0 end.

Definition prevOf (g : Graph) (v : nat) : option nat :=
  match g !! v with Some x => previous x | None => None end.

Definition visitedOf (g : Graph) (v : nat) : bool :=
  match g !! v with Some x => visited x | None => false end.

Definition edgesOf (g : Graph) (v : nat) : list Edge :=
  match g !! v with Some x => edges x | None => [] end.

Definition nameOf (g : Graph) (v : nat) : string :=
  match g !! v with Some x => cityName x | None => EmptyString end.

(** What a run never changes: number, name and edges of every vertex. *)
Definition static (x : Vertex) : nat * string * list Edge :=
  (vertexNumber x, cityName x, edges x).

(** Two graphs with the same vertices, names and edges. *)
Definition same_static (g g' : Graph) : Prop := static <$> g = static <$> g'.

(** What the heap operations never change. *)
Definition same_fields (g g' : Graph) : Prop :=
  length g' = length g /\
  forall v, distOf g' v = distOf g v /\ prevOf g' v = prevOf g v /\
            visitedOf g' v = visitedOf g v /\ edgesOf g' v = edgesOf g v /\
            nameOf g' v = nameOf g v.

(** A graph as [graphPopulateGraph] builds it: every vertex knows its own
    index, every edge starts at the vertex that holds it, ends at a vertex
    of the graph and has a positive [int] as its distance. *)
Definition graph_wf (g : Graph) : Prop :=
  forall v x, g !! v = Some x ->
    vertexNumber x = v /\
    forall e, e ∈ edges x ->
      edge_start e = v /\ (edge_end e < length g)%nat /\
      1 <= edge_distance e <= INT_MAX.

(** The state after the loop at dijkstras.c:46 has run for the vertices
    below [i]. *)
Definition reset_inv (g0 : Graph) (s i : nat) (st : Graph * MinHeap) : Prop :=
  same_static g0 st.1 /\
  heap_wf st.1 st.2 /\ heap_ordered st.2 /\ heap_mirror st.1 st.2 /\
  length st.2 = i /\ (forall v, in_heap st.2 v <-> (v < i)%nat) /\
  distOf st.1 s = 0 /\
  forall v, (v < i)%nat ->
    distOf st.1 v = (if decide (v = s) then 0 else INT_MAX) /\
    prevOf st.1 v = None /\ visitedOf st.1 v = false.

(** No edge joins a vertex to itself. *)
Definition no_self_loops (g : Graph) : Prop :=
  forall v e, e ∈ edgesOf g v -> edge_end e <> v.

(** Every vertex that is not visited yet is in the heap. *)
Definition struct_inv (g0 g : Graph) (h : MinHeap) : Prop :=
  same_static g0 g /\ heap_wf g h /\
  forall v, (v < length g0)%nat -> visitedOf g v = false -> in_heap h v.

(** What the predecessor of [v] records, [ok p] saying which vertices may
    be predecessors. *)
Definition prev_ok (g0 : Graph) (s : nat) (ok : nat -> Prop) (g : Graph) (v : nat)
  : Prop :=
  match prevOf g v with
  | None => v = s \/ distOf g v = INT_MAX
  | Some p =>
      (p < length g0)%nat /\ ok p /\ v <> s /\ distOf g v < INT_MAX /\
      exists e, e ∈ edgesOf g0 p /\ edge_end e = v /\
                distOf g v = distOf g p + edge_distance e
  end.

(** The part of the invariant that the vertex in hand does not touch. *)
Record common_inv (g0 : Graph) (s : nat) (W : Z) (g : Graph) (h : MinHeap)
  : Prop := CommonInv {
  ci_static : same_static g0 g;
  ci_wf : heap_wf g h;
  ci_ord : heap_ordered h;
  ci_mir : heap_mirror g h;
  ci_range : forall v, 0 <= distOf g v <= INT_MAX;
  ci_bound : forall v, distOf g v < INT_MAX ->
               distOf g v <= (Z.of_nat (length g0) - Z.of_nat (length h)) * W;
  ci_src : distOf g s = 0 /\ prevOf g s = None;
  ci_fin : forall v, visitedOf g v = true -> distOf g v < INT_MAX;
  ci_front : forall v e, visitedOf g v = true -> e ∈ edgesOf g0 v ->
               distOf g (edge_end e) < INT_MAX
}.

(** Between two rounds, as long as every vertex taken off so far had
    been reached. *)
Record phase1 (g0 : Graph) (s : nat) (W : Z) (g : Graph) (h : MinHeap)
  : Prop := Phase1 {
  p1_common : common_inv g0 s W g h;
  p1_vis : forall v, (v < length g0)%nat -> visitedOf g v = false <-> in_heap h v;
  p1_prev : forall v, (v < length g0)%nat ->
              prev_ok g0 s (fun p => visitedOf g p = true) g v
}.

(** Inside a round, [u] being the vertex taken off, with distance [du]. *)
Record relaxing (g0 : Graph) (s : nat) (W : Z) (u : nat) (du : Z)
  (g : Graph) (h : MinHeap) : Prop := Relaxing {
  rx_common : common_inv g0 s W g h;
  rx_u : (u < length g0)%nat /\ ~ in_heap h u /\ distOf g u = du;
  rx_vis : forall v, (v < length g0)%nat ->
             visitedOf g v = false <-> (v = u \/ in_heap h v);
  rx_prev : forall v, (v < length g0)%nat ->
              prev_ok g0 s (fun p => visitedOf g p = true \/ p = u) g v
}.

(** The vertices that a finished run has settled: the source is one of
    them, they are closed under the edges of the graph, and each of them
    other than the source has a settled predecessor, an edge from which
    accounts for its distance. *)
Definition settled (g0 : Graph) (s : nat) (g : Graph) (V : nat -> Prop) : Prop :=
  V s /\
  (forall v e, V v -> e ∈ edgesOf g0 v -> V (edge_end e)) /\
  forall v, V v ->
    (v < length g0)%nat /\ 0 <= distOf g v < INT_MAX /\
    match prevOf g v with
    | None => v = s /\ distOf g v = 0
    | Some p =>
        V p /\ exists e, e ∈ edgesOf g0 p /\ edge_end e = v /\
                         distOf g v = distOf g p + edge_distance e
    end.

(** From [g] to [g'] the visited vertices stay visited and keep their
    distance and predecessor. *)
Definition visited_kept (g g' : Graph) : Prop :=
  same_static g g' /\
  forall w, visitedOf g w = true ->
    visitedOf g' w = true /\ distOf g' w = distOf g w /\ prevOf g' w = prevOf g w.

(** [d] can be reached from [s] along edges of the graph. *)
Inductive reachable (g : Graph) (s : nat) : nat -> Prop :=
| reach_source : reachable g s s
| reach_edge v e :
    reachable g s v -> e ∈ edgesOf g v -> reachable g s (edge_end e).

(** [chain g s v path d]: [path] lists vertices from [s] to [v], each
    joined to the next by an edge of [g]; [d] is the sum of the distances
    of these edges. *)
Inductive chain (g : Graph) (s : nat) : nat -> list nat -> Z -> Prop :=
| chain_source : chain g s s [s] 0
| chain_edge p e path d :
    chain g s p path d -> e ∈ edgesOf g p ->
    chain g s (edge_end e) (path ++ [edge_end e]) (d + edge_distance e).

(** The largest distance of an edge of the graph (0 without edges). *)
Definition max_weight (g : Graph) : Z :=
  foldr Z.max 0 (edge_distance <$> concat (edges <$> g)).

(** The vertices of [V] lead back to the source: each of them holds a
    distance below the sentinel, and has no predecessor when it is the
    source, at distance 0, or a predecessor in [V], an edge from which
    accounts for its distance. *)
Definition rooted (g0 : Graph) (s : nat) (g : Graph) (V : nat -> Prop) : Prop :=
  forall v, V v ->
    (v < length g0)%nat /\ 0 <= distOf g v < INT_MAX /\
    match prevOf g v with
    | None => v = s /\ distOf g v = 0
    | Some p =>
        V p /\ exists e, e ∈ edgesOf g0 p /\ edge_end e = v /\
                         distOf g v = distOf g p + edge_distance e
    end.

(** No distance exceeds the sentinel, and a vertex at the sentinel has no
    predecessor. *)
Definition sentinel_inv (g : Graph) : Prop :=
  forall v, distOf g v <= INT_MAX /\ (distOf g v = INT_MAX -> prevOf g v = None).

(** The city names that the records mention, in the order of reading. *)
Definition record_names (records : list (string * string * Z)) : list string :=
  flat_map (fun r => [r.1.1; r.1.2]) records.

(** Every edge has its mirror image at the other end. *)
Definition undirected (g : Graph) : Prop :=
  forall v e, e ∈ edgesOf g v ->
    mkEdge (edge_end e) v (edge_distance e) ∈ edgesOf g (edge_end e).

(** [g'] has the vertices of [g] under the same numbers and names, and
    their edges. *)
Definition extends (g g' : Graph) : Prop :=
  (length g <= length g')%nat /\
  (forall v, (v < length g)%nat -> nameOf g' v = nameOf g v) /\
  (forall v e, e ∈ edgesOf g v -> e ∈ edgesOf g' v).

(** Two graphs of the same length whose vertices are related one by one. *)
Definition rel_graph (R : nat -> Vertex -> Vertex -> Prop) (g g2 : Graph) : Prop :=
  length g = length g2 /\
  forall v x y, g !! v = Some x -> g2 !! v = Some y -> R v x y.

(** A relation that a write of [positionInHeap] on both sides keeps. *)
Definition position_blind (R : nat -> Vertex -> Vertex -> Prop) : Prop :=
  forall v x y p, R v x y ->
    R v (vertexSetPositionInHeap p x) (vertexSetPositionInHeap p y).

(** During the reset loop of two runs from [s], before vertex [i]: the
    vertices below [i] are the same on both sides, the others have the
    same number, name and edges, and the source has the same distance. *)
Definition reset_rel (s i : nat) (v : nat) (x y : Vertex) : Prop :=
  ((v < i)%nat -> x = y) /\ static x = static y /\
  (v = s -> distanceFromSource x = distanceFromSource y).

(** The graph that [graphPopulateGraph] builds from the records, the
    empty graph when it exits. *)
Definition built (records : list (string * string * Z)) : Graph :=
  default [] (graphPopulateGraph [] records).

(** Two connected pairs of cities. *)
Definition two_islands : Graph := built [("A", "B", 1); ("C", "D", 1)]%string.

(** The example of the specification: A-B(4), B-C(5), A-C(10). *)
Definition triangle : Graph :=
  built [("A", "B", 4); ("B", "C", 5); ("A", "C", 10)]%string.


(** The run from A on [two_islands]. *)
Definition two_islands_after : Graph :=
  [ mkVertex 0 "A" [mkEdge 0 1 1] None 0 0 true;
    mkVertex 1 "B" [mkEdge 1 0 1] (Some 0%nat) 1 0 true;
    mkVertex 2 "C" [mkEdge 2 3 1] None INT_MAX 0 true;
    mkVertex 3 "D" [mkEdge 3 2 1] (Some 2%nat) INT_MIN 0 true ].

(** Three groups of cities. *)
Definition three_islands : Graph :=
  built [("A", "B", 1); ("B", "C", 1); ("B", "D", 1); ("E", "F", 1);
         ("G", "H", 1)]%string.

(** The state of the run from E on [three_islands] after four rounds: E
    and F are done, C has been taken off at the sentinel and has left
    [INT_MAX + 1], wrapped, with B, and B has left one more with A and D. *)
Definition reached_graph : Graph :=
  [ mkVertex 0 "A" [mkEdge 0 1 1] (Some 1%nat) (- INT_MAX) 0 false;
    mkVertex 1 "B" [mkEdge 1 0 1; mkEdge 1 2 1; mkEdge 1 3 1] (Some 2%nat)
      INT_MIN 0 true;
    mkVertex 2 "C" [mkEdge 2 1 1] None INT_MAX 0 true;
    mkVertex 3 "D" [mkEdge 3 1 1] (Some 1%nat) (- INT_MAX) 1 false;
    mkVertex 4 "E" [mkEdge 4 5 1] None 0 0 true;
    mkVertex 5 "F" [mkEdge 5 4 1] (Some 4%nat) 1 0 true;
    mkVertex 6 "G" [mkEdge 6 7 1] None INT_MAX 3 false;
    mkVertex 7 "H" [mkEdge 7 6 1] None INT_MAX 2 false ].

(** The heap of that state: A and D below zero, H and G at the sentinel. *)
Definition reached_heap : MinHeap :=
  [ mkNode (- INT_MAX) 0 true true 0;
    mkNode (- INT_MAX) 1 true false 3;
    mkNode INT_MAX 2 false false 7;
    mkNode INT_MAX 3 false false 6 ].

(** What [minHeapDequeue] hands to [minHeapSiftDown] when it is called
    on [reached_heap]: the last node, that of G, has moved to slot 0. *)
Definition sifting_graph : Graph :=
  [ mkVertex 0 "A" [mkEdge 0 1 1] (Some 1%nat) (- INT_MAX) 0 false;
    mkVertex 1 "B" [mkEdge 1 0 1; mkEdge 1 2 1; mkEdge 1 3 1] (Some 2%nat)
      INT_MIN 0 true;
    mkVertex 2 "C" [mkEdge 2 1 1] None INT_MAX 0 true;
    mkVertex 3 "D" [mkEdge 3 1 1] (Some 1%nat) (- INT_MAX) 1 false;
    mkVertex 4 "E" [mkEdge 4 5 1] None 0 0 true;
    mkVertex 5 "F" [mkEdge 5 4 1] (Some 4%nat) 1 0 true;
    mkVertex 6 "G" [mkEdge 6 7 1] None INT_MAX 0 false;
    mkVertex 7 "H" [mkEdge 7 6 1] None INT_MAX 2 false ].

(** The heap at that point, [INT_MAX] over [- INT_MAX] and [INT_MAX]. *)
Definition sifting_heap : MinHeap :=
  [ mkNode INT_MAX 0 true true 6;
    mkNode (- INT_MAX) 1 false false 3;
    mkNode INT_MAX 2 false false 7 ].

(** A heap of three distances over four vertices; the distance of [B]
    has just dropped to 0, and [D] is not in the heap. *)
Definition small_graph : Graph :=
  [ mkVertex 0 "A" [] None 1 0 false;
    mkVertex 1 "B" [] None 0 1 false;
    mkVertex 2 "C" [] None 2 2 false;
    mkVertex 3 "D" [] None 3 (-1) false ].

(** The heap over [small_graph]; the node of [B] still holds 4. *)
Definition small_heap : MinHeap :=
  [ mkNode 1 0 true true 0;
    mkNode 4 1 false false 1;
    mkNode 2 2 false false 2 ].

(** The entry for [C] ties with the root. *)
Definition tie_up_heap : MinHeap :=
  [mkNode 2 0 true true 0; mkNode 4 1 false false 1; mkNode 2 2 false false 2].

(** The two children of the root tie. *)
Definition tie_down_heap : MinHeap :=
  [mkNode 5 0 true true 0; mkNode 2 1 false false 1; mkNode 2 2 false false 2].

(** What the visited vertices have in common as long as every vertex
    taken off the heap had been reached: their edges have been relaxed,
    and no vertex that is still to come is nearer than they are. *)
Record front_inv (g0 g : Graph) : Prop := FrontInv {
  fi_relaxed : forall v e, visitedOf g v = true -> e ∈ edgesOf g0 v ->
                 distOf g (edge_end e) <= distOf g v + edge_distance e;
  fi_ahead : forall v w, visitedOf g v = true -> (w < length g0)%nat ->
               visitedOf g w = false -> distOf g v <= distOf g w
}.

(** Between two rounds: the heap holds the vertices that are not visited
    yet, [k] vertices are visited, [rank] numbers them in the order of
    their visits, and a predecessor is a visited vertex, visited before
    the vertex that names it. *)
Definition order_inv (g0 g : Graph) (h : MinHeap) (rank : nat -> nat) (k : nat)
  : Prop :=
  same_static g0 g /\ heap_wf g h /\
  (k + length h = length g0)%nat /\
  (forall v, (v < length g0)%nat -> visitedOf g v = false <-> in_heap h v) /\
  (forall v, visitedOf g v = true -> (rank v < k)%nat) /\
  forall v p, prevOf g v = Some p ->
    (p < length g0)%nat /\ visitedOf g p = true /\
    (visitedOf g v = true -> (rank p < rank v)%nat).

(** What the vertices outside [V] hold after [k] visits: the sentinel, or
    what is left of the sentinel and at most [k] edges once the sum has
    wrapped around. *)
Definition unreached_inv (g0 : Graph) (W : Z) (V : nat -> Prop) (k : nat) (g : Graph)
  : Prop :=
  forall w, (w < length g0)%nat -> ~ V w ->
    distOf g w = INT_MAX \/
    INT_MIN <= distOf g w <= INT_MIN - 1 + Z.of_nat k * W.

(** Between two rounds: the heap holds the vertices that are not visited
    yet. *)
Definition heap_holds (g0 g : Graph) (h : MinHeap) : Prop :=
  same_static g0 g /\ heap_wf g h /\
  forall v, (v < length g0)%nat -> visitedOf g v = false <-> in_heap h v.

(** [len] is the length of a shortest route from [s] to [v]. *)
Definition shortest (g : Graph) (s v : nat) (len : Z) : Prop :=
  (exists path, chain g s v path len) /\
  forall path' len', chain g s v path' len' -> len <= len'.

(** A condition on the graph under which the sums before [d] fit: [ld],
    the length of a shortest route from [s] to [d], is below [INT_MAX]; and
    the length of a shortest route to a vertex [u] that is not farther
    than [d], plus the distance of an edge from [u] to a vertex that is
    not nearer than [u], does not exceed [INT_MAX].  Of the edges of [d]
    itself only those that lead back to [d] count: the others are relaxed
    when [d] is settled already. *)
Definition route_fits (g : Graph) (s d : nat) (ld : Z) : Prop :=
  shortest g s d ld /\ ld < INT_MAX /\
  forall u e lu, shortest g s u lu -> lu <= ld -> e ∈ edgesOf g u ->
    (u = d -> edge_end e = d) ->
    (forall path len, chain g s (edge_end e) path len -> lu <= len) ->
    lu + edge_distance e <= INT_MAX.

(** From the state [(g, h)] on, the sums that the rounds form before
    [d] is taken off the heap fit an [int]: [alternateRoute], the distance
    of the vertex at the top of the heap plus the distance of one of its
    edges whose end is not visited.  Of the edges of [d] itself only those
    that lead back to [d] count. *)
Definition sums_fit_from (g0 : Graph) (d : nat) (g : Graph) (h : MinHeap) : Prop :=
  forall k gk hk top e,
    dijkstrasRounds k g h = Ok (gk, hk) -> visitedOf gk d = false ->
    hk !! 0%nat = Some top -> e ∈ edgesOf g0 (vertex top) ->
    visitedOf gk (edge_end e) = false ->
    (vertex top = d -> edge_end e = d) ->
    distOf gk (vertex top) + edge_distance e <= INT_MAX.

(** The same of the run from [s], counted from the end of the reset
    phase. *)
Definition sums_fit_before (g : Graph) (s d : nat) : Prop :=
  forall g1 h1, dijkstrasReset g [] s = Ok (g1, h1) -> sums_fit_from g d g1 h1.

(** Every sum that relaxation forms in the run from [s] stays below the
    sentinel: whatever the round, the distance of the vertex at the top of
    the heap plus the distance of one of its edges whose end is not
    visited is below [INT_MAX]. *)
Definition sums_below (g : Graph) (s : nat) : Prop :=
  forall g1 h1 k gk hk top e,
    dijkstrasReset g [] s = Ok (g1, h1) ->
    dijkstrasRounds k g1 h1 = Ok (gk, hk) ->
    hk !! 0%nat = Some top -> e ∈ edgesOf g (vertex top) ->
    visitedOf gk (edge_end e) = false ->
    distOf gk (vertex top) + edge_distance e < INT_MAX.

(** What holds of the distances between two rounds and inside a round,
    as long as every vertex taken off the heap had been reached. *)
Record steady_inv (g0 : Graph) (s : nat) (g : Graph) (h : MinHeap)
  : Prop := SteadyInv {
  sc_static : same_static g0 g;
  sc_wf : heap_wf g h;
  sc_ord : heap_ordered h;
  sc_mir : heap_mirror g h;
  sc_range : forall v, 0 <= distOf g v <= INT_MAX;
  sc_src : distOf g s = 0 /\ prevOf g s = None;
  sc_fin : forall v, visitedOf g v = true -> distOf g v < INT_MAX;
  sc_chain : forall v, (v < length g0)%nat -> distOf g v < INT_MAX ->
               exists path, chain g0 s v path (distOf g v)
}.

(** Between two rounds. *)
Record steady (g0 : Graph) (s : nat) (g : Graph) (h : MinHeap) : Prop := Steady {
  sd_common : steady_inv g0 s g h;
  sd_vis : forall v, (v < length g0)%nat -> visitedOf g v = false <-> in_heap h v;
  sd_prev : forall v, (v < length g0)%nat ->
              prev_ok g0 s (fun p => visitedOf g p = true) g v
}.

(** Inside a round, [u] being the vertex taken off, with distance [du]. *)
Record steady_at (g0 : Graph) (s : nat) (u : nat) (du : Z)
  (g : Graph) (h : MinHeap) : Prop := SteadyAt {
  sa_common : steady_inv g0 s g h;
  sa_u : (u < length g0)%nat /\ ~ in_heap h u /\ distOf g u = du;
  sa_vis : forall v, (v < length g0)%nat ->
             visitedOf g v = false <-> (v = u \/ in_heap h v);
  sa_prev : forall v, (v < length g0)%nat ->
              prev_ok g0 s (fun p => visitedOf g p = true \/ p = u) g v
}.

(** A-B, B-C and C-D, of 1000000000 each: the way from A to C fits an
    [int], the way from A to D does not, and the run from A leaves a
    wrapped sum with D. *)
Definition far_towns : Graph :=
  built [("A", "B", 1000000000); ("B", "C", 1000000000);
         ("C", "D", 1000000000)]%string.

(** A town with a road that leaves it and comes back. *)
Definition loop_town : Graph := built [("A", "B", 1); ("B", "B", 2)]%string.

(** * Verification *)

(** ** The result monad *)

Lemma bind_Ok {A B} (f : A -> result B) (a : A) : (Ok a ≫= f) = f a.
Proof. reflexivity. Qed.

Lemma bind_Ok_inv {A B} (f : A -> result B) (m : result A) (b : B) :
  (m ≫= f) = Ok b -> exists a, m = Ok a /\ f a = Ok b.
Proof. destruct m; simpl; intros H; try discriminate. eauto. Qed.

Lemma of_option_Ok {A} (o : option A) (a : A) : of_option o = Ok a <-> o = Some a.
Proof. destruct o; simpl; split; congruence. Qed.

(** Run the binds whose first computation is a result already. *)
Ltac step := cbn [mbind result_bind mret result_ret of_option andb orb].

(** Take a hypothesis [(m ≫= f) = Ok b] apart. *)
Tactic Notation "inv_bind" hyp(H) "as" ident(a) ident(Ha) :=
  apply bind_Ok_inv in H; destruct H as (a & Ha & H).

Tactic Notation "inv_bind" hyp(H) :=
  let a := fresh "r" in
  let Ha := fresh "Hr" in
  inv_bind H as a Ha.

(** ** Machine integers *)

Lemma wrap_int_id (z : Z) : in_int z -> wrap_int z = z.
Proof.
  unfold in_int, wrap_int, INT_MIN, INT_MAX. intros H.
  rewrite Z.mod_small by lia. lia.
Qed.

Lemma wrap_int_range (z : Z) : in_int (wrap_int z).
Proof.
  unfold in_int, wrap_int, INT_MIN, INT_MAX.
  pose proof (Z.mod_pos_bound (z + 2147483648) 4294967296 ltac:(lia)). lia.
Qed.

Lemma parentOf_nat (c : nat) : parentOf (Z.of_nat c) = Z.of_nat (par c).
Proof.
  unfold parentOf, par. destruct c as [|c].
  - reflexivity.
  - replace (Z.of_nat (S c) - 1) with (Z.of_nat c) by lia.
    replace (S c - 1)%nat with c by lia.
    rewrite Z.quot_div_nonneg by lia.
    rewrite Nat2Z.inj_div. reflexivity.
Qed.

Lemma par_lt (c : nat) : (0 < c)%nat -> (par c < c)%nat.
Proof.
  unfold par. intros H.
  assert ((c - 1) / 2 <= c - 1)%nat by (apply Nat.Div0.div_le_upper_bound; lia).
  lia.
Qed.

Lemma par_spec (c i : nat) :
  (0 < c)%nat -> par c = i <-> (c = 2 * i + 1 \/ c = 2 * i + 2)%nat.
Proof.
  unfold par. intros H.
  pose proof (Nat.div_mod_eq (c - 1) 2) as E.
  pose proof (Nat.mod_upper_bound (c - 1) 2 ltac:(lia)) as U.
  lia.
Qed.

Lemma par_0 : par 0 = 0%nat.
Proof. reflexivity. Qed.

(** ** Reading and writing vertices *)

Lemma graphGetVertex_Ok (g : Graph) (v : nat) (x : Vertex) :
  graphGetVertex g v = Ok x <-> g !! v = Some x.
Proof. apply of_option_Ok. Qed.

Lemma graphSetVertex_Some (g : Graph) (v : nat) (f : Vertex -> Vertex) (x : Vertex) :
  g !! v = Some x -> graphSetVertex g v f = Ok (<[v := f x]> g).
Proof. intros H. unfold graphSetVertex, graphGetVertex. rewrite H. reflexivity. Qed.

Lemma graphSetVertex_inv (g g' : Graph) (v : nat) (f : Vertex -> Vertex) :
  graphSetVertex g v f = Ok g' ->
  exists x, g !! v = Some x /\ g' = <[v := f x]> g.
Proof.
  unfold graphSetVertex. intros H. inv_bind H.
  apply graphGetVertex_Ok in Hr. inversion H. eauto.
Qed.

Lemma heapAt_nat (h : MinHeap) (i : nat) : heapAt h (Z.of_nat i) = of_option (h !! i).
Proof.
  unfold heapAt. rewrite Nat2Z.id.
  destruct (Z.leb_spec 0 (Z.of_nat i)); [reflexivity | lia].
Qed.

Lemma heapAt_Some (h : MinHeap) (i : nat) (n : Node) :
  h !! i = Some n -> heapAt h (Z.of_nat i) = Ok n.
Proof. intros H. rewrite heapAt_nat, H. reflexivity. Qed.

Lemma heapAt_inv (h : MinHeap) (z : Z) (n : Node) :
  heapAt h z = Ok n -> exists i, z = Z.of_nat i /\ h !! i = Some n.
Proof.
  unfold heapAt. destruct (Z.leb_spec 0 z); [|discriminate].
  intros E%of_option_Ok. exists (Z.to_nat z). split; [lia | assumption].
Qed.

Lemma heapUpdate_Some (h : MinHeap) (i : nat) (f : Node -> Node) (n : Node) :
  h !! i = Some n -> heapUpdate h (Z.of_nat i) f = Ok (<[i := f n]> h).
Proof.
  intros H. unfold heapUpdate. rewrite (heapAt_Some _ _ _ H). simpl.
  rewrite Nat2Z.id. reflexivity.
Qed.

(** ** What the heap operations leave alone in the graph *)

Lemma same_but_position_refl (g : Graph) : same_but_position g g.
Proof. reflexivity. Qed.

Lemma same_but_position_trans (g1 g2 g3 : Graph) :
  same_but_position g1 g2 -> same_but_position g2 g3 -> same_but_position g1 g3.
Proof. unfold same_but_position. congruence. Qed.

Lemma same_but_position_length (g g' : Graph) :
  same_but_position g g' -> length g' = length g.
Proof.
  unfold same_but_position. intros H.
  apply (f_equal length) in H. rewrite !length_fmap in H. congruence.
Qed.

Lemma same_but_position_lookup (g g' : Graph) (v : nat) (x : Vertex) :
  same_but_position g g' -> g !! v = Some x ->
  exists x', g' !! v = Some x' /\
    vertexNumber x' = vertexNumber x /\ cityName x' = cityName x /\
    edges x' = edges x /\ previous x' = previous x /\
    distanceFromSource x' = distanceFromSource x /\ visited x' = visited x.
Proof.
  unfold same_but_position. intros H Hx.
  assert ((vertexSetPositionInHeap 0 <$> g') !! v
          = Some (vertexSetPositionInHeap 0 x)) as E.
  { rewrite <- H, list_lookup_fmap, Hx. reflexivity. }
  rewrite list_lookup_fmap in E.
  destruct (g' !! v) as [x'|]; [|discriminate].
  exists x'. split; [reflexivity|].
  inversion E. destruct x, x'; simpl in *. repeat split; congruence.
Qed.

Lemma same_but_position_sym (g g' : Graph) :
  same_but_position g g' -> same_but_position g' g.
Proof. unfold same_but_position. congruence. Qed.

Lemma same_but_position_set (g : Graph) (v : nat) (x : Vertex) (p : Z) :
  g !! v = Some x ->
  same_but_position g (<[v := vertexSetPositionInHeap p x]> g).
Proof.
  intros H. unfold same_but_position.
  rewrite list_fmap_insert. symmetry. apply list_insert_id.
  rewrite list_lookup_fmap, H. reflexivity.
Qed.

(** ** The shape of a heap *)

Lemma payloads_sub_refl (h : MinHeap) : payloads_sub h h.
Proof. intros i n H. eauto. Qed.

Lemma payloads_sub_trans (h1 h2 h3 : MinHeap) :
  payloads_sub h1 h2 -> payloads_sub h2 h3 -> payloads_sub h1 h3.
Proof.
  intros H12 H23 i n H.
  destruct (H12 _ _ H) as (i2 & n2 & H2 & E2).
  destruct (H23 _ _ H2) as (i3 & n3 & H3 & E3).
  exists i3, n3. split; [assumption | congruence].
Qed.

Lemma payloads_sub_in_heap (h h' : MinHeap) (v : nat) :
  payloads_sub h h' -> in_heap h v -> in_heap h' v.
Proof.
  intros Hs (i & n & H & E).
  destruct (Hs _ _ H) as (i' & n' & H' & E').
  exists i', n'. split; [assumption|].
  unfold payload in E'. congruence.
Qed.

Lemma heap_wf_vertex_inj (g : Graph) (h : MinHeap) (i j : nat) (a b : Node) :
  heap_wf g h -> h !! i = Some a -> h !! j = Some b -> vertex a = vertex b -> i = j.
Proof.
  intros Hwf Ha Hb E.
  destruct (Hwf _ _ Ha) as (_ & _ & _ & xa & Hxa & Pa).
  destruct (Hwf _ _ Hb) as (_ & _ & _ & xb & Hxb & Pb).
  rewrite E in Hxa. rewrite Hxa in Hxb. inversion Hxb; subst. lia.
Qed.

Lemma heap_wf_same_position (g g' : Graph) (h : MinHeap) :
  same_position g g' -> heap_wf g h -> heap_wf g' h.
Proof.
  unfold same_position. intros E Hwf i n Hn.
  destruct (Hwf _ _ Hn) as (Hp & Hl & Hr & x & Hx & Px).
  repeat split; try assumption.
  assert ((positionInHeap <$> g') !! vertex n = Some (positionInHeap x)) as F.
  { rewrite <- E, list_lookup_fmap, Hx. reflexivity. }
  rewrite list_lookup_fmap in F.
  destruct (g' !! vertex n) as [x'|]; [|discriminate].
  exists x'. split; [reflexivity|]. inversion F. congruence.
Qed.

(** ** [swapNode] *)

Lemma swapNode_spec (g : Graph) (h : MinHeap) (i j : nat) (a b : Node) :
  heap_wf g h -> h !! i = Some a -> h !! j = Some b -> i <> j ->
  exists g' h',
    swapNode g h (Z.of_nat i) (Z.of_nat j) = Ok (g', h') /\
    heap_wf g' h' /\ same_but_position g g' /\ length h' = length h /\
    h' !! i = Some (mkNode (value b) (Z.of_nat i)
                      (hasChildLeft a) (hasChildRight a) (vertex b)) /\
    h' !! j = Some (mkNode (value a) (Z.of_nat j)
                      (hasChildLeft b) (hasChildRight b) (vertex a)) /\
    (forall k, k <> i -> k <> j -> h' !! k = h !! k).
Proof.
  intros Hwf Ha Hb Hij.
  destruct (Hwf _ _ Ha) as (Pa & La & Ra & xa & Hxa & Pxa).
  destruct (Hwf _ _ Hb) as (Pb & Lb & Rb & xb & Hxb & Pxb).
  assert (vertex a <> vertex b) as Hv.
  { intros E. apply Hij. eapply heap_wf_vertex_inj; eauto. }
  pose proof (lookup_lt_Some _ _ _ Ha) as Hi.
  pose proof (lookup_lt_Some _ _ _ Hb) as Hj.
  unfold swapNode.
  rewrite (heapAt_Some _ _ _ Ha), (heapAt_Some _ _ _ Hb). simpl.
  rewrite (graphSetVertex_Some _ _ _ _ Hxa). simpl.
  assert (<[vertex a := vertexSetPositionInHeap (Z.of_nat j) xa]> g !! vertex b
          = Some xb) as Hxb'.
  { rewrite list_lookup_insert_ne by assumption. assumption. }
  rewrite (graphSetVertex_Some _ _ _ _ Hxb'). simpl.
  rewrite !Nat2Z.id.
  eexists _, _. split; [reflexivity|].
  assert (forall k, k <> i -> k <> j ->
    <[j := mkNode (value a) (Z.of_nat j) (hasChildLeft b) (hasChildRight b) (vertex a)]>
      (<[i := mkNode (value b) (Z.of_nat i) (hasChildLeft a) (hasChildRight a) (vertex b)]> h)
      !! k = h !! k) as Hother.
  { intros k Hki Hkj. rewrite !list_lookup_insert_ne by congruence. reflexivity. }
  assert (<[j := mkNode (value a) (Z.of_nat j) (hasChildLeft b) (hasChildRight b) (vertex a)]>
      (<[i := mkNode (value b) (Z.of_nat i) (hasChildLeft a) (hasChildRight a) (vertex b)]> h)
      !! i = Some (mkNode (value b) (Z.of_nat i) (hasChildLeft a) (hasChildRight a) (vertex b)))
    as Hati.
  { rewrite list_lookup_insert_ne by congruence.
    apply list_lookup_insert_eq. assumption. }
  assert (<[j := mkNode (value a) (Z.of_nat j) (hasChildLeft b) (hasChildRight b) (vertex a)]>
      (<[i := mkNode (value b) (Z.of_nat i) (hasChildLeft a) (hasChildRight a) (vertex b)]> h)
      !! j = Some (mkNode (value a) (Z.of_nat j) (hasChildLeft b) (hasChildRight b) (vertex a)))
    as Hatj.
  { apply list_lookup_insert_eq. rewrite length_insert. assumption. }
  split; [|split; [|split; [|split; [|split]]]]; try assumption.
  - intros k n Hn. unfold slot_ok. rewrite !length_insert.
    destruct (decide (k = i)) as [->|Hki]; [|destruct (decide (k = j)) as [->|Hkj]].
    + rewrite Hati in Hn. inversion Hn; subst n; simpl.
      repeat split; try assumption.
      exists (vertexSetPositionInHeap (Z.of_nat i) xb). split; [|reflexivity].
      apply list_lookup_insert_eq. rewrite length_insert.
      eapply lookup_lt_Some; eassumption.
    + rewrite Hatj in Hn. inversion Hn; subst n; simpl.
      repeat split; try assumption.
      exists (vertexSetPositionInHeap (Z.of_nat j) xa). split; [|reflexivity].
      rewrite list_lookup_insert_ne by congruence.
      apply list_lookup_insert_eq. eapply lookup_lt_Some; eassumption.
    + rewrite Hother in Hn by assumption.
      destruct (Hwf _ _ Hn) as (Pn & Ln & Rn & xn & Hxn & Pxn).
      repeat split; try assumption.
      exists xn. split; [|assumption].
      rewrite !list_lookup_insert_ne; [assumption | |].
      * intros E. apply Hki. eapply heap_wf_vertex_inj; eauto.
      * intros E. apply Hkj. eapply heap_wf_vertex_inj; eauto.
  - eapply same_but_position_trans.
    + apply (same_but_position_set _ _ _ (Z.of_nat j) Hxa).
    + apply (same_but_position_set _ _ _ (Z.of_nat i) Hxb').
  - rewrite !length_insert. reflexivity.
Qed.

(** ** Sifting up *)

Lemma heap_ordered_le_parent (h : MinHeap) :
  heap_ordered h <-> forall c, le_parent h c.
Proof.
  split.
  - intros Ho c n m Hn Hm. destruct (decide (c = 0)%nat) as [->|Hc].
    + rewrite par_0 in Hm. assert (n = m) by congruence. subst. lia.
    + eapply Ho; [exact Hm | | exact Hn].
      apply par_spec; [lia | reflexivity].
  - intros Hp i c n m Hn Hc Hm.
    assert (par c = i) as E by (apply par_spec; lia).
    apply (Hp c m n); [assumption | congruence].
Qed.

Lemma up_ok_done (h : MinHeap) (k : nat) (a p : Node) :
  h !! k = Some a -> h !! par k = Some p -> value p <= value a ->
  up_ok h k -> forall c, le_parent h c.
Proof.
  intros Ha Hp Hle [H1 _] c. destruct (decide (c = k)) as [->|Hc].
  - intros n m Hn Hm. assert (n = a) by congruence. assert (m = p) by congruence.
    subst. assumption.
  - apply H1. assumption.
Qed.

Lemma up_ok_swap (h h' : MinHeap) (k : nat) (a p : Node) :
  h !! k = Some a -> h !! par k = Some p -> value a < value p ->
  up_ok h k ->
  (exists n, h' !! k = Some n /\ value n = value p) ->
  (exists n, h' !! par k = Some n /\ value n = value a) ->
  (forall c, c <> k -> c <> par k -> h' !! c = h !! c) ->
  up_ok h' (par k).
Proof.
  intros Ha Hp Hlt [H1 H2] (nk & Hnk & Vk) (np & Hnp & Vp) Hother.
  assert (k <> 0)%nat as Hk0.
  { intros ->. rewrite par_0 in Hp. assert (a = p) by congruence. subst. lia. }
  pose proof (par_lt k ltac:(lia)) as Hpk.
  split.
  - intros c Hc n m Hn Hm. destruct (decide (c = k)) as [->|Hck].
    + assert (n = nk) by congruence. assert (m = np) by congruence. subst. lia.
    + rewrite Hother in Hn by assumption.
      destruct (decide (par c = k)) as [Ek|Nk].
      * rewrite Ek in Hm. assert (m = nk) by congruence. subst m.
        rewrite Vk. eapply H2; eauto.
      * destruct (decide (par c = par k)) as [Ep|Np].
        -- rewrite Ep in Hm. assert (m = np) by congruence. subst m.
           rewrite Vp. pose proof (H1 c Hck n p Hn) as Q.
           rewrite Ep in Q. specialize (Q Hp). lia.
        -- rewrite Hother in Hm by assumption.
           exact (H1 c Hck n m Hn Hm).
  - intros c n m Hc Hpc Hn Hm.
    destruct (decide (par k = 0)%nat) as [E0|N0].
    + rewrite E0, par_0 in Hm.
      rewrite E0 in Hnp. assert (m = np) by congruence. subst m.
      rewrite Vp. destruct (decide (c = k)) as [->|Hck].
      * assert (n = nk) by congruence. subst. lia.
      * rewrite Hother in Hn by congruence.
        pose proof (H1 c Hck n p Hn) as Q. rewrite Hpc in Q.
        specialize (Q Hp). lia.
    + pose proof (par_lt (par k) ltac:(lia)) as Hppk.
      rewrite Hother in Hm by lia.
      pose proof (H1 (par k) ltac:(lia) p m Hp Hm) as Qp.
      destruct (decide (c = k)) as [->|Hck].
      * assert (n = nk) by congruence. subst. lia.
      * rewrite Hother in Hn by congruence.
        pose proof (H1 c Hck n p Hn) as Q. rewrite Hpc in Q.
        specialize (Q Hp). lia.
Qed.

Lemma siftUp_eq (fuel : nat) (g : Graph) (h : MinHeap) (c : Z) :
  siftUp fuel g h c =
  (cur ← heapAt h c;
   par ← heapAt h (parentOf c);
   if value cur <? value par then
     match fuel with
     | O => Timeout
     | S fuel' =>
         '(g', h') ← swapNode g h c (parentOf c);
         siftUp fuel' g' h' (parentOf c)
     end
   else Ok (g, h)).
Proof. destruct fuel; reflexivity. Qed.

Lemma siftUp_spec (fuel : nat) : forall (g : Graph) (h : MinHeap) (k : nat),
  heap_wf g h -> (k < length h)%nat -> (k <= fuel)%nat ->
  exists g' h',
    siftUp fuel g h (Z.of_nat k) = Ok (g', h') /\
    heap_wf g' h' /\ same_but_position g g' /\ length h' = length h /\
    payloads_sub h h' /\ payloads_sub h' h /\
    (up_ok h k -> forall c, le_parent h' c).
Proof.
  induction fuel as [|fuel IH]; intros g h k Hwf Hk Hfuel.
  - assert (k = 0)%nat as -> by lia.
    destruct (lookup_lt_is_Some_2 h 0%nat Hk) as [a Ha].
    rewrite siftUp_eq, parentOf_nat, par_0, (heapAt_Some _ _ _ Ha). simpl.
    rewrite Z.ltb_irrefl.
    exists g, h. split_and!; auto using payloads_sub_refl, same_but_position_refl.
    intros Hup. eapply (up_ok_done h 0%nat a a); eauto. lia.
  - destruct (lookup_lt_is_Some_2 h k Hk) as [a Ha].
    assert (par k < length h)%nat as Hpk.
    { destruct (decide (k = 0)%nat) as [->|]; [rewrite par_0; lia|].
      pose proof (par_lt k ltac:(lia)). lia. }
    destruct (lookup_lt_is_Some_2 h (par k) Hpk) as [p Hp].
    rewrite siftUp_eq, parentOf_nat, (heapAt_Some _ _ _ Ha). simpl.
    rewrite (heapAt_Some _ _ _ Hp). simpl.
    destruct (Z.ltb_spec (value a) (value p)) as [Hlt|Hge].
    + assert (k <> 0)%nat as Hk0.
      { intros ->. rewrite par_0 in Hp. assert (a = p) by congruence. subst. lia. }
      pose proof (par_lt k ltac:(lia)) as Hlt'.
      destruct (swapNode_spec g h k (par k) a p Hwf Ha Hp ltac:(lia))
        as (g1 & h1 & Es & Hwf1 & Hsame1 & Hlen1 & Hk1 & Hp1 & Ho1).
      rewrite Es. simpl.
      destruct (IH g1 h1 (par k) Hwf1 ltac:(lia) ltac:(lia))
        as (g2 & h2 & E2 & Hwf2 & Hsame2 & Hlen2 & Hs12 & Hs21 & Hord2).
      exists g2, h2. rewrite E2.
      assert (payloads_sub h h1) as S01.
      { intros c n Hn. destruct (decide (c = k)) as [->|Hck];
          [|destruct (decide (c = par k)) as [->|Hcp]].
        - eexists _, _. split; [exact Hp1|]. unfold payload. simpl. congruence.
        - eexists _, _. split; [exact Hk1|]. unfold payload. simpl. congruence.
        - exists c, n. rewrite Ho1 by assumption. auto. }
      assert (payloads_sub h1 h) as S10.
      { intros c n Hn. destruct (decide (c = k)) as [->|Hck];
          [|destruct (decide (c = par k)) as [->|Hcp]].
        - exists (par k), p. split; [assumption|].
          rewrite Hk1 in Hn. inversion Hn. reflexivity.
        - exists k, a. split; [assumption|].
          rewrite Hp1 in Hn. inversion Hn. reflexivity.
        - exists c, n. rewrite Ho1 in Hn by assumption. auto. }
      split; [reflexivity|].
      split; [assumption|].
      split; [eapply same_but_position_trans; eassumption|].
      split; [congruence|].
      split; [eapply payloads_sub_trans; eassumption|].
      split; [eapply payloads_sub_trans; eassumption|].
      intros Hup. apply Hord2.
      eapply (up_ok_swap h h1 k a p); eauto.
    + exists g, h. split_and!; auto using payloads_sub_refl, same_but_position_refl.
      intros Hup. eapply (up_ok_done h k a p); eauto.
Qed.

(** ** Sifting down *)

Lemma swap_payloads (h h' : MinHeap) (i j : nat) (a b : Node) (fa fb : Node) :
  h !! i = Some a -> h !! j = Some b ->
  h' !! i = Some fb -> payload fb = payload b ->
  h' !! j = Some fa -> payload fa = payload a ->
  (forall k, k <> i -> k <> j -> h' !! k = h !! k) ->
  payloads_sub h h' /\ payloads_sub h' h.
Proof.
  intros Ha Hb Hi Ei Hj Ej Ho. split; intros c n Hn.
  - destruct (decide (c = i)) as [->|Hci]; [|destruct (decide (c = j)) as [->|Hcj]].
    + exists j, fa. split; [assumption | congruence].
    + exists i, fb. split; [assumption | congruence].
    + exists c, n. rewrite Ho by assumption. auto.
  - destruct (decide (c = i)) as [->|Hci]; [|destruct (decide (c = j)) as [->|Hcj]].
    + exists j, b. split; [assumption | congruence].
    + exists i, a. split; [assumption | congruence].
    + exists c, n. rewrite Ho in Hn by assumption. auto.
Qed.

Lemma heap_range_sub (h h' : MinHeap) :
  payloads_sub h' h -> heap_range h -> heap_range h'.
Proof.
  intros Hs Hr i n Hn. destruct (Hs _ _ Hn) as (i' & n' & Hn' & E).
  assert (value n = value n') as Ev by (unfold payload in E; congruence).
  unfold heap_range in Hr. rewrite Ev. eauto.
Qed.

Lemma down_ok_done (h : MinHeap) (k : nat) (a : Node) :
  h !! k = Some a ->
  (forall c n, c <> k -> par c = k -> h !! c = Some n -> value a <= value n) ->
  down_ok h k -> forall c, le_parent h c.
Proof.
  intros Ha Hch [H1 _] c. destruct (decide (par c = k)) as [E|N].
  - intros n m Hn Hm. destruct (decide (c = k)) as [->|Hck].
    + rewrite E in Hm. assert (n = m) by congruence. subst. lia.
    + rewrite E in Hm. assert (m = a) by congruence. subst m. eauto.
  - apply H1. assumption.
Qed.

Lemma down_ok_swap (h h' : MinHeap) (k m : nat) (a b : Node) :
  h !! k = Some a -> h !! m = Some b -> m <> k -> par m = k ->
  value b <= value a ->
  (forall c n, c <> k -> par c = k -> h !! c = Some n -> value b <= value n) ->
  down_ok h k ->
  (exists n, h' !! k = Some n /\ value n = value b) ->
  (exists n, h' !! m = Some n /\ value n = value a) ->
  (forall c, c <> k -> c <> m -> h' !! c = h !! c) ->
  down_ok h' m.
Proof.
  intros Ha Hb Hmk Hpm Hle Hmin [H1 H2] (nk & Hnk & Vk) (nm & Hnm & Vm) Hother.
  assert (0 < m)%nat as Hm0.
  { destruct m; [|lia]. rewrite par_0 in Hpm. congruence. }
  pose proof (par_lt m Hm0) as Hlt.
  split.
  - intros c Hc n p Hn Hp. destruct (decide (c = k)) as [->|Hck];
      [|destruct (decide (c = m)) as [->|Hcm]].
    + assert (n = nk) by congruence. subst n. rewrite Vk.
      destruct (decide (k = 0)%nat) as [->|Hk0].
      * rewrite par_0 in Hp. assert (p = nk) by congruence. subst. lia.
      * pose proof (par_lt k ltac:(lia)) as Hltk.
        rewrite Hother in Hp by lia.
        apply (H2 m b p); auto with lia.
    + rewrite Hpm in Hp. assert (p = nk) by congruence.
      assert (n = nm) by congruence. subst. lia.
    + rewrite Hother in Hn by assumption.
      destruct (decide (par c = k)) as [Ek|Nk].
      * rewrite Ek in Hp. assert (p = nk) by congruence. subst p.
        rewrite Vk. eauto.
      * rewrite Hother in Hp by assumption. exact (H1 c Nk n p Hn Hp).
  - intros c n p _ Hcm Hpc Hn Hp.
    rewrite Hpm in Hp. assert (p = nk) by congruence. subst p. rewrite Vk.
    assert (0 < c)%nat as Hc0.
    { destruct c; [|lia]. rewrite par_0 in Hpc. lia. }
    pose proof (par_lt c Hc0) as Hltc.
    rewrite Hother in Hn by lia.
    assert (par c <> k) as Nk by lia.
    pose proof (H1 c Nk n b Hn) as Q. rewrite Hpc in Q. auto.
Qed.

Lemma swap_child (g : Graph) (h : MinHeap) (k m : nat) (a b : Node) :
  heap_wf g h -> h !! k = Some a -> h !! m = Some b -> (k < m)%nat -> par m = k ->
  exists g' h',
    swapNode g h (Z.of_nat k) (Z.of_nat m) = Ok (g', h') /\
    sift_moved g h k m g' h' /\
    (value b <= value a ->
     (forall c n, c <> k -> par c = k -> h !! c = Some n -> value b <= value n) ->
     down_ok h k -> down_ok h' m).
Proof.
  intros Hwf Ha Hb Hkm Hpm.
  destruct (swapNode_spec g h k m a b Hwf Ha Hb ltac:(lia))
    as (g1 & h1 & Es & Hwf1 & Hsame1 & Hlen1 & Hk1 & Hm1 & Ho1).
  exists g1, h1. split; [assumption|].
  destruct (swap_payloads h h1 k m a b _ _ Ha Hb Hk1 eq_refl Hm1 eq_refl Ho1)
    as [S01 S10].
  split.
  - unfold sift_moved. split_and!; try assumption.
    eapply lookup_lt_Some; eassumption.
  - intros Hle Hmin Hdown.
    eapply (down_ok_swap h h1 k m a b); eauto with lia.
Qed.

Lemma siftDownStep_spec (g : Graph) (h : MinHeap) (k : nat) :
  heap_wf g h -> (k < length h)%nat ->
  (siftDownStep g h (Z.of_nat k) = Ok None /\
   (down_ok h k -> forall c, le_parent h c)) \/
  (exists m g' h',
     siftDownStep g h (Z.of_nat k) = Ok (Some (Z.of_nat m, (g', h'))) /\
     sift_moved g h k m g' h' /\
     (heap_range h -> down_ok h k -> down_ok h' m)).
Proof.
  intros Hwf Hk.
  destruct (lookup_lt_is_Some_2 h k Hk) as [a Ha].
  destruct (Hwf _ _ Ha) as (Pa & La & Ra & _).
  unfold siftDownStep. rewrite (heapAt_Some _ _ _ Ha). step.
  replace (2 * Z.of_nat k + 1) with (Z.of_nat (2 * k + 1)) by lia.
  replace (2 * Z.of_nat k + 2) with (Z.of_nat (2 * k + 2)) by lia.
  rewrite La, Ra.
  destruct (decide (2 * k + 2 < length h)%nat) as [Hr|Hr].
  - (* two children *)
    rewrite !bool_decide_eq_true_2 by lia. step.
    destruct (lookup_lt_is_Some_2 h (2 * k + 1)%nat ltac:(lia)) as [l Hl].
    destruct (lookup_lt_is_Some_2 h (2 * k + 2)%nat Hr) as [r Hrr].
    rewrite (heapAt_Some _ _ _ Hl). step.
    rewrite (heapAt_Some _ _ _ Hrr). step.
    assert (par (2 * k + 1) = k) as Pl by (apply par_spec; lia).
    assert (par (2 * k + 2) = k) as Pr by (apply par_spec; lia).
    assert (forall c n, c <> k -> par c = k -> h !! c = Some n -> n = l \/ n = r)
      as Hkids.
    { intros c n Hck Hpc Hn. assert (0 < c)%nat as Hc0.
      { destruct c; [|lia]. rewrite par_0 in Hpc. lia. }
      apply par_spec in Hpc; [|assumption].
      destruct Hpc as [-> | ->]; [left | right]; congruence. }
    destruct ((value l <=? value a) || (value r <=? value a)) eqn:Hcmp.
    + destruct (Z.leb_spec (wrap_int (value r - value l)) 0) as [Hw|Hw].
      * destruct (swap_child g h k (2 * k + 2) a r Hwf Ha Hrr ltac:(lia) Pr)
          as (g1 & h1 & Es & Hmv & Hord).
        right. exists (2 * k + 2)%nat, g1, h1. rewrite Es. step.
        split_and!; [reflexivity | assumption |].
        intros Hrange Hdown.
        pose proof (Hrange _ _ Hl) as Rl. pose proof (Hrange _ _ Hrr) as Rr.
        rewrite wrap_int_id in Hw
          by (unfold in_int, INT_MIN, INT_MAX in *; lia).
        apply Hord; [|intros c n Hc1 Hc2 Hc3;
                        destruct (Hkids c n Hc1 Hc2 Hc3); subst; lia | assumption].
        apply orb_true_iff in Hcmp. rewrite !Z.leb_le in Hcmp. lia.
      * destruct (swap_child g h k (2 * k + 1) a l Hwf Ha Hl ltac:(lia) Pl)
          as (g1 & h1 & Es & Hmv & Hord).
        right. exists (2 * k + 1)%nat, g1, h1. rewrite Es. step.
        split_and!; [reflexivity | assumption |].
        intros Hrange Hdown.
        pose proof (Hrange _ _ Hl) as Rl. pose proof (Hrange _ _ Hrr) as Rr.
        rewrite wrap_int_id in Hw
          by (unfold in_int, INT_MIN, INT_MAX in *; lia).
        apply Hord; [|intros c n Hc1 Hc2 Hc3;
                        destruct (Hkids c n Hc1 Hc2 Hc3); subst; lia | assumption].
        apply orb_true_iff in Hcmp. rewrite !Z.leb_le in Hcmp. lia.
    + left. split; [reflexivity|].
      apply orb_false_iff in Hcmp. rewrite !Z.leb_gt in Hcmp.
      intros Hdown. eapply (down_ok_done h k a); eauto.
      intros c n Hc1 Hc2 Hc3. destruct (Hkids c n Hc1 Hc2 Hc3); subst; lia.
  - rewrite (bool_decide_eq_false_2 (2 * k + 2 < length h)%nat) by assumption.
    destruct (decide (2 * k + 1 < length h)%nat) as [Hlt|Hlt].
    + (* a left child only *)
      rewrite bool_decide_eq_true_2 by assumption. step.
      destruct (lookup_lt_is_Some_2 h (2 * k + 1)%nat Hlt) as [l Hl].
      rewrite (heapAt_Some _ _ _ Hl). step.
      assert (par (2 * k + 1) = k) as Pl by (apply par_spec; lia).
      assert (forall c n, c <> k -> par c = k -> h !! c = Some n -> n = l)
        as Hkids.
      { intros c n Hck Hpc Hn. assert (0 < c)%nat as Hc0.
        { destruct c; [|lia]. rewrite par_0 in Hpc. lia. }
        apply par_spec in Hpc; [|assumption].
        destruct Hpc as [-> | ->]; [congruence|].
        apply lookup_lt_Some in Hn. lia. }
      destruct (Z.leb_spec (value l) (value a)) as [Hle|Hgt].
      * destruct (swap_child g h k (2 * k + 1) a l Hwf Ha Hl ltac:(lia) Pl)
          as (g1 & h1 & Es & Hmv & Hord).
        right. exists (2 * k + 1)%nat, g1, h1. rewrite Es. step.
        split_and!; [reflexivity | assumption |].
        intros _ Hdown. apply Hord; [assumption | | assumption].
        intros c n Hc1 Hc2 Hc3. rewrite (Hkids c n Hc1 Hc2 Hc3). lia.
      * left. split; [reflexivity|].
        intros Hdown. eapply (down_ok_done h k a); eauto.
        intros c n Hc1 Hc2 Hc3. rewrite (Hkids c n Hc1 Hc2 Hc3). lia.
    + (* a leaf *)
      rewrite bool_decide_eq_false_2 by assumption. step.
      left. split; [reflexivity|].
      intros Hdown. eapply (down_ok_done h k a); eauto.
      intros c n Hck Hpc Hn. exfalso.
      assert (0 < c)%nat as Hc0.
      { destruct c; [|lia]. rewrite par_0 in Hpc. lia. }
      apply par_spec in Hpc; [|assumption].
      apply lookup_lt_Some in Hn. lia.
Qed.

Lemma siftDownFrom_eq (fuel : nat) (g : Graph) (h : MinHeap) (c : Z) :
  siftDownFrom fuel g h c =
  (r ← siftDownStep g h c;
   match r with
   | None => Ok (g, h)
   | Some (next, (g', h')) =>
       match fuel with
       | O => Timeout
       | S fuel' => siftDownFrom fuel' g' h' next
       end
   end).
Proof. destruct fuel; reflexivity. Qed.

Lemma siftDownFrom_spec (fuel : nat) : forall (g : Graph) (h : MinHeap) (k : nat),
  heap_wf g h -> (k < length h)%nat -> (length h - k <= S fuel)%nat ->
  exists g' h',
    siftDownFrom fuel g h (Z.of_nat k) = Ok (g', h') /\
    heap_wf g' h' /\ same_but_position g g' /\ length h' = length h /\
    payloads_sub h h' /\ payloads_sub h' h /\
    (heap_range h -> down_ok h k -> forall c, le_parent h' c).
Proof.
  induction fuel as [|fuel IH]; intros g h k Hwf Hk Hfuel;
    rewrite siftDownFrom_eq;
    (destruct (siftDownStep_spec g h k Hwf Hk)
      as [[E Hdone] | (m & g1 & h1 & E & Hmv & Hord)]; rewrite E; simpl;
     [exists g, h; split_and!;
        auto using payloads_sub_refl, same_but_position_refl |]).
  - destruct Hmv as (Hkm & Hm & _). lia.
  - destruct Hmv as (Hkm & Hm & Hwf1 & Hsame1 & Hlen1 & S01 & S10).
    destruct (IH g1 h1 m Hwf1 ltac:(lia) ltac:(lia))
      as (g2 & h2 & E2 & Hwf2 & Hsame2 & Hlen2 & S12 & S21 & Hord2).
    exists g2, h2. split_and!; try assumption.
    + eapply same_but_position_trans; eassumption.
    + congruence.
    + eapply payloads_sub_trans; eassumption.
    + eapply payloads_sub_trans; eassumption.
    + intros Hrange Hdown. apply Hord2.
      * exact (heap_range_sub h h1 S10 Hrange).
      * auto.
Qed.

(** ** Heaps with the same payloads slot by slot *)

Lemma payload_lookup (h h' : MinHeap) (i : nat) (n : Node) :
  payload <$> h = payload <$> h' -> h !! i = Some n ->
  exists n', h' !! i = Some n' /\ payload n' = payload n.
Proof.
  intros E Hn.
  assert ((payload <$> h') !! i = Some (payload n)) as F.
  { rewrite <- E, list_lookup_fmap, Hn. reflexivity. }
  rewrite list_lookup_fmap in F.
  destruct (h' !! i) as [n'|]; [|discriminate].
  exists n'. split; [reflexivity|]. simpl in F. congruence.
Qed.

Lemma payload_value (n n' : Node) : payload n' = payload n -> value n' = value n.
Proof. unfold payload. congruence. Qed.

Lemma payload_vertex (n n' : Node) : payload n' = payload n -> vertex n' = vertex n.
Proof. unfold payload. congruence. Qed.

Lemma payload_sub_of_eq (h h' : MinHeap) :
  payload <$> h = payload <$> h' -> payloads_sub h h'.
Proof.
  intros E i n Hn. destruct (payload_lookup h h' i n E Hn) as (n' & Hn' & En).
  eauto.
Qed.

Lemma le_parent_payload (h h' : MinHeap) (c : nat) :
  payload <$> h = payload <$> h' -> le_parent h c -> le_parent h' c.
Proof.
  intros E Hle n m Hn Hm.
  destruct (payload_lookup h' h c n (eq_sym E) Hn) as (n0 & Hn0 & En).
  destruct (payload_lookup h' h (par c) m (eq_sym E) Hm) as (m0 & Hm0 & Em).
  apply payload_value in En, Em. rewrite <- En, <- Em. eauto.
Qed.

Lemma payload_insert_same (h : MinHeap) (i : nat) (n n' : Node) :
  h !! i = Some n -> payload n' = payload n ->
  payload <$> <[i := n']> h = payload <$> h.
Proof.
  intros Hn E. rewrite list_fmap_insert. apply list_insert_id.
  rewrite list_lookup_fmap, Hn. simpl. congruence.
Qed.

Lemma heap_mirror_sub (g g' : Graph) (h h' : MinHeap) :
  payloads_sub h' h -> same_but_position g g' ->
  heap_mirror g h -> heap_mirror g' h'.
Proof.
  intros Hs Hsame Hm i n Hn.
  destruct (Hs _ _ Hn) as (i0 & n0 & Hn0 & E).
  destruct (Hm _ _ Hn0) as (x & Hx & Vx).
  destruct (same_but_position_lookup g g' _ x Hsame Hx) as (x' & Hx' & F).
  exists x'. rewrite <- (payload_vertex _ _ E), <- (payload_value _ _ E).
  split; [assumption|]. destruct F as (_ & _ & _ & _ & Fd & _). congruence.
Qed.

Lemma heap_wf_NoDup (g : Graph) (h : MinHeap) :
  heap_wf g h -> NoDup (vertex <$> h).
Proof.
  intros Hwf. apply NoDup_alt. intros i j v Hi Hj.
  rewrite list_lookup_fmap in Hi, Hj.
  destruct (h !! i) as [a|] eqn:Ha; [|discriminate].
  destruct (h !! j) as [b|] eqn:Hb; [|discriminate].
  simpl in Hi, Hj. eapply heap_wf_vertex_inj; eauto. congruence.
Qed.

Lemma in_heap_elem_of (h : MinHeap) (v : nat) :
  in_heap h v <-> v ∈ vertex <$> h.
Proof.
  rewrite list_elem_of_fmap. split.
  - intros (i & n & Hn & E). exists n. split; [congruence|].
    eapply list_elem_of_lookup_2; eassumption.
  - intros (n & E & Hin). apply list_elem_of_lookup in Hin as [i Hi].
    exists i, n. split; [assumption | congruence].
Qed.

(** ** [minHeapEnqueue] *)

Lemma parity_par (len : nat) :
  (0 < len)%nat ->
  (Z.of_nat len `rem` 2 =? 0) = bool_decide (len = 2 * par len + 2)%nat /\
  (len = 2 * par len + 1 \/ len = 2 * par len + 2)%nat.
Proof.
  intros Hlen.
  assert (len = 2 * par len + 1 \/ len = 2 * par len + 2)%nat as Hp
    by (apply par_spec; [assumption | reflexivity]).
  split; [|assumption].
  rewrite Z.rem_mod_nonneg by lia.
  pose proof (Z.div_mod (Z.of_nat len) 2 ltac:(lia)) as D.
  pose proof (Z.mod_pos_bound (Z.of_nat len) 2 ltac:(lia)) as B.
  destruct (Z.eqb_spec (Z.of_nat len `mod` 2) 0) as [E|E].
  - rewrite bool_decide_eq_true_2; [reflexivity | lia].
  - rewrite bool_decide_eq_false_2; [reflexivity | lia].
Qed.

Lemma minHeapEnqueue_spec (g : Graph) (h : MinHeap) (v : nat) (x : Vertex) :
  heap_wf g h -> g !! v = Some x -> ~ in_heap h v ->
  exists g' h',
    minHeapEnqueue g h v = Ok (g', h') /\
    heap_wf g' h' /\ same_but_position g g' /\
    length h' = S (length h) /\
    payloads_sub (h ++ [nodeConstructor (Z.of_nat (length h)) x v]) h' /\
    payloads_sub h' (h ++ [nodeConstructor (Z.of_nat (length h)) x v]) /\
    (heap_ordered h -> heap_ordered h').
Proof.
  intros Hwf Hx Hnot.
  set (len := length h).
  set (nd := nodeConstructor (Z.of_nat len) x v).
  set (g1 := <[v := vertexSetPositionInHeap (Z.of_nat len) x]> g).
  (* the heap after the parent has learnt of its new child *)
  assert (exists h2,
    (if 0 <? Z.of_nat len then
       if Z.of_nat len `rem` 2 =? 0
       then heapUpdate (h ++ [nd]) (parentOf (Z.of_nat len)) (nodeSetHasChildRight true)
       else heapUpdate (h ++ [nd]) (parentOf (Z.of_nat len)) (nodeSetHasChildLeft true)
     else Ok (h ++ [nd])) = Ok h2 /\
    payload <$> h2 = payload <$> (h ++ [nd]) /\
    heap_wf g1 h2) as (h2 & E2 & Hpay & Hwf2).
  { assert (forall i n, h !! i = Some n -> g1 !! vertex n = g !! vertex n) as Hg1.
    { intros i n Hn. unfold g1. apply list_lookup_insert_ne.
      intros E. apply Hnot. exists i, n. auto. }
    assert (g1 !! v = Some (vertexSetPositionInHeap (Z.of_nat len) x)) as Hv1.
    { unfold g1. apply list_lookup_insert_eq. eapply lookup_lt_Some; eassumption. }
    destruct (Z.ltb_spec 0 (Z.of_nat len)) as [Hpos|Hzero].
    - destruct (parity_par len ltac:(lia)) as [Hpar Hcase].
      assert (par len < len)%nat as Hplt by (apply par_lt; lia).
      destruct (lookup_lt_is_Some_2 h (par len) Hplt) as [p Hp].
      assert ((h ++ [nd]) !! par len = Some p) as Hp1
        by (rewrite lookup_app_l by assumption; assumption).
      rewrite parentOf_nat, Hpar.
      assert (forall f, payload (f p) = payload p ->
        (hasChildLeft (f p) = bool_decide (2 * par len + 1 < S len)%nat) ->
        (hasChildRight (f p) = bool_decide (2 * par len + 2 < S len)%nat) ->
        position (f p) = position p ->
        payload <$> <[par len := f p]> (h ++ [nd]) = payload <$> (h ++ [nd]) /\
        heap_wf g1 (<[par len := f p]> (h ++ [nd]))) as Hupd.
      { intros f Ef Lf Rf Pf. split.
        - eapply payload_insert_same; eassumption.
        - intros i n Hn. unfold slot_ok.
          rewrite length_insert, length_app. simpl.
          fold len. replace (len + 1)%nat with (S len) by lia.
          destruct (decide (i = par len)) as [->|Hip].
          + rewrite list_lookup_insert_eq in Hn
              by (rewrite length_app; simpl; fold len; lia).
            inversion Hn; subst n.
            destruct (Hwf _ _ Hp) as (Pp & _ & _ & xp & Hxp & Pxp).
            split_and!; try assumption; [congruence|].
            exists xp. rewrite (payload_vertex _ _ Ef).
            rewrite (Hg1 _ _ Hp). auto.
          + rewrite list_lookup_insert_ne in Hn by congruence.
            destruct (decide (i < len)%nat) as [Hil|Hil].
            * rewrite lookup_app_l in Hn by assumption.
              destruct (Hwf _ _ Hn) as (Pn & Ln & Rn & xn & Hxn & Pxn).
              fold len in Ln, Rn.
              assert (par (2 * i + 1) = i) by (apply par_spec; lia).
              assert (par (2 * i + 2) = i) by (apply par_spec; lia).
              split_and!; [assumption | | |].
              -- rewrite Ln. apply bool_decide_ext. split; [lia|].
                 intros Q. destruct (decide (2 * i + 1 = len)%nat); [|lia].
                 congruence.
              -- rewrite Rn. apply bool_decide_ext. split; [lia|].
                 intros Q. destruct (decide (2 * i + 2 = len)%nat); [|lia].
                 congruence.
              -- exists xn. rewrite (Hg1 _ _ Hn). auto.
            * assert (i = len) as ->.
              { apply lookup_lt_Some in Hn. rewrite length_app in Hn.
                simpl in Hn. fold len in Hn. lia. }
              rewrite list_lookup_middle in Hn by reflexivity.
              inversion Hn; subst n. unfold nd, nodeConstructor. simpl.
              split_and!; [reflexivity | | |].
              -- rewrite bool_decide_eq_false_2; [reflexivity | lia].
              -- rewrite bool_decide_eq_false_2; [reflexivity | lia].
              -- eexists. split; [exact Hv1 | reflexivity]. }
      destruct (Hwf _ _ Hp) as (Pp & Lp & Rp & _). fold len in Lp, Rp.
      destruct (decide (len = 2 * par len + 2)%nat) as [Hev|Hev];
        [rewrite bool_decide_eq_true_2 by assumption
        |rewrite bool_decide_eq_false_2 by assumption].
      + rewrite (heapUpdate_Some _ _ _ _ Hp1). eexists. split; [reflexivity|].
        apply Hupd; try reflexivity; simpl.
        * rewrite Lp. apply bool_decide_ext. lia.
        * rewrite bool_decide_eq_true_2; [reflexivity | lia].
      + rewrite (heapUpdate_Some _ _ _ _ Hp1). eexists. split; [reflexivity|].
        apply Hupd; try reflexivity; simpl.
        * rewrite bool_decide_eq_true_2; [reflexivity | lia].
        * rewrite Rp. apply bool_decide_ext. lia.
    - assert (len = 0)%nat as Hl0 by lia.
      exists (h ++ [nd]). split_and!; [reflexivity | reflexivity |].
      assert (h = []) as -> by (apply length_zero_iff_nil; exact Hl0).
      intros i n Hn. destruct i as [|i]; [|discriminate].
      simpl in Hn. inversion Hn; subst n.
      unfold slot_ok, nd, nodeConstructor. simpl. rewrite Hl0. simpl.
      split_and!; try reflexivity.
      eexists. split; [exact Hv1|]. simpl. rewrite Hl0. reflexivity. }
  assert (length h2 = S len) as Hlen2.
  { apply (f_equal length) in Hpay. rewrite !length_fmap, length_app in Hpay.
    simpl in Hpay. fold len in Hpay. lia. }
  destruct (siftUp_spec (length h2) g1 h2 len Hwf2 ltac:(lia) ltac:(lia))
    as (g3 & h3 & E3 & Hwf3 & Hsame3 & Hlen3 & S23 & S32 & Hord3).
  exists g3, h3.
  unfold minHeapEnqueue, graphGetVertex. rewrite Hx. step.
  rewrite (graphSetVertex_Some _ _ _ _ Hx). step.
  fold len nd g1. rewrite E2. step.
  split_and!; try assumption.
  - eapply same_but_position_trans; [|exact Hsame3].
    apply same_but_position_set. assumption.
  - fold len. congruence.
  - eapply payloads_sub_trans; [|exact S23].
    apply payload_sub_of_eq. symmetry. assumption.
  - eapply payloads_sub_trans; [exact S32|].
    apply payload_sub_of_eq. assumption.
  - intros Hord. apply heap_ordered_le_parent. apply Hord3.
    assert (forall c, le_parent h c) as Hle by (apply heap_ordered_le_parent; assumption).
    split.
    + intros c Hc. apply (le_parent_payload (h ++ [nd]) h2 c (eq_sym Hpay)).
      intros n m Hn Hm.
      assert (c < len)%nat as Hcl.
      { apply lookup_lt_Some in Hn. rewrite length_app in Hn. simpl in Hn.
        fold len in Hn. lia. }
      assert (par c < len)%nat as Hpl.
      { destruct c; [rewrite par_0; lia|]. pose proof (par_lt (S c) ltac:(lia)). lia. }
      rewrite lookup_app_l in Hn, Hm by assumption. exact (Hle c n m Hn Hm).
    + intros c n m Hc Hpc Hn Hm. exfalso.
      apply lookup_lt_Some in Hn. rewrite Hlen2 in Hn.
      assert (0 < c)%nat as Hc0.
      { destruct c; [|lia]. rewrite par_0 in Hpc. lia. }
      pose proof (par_lt c Hc0). lia.
Qed.

(** ** [minHeapDecreaseNodeValue] *)

Lemma minHeapDecreaseNodeValue_spec (g : Graph) (h : MinHeap) (v : nat)
  (x : Vertex) (k : nat) (n : Node) :
  heap_wf g h -> g !! v = Some x -> h !! k = Some n -> vertex n = v ->
  exists g' h',
    minHeapDecreaseNodeValue g h v = Ok (g', h') /\
    heap_wf g' h' /\ same_but_position g g' /\ length h' = length h /\
    payloads_sub (<[k := nodeSetValue (distanceFromSource x) n]> h) h' /\
    payloads_sub h' (<[k := nodeSetValue (distanceFromSource x) n]> h) /\
    (heap_ordered h -> distanceFromSource x <= value n -> heap_ordered h').
Proof.
  intros Hwf Hx Hn Hv.
  pose proof (lookup_lt_Some _ _ _ Hn) as Hk.
  destruct (Hwf _ _ Hn) as (Pn & Ln & Rn & x' & Hx' & Px').
  rewrite Hv, Hx in Hx'. inversion Hx'; subst x'. clear Hx'.
  set (h1 := <[k := nodeSetValue (distanceFromSource x) n]> h).
  assert (h1 !! k = Some (nodeSetValue (distanceFromSource x) n)) as Hk1
    by (apply list_lookup_insert_eq; assumption).
  assert (forall c, c <> k -> h1 !! c = h !! c) as Ho1
    by (intros c Hc; apply list_lookup_insert_ne; congruence).
  assert (length h1 = length h) as Hlen1 by apply length_insert.
  assert (heap_wf g h1) as Hwf1.
  { intros i m Hm. unfold slot_ok. rewrite Hlen1.
    destruct (decide (i = k)) as [->|Hik].
    - rewrite Hk1 in Hm. inversion Hm; subst m. simpl.
      split_and!; try assumption. exists x. rewrite Hv. auto.
    - rewrite Ho1 in Hm by assumption. apply Hwf. assumption. }
  destruct (siftUp_spec (length h1) g h1 k Hwf1 ltac:(lia) ltac:(lia))
    as (g2 & h2 & E2 & Hwf2 & Hsame2 & Hlen2 & S12 & S21 & Hord2).
  exists g2, h2.
  unfold minHeapDecreaseNodeValue, graphGetVertex. rewrite Hx. step.
  rewrite Px', (heapUpdate_Some _ _ _ _ Hn). step. fold h1. rewrite E2.
  split_and!; try assumption; try reflexivity; [congruence|].
  intros Hord Hle. apply heap_ordered_le_parent. apply Hord2.
  assert (forall c, le_parent h c) as Hp by (apply heap_ordered_le_parent; assumption).
  split.
  - intros c Hc a b Ha Hb. rewrite Ho1 in Ha by assumption.
    destruct (decide (par c = k)) as [E|N].
    + rewrite E, Hk1 in Hb. inversion Hb; subst b. simpl.
      pose proof (Hp c a n Ha) as Q. rewrite E in Q. specialize (Q Hn). lia.
    + rewrite Ho1 in Hb by assumption. exact (Hp c a b Ha Hb).
  - intros c a b Hc Hpc Ha Hb. rewrite Ho1 in Ha by assumption.
    pose proof (Hp c a n Ha) as Q. rewrite Hpc in Q. specialize (Q Hn).
    destruct (decide (par k = k)) as [E|N].
    + rewrite E, Hk1 in Hb. inversion Hb; subst b. simpl. lia.
    + rewrite Ho1 in Hb by assumption.
      pose proof (Hp k n b Hn Hb). lia.
Qed.

(** ** [minHeapDequeue] *)

Lemma size_parity (L : nat) :
  (0 < L)%nat ->
  (Z.of_nat (S L) `rem` 2 =? 0) = bool_decide (L = 2 * par L + 1)%nat /\
  (L = 2 * par L + 1 \/ L = 2 * par L + 2)%nat.
Proof.
  intros HL.
  assert (L = 2 * par L + 1 \/ L = 2 * par L + 2)%nat as Hp
    by (apply par_spec; [assumption | reflexivity]).
  split; [|assumption].
  rewrite Z.rem_mod_nonneg by lia.
  pose proof (Z.div_mod (Z.of_nat (S L)) 2 ltac:(lia)) as D.
  pose proof (Z.mod_pos_bound (Z.of_nat (S L)) 2 ltac:(lia)) as B.
  destruct (Z.eqb_spec (Z.of_nat (S L) `mod` 2) 0) as [E|E].
  - rewrite bool_decide_eq_true_2; [reflexivity | lia].
  - rewrite bool_decide_eq_false_2; [reflexivity | lia].
Qed.

Lemma minHeapDequeue_spec (g : Graph) (h : MinHeap) (top : Node) :
  heap_wf g h -> h !! 0%nat = Some top ->
  exists g' h',
    minHeapDequeue g h = Ok (vertex top, (g', h')) /\
    heap_wf g' h' /\ same_but_position g g' /\ S (length h') = length h /\
    payloads_sub h' (drop 1 h) /\ payloads_sub (drop 1 h) h' /\
    (heap_ordered h -> heap_range h -> heap_ordered h').
Proof.
  intros Hwf Htop.
  pose proof (lookup_lt_Some _ _ _ Htop) as Hlen.
  unfold minHeapDequeue, minHeapGetSize.
  change 0 with (Z.of_nat 0). rewrite (heapAt_Some _ _ _ Htop). step.
  change (Z.of_nat 0) with 0.
  destruct (Z.ltb_spec 1 (Z.of_nat (length h))) as [Hbig|Hone].
  - (* more than one node *)
    destruct (length h) as [|L] eqn:EL; [lia|]. assert (0 < L)%nat as HL by lia.
    replace (Z.of_nat (S L) - 1) with (Z.of_nat L) by lia.
    replace (Z.of_nat (S L) - 2) with (Z.of_nat L - 1) by lia.
    fold (parentOf (Z.of_nat L)). rewrite parentOf_nat, Nat2Z.id.
    destruct (lookup_lt_is_Some_2 h L ltac:(lia)) as [last Hlast].
    rewrite (heapAt_Some _ _ _ Hlast). step.
    destruct (Hwf _ _ Hlast) as (_ & _ & _ & xl & Hxl & Pxl).
    rewrite (graphSetVertex_Some _ _ _ _ Hxl). step.
    set (g1 := <[vertex last := vertexSetPositionInHeap 0 xl]> g).
    set (top' := mkNode (value last) 0 (hasChildLeft top) (hasChildRight top)
                   (vertex last)).
    set (h1 := <[0%nat := top']> h).
    destruct (size_parity L HL) as [Hpar Hcase]. rewrite Hpar.
    assert (par L < L)%nat as Hplt by (apply par_lt; assumption).
    assert (length h1 = S L) as Hlen1 by (unfold h1; rewrite length_insert; assumption).
    destruct (lookup_lt_is_Some_2 h1 (par L) ltac:(lia)) as [p Hp].
    (* the slots of [h1] below [L] carry the flags that fit [S L] nodes *)
    assert (forall i n, (i < L)%nat -> h1 !! i = Some n ->
      position n = Z.of_nat i /\
      hasChildLeft n = bool_decide (2 * i + 1 < S L)%nat /\
      hasChildRight n = bool_decide (2 * i + 2 < S L)%nat /\
      (exists x, g1 !! vertex n = Some x /\ positionInHeap x = Z.of_nat i) /\
      exists n0, h !! (if decide (i = 0)%nat then L else i) = Some n0 /\
                 payload n = payload n0) as Hslots.
    { intros i n Hi Hn. destruct (decide (i = 0)%nat) as [->|Hi0].
      - unfold h1 in Hn. rewrite list_lookup_insert_eq in Hn by lia.
        inversion Hn; subst n. unfold top'. simpl.
        destruct (Hwf _ _ Htop) as (_ & Lt & Rt & _). rewrite EL in Lt, Rt.
        split_and!; try assumption; [reflexivity | |].
        + eexists. split; [apply list_lookup_insert_eq; eapply lookup_lt_Some; eassumption|].
          reflexivity.
        + exists last. auto.
      - unfold h1 in Hn. rewrite list_lookup_insert_ne in Hn by congruence.
        destruct (Hwf _ _ Hn) as (Pn & Ln & Rn & xn & Hxn & Pxn).
        rewrite EL in Ln, Rn. split_and!; try assumption.
        + exists xn. split; [|assumption]. unfold g1.
          rewrite list_lookup_insert_ne; [assumption|].
          intros E. assert (L = i) by (eapply heap_wf_vertex_inj; eauto). lia.
        + exists n. auto. }
    assert (forall f, payload (f p) = payload p -> position (f p) = position p ->
        hasChildLeft (f p) = bool_decide (2 * par L + 1 < L)%nat ->
        hasChildRight (f p) = bool_decide (2 * par L + 2 < L)%nat ->
        let h3 := take L (<[par L := f p]> h1) in
        heap_wf g1 h3 /\ length h3 = L /\
        forall i, (i < L)%nat -> exists n n0, h3 !! i = Some n /\
          h !! (if decide (i = 0)%nat then L else i) = Some n0 /\
          payload n = payload n0) as Hupd.
    { intros f Ef Pf Lf Rf h3.
      assert (length h3 = L) as Hlen3.
      { unfold h3. rewrite length_take, length_insert. lia. }
      assert (forall i, (i < L)%nat ->
        h3 !! i = if decide (i = par L) then Some (f p) else h1 !! i) as Hh3.
      { intros i Hi. unfold h3. rewrite lookup_take_lt by assumption.
        destruct (decide (i = par L)) as [->|Hne].
        - apply list_lookup_insert_eq. lia.
        - apply list_lookup_insert_ne. congruence. }
      split_and!; [|assumption|].
      - intros i n Hn. pose proof (lookup_lt_Some _ _ _ Hn) as Hi.
        rewrite Hlen3 in Hi. rewrite Hh3 in Hn by assumption.
        unfold slot_ok. rewrite Hlen3.
        assert (par (2 * i + 1) = i) by (apply par_spec; lia).
        assert (par (2 * i + 2) = i) by (apply par_spec; lia).
        destruct (decide (i = par L)) as [->|Hne].
        + inversion Hn; subst n.
          destruct (Hslots _ _ Hplt Hp) as (Pp & _ & _ & Hxp & _).
          rewrite (payload_vertex _ _ Ef). split_and!; try assumption. congruence.
        + destruct (Hslots _ _ Hi Hn) as (Pn & Ln & Rn & Hxn & _).
          split_and!; try assumption.
          * rewrite Ln. apply bool_decide_ext. split; [|lia].
            intros Q. destruct (decide (2 * i + 1 = L)%nat); [congruence | lia].
          * rewrite Rn. apply bool_decide_ext. split; [|lia].
            intros Q. destruct (decide (2 * i + 2 = L)%nat); [congruence | lia].
      - intros i Hi. rewrite Hh3 by assumption.
        destruct (decide (i = par L)) as [->|Hne].
        + destruct (Hslots _ _ Hplt Hp) as (_ & _ & _ & _ & n0 & Hn0 & En0).
          exists (f p), n0. split_and!; [reflexivity | assumption | congruence].
        + destruct (lookup_lt_is_Some_2 h1 i ltac:(lia)) as [n Hn].
          destruct (Hslots _ _ Hi Hn) as (_ & _ & _ & _ & n0 & Hn0 & En0).
          exists n, n0. auto. }
    destruct (Hslots _ _ Hplt Hp) as (Pp & Lp & Rp & _).
    assert (exists h3,
      (if bool_decide (L = (2 * par L + 1)%nat)
       then heapUpdate h1 (Z.of_nat (par L)) (nodeSetHasChildLeft false)
       else heapUpdate h1 (Z.of_nat (par L)) (nodeSetHasChildRight false))
      ≫= (fun h2 => minHeapSiftDown g1 (take L h2) ≫= fun s => Ok (vertex top, s))
      = minHeapSiftDown g1 h3 ≫= (fun s => Ok (vertex top, s)) /\
      heap_wf g1 h3 /\ length h3 = L /\
      forall i, (i < L)%nat -> exists n n0, h3 !! i = Some n /\
          h !! (if decide (i = 0)%nat then L else i) = Some n0 /\
          payload n = payload n0) as (h3 & E3 & Hwf3 & Hlen3 & Hpay3).
    { destruct (decide (L = 2 * par L + 1)%nat) as [Hev|Hev];
        [rewrite bool_decide_eq_true_2 by assumption
        |rewrite bool_decide_eq_false_2 by assumption];
        rewrite (heapUpdate_Some _ _ _ _ Hp); step;
        (eexists; split; [reflexivity|]); apply Hupd; try reflexivity; simpl.
      - rewrite bool_decide_eq_false_2; [reflexivity | lia].
      - rewrite Rp. apply bool_decide_ext. lia.
      - rewrite Lp. apply bool_decide_ext. lia.
      - rewrite bool_decide_eq_false_2; [reflexivity | lia]. }
    rewrite E3. unfold minHeapSiftDown.
    destruct (siftDownFrom_spec (length h3) g1 h3 0 Hwf3 ltac:(lia) ltac:(lia))
      as (g4 & h4 & E4 & Hwf4 & Hsame4 & Hlen4 & S34 & S43 & Hord4).
    change (Z.of_nat 0) with 0 in E4. rewrite E4. step.
    exists g4, h4.
    assert (payloads_sub h3 (drop 1 h)) as S3d.
    { intros i n Hn. pose proof (lookup_lt_Some _ _ _ Hn) as Hi. rewrite Hlen3 in Hi.
      destruct (Hpay3 i Hi) as (n' & n0 & Hn' & Hn0 & En).
      assert (n' = n) by congruence. subst n'.
      destruct (decide (i = 0)%nat) as [->|Hi0].
      - exists (L - 1)%nat, n0. rewrite lookup_drop.
        replace (1 + (L - 1))%nat with L by lia. auto.
      - exists (i - 1)%nat, n0. rewrite lookup_drop.
        replace (1 + (i - 1))%nat with i by lia. auto. }
    assert (payloads_sub (drop 1 h) h3) as Sd3.
    { intros i n Hn. rewrite lookup_drop in Hn.
      pose proof (lookup_lt_Some _ _ _ Hn) as Hi. rewrite EL in Hi.
      destruct (decide (1 + i = L)%nat) as [Ei|Ni].
      - destruct (Hpay3 0%nat HL) as (n' & n0 & Hn' & Hn0 & En).
        simpl in Hn0. rewrite Ei in Hn. assert (n0 = n) by congruence. subst n0.
        exists 0%nat, n'. auto.
      - destruct (Hpay3 (1 + i)%nat ltac:(lia)) as (n' & n0 & Hn' & Hn0 & En).
        simpl in Hn0, Hn. assert (n0 = n) by congruence. subst n0.
        exists (1 + i)%nat, n'. auto. }
    split_and!; try assumption.
    + reflexivity.
    + eapply same_but_position_trans; [|exact Hsame4].
      apply same_but_position_set. assumption.
    + congruence.
    + eapply payloads_sub_trans; eassumption.
    + eapply payloads_sub_trans; eassumption.
    + intros Hord Hrange. apply heap_ordered_le_parent. apply Hord4.
      * intros i n Hn. destruct (S3d _ _ Hn) as (i' & n' & Hn' & En).
        rewrite lookup_drop in Hn'. rewrite <- (payload_value _ _ En). eauto.
      * assert (forall c, le_parent h c) as Hle
          by (apply heap_ordered_le_parent; assumption).
        split; [|intros; lia].
        intros c Hc n m Hn Hm.
        pose proof (lookup_lt_Some _ _ _ Hn) as Hci. rewrite Hlen3 in Hci.
        pose proof (lookup_lt_Some _ _ _ Hm) as Hpi. rewrite Hlen3 in Hpi.
        destruct (Hpay3 c Hci) as (n' & n0 & Hn' & Hn0 & En).
        destruct (Hpay3 (par c) Hpi) as (m' & m0 & Hm' & Hm0 & Em).
        assert (n' = n) by congruence. assert (m' = m) by congruence. subst.
        assert (c <> 0)%nat by (intros ->; apply Hc; reflexivity).
        destruct (decide (c = 0)%nat); [lia|].
        destruct (decide (par c = 0)%nat); [lia|].
        rewrite (payload_value _ _ En), (payload_value _ _ Em).
        exact (Hle c n0 m0 Hn0 Hm0).
  - (* the last node *)
    assert (length h = 1)%nat as EL by lia.
    destruct h as [|t [|]]; simpl in EL; try lia.
    simpl. exists g, []. split_and!; try reflexivity.
    + intros i n Hn. discriminate.
    + apply payloads_sub_refl.
    + apply payloads_sub_refl.
    + intros _ _ i c n m Hn. discriminate.
Qed.

(** ** The root of an ordered heap is a minimum *)

Lemma heap_root_min (h : MinHeap) (top : Node) :
  heap_ordered h -> h !! 0%nat = Some top ->
  forall i n, h !! i = Some n -> value top <= value n.
Proof.
  intros Hord Htop.
  assert (forall c, le_parent h c) as Hle by (apply heap_ordered_le_parent; assumption).
  intros i. induction i as [i IH] using lt_wf_ind. intros n Hn.
  destruct (decide (i = 0)%nat) as [->|Hi].
  - assert (n = top) by congruence. subst. lia.
  - pose proof (par_lt i ltac:(lia)) as Hp.
    pose proof (lookup_lt_Some _ _ _ Hn) as Hlen.
    destruct (lookup_lt_is_Some_2 h (par i) ltac:(lia)) as [m Hm].
    pose proof (IH (par i) Hp m Hm). pose proof (Hle i n m Hn Hm). lia.
Qed.

(** ** Deciding the invariants of a given heap *)

Lemma heap_wf_b_sound (g : Graph) (h : MinHeap) :
  heap_wf_b g h = true -> heap_wf g h.
Proof.
  unfold heap_wf_b. rewrite forallb_forall. intros H i n Hn.
  specialize (H i). rewrite Hn in H.
  assert (slot_ok_b g (length h) i n = true) as Hs.
  { apply H. apply in_seq. apply lookup_lt_Some in Hn. lia. }
  unfold slot_ok_b in Hs. rewrite !andb_true_iff in Hs.
  destruct Hs as [[[Hp Hl] Hr] Hx].
  apply Z.eqb_eq in Hp. apply Bool.eqb_prop in Hl, Hr.
  destruct (g !! vertex n) as [x|] eqn:Ex; [|discriminate].
  apply Z.eqb_eq in Hx. unfold slot_ok. split_and!; try assumption. eauto.
Qed.

Lemma heap_ordered_b_sound (h : MinHeap) :
  heap_ordered_b h = true -> heap_ordered h.
Proof.
  unfold heap_ordered_b. rewrite forallb_forall. intros H.
  apply heap_ordered_le_parent. intros c n m Hn Hm.
  specialize (H c). rewrite Hn, Hm in H. apply Z.leb_le. apply H.
  apply in_seq. apply lookup_lt_Some in Hn. lia.
Qed.

Lemma heap_ordered_b_complete (h : MinHeap) :
  heap_ordered h -> heap_ordered_b h = true.
Proof.
  intros Hord. unfold heap_ordered_b. apply forallb_forall. intros c _.
  destruct (h !! c) as [n|] eqn:Hn; [|reflexivity].
  destruct (h !! par c) as [m|] eqn:Hm; [|reflexivity].
  apply Z.leb_le.
  pose proof (proj1 (heap_ordered_le_parent h) Hord) as Hle.
  exact (Hle c n m Hn Hm).
Qed.

Lemma heap_range_b_sound (h : MinHeap) :
  heap_range_b h = true -> heap_range h.
Proof.
  unfold heap_range_b. rewrite forallb_forall. intros H i n Hn.
  assert (In n h) as Hin.
  { apply list_elem_of_In. eapply list_elem_of_lookup_2; eassumption. }
  specialize (H n Hin). apply andb_true_iff in H. destruct H as [H1 H2].
  apply Z.leb_le in H1, H2. lia.
Qed.

(** ** Repeated [minHeapDequeue] *)

Lemma minHeapIsEmpty_nil (h : MinHeap) : minHeapIsEmpty h = true <-> h = [].
Proof.
  unfold minHeapIsEmpty, minHeapGetSize. rewrite Z.eqb_eq.
  destruct h; simpl; split; intros; try reflexivity; try discriminate; lia.
Qed.

Lemma drain_eq (fuel : nat) (g : Graph) (h : MinHeap) :
  drain fuel g h =
  if minHeapIsEmpty h then Ok []
  else
    match fuel with
    | O => Timeout
    | S fuel' =>
        top ← heapAt h 0;
        '(u, (g', h')) ← minHeapDequeue g h;
        rest ← drain fuel' g' h';
        Ok ((u, value top) :: rest)
    end.
Proof. destruct fuel; reflexivity. Qed.

Lemma drain_spec (fuel : nat) : forall (g : Graph) (h : MinHeap),
  heap_wf g h -> heap_ordered h -> heap_range h -> (length h <= fuel)%nat ->
  exists out,
    drain fuel g h = Ok out /\ length out = length h /\
    StronglySorted Z.le (snd <$> out) /\
    forall z, z ∈ snd <$> out -> exists i n, h !! i = Some n /\ value n = z.
Proof.
  induction fuel as [|fuel IH]; intros g h Hwf Hord Hrange Hfuel;
    rewrite drain_eq.
  - assert (h = []) as -> by (apply length_zero_iff_nil; lia).
    simpl. exists []. split_and!; try reflexivity; [constructor|].
    intros z Hz. inversion Hz.
  - destruct h as [|top rest] eqn:Eh.
    + simpl. exists []. split_and!; try reflexivity; [constructor|].
      intros z Hz. inversion Hz.
    + rewrite <- Eh in *.
      assert (h !! 0%nat = Some top) as Htop by (rewrite Eh; reflexivity).
      assert (minHeapIsEmpty h = false) as ->.
      { destruct (minHeapIsEmpty h) eqn:E; [|reflexivity].
        apply minHeapIsEmpty_nil in E. congruence. }
      change 0 with (Z.of_nat 0). rewrite (heapAt_Some _ _ _ Htop). step.
      destruct (minHeapDequeue_spec g h top Hwf Htop)
        as (g' & h' & E & Hwf' & _ & Hlen & Hsub & _ & Hord').
      rewrite E. step.
      assert (heap_range h') as Hrange'.
      { intros i n Hn. destruct (Hsub _ _ Hn) as (i' & n' & Hn' & En).
        rewrite lookup_drop in Hn'. rewrite <- (payload_value _ _ En). eauto. }
      destruct (IH g' h' Hwf' (Hord' Hord Hrange) Hrange' ltac:(lia))
        as (out & Eo & Hlo & Hso & Hin).
      rewrite Eo. step. exists ((vertex top, value top) :: out).
      assert (forall z, z ∈ snd <$> out ->
                exists i n, h !! i = Some n /\ value n = z) as Hin'.
      { intros z Hz. destruct (Hin z Hz) as (i & n & Hn & Ez).
        destruct (Hsub _ _ Hn) as (i' & n' & Hn' & En).
        rewrite lookup_drop in Hn'. exists (1 + i')%nat, n'.
        split; [assumption|]. rewrite (payload_value _ _ En). assumption. }
      split_and!.
      * reflexivity.
      * simpl. lia.
      * simpl. constructor; [assumption|].
        apply Forall_forall. intros z Hz.
        destruct (Hin' z Hz) as (i & n & Hn & Ez). subst z.
        eapply heap_root_min; eassumption.
      * intros z Hz. simpl in Hz. apply elem_of_cons in Hz as [->|Hz].
        -- exists 0%nat, top. auto.
        -- auto.
Qed.

(** * The graph during a run *)

(** ** Reading a field of a vertex *)

Lemma same_static_refl (g : Graph) : same_static g g.
Proof. reflexivity. Qed.

Lemma same_static_trans (g1 g2 g3 : Graph) :
  same_static g1 g2 -> same_static g2 g3 -> same_static g1 g3.
Proof. unfold same_static. congruence. Qed.

Lemma same_static_length (g g' : Graph) : same_static g g' -> length g' = length g.
Proof.
  unfold same_static. intros H. apply (f_equal length) in H.
  rewrite !length_fmap in H. congruence.
Qed.

Lemma same_static_lookup (g g' : Graph) (v : nat) (x : Vertex) :
  same_static g g' -> g !! v = Some x ->
  exists x', g' !! v = Some x' /\ static x' = static x.
Proof.
  unfold same_static. intros H Hx.
  assert ((static <$> g') !! v = Some (static x)) as E.
  { rewrite <- H, list_lookup_fmap, Hx. reflexivity. }
  rewrite list_lookup_fmap in E.
  destruct (g' !! v) as [x'|]; [|discriminate].
  exists x'. split; [reflexivity|]. simpl in E. congruence.
Qed.

Lemma same_static_edgesOf (g g' : Graph) (v : nat) :
  same_static g g' -> edgesOf g' v = edgesOf g v.
Proof.
  intros H. unfold edgesOf.
  destruct (g !! v) as [x|] eqn:Hx.
  - destruct (same_static_lookup g g' v x H Hx) as (x' & Hx' & E).
    rewrite Hx'. unfold static in E. congruence.
  - apply lookup_ge_None in Hx. rewrite <- (same_static_length _ _ H) in Hx.
    apply lookup_ge_None in Hx. rewrite Hx. reflexivity.
Qed.

Lemma same_static_nameOf (g g' : Graph) (v : nat) :
  same_static g g' -> nameOf g' v = nameOf g v.
Proof.
  intros H. unfold nameOf.
  destruct (g !! v) as [x|] eqn:Hx.
  - destruct (same_static_lookup g g' v x H Hx) as (x' & Hx' & E).
    rewrite Hx'. unfold static in E. congruence.
  - apply lookup_ge_None in Hx. rewrite <- (same_static_length _ _ H) in Hx.
    apply lookup_ge_None in Hx. rewrite Hx. reflexivity.
Qed.

Lemma same_but_position_static (g g' : Graph) :
  same_but_position g g' -> same_static g g'.
Proof.
  unfold same_but_position, same_static. intros H.
  apply (f_equal (fmap static)) in H.
  rewrite <- !list_fmap_compose in H. exact H.
Qed.

Lemma same_but_position_fields (g g' : Graph) :
  same_but_position g g' -> same_fields g g'.
Proof.
  intros H. split; [apply same_but_position_length; assumption|].
  intros v. unfold distOf, prevOf, visitedOf, edgesOf, nameOf.
  destruct (g !! v) as [x|] eqn:Hx.
  - destruct (same_but_position_lookup g g' v x H Hx)
      as (x' & Hx' & E1 & E2 & E3 & E4 & E5 & E6).
    rewrite Hx'. auto.
  - apply lookup_ge_None in Hx. rewrite <- (same_but_position_length _ _ H) in Hx.
    apply lookup_ge_None in Hx. rewrite Hx. auto.
Qed.

(** ** Writing a field of a vertex *)

Lemma graphSetVertex_lookup (g g' : Graph) (v : nat) (f : Vertex -> Vertex) :
  graphSetVertex g v f = Ok g' ->
  length g' = length g /\
  (exists x, g !! v = Some x /\ g' !! v = Some (f x)) /\
  forall w, w <> v -> g' !! w = g !! w.
Proof.
  intros H. apply graphSetVertex_inv in H as (x & Hx & ->).
  split; [apply length_insert|]. split.
  - exists x. split; [assumption|].
    apply list_lookup_insert_eq. eapply lookup_lt_Some; eassumption.
  - intros w Hw. apply list_lookup_insert_ne. congruence.
Qed.

Lemma insert_same_static (g : Graph) (v : nat) (x y : Vertex) :
  g !! v = Some x -> static y = static x -> same_static g (<[v := y]> g).
Proof.
  intros Hx E. unfold same_static. rewrite list_fmap_insert.
  symmetry. apply list_insert_id. rewrite list_lookup_fmap, Hx. simpl. congruence.
Qed.

Lemma insert_same_position (g : Graph) (v : nat) (x y : Vertex) :
  g !! v = Some x -> positionInHeap y = positionInHeap x ->
  same_position g (<[v := y]> g).
Proof.
  intros Hx E. unfold same_position. rewrite list_fmap_insert.
  symmetry. apply list_insert_id. rewrite list_lookup_fmap, Hx. simpl. congruence.
Qed.

Lemma same_position_trans (g1 g2 g3 : Graph) :
  same_position g1 g2 -> same_position g2 g3 -> same_position g1 g3.
Proof. unfold same_position. congruence. Qed.

(** ** Loops over a list *)

Lemma forEach_app {A S : Type} (body : S -> A -> result S) (s : S) (l1 l2 : list A) :
  forEach body s (l1 ++ l2) = (s' ← forEach body s l1; forEach body s' l2).
Proof.
  revert s. induction l1 as [|a l1 IH]; intros s; simpl; [reflexivity|].
  destruct (body s a); simpl; auto.
Qed.

(** A loop whose every round returns and keeps the invariant returns, and
    the invariant holds of all the list at the end. *)
Lemma forEach_total {A S : Type} (body : S -> A -> result S)
  (P : list A -> S -> Prop) (l : list A) (s : S) :
  P [] s ->
  (forall done a rest s, l = done ++ a :: rest -> P done s ->
     exists s', body s a = Ok s' /\ P (done ++ [a]) s') ->
  exists s', forEach body s l = Ok s' /\ P l s'.
Proof.
  intros H0 Hstep.
  assert (forall rest done s, l = done ++ rest -> P done s ->
            exists s', forEach body s rest = Ok s' /\ P l s') as H.
  { induction rest as [|a rest IH]; intros done s1 El HP.
    - rewrite app_nil_r in El. subst. simpl. eauto.
    - destruct (Hstep done a rest s1 El HP) as (s2 & E2 & HP2).
      simpl. rewrite E2. step. apply (IH (done ++ [a])); [|assumption].
      rewrite <- app_assoc. assumption. }
  apply (H l [] s); auto.
Qed.

(** A loop that has returned kept every invariant that its rounds keep. *)
Lemma forEach_partial {A S : Type} (body : S -> A -> result S)
  (P : S -> Prop) (l : list A) : forall (s s' : S),
  forEach body s l = Ok s' -> P s ->
  (forall a s s1, a ∈ l -> P s -> body s a = Ok s1 -> P s1) ->
  P s'.
Proof.
  induction l as [|a l IH]; intros s s' E HP Hstep; simpl in E.
  - inversion E. subst. assumption.
  - inv_bind E. apply (IH r s' E).
    + apply (Hstep a s r); [left | assumption | assumption].
    + intros b t t1 Hb. apply Hstep. right. assumption.
Qed.

(** ** The setters of [dijkstras] *)

Lemma set_distance_fields (g g' : Graph) (v : nat) (d : Z) :
  graphSetVertex g v (vertexSetDistanceFromSource d) = Ok g' ->
  (v < length g)%nat /\ same_static g g' /\ same_position g g' /\
  (forall w, distOf g' w = if decide (w = v) then d else distOf g w) /\
  (forall w, prevOf g' w = prevOf g w) /\
  (forall w, visitedOf g' w = visitedOf g w).
Proof.
  intros H. apply graphSetVertex_inv in H as (x & Hx & ->).
  pose proof (lookup_lt_Some _ _ _ Hx) as Hv.
  split_and!; [assumption | | | | |].
  - apply (insert_same_static g v x); auto.
  - apply (insert_same_position g v x); auto.
  - intros w. unfold distOf. destruct (decide (w = v)) as [->|Hw].
    + rewrite list_lookup_insert_eq by assumption. reflexivity.
    + rewrite list_lookup_insert_ne by congruence. reflexivity.
  - intros w. unfold prevOf. destruct (decide (w = v)) as [->|Hw].
    + rewrite list_lookup_insert_eq, Hx by assumption. reflexivity.
    + rewrite list_lookup_insert_ne by congruence. reflexivity.
  - intros w. unfold visitedOf. destruct (decide (w = v)) as [->|Hw].
    + rewrite list_lookup_insert_eq, Hx by assumption. reflexivity.
    + rewrite list_lookup_insert_ne by congruence. reflexivity.
Qed.

Lemma set_previous_fields (g g' : Graph) (v : nat) (p : option nat) :
  graphSetVertex g v (vertexSetPrevious p) = Ok g' ->
  (v < length g)%nat /\ same_static g g' /\ same_position g g' /\
  (forall w, distOf g' w = distOf g w) /\
  (forall w, prevOf g' w = if decide (w = v) then p else prevOf g w) /\
  (forall w, visitedOf g' w = visitedOf g w).
Proof.
  intros H. apply graphSetVertex_inv in H as (x & Hx & ->).
  pose proof (lookup_lt_Some _ _ _ Hx) as Hv.
  split_and!; [assumption | | | | |].
  - apply (insert_same_static g v x); auto.
  - apply (insert_same_position g v x); auto.
  - intros w. unfold distOf. destruct (decide (w = v)) as [->|Hw].
    + rewrite list_lookup_insert_eq, Hx by assumption. reflexivity.
    + rewrite list_lookup_insert_ne by congruence. reflexivity.
  - intros w. unfold prevOf. destruct (decide (w = v)) as [->|Hw].
    + rewrite list_lookup_insert_eq by assumption. reflexivity.
    + rewrite list_lookup_insert_ne by congruence. reflexivity.
  - intros w. unfold visitedOf. destruct (decide (w = v)) as [->|Hw].
    + rewrite list_lookup_insert_eq, Hx by assumption. reflexivity.
    + rewrite list_lookup_insert_ne by congruence. reflexivity.
Qed.

Lemma set_visited_fields (g g' : Graph) (v : nat) (b : bool) :
  graphSetVertex g v (vertexSetVisited b) = Ok g' ->
  (v < length g)%nat /\ same_static g g' /\ same_position g g' /\
  (forall w, distOf g' w = distOf g w) /\
  (forall w, prevOf g' w = prevOf g w) /\
  (forall w, visitedOf g' w = if decide (w = v) then b else visitedOf g w).
Proof.
  intros H. apply graphSetVertex_inv in H as (x & Hx & ->).
  pose proof (lookup_lt_Some _ _ _ Hx) as Hv.
  split_and!; [assumption | | | | |].
  - apply (insert_same_static g v x); auto.
  - apply (insert_same_position g v x); auto.
  - intros w. unfold distOf. destruct (decide (w = v)) as [->|Hw].
    + rewrite list_lookup_insert_eq, Hx by assumption. reflexivity.
    + rewrite list_lookup_insert_ne by congruence. reflexivity.
  - intros w. unfold prevOf. destruct (decide (w = v)) as [->|Hw].
    + rewrite list_lookup_insert_eq, Hx by assumption. reflexivity.
    + rewrite list_lookup_insert_ne by congruence. reflexivity.
  - intros w. unfold visitedOf. destruct (decide (w = v)) as [->|Hw].
    + rewrite list_lookup_insert_eq by assumption. reflexivity.
    + rewrite list_lookup_insert_ne by congruence. reflexivity.
Qed.

Lemma graphSetVertex_total (g : Graph) (v : nat) (f : Vertex -> Vertex) :
  (v < length g)%nat -> exists g', graphSetVertex g v f = Ok g'.
Proof.
  intros Hv. destruct (lookup_lt_is_Some_2 g v Hv) as [x Hx].
  rewrite (graphSetVertex_Some _ _ _ _ Hx). eauto.
Qed.

(** ** What the heap operations change in the graph, whatever the heap *)

Lemma swapNode_frame (g g' : Graph) (h h' : MinHeap) (c o : Z) :
  swapNode g h c o = Ok (g', h') ->
  same_but_position g g' /\ length h' = length h.
Proof.
  unfold swapNode. intros H. inv_bind H. inv_bind H. inv_bind H. inv_bind H.
  inversion H; subst. clear H.
  apply graphSetVertex_inv in Hr1 as (x1 & Hx1 & ->).
  apply graphSetVertex_inv in Hr2 as (x2 & Hx2 & ->).
  split.
  - eapply same_but_position_trans; apply same_but_position_set; eassumption.
  - rewrite !length_insert. reflexivity.
Qed.

Lemma siftUp_frame (fuel : nat) : forall (g g' : Graph) (h h' : MinHeap) (c : Z),
  siftUp fuel g h c = Ok (g', h') ->
  same_but_position g g' /\ length h' = length h.
Proof.
  induction fuel as [|fuel IH]; intros g g' h h' c H; rewrite siftUp_eq in H;
    inv_bind H; inv_bind H; destruct (value r <? value r0).
  - discriminate.
  - inversion H; subst. split; [apply same_but_position_refl | reflexivity].
  - inv_bind H. destruct r1 as [g1 h1].
    apply swapNode_frame in Hr1 as [F1 L1]. apply IH in H as [F2 L2].
    split; [eapply same_but_position_trans; eassumption | congruence].
  - inversion H; subst. split; [apply same_but_position_refl | reflexivity].
Qed.

Lemma siftDownStep_frame (g : Graph) (h : MinHeap) (c : Z) :
  siftDownStep g h c = Ok None \/
  siftDownStep g h c = Fault \/ siftDownStep g h c = Timeout \/
  exists o g' h', siftDownStep g h c = Ok (Some (o, (g', h'))) /\
    swapNode g h c o = Ok (g', h').
Proof.
  unfold siftDownStep.
  destruct (heapAt h c) as [cur| |]; step; auto.
  destruct (hasChildLeft cur), (hasChildRight cur); step; auto.
  - destruct (heapAt h (2 * c + 1)) as [l| |]; step; auto.
    destruct (heapAt h (2 * c + 2)) as [r| |]; step; auto.
    destruct ((value l <=? value cur) || (value r <=? value cur)); auto.
    destruct (wrap_int (value r - value l) <=? 0).
    + destruct (swapNode g h c (2 * c + 2)) as [[g' h']| |] eqn:E; step; auto.
      right. right. right. eauto.
    + destruct (swapNode g h c (2 * c + 1)) as [[g' h']| |] eqn:E; step; auto.
      right. right. right. eauto.
  - destruct (heapAt h (2 * c + 1)) as [l| |]; step; auto.
    destruct (value l <=? value cur); auto.
    destruct (swapNode g h c (2 * c + 1)) as [[g' h']| |] eqn:E; step; auto.
    right. right. right. eauto.
  - destruct (heapAt h (2 * c + 2)) as [r| |]; step; auto.
    destruct (value r <=? value cur); auto.
    destruct (swapNode g h c (2 * c + 2)) as [[g' h']| |] eqn:E; step; auto.
    right. right. right. eauto.
Qed.

Lemma siftDownFrom_frame (fuel : nat) : forall (g g' : Graph) (h h' : MinHeap) (c : Z),
  siftDownFrom fuel g h c = Ok (g', h') ->
  same_but_position g g' /\ length h' = length h.
Proof.
  induction fuel as [|fuel IH]; intros g g' h h' c H; rewrite siftDownFrom_eq in H;
    destruct (siftDownStep_frame g h c)
      as [E | [E | [E | (o & g1 & h1 & E & Es)]]]; rewrite E in H; simpl in H;
    try discriminate;
    try (inversion H; subst; split; [apply same_but_position_refl | reflexivity]).
  apply swapNode_frame in Es as [F1 L1]. apply IH in H as [F2 L2].
  split; [eapply same_but_position_trans; eassumption | congruence].
Qed.

Lemma heapUpdate_length (h h' : MinHeap) (i : Z) (f : Node -> Node) :
  heapUpdate h i f = Ok h' -> length h' = length h.
Proof.
  unfold heapUpdate. intros H. inv_bind H. inversion H. apply length_insert.
Qed.

Lemma minHeapDequeue_frame (g g' : Graph) (h h' : MinHeap) (u : nat) :
  minHeapDequeue g h = Ok (u, (g', h')) ->
  same_but_position g g' /\ length h = S (length h').
Proof.
  unfold minHeapDequeue, minHeapGetSize. intros H. inv_bind H.
  apply heapAt_inv in Hr as (i & Hi & Hlook).
  pose proof (lookup_lt_Some _ _ _ Hlook) as Hlen.
  destruct (1 <? Z.of_nat (length h)).
  - inv_bind H as last Hlast. inv_bind H as g1 Hg1. inv_bind H as h2 Hh2.
    inv_bind H as s Hs. inversion H; subst. clear H.
    unfold minHeapSiftDown in Hs. apply siftDownFrom_frame in Hs as [F L].
    apply graphSetVertex_inv in Hg1 as (x & Hx & ->).
    assert (length h2 = length h) as L2.
    { destruct (Z.of_nat (length h) `rem` 2 =? 0);
        apply heapUpdate_length in Hh2; rewrite Hh2; apply length_insert. }
    split.
    + eapply same_but_position_trans; [apply same_but_position_set|]; eassumption.
    + rewrite L, length_take, L2. lia.
  - inversion H; subst. split; [apply same_but_position_refl|].
    rewrite length_take. lia.
Qed.

Lemma minHeapDecreaseNodeValue_frame (g g' : Graph) (h h' : MinHeap) (v : nat) :
  minHeapDecreaseNodeValue g h v = Ok (g', h') ->
  same_but_position g g' /\ length h' = length h.
Proof.
  unfold minHeapDecreaseNodeValue. intros H. inv_bind H. inv_bind H.
  apply siftUp_frame in H as [F L]. apply heapUpdate_length in Hr0.
  split; [assumption | congruence].
Qed.

(** * The reset phase of [dijkstras] *)

Lemma graph_wf_static (g g' : Graph) :
  same_static g g' -> graph_wf g -> graph_wf g'.
Proof.
  intros Hs Hwf v x' Hx'.
  destruct (same_static_lookup g' g v x' (eq_sym Hs) Hx') as (x & Hx & E).
  destruct (Hwf v x Hx) as [Hn He]. unfold static in E.
  rewrite (same_static_length _ _ Hs).
  replace (vertexNumber x') with (vertexNumber x) by congruence.
  replace (edges x') with (edges x) by congruence. auto.
Qed.

Lemma graph_wf_edgesOf (g : Graph) (v : nat) (e : Edge) :
  graph_wf g -> e ∈ edgesOf g v ->
  edge_start e = v /\ (edge_end e < length g)%nat /\ 1 <= edge_distance e <= INT_MAX.
Proof.
  intros Hwf He. unfold edgesOf in He.
  destruct (g !! v) as [x|] eqn:Hx; [|inversion He].
  destruct (Hwf v x Hx) as [_ H]. auto.
Qed.

Lemma in_heap_app_one (h : MinHeap) (n : Node) (v : nat) :
  in_heap (h ++ [n]) v <-> in_heap h v \/ vertex n = v.
Proof.
  rewrite !in_heap_elem_of, fmap_app, elem_of_app. simpl.
  rewrite list_elem_of_singleton. intuition congruence.
Qed.

Lemma seq_split_index (n : nat) (done rest : list nat) (a : nat) :
  seq 0 n = done ++ a :: rest -> a = length done /\ (a < n)%nat.
Proof.
  intros E.
  assert (seq 0 n !! length done = Some a) as H.
  { rewrite E. apply list_lookup_middle. reflexivity. }
  apply lookup_seq in H. simpl in H. lia.
Qed.

Lemma distOf_lookup (g : Graph) (v : nat) (x : Vertex) :
  g !! v = Some x -> distOf g v = distanceFromSource x.
Proof. intros H. unfold distOf. rewrite H. reflexivity. Qed.

Lemma resetVertex_spec (g0 : Graph) (s i : nat) (st : Graph * MinHeap) :
  (i < length g0)%nat -> reset_inv g0 s i st ->
  exists st', resetVertex s st i = Ok st' /\ reset_inv g0 s (S i) st'.
Proof.
  destruct st as [g h]. unfold reset_inv. simpl.
  intros Hi (Hst & Hwf & Hord & Hmir & Hlen & Hin & Hds & Hdone).
  pose proof (same_static_length _ _ Hst) as Hlg.
  (* the three writes *)
  assert (exists g1, (if decide (i = s) then Ok g
                      else graphSetVertex g i (vertexSetDistanceFromSource INT_MAX))
                     = Ok g1 /\
            same_static g g1 /\ same_position g g1 /\
            (forall w, distOf g1 w =
               if decide (w = i) then (if decide (i = s) then 0 else INT_MAX)
               else distOf g w) /\
            (forall w, prevOf g1 w = prevOf g w) /\
            (forall w, visitedOf g1 w = visitedOf g w))
    as (g1 & E1 & S1 & P1 & D1 & V1 & W1).
  { destruct (decide (i = s)) as [->|Hne].
    - exists g. split_and!; try reflexivity.
      intros w. destruct (decide (w = s)) as [->|]; [assumption | reflexivity].
    - destruct (graphSetVertex_total g i (vertexSetDistanceFromSource INT_MAX)
                  ltac:(lia)) as [g1 E1].
      exists g1. split; [assumption|].
      destruct (set_distance_fields _ _ _ _ E1) as (_ & A & B & C & D & E).
      auto. }
  pose proof (same_static_length _ _ S1) as L1.
  destruct (graphSetVertex_total g1 i (vertexSetPrevious None) ltac:(lia))
    as [g2 E2].
  destruct (set_previous_fields _ _ _ _ E2) as (_ & S2 & P2 & D2 & V2 & W2).
  pose proof (same_static_length _ _ S2) as L2.
  destruct (graphSetVertex_total g2 i (vertexSetVisited false) ltac:(lia))
    as [g3 E3].
  destruct (set_visited_fields _ _ _ _ E3) as (_ & S3 & P3 & D3 & V3 & W3).
  pose proof (same_static_length _ _ S3) as L3.
  assert (same_position g g3) as P03
    by (eapply same_position_trans; [|eassumption];
        eapply same_position_trans; eassumption).
  assert (forall w, distOf g3 w =
            if decide (w = i) then (if decide (i = s) then 0 else INT_MAX)
            else distOf g w) as D03
    by (intros w; rewrite D3, D2, D1; reflexivity).
  destruct (lookup_lt_is_Some_2 g3 i ltac:(lia)) as [x3 Hx3].
  assert (~ in_heap h i) as Hnot by (rewrite Hin; lia).
  destruct (minHeapEnqueue_spec g3 h i x3
              (heap_wf_same_position _ _ _ P03 Hwf) Hx3 Hnot)
    as (g4 & h4 & E4 & Hwf4 & F4 & Hlen4 & Sa & Sb & Hord4).
  exists (g4, h4). split.
  { unfold resetVertex. rewrite E1. step. rewrite E2. step. rewrite E3. step.
    assumption. }
  simpl.
  destruct (same_but_position_fields _ _ F4) as [L4 Hf4].
  set (nd := nodeConstructor (Z.of_nat (length h)) x3 i) in *.
  assert (heap_mirror g3 (h ++ [nd])) as Hmir3.
  { intros k n Hn. destruct (decide (k < length h)%nat) as [Hk|Hk].
    - rewrite lookup_app_l in Hn by assumption.
      destruct (Hmir _ _ Hn) as (x & Hx & Vx).
      assert (vertex n <> i) as Hvi.
      { intros E. assert (in_heap h i) by (exists k, n; auto). tauto. }
      destruct (lookup_lt_is_Some_2 g3 (vertex n)) as [y Hy].
      { apply lookup_lt_Some in Hx. lia. }
      exists y. split; [assumption|].
      rewrite <- (distOf_lookup _ _ _ Hy), D03, (distOf_lookup _ _ _ Hx).
      destruct (decide (vertex n = i)); [contradiction | assumption].
    - apply lookup_lt_Some in Hn as Hlt. rewrite length_app in Hlt. simpl in Hlt.
      assert (k = length h) as -> by lia.
      rewrite list_lookup_middle in Hn by reflexivity.
      inversion Hn; subst n. simpl. eauto. }
  split_and!.
  - eapply same_static_trans; [exact Hst|].
    eapply same_static_trans; [exact S1|].
    eapply same_static_trans; [exact S2|].
    eapply same_static_trans; [exact S3|].
    apply same_but_position_static. assumption.
  - assumption.
  - auto.
  - eapply heap_mirror_sub; eassumption.
  - lia.
  - intros v. split.
    + intros Hv. apply (payloads_sub_in_heap _ _ _ Sb) in Hv.
      apply in_heap_app_one in Hv as [Hv | Hv].
      * apply Hin in Hv. lia.
      * simpl in Hv. lia.
    + intros Hv. apply (payloads_sub_in_heap _ _ _ Sa).
      apply in_heap_app_one. destruct (decide (v = i)) as [->|Hne].
      * right. reflexivity.
      * left. apply Hin. lia.
  - destruct (Hf4 s) as (-> & _). rewrite D03.
    destruct (decide (s = i)) as [->|]; [|assumption].
    destruct (decide (i = i)); [reflexivity | congruence].
  - intros v Hv. destruct (Hf4 v) as (-> & -> & -> & _).
    rewrite D03, V3, V2, W3.
    destruct (decide (v = i)) as [->|Hne].
    + split_and!; reflexivity.
    + rewrite V1, W2, W1. destruct (Hdone v ltac:(lia)) as (A & B & C). auto.
Qed.

Lemma dijkstrasReset_spec (g : Graph) (s : nat) :
  (s < length g)%nat ->
  exists st, dijkstrasReset g [] s = Ok st /\ reset_inv g s (length g) st.
Proof.
  intros Hs.
  destruct (graphSetVertex_total g s (vertexSetDistanceFromSource 0) Hs)
    as [g0 E0].
  destruct (set_distance_fields _ _ _ _ E0) as (_ & S0 & P0 & D0 & V0 & W0).
  pose proof (same_static_length _ _ S0) as L0.
  unfold dijkstrasReset. rewrite E0. step. rewrite L0.
  destruct (forEach_total (resetVertex s)
              (fun done st => reset_inv g s (length done) st)
              (seq 0 (length g)) (g0, [])) as (st & E & Hinv).
  - simpl. unfold reset_inv. simpl. split_and!; try assumption.
    + intros i n Hn. discriminate.
    + intros i c n m Hn. discriminate.
    + intros i n Hn. discriminate.
    + reflexivity.
    + intros v. split; [intros (i & n & Hn & _); discriminate | lia].
    + rewrite D0. destruct (decide (s = s)); [reflexivity | congruence].
    + intros v Hv. lia.
  - intros done a rest st El HP.
    apply seq_split_index in El as [-> Ha].
    destruct (resetVertex_spec g s (length done) st Ha HP) as (st' & E' & HP').
    exists st'. split; [assumption|].
    rewrite length_app. simpl. replace (length done + 1)%nat with (S (length done)) by lia.
    assumption.
  - exists st. rewrite length_seq in Hinv. auto.
Qed.

Lemma reset_first_dequeue (g0 : Graph) (s : nat) (g : Graph) (h : MinHeap) :
  (s < length g0)%nat -> reset_inv g0 s (length g0) (g, h) ->
  exists top, h !! 0%nat = Some top /\ vertex top = s.
Proof.
  unfold reset_inv. simpl.
  intros Hs (Hst & Hwf & Hord & Hmir & Hlen & Hin & Hds & Hdone).
  destruct (lookup_lt_is_Some_2 h 0%nat ltac:(lia)) as [top Htop].
  exists top. split; [assumption|].
  destruct (proj2 (Hin s) Hs) as (k & n & Hn & Hv).
  pose proof (heap_root_min h top Hord Htop k n Hn) as Hle.
  destruct (Hmir _ _ Hn) as (x & Hx & Vx). rewrite Hv in Hx.
  destruct (Hmir _ _ Htop) as (y & Hy & Vy).
  assert (vertex top < length g0)%nat as Hvt by (apply Hin; exists 0%nat, top; auto).
  destruct (Hdone _ Hvt) as (Hd & _). rewrite (distOf_lookup _ _ _ Hy) in Hd.
  rewrite (distOf_lookup _ _ _ Hx) in Hds.
  destruct (decide (vertex top = s)); [assumption|].
  unfold INT_MAX in Hd. lia.
Qed.

(** * The relaxation loop of [dijkstras] *)

Lemma visitedOf_lookup (g : Graph) (v : nat) (x : Vertex) :
  g !! v = Some x -> visitedOf g v = visited x.
Proof. intros H. unfold visitedOf. rewrite H. reflexivity. Qed.

Lemma in_heap_same (h h' : MinHeap) :
  payloads_sub h h' -> payloads_sub h' h -> forall w, in_heap h' w <-> in_heap h w.
Proof. intros A B w. split; apply payloads_sub_in_heap; assumption. Qed.

Lemma in_heap_insert_value (h : MinHeap) (k : nat) (n : Node) (d : Z) (w : nat) :
  h !! k = Some n -> in_heap (<[k := nodeSetValue d n]> h) w <-> in_heap h w.
Proof.
  intros Hn. pose proof (lookup_lt_Some _ _ _ Hn) as Hk. split.
  - intros (i & m & Hm & E). destruct (decide (i = k)) as [->|Hik].
    + rewrite list_lookup_insert_eq in Hm by assumption. inversion Hm; subst m.
      exists k, n. auto.
    + rewrite list_lookup_insert_ne in Hm by congruence. exists i, m. auto.
  - intros (i & m & Hm & E). destruct (decide (i = k)) as [->|Hik].
    + exists k, (nodeSetValue d n). rewrite list_lookup_insert_eq by assumption.
      split; [reflexivity|]. simpl. congruence.
    + exists i, m. rewrite list_lookup_insert_ne by congruence. auto.
Qed.

(** One edge of [u]: either nothing changes, or the end of the edge gets
    the new distance and [u] as its predecessor, and its entry in the heap
    is brought up to date. *)
Lemma relaxEdge_cases (u : nat) (g : Graph) (h : MinHeap) (e : Edge) :
  let v := edge_end e in
  let alt := wrap_int (distOf g u + edge_distance e) in
  (v < length g)%nat -> (u < length g)%nat -> heap_wf g h ->
  (visitedOf g v = false -> alt < distOf g v -> in_heap h v) ->
  exists g' h',
    relaxEdge u (g, h) e = Ok (g', h') /\
    (((visitedOf g v = true \/ distOf g v <= alt) /\ g' = g /\ h' = h) \/
     (visitedOf g v = false /\ alt < distOf g v /\
      same_static g g' /\ heap_wf g' h' /\ length h' = length h /\
      (forall w, distOf g' w = if decide (w = v) then alt else distOf g w) /\
      (forall w, prevOf g' w = if decide (w = v) then Some u else prevOf g w) /\
      (forall w, visitedOf g' w = visitedOf g w) /\
      (forall w, in_heap h' w <-> in_heap h w) /\
      (heap_mirror g h -> heap_mirror g' h') /\
      (heap_mirror g h -> heap_ordered h -> heap_ordered h'))).
Proof.
  intros v alt Hv Hu Hwf Hheap.
  destruct (lookup_lt_is_Some_2 g v Hv) as [xv Hxv].
  destruct (lookup_lt_is_Some_2 g u Hu) as [xu Hxu].
  unfold relaxEdge, graphGetVertex. fold v. rewrite Hxv. step.
  rewrite (visitedOf_lookup _ _ _ Hxv) in *.
  destruct (visited xv) eqn:Evis.
  { exists g, h. split; [reflexivity|]. left. auto. }
  rewrite Hxu. step.
  rewrite <- (distOf_lookup _ _ _ Hxu), <- (distOf_lookup _ _ _ Hxv). fold alt.
  destruct (Z.ltb_spec alt (distOf g v)) as [Hlt|Hge].
  2:{ exists g, h. split; [reflexivity|]. left. auto. }
  destruct (Hheap eq_refl Hlt) as (k & nk & Hnk & Hvk).
  destruct (graphSetVertex_total g v (vertexSetDistanceFromSource alt) Hv)
    as [g1 E1].
  destruct (set_distance_fields _ _ _ _ E1) as (_ & S1 & P1 & D1 & V1 & W1).
  pose proof (same_static_length _ _ S1) as L1.
  destruct (graphSetVertex_total g1 v (vertexSetPrevious (Some u)) ltac:(lia))
    as [g2 E2].
  destruct (set_previous_fields _ _ _ _ E2) as (_ & S2 & P2 & D2 & V2 & W2).
  pose proof (same_static_length _ _ S2) as L2.
  rewrite E1. step. rewrite E2. step.
  destruct (lookup_lt_is_Some_2 g2 v ltac:(lia)) as [x2 Hx2].
  assert (heap_wf g2 h) as Hwf2.
  { eapply heap_wf_same_position; [|exact Hwf].
    eapply same_position_trans; eassumption. }
  assert (distanceFromSource x2 = alt) as Hd2.
  { rewrite <- (distOf_lookup _ _ _ Hx2), D2, D1.
    destruct (decide (v = v)); [reflexivity | congruence]. }
  destruct (minHeapDecreaseNodeValue_spec g2 h v x2 k nk Hwf2 Hx2 Hnk Hvk)
    as (g3 & h3 & E3 & Hwf3 & F3 & Hlen3 & Sa & Sb & Hord3).
  rewrite Hd2 in Sa, Sb.
  destruct (same_but_position_fields _ _ F3) as [L3 Hf3].
  exists g3, h3. split; [assumption|]. right.
  assert (heap_mirror g h -> heap_mirror g2 (<[k := nodeSetValue alt nk]> h))
    as Hmir2.
  { intros Hmir i n Hn. destruct (decide (i = k)) as [->|Hik].
    - rewrite list_lookup_insert_eq in Hn by (eapply lookup_lt_Some; eassumption).
      inversion Hn; subst n. simpl. exists x2. rewrite Hvk. auto.
    - rewrite list_lookup_insert_ne in Hn by congruence.
      destruct (Hmir _ _ Hn) as (x & Hx & Vx).
      assert (vertex n <> v) as Hne.
      { intros E. apply Hik.
        apply (heap_wf_vertex_inj g h i k n nk Hwf Hn Hnk). congruence. }
      destruct (lookup_lt_is_Some_2 g2 (vertex n)) as [y Hy].
      { apply lookup_lt_Some in Hx. lia. }
      exists y. split; [assumption|].
      rewrite <- (distOf_lookup _ _ _ Hy), D2, D1, (distOf_lookup _ _ _ Hx).
      destruct (decide (vertex n = v)); [contradiction | assumption]. }
  split_and!; try assumption; try reflexivity.
  - eapply same_static_trans; [exact S1|].
    eapply same_static_trans; [exact S2|].
    apply same_but_position_static. assumption.
  - intros w. destruct (Hf3 w) as (-> & _). rewrite D2, D1. reflexivity.
  - intros w. destruct (Hf3 w) as (_ & -> & _). rewrite V2, V1. reflexivity.
  - intros w. destruct (Hf3 w) as (_ & _ & -> & _). rewrite W2, W1. reflexivity.
  - intros w. rewrite (in_heap_same _ _ Sa Sb w).
    apply in_heap_insert_value. assumption.
  - intros Hmir. eapply heap_mirror_sub; [exact Sb | exact F3 | auto].
  - intros Hmir Hord. apply Hord3; [assumption|].
    rewrite Hd2. destruct (Hmir _ _ Hnk) as (x & Hx & Vx).
    rewrite Hvk in Hx. rewrite Vx, <- (distOf_lookup _ _ _ Hx). lia.
Qed.

(** What [relaxEdge] changes, whatever the state of the heap: nothing of
    a visited vertex. *)
Lemma relaxEdge_frame (u : nat) (g g' : Graph) (h h' : MinHeap) (e : Edge) :
  relaxEdge u (g, h) e = Ok (g', h') ->
  same_static g g' /\ length h' = length h /\
  (forall w, visitedOf g' w = visitedOf g w) /\
  (forall w, visitedOf g w = true ->
     distOf g' w = distOf g w /\ prevOf g' w = prevOf g w).
Proof.
  unfold relaxEdge. intros H. inv_bind H as xv Hxv.
  apply graphGetVertex_Ok in Hxv.
  destruct (visited xv) eqn:Evis.
  { inversion H; subst. split_and!; auto using same_static_refl. }
  inv_bind H as xu Hxu.
  destruct (_ <? _).
  2:{ inversion H; subst. split_and!; auto using same_static_refl. }
  inv_bind H as g1 E1. inv_bind H as g2 E2.
  destruct (set_distance_fields _ _ _ _ E1) as (_ & S1 & P1 & D1 & V1 & W1).
  destruct (set_previous_fields _ _ _ _ E2) as (_ & S2 & P2 & D2 & V2 & W2).
  apply minHeapDecreaseNodeValue_frame in H as [F3 L3].
  destruct (same_but_position_fields _ _ F3) as [_ Hf3].
  split_and!.
  - eapply same_static_trans; [exact S1|].
    eapply same_static_trans; [exact S2|].
    apply same_but_position_static. assumption.
  - assumption.
  - intros w. destruct (Hf3 w) as (_ & _ & -> & _). rewrite W2, W1. reflexivity.
  - intros w Hw. destruct (Hf3 w) as (-> & -> & _). rewrite D2, D1, V2, V1.
    destruct (decide (w = edge_end e)) as [->|]; [|auto].
    rewrite (visitedOf_lookup _ _ _ Hxv) in Hw. congruence.
Qed.

(** ** The loop returns on a graph without self-loops *)

Lemma dequeue_in_heap (g : Graph) (h h' : MinHeap) (top : Node) :
  heap_wf g h -> h !! 0%nat = Some top ->
  payloads_sub h' (drop 1 h) -> payloads_sub (drop 1 h) h' ->
  forall w, in_heap h' w <-> in_heap h w /\ w <> vertex top.
Proof.
  intros Hwf Htop Sa Sb w. split.
  - intros Hw. apply (payloads_sub_in_heap _ _ _ Sa) in Hw.
    destruct Hw as (i & n & Hn & E). rewrite lookup_drop in Hn. split.
    + exists (1 + i)%nat, n. auto.
    + intros Ew.
      assert (1 + i = 0)%nat; [|lia].
      apply (heap_wf_vertex_inj g h _ _ n top Hwf Hn Htop). congruence.
  - intros [(i & n & Hn & E) Hne]. apply (payloads_sub_in_heap _ _ _ Sb).
    destruct i as [|i].
    + exfalso. apply Hne. congruence.
    + exists i, n. rewrite lookup_drop. auto.
Qed.

Lemma edgesOf_lookup (g : Graph) (v : nat) (x : Vertex) :
  g !! v = Some x -> edgesOf g v = edges x.
Proof. intros H. unfold edgesOf. rewrite H. reflexivity. Qed.

Lemma prevOf_lookup (g : Graph) (v : nat) (x : Vertex) :
  g !! v = Some x -> prevOf g v = previous x.
Proof. intros H. unfold prevOf. rewrite H. reflexivity. Qed.

Lemma nameOf_lookup (g : Graph) (v : nat) (x : Vertex) :
  g !! v = Some x -> nameOf g v = cityName x.
Proof. intros H. unfold nameOf. rewrite H. reflexivity. Qed.

Lemma dijkstrasRound_eq (g : Graph) (h : MinHeap) :
  dijkstrasRound g h =
  (r ← minHeapDequeue g h;
   xu ← graphGetVertex r.2.1 r.1;
   s2 ← forEach (relaxEdge r.1) r.2 (edges xu);
   g3 ← graphSetVertex s2.1 r.1 (vertexSetVisited true);
   Ok (g3, s2.2)).
Proof.
  unfold dijkstrasRound. destruct (minHeapDequeue g h) as [[u [g1 h1]]| |]; simpl; auto.
  destruct (graphGetVertex g1 u); simpl; auto.
  destruct (forEach _ _ _) as [[g2 h2]| |]; reflexivity.
Qed.

Section Structure.

Variable g0 : Graph.
Hypothesis Hg0 : graph_wf g0.
Hypothesis Hloops : no_self_loops g0.

Lemma dijkstrasRound_struct (g : Graph) (h : MinHeap) :
  struct_inv g0 g h -> h <> [] ->
  exists g' h', dijkstrasRound g h = Ok (g', h') /\
    struct_inv g0 g' h' /\ length h = S (length h').
Proof.
  intros (Hst & Hwf & Hvis) Hne.
  destruct h as [|top rest] eqn:Eh; [congruence|]. rewrite <- Eh in *.
  assert (h !! 0%nat = Some top) as Htop by (rewrite Eh; reflexivity).
  destruct (minHeapDequeue_spec g h top Hwf Htop)
    as (g1 & h1 & E1 & Hwf1 & F1 & Hlen1 & Sa & Sb & _).
  pose proof (dequeue_in_heap g h h1 top Hwf Htop Sa Sb) as Hin1.
  set (u := vertex top) in *.
  pose proof (same_static_length _ _ Hst) as Lg.
  destruct (same_but_position_fields _ _ F1) as [L1 Hf1].
  assert (same_static g0 g1) as Hst1.
  { eapply same_static_trans; [exact Hst|].
    apply same_but_position_static. assumption. }
  assert (u < length g0)%nat as Hu.
  { destruct (Hwf _ _ Htop) as (_ & _ & _ & x & Hx & _).
    apply lookup_lt_Some in Hx. fold u in Hx. lia. }
  destruct (lookup_lt_is_Some_2 g1 u ltac:(lia)) as [xu Hxu].
  assert (edges xu = edgesOf g0 u) as Hedges.
  { rewrite <- (edgesOf_lookup _ _ _ Hxu). apply same_static_edgesOf. assumption. }
  destruct (forEach_total (relaxEdge u)
    (fun (_ : list Edge) st =>
       same_static g0 st.1 /\ heap_wf st.1 st.2 /\ length st.2 = length h1 /\
       forall v, (v < length g0)%nat -> visitedOf st.1 v = false ->
                 v = u \/ in_heap st.2 v)
    (edges xu) (g1, h1)) as ([g2 h2] & E2 & Hst2 & Hwf2 & Hlen2 & Hvis2).
  - simpl. split_and!; auto.
    intros v Hv Hvv. destruct (decide (v = u)); [left; assumption|].
    right. apply Hin1. split; [|assumption]. apply Hvis; [assumption|].
    destruct (Hf1 v) as (_ & _ & <- & _). assumption.
  - intros done e more [ga ha] El (Hsta & Hwfa & Hlena & Hvisa). simpl in *.
    assert (e ∈ edgesOf g0 u) as He.
    { rewrite <- Hedges, El. apply elem_of_app. right. left. }
    destruct (graph_wf_edgesOf g0 u e Hg0 He) as (_ & Hend & _).
    pose proof (Hloops u e He) as Hnot.
    pose proof (same_static_length _ _ Hsta) as La.
    destruct (relaxEdge_cases u ga ha e ltac:(lia) ltac:(lia) Hwfa)
      as (gb & hb & Eb & Hcase).
    { intros Hv _. destruct (Hvisa (edge_end e) Hend Hv); [contradiction | assumption]. }
    exists (gb, hb). split; [assumption|]. simpl.
    destruct Hcase as [(_ & -> & ->) |
      (_ & _ & Sb' & Hwfb & Hlenb & _ & _ & Vb & Ib & _)].
    + auto.
    + split_and!; auto.
      * eapply same_static_trans; eassumption.
      * congruence.
      * intros v Hv Hvv. rewrite Vb in Hvv. rewrite Ib. auto.
  - simpl in *.
    pose proof (same_static_length _ _ Hst2) as L2.
    destruct (graphSetVertex_total g2 u (vertexSetVisited true) ltac:(lia))
      as [g3 E3].
    destruct (set_visited_fields _ _ _ _ E3) as (_ & S3 & P3 & D3 & V3 & W3).
    exists g3, h2. split.
    + rewrite dijkstrasRound_eq, E1. step. simpl.
      unfold graphGetVertex. rewrite Hxu. step. rewrite E2. step. simpl.
      rewrite E3. reflexivity.
    + split; [|simpl in Hlen1; lia].
      split_and!.
      * eapply same_static_trans; eassumption.
      * eapply heap_wf_same_position; eassumption.
      * intros v Hv Hvv. rewrite W3 in Hvv.
        destruct (decide (v = u)); [discriminate|].
        destruct (Hvis2 v Hv Hvv); [contradiction | assumption].
Qed.

Lemma dijkstrasLoop_eq (fuel : nat) (g : Graph) (h : MinHeap) :
  dijkstrasLoop fuel g h =
  if minHeapIsEmpty h then Ok (g, h)
  else
    match fuel with
    | O => Timeout
    | S fuel' => '(g', h') ← dijkstrasRound g h; dijkstrasLoop fuel' g' h'
    end.
Proof. destruct fuel; reflexivity. Qed.

Lemma dijkstrasLoop_struct (fuel : nat) : forall (g : Graph) (h : MinHeap),
  struct_inv g0 g h -> (length h <= fuel)%nat ->
  exists g', dijkstrasLoop fuel g h = Ok (g', []) /\ same_static g0 g'.
Proof.
  induction fuel as [|fuel IH]; intros g h Hinv Hfuel; rewrite dijkstrasLoop_eq.
  - assert (h = []) as -> by (apply length_zero_iff_nil; lia).
    simpl. exists g. split; [reflexivity | apply Hinv].
  - destruct (minHeapIsEmpty h) eqn:Eempty.
    + apply minHeapIsEmpty_nil in Eempty. subst h.
      exists g. split; [reflexivity | apply Hinv].
    + assert (h <> []) as Hne.
      { intros ->. discriminate. }
      destruct (dijkstrasRound_struct g h Hinv Hne) as (g1 & h1 & E1 & Hinv1 & Hlen).
      rewrite E1. step. apply IH; [assumption | lia].
Qed.

End Structure.

Lemma dijkstrasLoop_empty (fuel : nat) : forall (g g' : Graph) (h h' : MinHeap),
  dijkstrasLoop fuel g h = Ok (g', h') -> h' = [].
Proof.
  induction fuel as [|fuel IH]; intros g g' h h' H; rewrite dijkstrasLoop_eq in H;
    destruct (minHeapIsEmpty h) eqn:Eempty.
  - apply minHeapIsEmpty_nil in Eempty. inversion H. congruence.
  - discriminate.
  - apply minHeapIsEmpty_nil in Eempty. inversion H. congruence.
  - inv_bind H as st Hst. destruct st as [g1 h1]. eapply IH. eassumption.
Qed.

Lemma no_self_loops_static (g g' : Graph) :
  same_static g g' -> no_self_loops g -> no_self_loops g'.
Proof.
  intros Hs H v e He. rewrite (same_static_edgesOf _ _ v Hs) in He. eauto.
Qed.

Lemma reset_struct_inv (g0 : Graph) (s : nat) (g : Graph) (h : MinHeap) :
  reset_inv g0 s (length g0) (g, h) -> struct_inv g0 g h.
Proof.
  unfold reset_inv. simpl.
  intros (Hst & Hwf & _ & _ & _ & Hin & _). split_and!; auto.
  intros v Hv _. apply Hin. assumption.
Qed.

Lemma dijkstras_total (g : Graph) (s : nat) :
  graph_wf g -> no_self_loops g -> (s < length g)%nat ->
  exists g', dijkstras g [] s = Ok (g', []) /\ same_static g g'.
Proof.
  intros Hwf Hloops Hs.
  destruct (dijkstrasReset_spec g s Hs) as ([g1 h1] & E1 & Hinv).
  unfold dijkstras. rewrite E1. step.
  apply (dijkstrasLoop_struct g Hwf Hloops); [|lia].
  apply (reset_struct_inv g s). assumption.
Qed.

(** ** The rounds that take a reached vertex off the heap *)

Section Phase1.

Variable g0 : Graph.
Variable s : nat.
Variable W : Z.
Hypothesis Hg0 : graph_wf g0.
Hypothesis Hs : (s < length g0)%nat.
Hypothesis HW0 : 0 <= W.
Hypothesis HW : forall v e, e ∈ edgesOf g0 v -> edge_distance e <= W.
Hypothesis Hbound : Z.of_nat (length g0) * W < INT_MAX.

Lemma heap_mirror_range (g : Graph) (h : MinHeap) :
  heap_mirror g h -> (forall v, 0 <= distOf g v <= INT_MAX) -> heap_range h.
Proof.
  intros Hm Hr i n Hn. destruct (Hm _ _ Hn) as (x & Hx & Vx).
  rewrite Vx, <- (distOf_lookup _ _ _ Hx). apply Hr.
Qed.

Lemma relaxEdge_phase1 (u : nat) (du : Z) (g : Graph) (h : MinHeap) (e : Edge) :
  relaxing g0 s W u du g h -> e ∈ edgesOf g0 u ->
  0 <= du -> du + W <= (Z.of_nat (length g0) - Z.of_nat (length h)) * W ->
  exists g' h',
    relaxEdge u (g, h) e = Ok (g', h') /\
    relaxing g0 s W u du g' h' /\ length h' = length h /\
    distOf g' (edge_end e) < INT_MAX /\
    forall w, distOf g' w <= distOf g w.
Proof.
  intros [[Hst Hwf Hord Hmir Hrange Hbnd Hsrc Hfin Hfront] (Hu & Hnu & Hdu) Hvis Hprev]
         He Hdu0 Hdub.
  destruct (graph_wf_edgesOf g0 u e Hg0 He) as (_ & Hend & Hw1 & Hw2).
  pose proof (HW u e He) as HwW.
  pose proof (same_static_length _ _ Hst) as Lg.
  set (v := edge_end e) in *.
  assert (wrap_int (distOf g u + edge_distance e) = du + edge_distance e) as Ealt.
  { rewrite Hdu. apply wrap_int_id. unfold in_int, INT_MIN, INT_MAX in *. nia. }
  assert (du + edge_distance e < INT_MAX) as Haltmax by nia.
  destruct (relaxEdge_cases u g h e ltac:(fold v; lia) ltac:(lia) Hwf)
    as (g' & h' & E & Hcase).
  { fold v. rewrite Ealt. intros Hv Hlt.
    destruct (proj1 (Hvis v Hend) Hv) as [->|]; [lia | assumption]. }
  fold v in Hcase. rewrite Ealt in Hcase.
  exists g', h'. split; [assumption|].
  destruct Hcase as [(Hno & -> & ->) |
    (Hv & Hlt & Sb & Hwfb & Hlenb & Db & Pb & Vb & Ib & Hmirb & Hordb)].
  - split_and!; auto with lia.
    + constructor; auto. constructor; auto.
    + destruct Hno as [Hno|Hno]; [auto | lia].
  - assert (v <> u) as Hvu by (intros ->; lia).
    assert (v <> s) as Hvs by (intros ->; destruct Hsrc; lia).
    assert (forall w, distOf g' w <= distOf g w) as Hmono.
    { intros w. rewrite Db. destruct (decide (w = v)) as [->|]; lia. }
    split_and!; auto.
    + constructor.
      * constructor; auto.
        -- eapply same_static_trans; eassumption.
        -- intros w. rewrite Db. destruct (decide (w = v)); [lia | auto].
        -- intros w. rewrite Db, Hlenb.
           destruct (decide (w = v)); [intros _; nia | auto].
        -- destruct Hsrc as [A B]. rewrite Db, Pb.
           destruct (decide (s = v)); [congruence | auto].
        -- intros w. rewrite Vb, Db. intros Hw.
           destruct (decide (w = v)) as [->|]; [congruence | auto].
        -- intros w e' Hw He'. rewrite Vb in Hw.
           specialize (Hmono (edge_end e')). specialize (Hfront w e' Hw He'). lia.
      * split_and!; auto.
        -- rewrite Ib. assumption.
        -- rewrite Db. destruct (decide (u = v)); [congruence | assumption].
      * intros w Hw. rewrite Vb, Ib. auto.
      * intros w Hw. unfold prev_ok. rewrite Pb, Db.
        destruct (decide (w = v)) as [->|Hwv].
        -- split_and!; auto.
           exists e. split_and!; auto.
           rewrite Db. destruct (decide (u = v)); [congruence | lia].
        -- specialize (Hprev w Hw). unfold prev_ok in Hprev.
           destruct (prevOf g w) as [p|]; [|assumption].
           destruct Hprev as (Hp & Hok & Hws & Hwfin & e' & He' & Hend' & Hd').
           assert (p <> v) as Hpv.
           { intros ->. destruct Hok as [Hok|Hok]; congruence. }
           split_and!; auto.
           ++ rewrite Vb. assumption.
           ++ exists e'. split_and!; auto. rewrite Db.
              destruct (decide (p = v)); [congruence | assumption].
    + rewrite Db. destruct (decide (v = v)); [lia | congruence].
Qed.

Lemma dijkstrasRound_phase1 (g : Graph) (h : MinHeap) (top : Node) :
  phase1 g0 s W g h -> h !! 0%nat = Some top -> value top < INT_MAX ->
  exists g' h', dijkstrasRound g h = Ok (g', h') /\
    phase1 g0 s W g' h' /\ length h = S (length h').
Proof.
  intros [[Hst Hwf Hord Hmir Hrange Hbnd Hsrc Hfin Hfront] Hvis Hprev] Htop Hval.
  destruct (minHeapDequeue_spec g h top Hwf Htop)
    as (g1 & h1 & E1 & Hwf1 & F1 & Hlen1 & Sa & Sb & Hord1).
  pose proof (dequeue_in_heap g h h1 top Hwf Htop Sa Sb) as Hin1.
  set (u := vertex top) in *.
  pose proof (same_static_length _ _ Hst) as Lg.
  destruct (same_but_position_fields _ _ F1) as [L1 Hf1].
  assert (same_static g0 g1) as Hst1.
  { eapply same_static_trans; [exact Hst|].
    apply same_but_position_static. assumption. }
  destruct (Hmir _ _ Htop) as (xtop & Hxtop & Vtop). fold u in Hxtop.
  assert (u < length g0)%nat as Hu by (apply lookup_lt_Some in Hxtop; lia).
  assert (distOf g u = value top) as Hdu
    by (rewrite (distOf_lookup _ _ _ Hxtop); congruence).
  set (du := value top) in *.
  destruct (lookup_lt_is_Some_2 g1 u ltac:(lia)) as [xu Hxu].
  assert (edges xu = edgesOf g0 u) as Hedges.
  { rewrite <- (edgesOf_lookup _ _ _ Hxu). apply same_static_edgesOf. assumption. }
  assert (forall w, distOf g1 w = distOf g w) as D1 by (intros w; apply Hf1).
  assert (forall w, prevOf g1 w = prevOf g w) as P1 by (intros w; apply Hf1).
  assert (forall w, visitedOf g1 w = visitedOf g w) as V1 by (intros w; apply Hf1).
  assert (payloads_sub h1 h) as Sh.
  { intros i n Hn. destruct (Sa _ _ Hn) as (i' & n' & Hn' & En).
    rewrite lookup_drop in Hn'. eauto. }
  assert (0 <= du) as Hdu0 by (rewrite <- Hdu; apply Hrange).
  assert (du <= (Z.of_nat (length g0) - Z.of_nat (length h)) * W) as Hdub.
  { rewrite <- Hdu. apply Hbnd. lia. }
  assert (relaxing g0 s W u du g1 h1) as Hrx.
  { constructor.
    - constructor; auto.
      + apply Hord1; [assumption|]. eapply heap_mirror_range; eassumption.
      + eapply heap_mirror_sub; eassumption.
      + intros w. rewrite D1. apply Hrange.
      + intros w. rewrite D1. intros Hw. specialize (Hbnd w Hw). nia.
      + rewrite D1, P1. assumption.
      + intros w. rewrite V1, D1. apply Hfin.
      + intros w e. rewrite V1, D1. apply Hfront.
    - split_and!; auto.
      + rewrite Hin1. tauto.
      + rewrite D1. assumption.
    - intros w Hw. rewrite V1, Hin1, (Hvis w Hw).
      destruct (decide (w = u)) as [->|]; [|tauto].
      split; [auto|]. intros _. exists 0%nat, top. auto.
    - intros w Hw. specialize (Hprev w Hw). unfold prev_ok in *.
      rewrite P1, D1. destruct (prevOf g w) as [p|]; [|assumption].
      destruct Hprev as (A & B & C & D & e & He & Hend & Hd).
      split_and!; auto.
      + rewrite V1. auto.
      + exists e. rewrite D1. auto. }
  destruct (forEach_total (relaxEdge u)
    (fun done st =>
       relaxing g0 s W u du st.1 st.2 /\ length st.2 = length h1 /\
       Forall (fun e => distOf st.1 (edge_end e) < INT_MAX) done)
    (edges xu) (g1, h1)) as ([g2 h2] & E2 & Hrx2 & Hlen2 & Hall2).
  - simpl. auto.
  - intros done e more [ga ha] El (Hrxa & Hlena & Halla). simpl in *.
    assert (e ∈ edgesOf g0 u) as He.
    { rewrite <- Hedges, El. apply elem_of_app. right. left. }
    destruct (relaxEdge_phase1 u du ga ha e Hrxa He Hdu0 ltac:(nia))
      as (gb & hb & Eb & Hrxb & Hlenb & Hfinb & Hmono).
    exists (gb, hb). split; [assumption|]. simpl.
    split_and!; [assumption | congruence |].
    apply Forall_app. split.
    + eapply Forall_impl; [exact Halla|]. simpl. intros e' He'.
      specialize (Hmono (edge_end e')). lia.
    + constructor; [assumption | constructor].
  - simpl in *.
    destruct Hrx2 as [[Hst2 Hwf2 Hord2 Hmir2 Hrange2 Hbnd2 Hsrc2 Hfin2 Hfront2]
                      (_ & Hnu2 & Hdu2) Hvis2 Hprev2].
    pose proof (same_static_length _ _ Hst2) as L2.
    destruct (graphSetVertex_total g2 u (vertexSetVisited true) ltac:(lia))
      as [g3 E3].
    destruct (set_visited_fields _ _ _ _ E3) as (_ & S3 & P3 & D3 & Pv3 & V3).
    exists g3, h2. split.
    + rewrite dijkstrasRound_eq, E1. step. simpl.
      unfold graphGetVertex. rewrite Hxu. step. rewrite E2. step. simpl.
      rewrite E3. reflexivity.
    + split; [|simpl in Hlen1; lia].
      constructor.
      * constructor; auto.
        -- eapply same_static_trans; eassumption.
        -- eapply heap_wf_same_position; eassumption.
        -- intros i n Hn. destruct (Hmir2 _ _ Hn) as (x & Hx & Vx).
           destruct (lookup_lt_is_Some_2 g3 (vertex n)) as [y Hy].
           { apply lookup_lt_Some in Hx.
             rewrite (same_static_length _ _ S3). assumption. }
           exists y. split; [assumption|].
           rewrite <- (distOf_lookup _ _ _ Hy), D3, (distOf_lookup _ _ _ Hx).
           assumption.
        -- intros w. rewrite D3. apply Hrange2.
        -- intros w. rewrite D3. apply Hbnd2.
        -- rewrite D3, Pv3. assumption.
        -- intros w. rewrite V3, D3. destruct (decide (w = u)) as [->|]; [|auto].
           intros _. rewrite Hdu2. fold du in Hval. assumption.
        -- intros w e. rewrite V3, D3.
           destruct (decide (w = u)) as [->|]; [|apply Hfront2].
           intros _ He. rewrite <- Hedges in He.
           rewrite Forall_forall in Hall2. apply Hall2. assumption.
      * intros w Hw. rewrite V3. destruct (decide (w = u)) as [->|Hwu].
        -- split; [discriminate | tauto].
        -- rewrite (Hvis2 w Hw). tauto.
      * intros w Hw. specialize (Hprev2 w Hw). unfold prev_ok in *.
        rewrite Pv3, D3. destruct (prevOf g2 w) as [p|]; [|assumption].
        destruct Hprev2 as (A & B & C & D & e & He & Hend & Hd).
        split_and!; auto.
        -- rewrite V3. destruct (decide (p = u)); [reflexivity|].
           destruct B; [assumption | contradiction].
        -- exists e. rewrite D3. auto.
Qed.

Lemma distOf_out (g : Graph) (v : nat) : (length g <= v)%nat -> distOf g v = 0.
Proof. intros H. unfold distOf. rewrite (proj2 (lookup_ge_None g v) H). reflexivity. Qed.

Lemma visitedOf_out (g : Graph) (v : nat) :
  (length g <= v)%nat -> visitedOf g v = false.
Proof.
  intros H. unfold visitedOf. rewrite (proj2 (lookup_ge_None g v) H). reflexivity.
Qed.

Lemma reset_phase1 (g : Graph) (h : MinHeap) :
  reset_inv g0 s (length g0) (g, h) -> phase1 g0 s W g h.
Proof.
  unfold reset_inv. simpl.
  intros (Hst & Hwf & Hord & Hmir & Hlen & Hin & Hds & Hdone).
  pose proof (same_static_length _ _ Hst) as Lg.
  assert (forall v, visitedOf g v = false) as Hnv.
  { intros v. destruct (decide (v < length g0)%nat) as [Hv|Hv].
    - apply Hdone. assumption.
    - apply visitedOf_out. lia. }
  assert (forall v, distOf g v = 0 \/ distOf g v = INT_MAX) as Hd.
  { intros v. destruct (decide (v < length g0)%nat) as [Hv|Hv].
    - destruct (Hdone v Hv) as (-> & _). destruct (decide (v = s)); auto.
    - left. apply distOf_out. lia. }
  constructor.
  - constructor; auto.
    + intros v. destruct (Hd v) as [-> | ->]; unfold INT_MAX; lia.
    + intros v Hv. destruct (Hd v) as [E | E]; rewrite E in *; [nia | lia].
    + split; [assumption|]. apply Hdone. assumption.
    + intros v Hv. rewrite Hnv in Hv. discriminate.
    + intros v e Hv. rewrite Hnv in Hv. discriminate.
  - intros v Hv. rewrite Hin. split; auto.
  - intros v Hv. unfold prev_ok. destruct (Hdone v Hv) as (Hdv & -> & _).
    rewrite Hdv. destruct (decide (v = s)); auto.
Qed.

(** When the heap is empty, or its minimum is the sentinel, the visited
    vertices are settled. *)
Lemma phase1_settled (g : Graph) (h : MinHeap) :
  phase1 g0 s W g h ->
  (forall top, h !! 0%nat = Some top -> INT_MAX <= value top) ->
  settled g0 s g (fun v => (v < length g0)%nat /\ visitedOf g v = true).
Proof.
  intros [[Hst Hwf Hord Hmir Hrange Hbnd Hsrc Hfin Hfront] Hvis Hprev] Htop.
  assert (forall v, (v < length g0)%nat -> visitedOf g v = false ->
                    INT_MAX <= distOf g v) as Hun.
  { intros v Hv Hvv. apply (Hvis v Hv) in Hvv as (i & n & Hn & En).
    destruct (lookup_lt_is_Some_2 h 0%nat) as [top Ht].
    { apply lookup_lt_Some in Hn. lia. }
    pose proof (heap_root_min h top Hord Ht i n Hn).
    specialize (Htop top Ht).
    destruct (Hmir _ _ Hn) as (x & Hx & Vx). rewrite En in Hx.
    rewrite (distOf_lookup _ _ _ Hx). lia. }
  assert (forall v, (v < length g0)%nat -> distOf g v < INT_MAX ->
                    visitedOf g v = true) as Hfv.
  { intros v Hv Hd. destruct (visitedOf g v) eqn:E; [reflexivity|].
    specialize (Hun v Hv E). lia. }
  destruct Hsrc as [Hs0 Hsp].
  split; [|split].
  - split; [assumption|]. apply Hfv; [assumption|]. unfold INT_MAX. lia.
  - intros v e [Hv Hvv] He.
    destruct (graph_wf_edgesOf g0 v e Hg0 He) as (_ & Hend & _).
    split; [assumption|]. apply Hfv; [assumption|]. eapply Hfront; eassumption.
  - intros v [Hv Hvv]. specialize (Hfin v Hvv). specialize (Hprev v Hv).
    pose proof (Hrange v). split_and!; try lia.
    unfold prev_ok in Hprev. destruct (prevOf g v) as [p|].
    + destruct Hprev as (A & B & C & D & e & He & Hend & Hd). split; [auto|].
      exists e. auto.
    + destruct Hprev as [-> | E]; [auto | lia].
Qed.

End Phase1.

(** ** What the rounds leave alone *)

Lemma visited_kept_refl (g : Graph) : visited_kept g g.
Proof. split; [apply same_static_refl | auto]. Qed.

Lemma visited_kept_trans (g1 g2 g3 : Graph) :
  visited_kept g1 g2 -> visited_kept g2 g3 -> visited_kept g1 g3.
Proof.
  intros [S1 H1] [S2 H2]. split; [eapply same_static_trans; eassumption|].
  intros w Hw. destruct (H1 w Hw) as (A & B & C).
  destruct (H2 w A) as (A' & B' & C'). split_and!; congruence.
Qed.

Lemma dijkstrasRound_frame (g g' : Graph) (h h' : MinHeap) :
  dijkstrasRound g h = Ok (g', h') ->
  visited_kept g g' /\ length h = S (length h').
Proof.
  rewrite dijkstrasRound_eq. intros H.
  inv_bind H as r Hr. destruct r as [u [g1 h1]]. simpl in H.
  inv_bind H as xu Hxu. inv_bind H as s2 Hs2. destruct s2 as [g2 h2]. simpl in H.
  inv_bind H as g3 Hg3. inversion H; subst g3 h2. clear H.
  apply minHeapDequeue_frame in Hr as [F1 L1].
  destruct (same_but_position_fields _ _ F1) as [_ Hf1].
  assert (visited_kept g1 g2 /\ length h' = length h1) as [K2 L2].
  { apply (forEach_partial (relaxEdge u)
             (fun st => visited_kept g1 st.1 /\ length st.2 = length h1)
             (edges xu) (g1, h1) (g2, h') Hs2).
    - simpl. split; [apply visited_kept_refl | reflexivity].
    - intros e [ga ha] [gb hb] _ [Ka La] E. simpl in *.
      apply relaxEdge_frame in E as (Sb & Lb & Vb & Db).
      split; [|congruence].
      eapply visited_kept_trans; [exact Ka|].
      split; [assumption|]. intros w Hw. rewrite Vb. split; [assumption|]. auto. }
  destruct (set_visited_fields _ _ _ _ Hg3) as (_ & S3 & P3 & D3 & Pv3 & V3).
  split; [|lia].
  eapply visited_kept_trans; [|eapply visited_kept_trans; [exact K2|]].
  - split; [apply same_but_position_static; assumption|].
    intros w Hw. destruct (Hf1 w) as (A & B & C & _). split_and!; congruence.
  - split; [assumption|]. intros w Hw. rewrite V3, D3, Pv3.
    destruct (decide (w = u)); auto.
Qed.

Lemma dijkstrasLoop_frame (fuel : nat) : forall (g g' : Graph) (h h' : MinHeap),
  dijkstrasLoop fuel g h = Ok (g', h') -> visited_kept g g'.
Proof.
  induction fuel as [|fuel IH]; intros g g' h h' H; rewrite dijkstrasLoop_eq in H;
    destruct (minHeapIsEmpty h).
  - inversion H. apply visited_kept_refl.
  - discriminate.
  - inversion H. apply visited_kept_refl.
  - inv_bind H as st Hst. destruct st as [g1 h1].
    apply dijkstrasRound_frame in Hst as [K1 _]. apply IH in H.
    eapply visited_kept_trans; eassumption.
Qed.

(** ** Settled vertices stay settled *)

Section Settling.

Variable g0 : Graph.
Variable s : nat.
Hypothesis Hs : (s < length g0)%nat.

Lemma settled_kept (g g' : Graph) (V : nat -> Prop) :
  (forall v, V v -> visitedOf g v = true) -> visited_kept g g' ->
  settled g0 s g V -> settled g0 s g' V.
Proof.
  intros Hvis [Hst Hk] (Hsrc & Hclosed & Hall). split_and!; try assumption.
  intros v Hv. destruct (Hall v Hv) as (Hlt & Hd & Hp).
  destruct (Hk v (Hvis v Hv)) as (_ & Dv & Pv). rewrite Dv, Pv.
  split_and!; try lia.
  destruct (prevOf g v) as [p|]; [|assumption].
  destruct Hp as (Vp & e & He & Hend & Hde). split; [assumption|].
  exists e. destruct (Hk p (Hvis p Vp)) as (_ & Dp & _). rewrite Dp. auto.
Qed.

End Settling.

(** * Routes *)

Lemma chain_ends (g : Graph) (s v : nat) (path : list nat) (d : Z) :
  chain g s v path d -> head path = Some s /\ last path = Some v.
Proof.
  induction 1 as [|p e path d Hc [IHh IHl] He].
  - split; reflexivity.
  - split; [|apply last_snoc].
    destruct path as [|a path]; [discriminate | assumption].
Qed.

Lemma foldr_max_ge (l : list Z) : 0 <= foldr Z.max 0 l.
Proof. induction l as [|a l IH]; simpl; lia. Qed.

Lemma foldr_max_elem (l : list Z) (z : Z) : z ∈ l -> z <= foldr Z.max 0 l.
Proof.
  induction l as [|a l IH]; intros H; [inversion H|].
  apply elem_of_cons in H as [->|H]; simpl; [lia|].
  specialize (IH H). lia.
Qed.

Lemma max_weight_nonneg (g : Graph) : 0 <= max_weight g.
Proof. apply foldr_max_ge. Qed.

Lemma max_weight_edge (g : Graph) (v : nat) (e : Edge) :
  e ∈ edgesOf g v -> edge_distance e <= max_weight g.
Proof.
  intros He. apply foldr_max_elem. apply list_elem_of_fmap.
  exists e. split; [reflexivity|].
  unfold edgesOf in He. destruct (g !! v) as [x|] eqn:Hx; [|inversion He].
  apply list_elem_of_In, in_concat. exists (edges x).
  split; [|apply list_elem_of_In; assumption].
  apply list_elem_of_In, list_elem_of_fmap. exists x. split; [reflexivity|].
  eapply list_elem_of_lookup_2; eassumption.
Qed.

Lemma string_app_assoc (a b c : string) :
  ((a ++ b) ++ c)%string = (a ++ (b ++ c))%string.
Proof. induction a as [|ch a IH]; simpl; [reflexivity | rewrite IH; reflexivity]. Qed.

Lemma routeLoop_eq (fuel : nat) (g : Graph) (i : nat) (acc : list string) :
  routeLoop fuel g i acc =
  (x ← graphGetVertex g i;
   match previous x with
   | None => Ok acc
   | Some p =>
       match fuel with
       | O => Timeout
       | S fuel' =>
           xp ← graphGetVertex g p;
           routeLoop fuel' g (vertexNumber xp) (acc ++ [cityName xp])
       end
   end).
Proof. destruct fuel; reflexivity. Qed.

Section Route.

Variable g0 : Graph.
Variable s : nat.
Variable g : Graph.
Variable V : nat -> Prop.
Hypothesis Hg0 : graph_wf g0.
Hypothesis Hst : same_static g0 g.
Hypothesis Hall : rooted g0 s g V.

(** The chain of predecessors of a vertex of [V]: it is a route from the
    source whose edges sum up to the distance of the vertex, it repeats no
    vertex, and [routeLoop] collects the names along it. *)
Lemma rooted_route (k : nat) : forall v,
  V v -> Z.to_nat (distOf g v) = k ->
  exists init,
    chain g0 s v (init ++ [v]) (distOf g v) /\
    NoDup (init ++ [v]) /\
    (forall x, x ∈ init ++ [v] -> (x < length g0)%nat /\ distOf g x <= distOf g v) /\
    forall fuel acc, (length init <= fuel)%nat ->
      routeLoop fuel g v acc = Ok (acc ++ rev (nameOf g0 <$> init)).
Proof.
  pose proof (same_static_length _ _ Hst) as Lg.
  induction k as [k IH] using lt_wf_ind. intros v Hv Hk.
  destruct (Hall v Hv) as (Hlt & Hd & Hp).
  destruct (lookup_lt_is_Some_2 g v ltac:(lia)) as [x Hx].
  rewrite (prevOf_lookup _ _ _ Hx) in Hp.
  destruct (previous x) as [p|] eqn:Eprev.
  - destruct Hp as (Vp & e & He & Hend & Hde).
    destruct (graph_wf_edgesOf g0 p e Hg0 He) as (_ & _ & Hw1 & _).
    destruct (Hall p Vp) as (Hplt & Hpd & _).
    destruct (IH (Z.to_nat (distOf g p)) ltac:(lia) p Vp eq_refl)
      as (init & Hchain & Hnd & Hle & Hloop).
    exists (init ++ [p]). split_and!.
    + rewrite Hde. subst v.
      apply (chain_edge g0 s p e (init ++ [p]) (distOf g p)); assumption.
    + apply NoDup_app. split_and!; [assumption | | apply NoDup_singleton].
      intros y Hy Hyv. apply list_elem_of_singleton in Hyv. subst y.
      destruct (Hle v Hy). lia.
    + intros y Hy. apply elem_of_app in Hy as [Hy|Hy].
      * destruct (Hle y Hy). split; [assumption | lia].
      * apply list_elem_of_singleton in Hy. subst y. split; [assumption | lia].
    + intros fuel acc Hfuel. rewrite length_app in Hfuel. simpl in Hfuel.
      destruct fuel as [|fuel]; [lia|].
      rewrite routeLoop_eq. unfold graphGetVertex. rewrite Hx. step.
      rewrite Eprev.
      destruct (lookup_lt_is_Some_2 g p ltac:(lia)) as [xp Hxp]. rewrite Hxp. step.
      destruct (graph_wf_static _ _ Hst Hg0 p xp Hxp) as [-> _].
      rewrite Hloop by lia.
      rewrite fmap_app, rev_app_distr. simpl. rewrite <- app_assoc. simpl.
      rewrite <- (nameOf_lookup _ _ _ Hxp), (same_static_nameOf _ _ p Hst).
      reflexivity.
  - destruct Hp as [-> Hd0]. exists []. simpl. split_and!.
    + rewrite Hd0. constructor.
    + apply NoDup_singleton.
    + intros y Hy. apply list_elem_of_singleton in Hy. subst y. split; [assumption | lia].
    + intros fuel acc _. rewrite routeLoop_eq. unfold graphGetVertex.
      rewrite Hx. step. rewrite Eprev. rewrite app_nil_r. reflexivity.
Qed.

Lemma route_length (l : list nat) (n : nat) :
  NoDup l -> (forall x, x ∈ l -> (x < n)%nat) -> (length l <= n)%nat.
Proof.
  intros Hnd Hlt.
  assert (l ⊆+ seq 0 n) as Hsub.
  { apply NoDup_submseteq; [assumption|]. intros x Hx.
    apply elem_of_seq. specialize (Hlt x Hx). lia. }
  apply submseteq_length in Hsub. rewrite length_seq in Hsub. assumption.
Qed.

Lemma rooted_write (d : nat) :
  (s < length g0)%nat -> V d ->
  exists path,
    chain g0 s d path (distOf g d) /\
    dijkstrasWriteToFile g s d =
    Ok (nameOf g0 s ++ " to " ++ nameOf g0 d ++ " is " ++ showInt (distOf g d)
          ++ "km" ++ nl ++ nl
          ++ "Route:" ++ nl
          ++ printRoute (nameOf g0 <$> path)
          ++ nl ++ nl)%string.
Proof.
  intros Hs Hd.
  destruct (rooted_route _ d Hd eq_refl) as (init & Hchain & Hnd & Hle & Hloop).
  exists (init ++ [d]). split; [assumption|].
  pose proof (same_static_length _ _ Hst) as Lg.
  assert (d < length g0)%nat as Hdl.
  { apply (Hle d). apply elem_of_app. right. left. }
  destruct (lookup_lt_is_Some_2 g s ltac:(lia)) as [xs Hxs].
  destruct (lookup_lt_is_Some_2 g d ltac:(lia)) as [xd Hxd].
  unfold dijkstrasWriteToFile, graphGetVertex. rewrite Hxs, Hxd. step.
  assert (length init <= length g)%nat as Hfuel.
  { assert (length (init ++ [d]) <= length g0)%nat as Hl.
    { apply route_length; [assumption|]. intros y Hy. apply (Hle y Hy). }
    rewrite length_app in Hl. simpl in Hl. lia. }
  rewrite (Hloop (length g) [cityName xd] Hfuel). step.
  rewrite rev_app_distr, rev_involutive. simpl.
  rewrite fmap_app. simpl.
  rewrite <- (nameOf_lookup _ _ _ Hxs), <- (nameOf_lookup _ _ _ Hxd).
  rewrite <- (distOf_lookup _ _ _ Hxd).
  rewrite !(same_static_nameOf _ _ _ Hst). reflexivity.
Qed.

End Route.

Lemma settled_rooted (g0 : Graph) (s : nat) (g : Graph) (V : nat -> Prop) :
  settled g0 s g V -> rooted g0 s g V.
Proof. intros (_ & _ & H). exact H. Qed.

Section Settled.

Variable g0 : Graph.
Variable s : nat.
Variable g : Graph.
Variable V : nat -> Prop.
Hypothesis Hg0 : graph_wf g0.
Hypothesis Hst : same_static g0 g.
Hypothesis Hset : settled g0 s g V.

Lemma settled_reachable (d : nat) : reachable g0 s d -> V d.
Proof.
  destruct Hset as (Hsrc & Hclosed & _).
  induction 1 as [|v e Hr IH He]; [assumption|]. eapply Hclosed; eassumption.
Qed.

Lemma settled_route (k : nat) : forall v,
  V v -> Z.to_nat (distOf g v) = k ->
  exists init,
    chain g0 s v (init ++ [v]) (distOf g v) /\
    NoDup (init ++ [v]) /\
    (forall x, x ∈ init ++ [v] -> (x < length g0)%nat /\ distOf g x <= distOf g v) /\
    forall fuel acc, (length init <= fuel)%nat ->
      routeLoop fuel g v acc = Ok (acc ++ rev (nameOf g0 <$> init)).
Proof. apply rooted_route; auto using settled_rooted. Qed.

Lemma settled_write (d : nat) :
  (s < length g0)%nat -> V d ->
  exists path,
    chain g0 s d path (distOf g d) /\
    dijkstrasWriteToFile g s d =
    Ok (nameOf g0 s ++ " to " ++ nameOf g0 d ++ " is " ++ showInt (distOf g d)
          ++ "km" ++ nl ++ nl
          ++ "Route:" ++ nl
          ++ printRoute (nameOf g0 <$> path)
          ++ nl ++ nl)%string.
Proof. apply rooted_write; auto using settled_rooted. Qed.

End Settled.

(** * What holds of every run that returns *)

(** What one edge changes in the graph, whatever the state of the heap. *)
Lemma relaxEdge_change (u : nat) (g g' : Graph) (h h' : MinHeap) (e : Edge) :
  relaxEdge u (g, h) e = Ok (g', h') ->
  (forall w, w <> edge_end e ->
     distOf g' w = distOf g w /\ prevOf g' w = prevOf g w) /\
  ((distOf g' (edge_end e) = distOf g (edge_end e) /\
    prevOf g' (edge_end e) = prevOf g (edge_end e)) \/
   (wrap_int (distOf g u + edge_distance e) < distOf g (edge_end e) /\
    distOf g' (edge_end e) = wrap_int (distOf g u + edge_distance e) /\
    prevOf g' (edge_end e) = Some u)).
Proof.
  unfold relaxEdge. intros H. inv_bind H as xv Hxv.
  apply graphGetVertex_Ok in Hxv.
  destruct (visited xv) eqn:Evis.
  { inversion H; subst. auto. }
  inv_bind H as xu Hxu. apply graphGetVertex_Ok in Hxu.
  rewrite <- (distOf_lookup _ _ _ Hxu), <- (distOf_lookup _ _ _ Hxv) in H.
  destruct (Z.ltb_spec (wrap_int (distOf g u + edge_distance e))
                       (distOf g (edge_end e))) as [Hlt|Hge].
  2:{ inversion H; subst. auto. }
  inv_bind H as g1 E1. inv_bind H as g2 E2.
  destruct (set_distance_fields _ _ _ _ E1) as (_ & S1 & P1 & D1 & V1 & W1).
  destruct (set_previous_fields _ _ _ _ E2) as (_ & S2 & P2 & D2 & V2 & W2).
  apply minHeapDecreaseNodeValue_frame in H as [F3 L3].
  destruct (same_but_position_fields _ _ F3) as [_ Hf3].
  split.
  - intros w Hw. destruct (Hf3 w) as (-> & -> & _). rewrite D2, D1, V2, V1.
    destruct (decide (w = edge_end e)); [contradiction | auto].
  - right. destruct (Hf3 (edge_end e)) as (-> & -> & _). rewrite D2, D1, V2.
    destruct (decide (edge_end e = edge_end e)); [auto | congruence].
Qed.

(** A property of the graph that the heap operations, the edges and the
    marking of a vertex keep is kept by a round, and by the loop. *)
Section GraphInvariant.

Variable P : Graph -> Prop.
Hypothesis P_fields : forall g g', same_fields g g' -> P g -> P g'.
Hypothesis P_relax : forall u g h e g' h',
  relaxEdge u (g, h) e = Ok (g', h') -> P g -> P g'.
Hypothesis P_visit : forall g u g',
  graphSetVertex g u (vertexSetVisited true) = Ok g' -> P g -> P g'.

Lemma dijkstrasRound_keeps (g g' : Graph) (h h' : MinHeap) :
  dijkstrasRound g h = Ok (g', h') -> P g -> P g'.
Proof.
  rewrite dijkstrasRound_eq. intros H HP.
  inv_bind H as r Hr. destruct r as [u [g1 h1]]. simpl in H.
  inv_bind H as xu Hxu. inv_bind H as s2 Hs2. destruct s2 as [g2 h2]. simpl in H.
  inv_bind H as g3 Hg3. inversion H; subst g3 h2. clear H.
  apply minHeapDequeue_frame in Hr as [F1 _].
  apply (P_visit _ _ _ Hg3).
  apply (forEach_partial (relaxEdge u) (fun st => P st.1) (edges xu)
           (g1, h1) (g2, h') Hs2).
  - simpl. eapply P_fields; [|exact HP]. apply same_but_position_fields. assumption.
  - intros e [ga ha] [gb hb] _ Ha E. simpl in *. eapply P_relax; eassumption.
Qed.

Lemma dijkstrasLoop_keeps (fuel : nat) : forall (g g' : Graph) (h h' : MinHeap),
  dijkstrasLoop fuel g h = Ok (g', h') -> P g -> P g'.
Proof.
  induction fuel as [|fuel IH]; intros g g' h h' H HP; rewrite dijkstrasLoop_eq in H;
    destruct (minHeapIsEmpty h).
  - inversion H; subst. assumption.
  - discriminate.
  - inversion H; subst. assumption.
  - inv_bind H as st Hst. destruct st as [g1 h1].
    eapply IH; [exact H|]. eapply dijkstrasRound_keeps; eassumption.
Qed.

End GraphInvariant.

Lemma dijkstrasLoop_sentinel (fuel : nat) (g g' : Graph) (h h' : MinHeap) :
  dijkstrasLoop fuel g h = Ok (g', h') -> sentinel_inv g -> sentinel_inv g'.
Proof.
  apply (dijkstrasLoop_keeps sentinel_inv).
  - intros ga gb [_ Hf] Ha v. destruct (Hf v) as (-> & -> & _). apply Ha.
  - intros u ga ha e gb hb E Ha v.
    destruct (relaxEdge_change _ _ _ _ _ _ E) as [Hother Hend].
    destruct (decide (v = edge_end e)) as [->|Hne].
    + destruct Hend as [[-> ->] | (Hlt & -> & ->)]; [apply Ha|].
      destruct (Ha (edge_end e)) as [Hle _]. split; [lia|]. intros Heq. lia.
    + destruct (Hother v Hne) as [-> ->]. apply Ha.
  - intros ga u gb E Ha v.
    destruct (set_visited_fields _ _ _ _ E) as (_ & _ & _ & D & Pv & _).
    rewrite D, Pv. apply Ha.
Qed.

Lemma prevOf_out (g : Graph) (v : nat) : (length g <= v)%nat -> prevOf g v = None.
Proof. intros H. unfold prevOf. rewrite (proj2 (lookup_ge_None g v) H). reflexivity. Qed.

Lemma reset_sentinel (g0 : Graph) (s : nat) (g : Graph) (h : MinHeap) :
  reset_inv g0 s (length g0) (g, h) -> sentinel_inv g.
Proof.
  unfold reset_inv. simpl. intros (Hst & _ & _ & _ & _ & _ & _ & Hdone) v.
  pose proof (same_static_length _ _ Hst) as Lg.
  destruct (decide (v < length g0)%nat) as [Hv|Hv].
  - destruct (Hdone v Hv) as (-> & -> & _).
    split; [|reflexivity]. destruct (decide (v = s)); unfold INT_MAX; lia.
  - rewrite distOf_out, prevOf_out by lia. split; [unfold INT_MAX; lia | reflexivity].
Qed.

Lemma dijkstrasReset_source (g : Graph) (h : MinHeap) (s : nat) (st : Graph * MinHeap) :
  dijkstrasReset g h s = Ok st -> (s < length g)%nat.
Proof.
  unfold dijkstrasReset. intros H. inv_bind H as g1 E1.
  apply graphSetVertex_inv in E1 as (x & Hx & _).
  eapply lookup_lt_Some; eassumption.
Qed.

(** A run that returns went through the reset phase and the loop. *)
Lemma dijkstras_inv (g g' : Graph) (h' : MinHeap) (s : nat) :
  dijkstras g [] s = Ok (g', h') ->
  (s < length g)%nat /\
  exists g1 h1,
    reset_inv g s (length g) (g1, h1) /\
    dijkstrasLoop (length h1) g1 h1 = Ok (g', h').
Proof.
  unfold dijkstras. intros H. inv_bind H as st E1. destruct st as [g1 h1].
  pose proof (dijkstrasReset_source _ _ _ _ E1) as Hs. split; [assumption|].
  destruct (dijkstrasReset_spec g s Hs) as (st & E & Hinv).
  rewrite E in E1. inversion E1; subst st. eauto.
Qed.

Lemma dijkstras_static (g g' : Graph) (h' : MinHeap) (s : nat) :
  dijkstras g [] s = Ok (g', h') -> same_static g g'.
Proof.
  intros H. apply dijkstras_inv in H as (_ & g1 & h1 & Hinv & Hloop).
  apply dijkstrasLoop_frame in Hloop as [Hst _].
  eapply same_static_trans; [apply Hinv | exact Hst].
Qed.

(** ** The source *)

Lemma dijkstras_source (g g' : Graph) (h' : MinHeap) (s : nat) :
  graph_wf g -> dijkstras g [] s = Ok (g', h') ->
  distOf g' s = 0 /\ prevOf g' s = None.
Proof.
  intros Hwf H. apply dijkstras_inv in H as (Hs & g1 & h1 & Hinv & Hloop).
  destruct (reset_first_dequeue g s g1 h1 Hs Hinv) as (top & Htop & Hvt).
  destruct Hinv as (Hst & Hwf1 & _ & _ & Hlen & _ & Hds & Hdone). simpl in *.
  destruct (Hdone s Hs) as (_ & Hps & _).
  destruct (length h1) as [|fuel] eqn:El; [lia|].
  rewrite dijkstrasLoop_eq in Hloop.
  assert (minHeapIsEmpty h1 = false) as Hne.
  { destruct (minHeapIsEmpty h1) eqn:E; [|reflexivity].
    apply minHeapIsEmpty_nil in E. subst h1. discriminate. }
  rewrite Hne in Hloop. inv_bind Hloop as st Hround. destruct st as [g2 h2].
  apply dijkstrasLoop_frame in Hloop as [_ Hkept].
  assert (visitedOf g2 s = true /\ distOf g2 s = 0 /\ prevOf g2 s = None)
    as (Hv2 & Hd2 & Hp2).
  { rewrite dijkstrasRound_eq in Hround.
    destruct (minHeapDequeue_spec g1 h1 top Hwf1 Htop)
      as (ga & ha & Ea & _ & Fa & _).
    rewrite Ea, Hvt in Hround. simpl in Hround.
    inv_bind Hround as xu Hxu. apply graphGetVertex_Ok in Hxu.
    inv_bind Hround as s2 Hs2. destruct s2 as [gb hb]. simpl in Hround.
    inv_bind Hround as gc Hgc. inversion Hround; subst gc hb. clear Hround.
    destruct (same_but_position_fields _ _ Fa) as [_ Hfa].
    assert (same_static g ga) as Hsta.
    { eapply same_static_trans; [exact Hst|].
      apply same_but_position_static. assumption. }
    assert (distOf gb s = 0 /\ prevOf gb s = None) as [Hdb Hpb].
    { apply (forEach_partial (relaxEdge s)
               (fun st => distOf st.1 s = 0 /\ prevOf st.1 s = None)
               (edges xu) (ga, ha) (gb, h2) Hs2).
      - simpl. destruct (Hfa s) as (-> & -> & _). auto.
      - intros e [gx hx] [gy hy] He [Hdx Hpx] E. simpl in *.
        assert (e ∈ edgesOf g s) as He'.
        { rewrite <- (same_static_edgesOf _ _ s Hsta), (edgesOf_lookup _ _ _ Hxu).
          assumption. }
        destruct (graph_wf_edgesOf g s e Hwf He') as (_ & _ & Hw1 & Hw2).
        destruct (relaxEdge_change _ _ _ _ _ _ E) as [Hother Hend].
        destruct (decide (s = edge_end e)) as [Ese|Hne'].
        + rewrite <- Ese in Hend. rewrite Hdx in Hend.
          rewrite wrap_int_id in Hend
            by (unfold in_int, INT_MIN, INT_MAX in *; lia).
          destruct Hend as [[-> ->] | (Hlt & _)]; [auto | lia].
        + destruct (Hother s Hne') as [-> ->]. auto. }
    destruct (set_visited_fields _ _ _ _ Hgc) as (_ & _ & _ & D & Pv & V).
    rewrite D, Pv, V. destruct (decide (s = s)); [auto | congruence]. }
  destruct (Hkept s Hv2) as (_ & -> & ->). auto.
Qed.

(** ** Graphs built from edge records *)

Lemma lastKnown_range (name : string) (l : list Vertex) : forall k found r,
  lastKnown name l k found = Some r ->
  found = Some r \/ (k <= r < k + length l)%nat.
Proof.
  induction l as [|x l IH]; intros k found r H; simpl in H; [auto|].
  apply IH in H as [H|H]; simpl; [|right; lia].
  destruct (String.eqb (cityName x) name); [|auto].
  inversion H; subst. right. lia.
Qed.

Lemma graph_wf_app_fresh (g : Graph) (name : string) :
  graph_wf g -> graph_wf (graphVertexResize g (length g) name).
Proof.
  intros Hwf v x Hx. unfold graphVertexResize in *. rewrite length_app. simpl.
  destruct (decide (v < length g)%nat) as [Hv|Hv].
  - rewrite lookup_app_l in Hx by assumption.
    destruct (Hwf v x Hx) as [Hn He]. split; [assumption|].
    intros e Hin. destruct (He e Hin) as (A & B & C). split_and!; auto with lia.
  - apply lookup_lt_Some in Hx as Hlt. rewrite length_app in Hlt. simpl in Hlt.
    assert (v = length g) as -> by lia.
    rewrite list_lookup_middle in Hx by reflexivity. inversion Hx; subst x. simpl.
    split; [reflexivity|]. intros e Hin. inversion Hin.
Qed.

Lemma checkStringsKnown_wf (g g' : Graph) (a b : string) (va vb : nat) :
  graph_wf g -> checkStringsKnown g a b = (g', va, vb) ->
  graph_wf g' /\ (va < length g')%nat /\ (vb < length g')%nat.
Proof.
  unfold checkStringsKnown. intros Hwf H.
  destruct (lastKnown a g 0 None) as [ka|] eqn:Ea;
    destruct (lastKnown b g 0 None) as [kb|] eqn:Eb;
    inversion H; subst; clear H;
    try (apply lastKnown_range in Ea as [Ea|Ea]; [discriminate|]);
    try (apply lastKnown_range in Eb as [Eb|Eb]; [discriminate|]);
    (split; [repeat apply graph_wf_app_fresh; assumption
           | unfold graphVertexResize; rewrite ?length_app; simpl; lia]).
Qed.

Lemma addEdge_wf (g : Graph) (a b : nat) (d : Z) :
  graph_wf g -> (a < length g)%nat -> (b < length g)%nat -> 1 <= d <= INT_MAX ->
  exists g', addEdge g a b d = Ok g' /\ graph_wf g'.
Proof.
  intros Hwf Ha Hb Hd.
  assert (forall g v e, graph_wf g -> (v < length g)%nat ->
            edge_start e = v -> (edge_end e < length g)%nat ->
            1 <= edge_distance e <= INT_MAX ->
            exists g', graphSetVertex g v (vertexAddEdge e) = Ok g' /\
                       graph_wf g' /\ length g' = length g) as Hadd.
  { intros g1 v e Hwf1 Hv Hs He Hw.
    destruct (lookup_lt_is_Some_2 g1 v Hv) as [x Hx].
    rewrite (graphSetVertex_Some _ _ _ _ Hx). eexists. split; [reflexivity|].
    split; [|apply length_insert].
    intros w y Hy. rewrite length_insert.
    destruct (decide (w = v)) as [->|Hwv].
    - rewrite list_lookup_insert_eq in Hy by assumption. inversion Hy; subst y. simpl.
      destruct (Hwf1 v x Hx) as [Hn Hes]. split; [assumption|].
      intros e' Hin. apply elem_of_app in Hin as [Hin|Hin]; [auto|].
      apply list_elem_of_singleton in Hin. subst e'. auto.
    - rewrite list_lookup_insert_ne in Hy by congruence. apply Hwf1. assumption. }
  unfold addEdge.
  destruct (Hadd g a (mkEdge a b d) Hwf Ha eq_refl Hb Hd) as (g1 & E1 & Hwf1 & L1).
  rewrite E1. step.
  destruct (Hadd g1 b (mkEdge b a d) Hwf1 ltac:(simpl; lia) eq_refl
              ltac:(simpl; lia) Hd) as (g2 & E2 & Hwf2 & _).
  eauto.
Qed.

Lemma graphPopulateGraph_wf (records : list (string * string * Z)) :
  forall g g', graph_wf g ->
  Forall (fun r => r.2 <= INT_MAX) records ->
  graphPopulateGraph g records = Some g' -> graph_wf g'.
Proof.
  induction records as [|[[a b] d] records IH]; intros g g' Hwf Hall H; simpl in H.
  - inversion H; subst. assumption.
  - inversion Hall as [|? ? Hd Hrest]; subst. simpl in Hd.
    destruct (checkStringsKnown g a b) as [[g1 va] vb] eqn:Ec.
    destruct (checkStringsKnown_wf _ _ _ _ _ _ Hwf Ec) as (Hwf1 & Hva & Hvb).
    destruct (Z.leb_spec d 0) as [|Hpos]; [discriminate|].
    destruct (addEdge_wf g1 va vb d Hwf1 Hva Hvb ltac:(lia)) as (g2 & E2 & Hwf2).
    rewrite E2 in H. eapply IH; eassumption.
Qed.

Lemma graph_wf_nil : graph_wf [].
Proof. intros v x Hx. discriminate. Qed.

(** ** The names of a graph built from edge records *)

Lemma lastKnown_None (name : string) (l : list Vertex) : forall k found,
  lastKnown name l k found = None <-> found = None /\ name ∉ cityName <$> l.
Proof.
  induction l as [|x l IH]; intros k found; simpl.
  - split; [intros ->; split; [reflexivity | apply not_elem_of_nil] | tauto].
  - rewrite IH, not_elem_of_cons.
    destruct (String.eqb_spec (cityName x) name) as [E|E].
    + split; [intros [H _]; discriminate | intros (_ & H & _); congruence].
    + split; [intros [-> H]; auto | tauto].
Qed.

Lemma lastKnown_Some (name : string) (l : list Vertex) : forall k found r,
  lastKnown name l k found = Some r ->
  found = Some r \/
  exists x, l !! (r - k)%nat = Some x /\ cityName x = name /\ (k <= r)%nat.
Proof.
  induction l as [|x l IH]; intros k found r H; simpl in H; [auto|].
  apply IH in H as [H | (y & Hy & En & Hk)].
  - destruct (String.eqb_spec (cityName x) name) as [E|E]; [|auto].
    inversion H; subst. right. exists x. rewrite Nat.sub_diag. auto.
  - right. exists y. replace (r - k)%nat with (S (r - S k)) by lia. auto with lia.
Qed.

(** A name that the graph knows is not added again: the graph stays as
    it is, and the vertex numbers returned carry the two names. *)
Lemma checkStringsKnown_known (g : Graph) (a b : string) :
  a ∈ cityName <$> g -> b ∈ cityName <$> g ->
  exists va vb,
    checkStringsKnown g a b = (g, va, vb) /\ nameOf g va = a /\ nameOf g vb = b.
Proof.
  intros Ha Hb. unfold checkStringsKnown.
  destruct (lastKnown a g 0 None) as [ka|] eqn:Ea.
  2:{ apply lastKnown_None in Ea as [_ Ea]. contradiction. }
  destruct (lastKnown b g 0 None) as [kb|] eqn:Eb.
  2:{ apply lastKnown_None in Eb as [_ Eb]. contradiction. }
  exists ka, kb. split; [reflexivity|].
  apply lastKnown_Some in Ea as [Ea | (x & Hx & En & _)]; [discriminate|].
  apply lastKnown_Some in Eb as [Eb | (y & Hy & Em & _)]; [discriminate|].
  rewrite Nat.sub_0_r in Hx, Hy.
  rewrite (nameOf_lookup _ _ _ Hx), (nameOf_lookup _ _ _ Hy). auto.
Qed.

Lemma checkStringsKnown_names (g g' : Graph) (a b : string) (va vb : nat) :
  a <> b -> NoDup (cityName <$> g) -> checkStringsKnown g a b = (g', va, vb) ->
  NoDup (cityName <$> g').
Proof.
  unfold checkStringsKnown, graphVertexResize. intros Hab Hnd H.
  destruct (lastKnown a g 0 None) as [ka|] eqn:Ea;
    destruct (lastKnown b g 0 None) as [kb|] eqn:Eb;
    inversion H; subst; clear H;
    try (apply lastKnown_None in Ea as [_ Ea]);
    try (apply lastKnown_None in Eb as [_ Eb]);
    rewrite ?fmap_app; simpl.
  - assumption.
  - apply NoDup_app. split_and!; [assumption | | apply NoDup_singleton].
    intros y Hy Hyb. apply list_elem_of_singleton in Hyb. congruence.
  - apply NoDup_app. split_and!; [assumption | | apply NoDup_singleton].
    intros y Hy Hya. apply list_elem_of_singleton in Hya. congruence.
  - apply NoDup_app. split_and!; [| | apply NoDup_singleton].
    + apply NoDup_app. split_and!; [assumption | | apply NoDup_singleton].
      intros y Hy Hya. apply list_elem_of_singleton in Hya. congruence.
    + intros y Hy Hyb. apply list_elem_of_singleton in Hyb. subst y.
      apply elem_of_app in Hy as [Hy|Hy]; [contradiction|].
      apply list_elem_of_singleton in Hy. congruence.
Qed.

Lemma insert_names (g : Graph) (i : nat) (x y : Vertex) :
  g !! i = Some x -> cityName y = cityName x ->
  cityName <$> <[i:=y]> g = cityName <$> g.
Proof.
  intros Hx E. rewrite list_fmap_insert. apply list_insert_id.
  rewrite list_lookup_fmap, Hx. simpl. congruence.
Qed.

Lemma addEdge_names (g g' : Graph) (a b : nat) (d : Z) :
  addEdge g a b d = Ok g' -> cityName <$> g' = cityName <$> g.
Proof.
  unfold addEdge. intros H. inv_bind H as g1 E1.
  apply graphSetVertex_inv in E1 as (x & Hx & ->).
  apply graphSetVertex_inv in H as (y & Hy & ->).
  etrans; [apply (insert_names _ b y); [exact Hy | reflexivity]|].
  apply (insert_names _ a x); [exact Hx | reflexivity].
Qed.

(** Records that never name the same city twice build a graph in which
    no two vertices carry the same name. *)
Lemma distinct_records_unique_names (records : list (string * string * Z)) :
  Forall (fun r => r.1.1 <> r.1.2) records ->
  forall g g', NoDup (cityName <$> g) ->
  graphPopulateGraph g records = Some g' -> NoDup (cityName <$> g').
Proof.
  induction 1 as [|[[a b] d] records Hab Hrest IH]; intros g g' Hnd H; simpl in H.
  - inversion H; subst. assumption.
  - simpl in Hab.
    destruct (checkStringsKnown g a b) as [[g1 va] vb] eqn:Ec.
    destruct (d <=? 0); [discriminate|].
    destruct (addEdge g1 va vb d) as [g2| |] eqn:E2; try discriminate.
    apply (IH g2 g'); [|assumption].
    rewrite (addEdge_names _ _ _ _ _ E2).
    eapply checkStringsKnown_names; eassumption.
Qed.

(** * Building the graph and looking cities up *)

(** ** [graphGetVertexNumber] *)

Lemma graphGetVertexNumber_from_spec (name : string) (l : list Vertex) : forall i,
  match graphGetVertexNumber_from l i name with
  | Some r =>
      exists k x, r = (i + k)%nat /\ l !! k = Some x /\ cityName x = name /\
        forall j y, (j < k)%nat -> l !! j = Some y -> cityName y <> name
  | None => name ∉ cityName <$> l
  end.
Proof.
  induction l as [|x l IH]; intros i; simpl.
  - apply not_elem_of_nil.
  - destruct (String.eqb_spec (cityName x) name) as [E|E].
    + exists 0%nat, x. split_and!; auto with lia.
    + specialize (IH (S i)).
      destruct (graphGetVertexNumber_from l (S i) name) as [r|].
      * destruct IH as (k & y & -> & Hy & En & Hfirst).
        exists (S k), y. split_and!; auto with lia.
        intros j z Hj Hz. destruct j as [|j]; simpl in Hz.
        -- inversion Hz; subst. assumption.
        -- eapply Hfirst; [|eassumption]. lia.
      * rewrite not_elem_of_cons. auto.
Qed.

Lemma nameOf_elem (g : Graph) (v : nat) :
  (v < length g)%nat -> nameOf g v ∈ cityName <$> g.
Proof.
  intros Hv. destruct (lookup_lt_is_Some_2 g v Hv) as [x Hx].
  rewrite (nameOf_lookup _ _ _ Hx). apply list_elem_of_fmap.
  exists x. split; [reflexivity|]. eapply list_elem_of_lookup_2. eassumption.
Qed.

Lemma elem_nameOf (g : Graph) (name : string) :
  name ∈ cityName <$> g -> exists v, (v < length g)%nat /\ nameOf g v = name.
Proof.
  intros H. apply list_elem_of_fmap in H as (x & -> & Hx).
  apply list_elem_of_lookup_1 in Hx as [v Hv]. exists v.
  split; [eapply lookup_lt_Some; eassumption | apply nameOf_lookup; assumption].
Qed.

Lemma graphGetVertexNumber_known (g : Graph) (name : string) :
  is_Some (graphGetVertexNumber g name) <-> name ∈ cityName <$> g.
Proof.
  unfold graphGetVertexNumber.
  pose proof (graphGetVertexNumber_from_spec name g 0) as H.
  destruct (graphGetVertexNumber_from g 0 name) as [r|].
  - destruct H as (k & x & _ & Hx & En & _). split; [|eauto].
    intros _. apply list_elem_of_fmap. exists x. split; [auto|].
    eapply list_elem_of_lookup_2. eassumption.
  - split; [intros [? ?]; discriminate | contradiction].
Qed.

Lemma graphGetVertexNumber_unique (g : Graph) (v : nat) :
  NoDup (cityName <$> g) -> (v < length g)%nat ->
  graphGetVertexNumber g (nameOf g v) = Some v.
Proof.
  intros Hnd Hv. unfold graphGetVertexNumber.
  pose proof (graphGetVertexNumber_from_spec (nameOf g v) g 0) as H.
  destruct (graphGetVertexNumber_from g 0 (nameOf g v)) as [r|].
  - destruct H as (k & x & -> & Hx & En & _). f_equal. simpl.
    destruct (lookup_lt_is_Some_2 g v Hv) as [y Hy].
    rewrite (nameOf_lookup _ _ _ Hy) in En.
    eapply NoDup_lookup; [exact Hnd | |].
    + rewrite list_lookup_fmap, Hx. reflexivity.
    + rewrite list_lookup_fmap, Hy. simpl. congruence.
  - exfalso. apply H. apply nameOf_elem. assumption.
Qed.

(** ** [checkStringsKnown] and [addEdge] *)

Lemma nameOf_app_l (g extra : Graph) (v : nat) :
  (v < length g)%nat -> nameOf (g ++ extra) v = nameOf g v.
Proof. intros Hv. unfold nameOf. rewrite lookup_app_l by assumption. reflexivity. Qed.

Lemma nameOf_app_fresh (g : Graph) (i : nat) (name : string) :
  nameOf (graphVertexResize g i name) (length g) = name.
Proof.
  unfold nameOf, graphVertexResize.
  rewrite list_lookup_middle by reflexivity. reflexivity.
Qed.

Lemma edgesOf_app_fresh (g : Graph) (i : nat) (name : string) (v : nat) :
  edgesOf (graphVertexResize g i name) v = edgesOf g v.
Proof.
  unfold edgesOf, graphVertexResize.
  destruct (decide (v < length g)%nat) as [Hv|Hv].
  - rewrite lookup_app_l by assumption. reflexivity.
  - rewrite (proj2 (lookup_ge_None g v)) by lia.
    destruct (decide (v = length g)) as [->|Hne].
    + rewrite list_lookup_middle by reflexivity. reflexivity.
    + rewrite (proj2 (lookup_ge_None _ v)); [reflexivity|].
      rewrite length_app. simpl. lia.
Qed.

Lemma lastKnown_name (name : string) (g : Graph) (k : nat) :
  lastKnown name g 0 None = Some k -> (k < length g)%nat /\ nameOf g k = name.
Proof.
  intros H. pose proof (lastKnown_range _ _ _ _ _ H) as [R|R]; [discriminate|].
  apply lastKnown_Some in H as [H | (x & Hx & En & _)]; [discriminate|].
  rewrite Nat.sub_0_r in Hx. rewrite (nameOf_lookup _ _ _ Hx). split; [lia | assumption].
Qed.

(** What [checkStringsKnown] returns: the graph with at most two fresh
    vertices appended, and numbers of vertices that carry the two names. *)
Lemma checkStringsKnown_spec (g g' : Graph) (a b : string) (va vb : nat) :
  checkStringsKnown g a b = (g', va, vb) ->
  (va < length g')%nat /\ (vb < length g')%nat /\
  nameOf g' va = a /\ nameOf g' vb = b /\
  (length g <= length g')%nat /\
  (forall v, (v < length g')%nat -> (v < length g)%nat \/ v = va \/ v = vb) /\
  (forall v, (v < length g)%nat -> nameOf g' v = nameOf g v) /\
  (forall v, edgesOf g' v = edgesOf g v) /\
  (forall name, name ∈ cityName <$> g' <->
                name ∈ cityName <$> g \/ name = a \/ name = b).
Proof.
  unfold checkStringsKnown. intros H.
  assert (forall (g1 : Graph) (n : string) name,
            name ∈ cityName <$> graphVertexResize g1 (length g1) n <->
            name ∈ cityName <$> g1 \/ name = n) as Hel.
  { intros g1 n name. unfold graphVertexResize. rewrite fmap_app, elem_of_app. simpl.
    rewrite list_elem_of_singleton. reflexivity. }
  destruct (lastKnown a g 0 None) as [ka|] eqn:Ea;
    destruct (lastKnown b g 0 None) as [kb|] eqn:Eb;
    inversion H; subst; clear H;
    try (apply lastKnown_name in Ea as [Ra Na]);
    try (apply lastKnown_name in Eb as [Rb Nb]);
    try (apply lastKnown_None in Ea as [_ Ea]);
    try (apply lastKnown_None in Eb as [_ Eb]).
  - split_and!; auto. intros name. split; [auto|].
    intros [H | [-> | ->]]; [assumption | |]; rewrite <- ?Na, <- ?Nb;
      apply nameOf_elem; assumption.
  - pose proof (nameOf_app_fresh g (length g) b) as Fb.
    unfold graphVertexResize in *. rewrite length_app. simpl.
    split_and!; auto with lia.
    + rewrite nameOf_app_l by assumption. assumption.
    + intros v Hv. apply nameOf_app_l. assumption.
    + intros v. apply (edgesOf_app_fresh g (length g) b).
    + intros name. rewrite (Hel g b). split; [tauto|].
      intros [H | [-> | ->]]; [tauto | | tauto].
      left. rewrite <- Na. apply nameOf_elem. assumption.
  - pose proof (nameOf_app_fresh g (length g) a) as Fa.
    unfold graphVertexResize in *. rewrite length_app. simpl.
    split_and!; auto with lia.
    + rewrite nameOf_app_l by assumption. assumption.
    + intros v Hv. apply nameOf_app_l. assumption.
    + intros v. apply (edgesOf_app_fresh g (length g) a).
    + intros name. rewrite (Hel g a). split; [tauto|].
      intros [H | [-> | ->]]; [tauto | tauto |].
      left. rewrite <- Nb. apply nameOf_elem. assumption.
  - pose proof (nameOf_app_fresh g (length g) a) as Fa.
    pose proof (nameOf_app_fresh (graphVertexResize g (length g) a)
                  (length (graphVertexResize g (length g) a)) b) as Fb.
    pose proof (Hel (graphVertexResize g (length g) a) b) as Hel2.
    pose proof (edgesOf_app_fresh (graphVertexResize g (length g) a)
                  (length (graphVertexResize g (length g) a)) b) as Eb2.
    set (g1 := graphVertexResize g (length g) a) in *.
    assert (length g1 = S (length g)) as L1.
    { unfold g1, graphVertexResize. rewrite length_app. simpl. lia. }
    assert (length (graphVertexResize g1 (length g1) b) = S (S (length g))) as L2.
    { unfold graphVertexResize at 1. rewrite length_app. simpl. lia. }
    split_and!; auto with lia.
    + unfold graphVertexResize at 1. rewrite nameOf_app_l by lia. assumption.
    + intros v Hv. unfold graphVertexResize at 1. rewrite nameOf_app_l by lia.
      unfold g1, graphVertexResize. apply nameOf_app_l. assumption.
    + intros v. rewrite Eb2. apply (edgesOf_app_fresh g (length g) a).
    + intros name. rewrite Hel2. unfold g1. rewrite (Hel g a). tauto.
Qed.

(** What [addEdge] does, given two vertices of the graph: each of them
    gets one more edge, the last of its list, to the other one. *)
Lemma addEdge_spec (g : Graph) (a b : nat) (d : Z) :
  (a < length g)%nat -> (b < length g)%nat ->
  exists g', addEdge g a b d = Ok g' /\ length g' = length g /\
    (forall v, nameOf g' v = nameOf g v) /\
    forall v, edgesOf g' v =
      edgesOf g v ++ (if decide (v = a) then [mkEdge a b d] else [])
                  ++ (if decide (v = b) then [mkEdge b a d] else []).
Proof.
  intros Ha Hb. unfold addEdge.
  destruct (lookup_lt_is_Some_2 g a Ha) as [xa Hxa].
  rewrite (graphSetVertex_Some _ _ _ _ Hxa). step.
  set (g1 := <[a := vertexAddEdge (mkEdge a b d) xa]> g).
  assert (length g1 = length g) as L1 by apply length_insert.
  destruct (lookup_lt_is_Some_2 g1 b ltac:(lia)) as [xb Hxb].
  rewrite (graphSetVertex_Some _ _ _ _ Hxb).
  eexists. split; [reflexivity|]. rewrite length_insert.
  split; [assumption|].
  assert (forall v, nameOf g1 v = nameOf g v /\
            edgesOf g1 v = edgesOf g v ++ (if decide (v = a) then [mkEdge a b d] else []))
    as H1.
  { intros v. unfold nameOf, edgesOf, g1. destruct (decide (v = a)) as [->|Hne].
    - rewrite list_lookup_insert_eq by assumption. rewrite Hxa. auto.
    - rewrite list_lookup_insert_ne by congruence. rewrite app_nil_r. auto. }
  split.
  - intros v. rewrite <- (proj1 (H1 v)). unfold nameOf.
    destruct (decide (v = b)) as [->|Hne].
    + rewrite list_lookup_insert_eq by lia. rewrite Hxb. reflexivity.
    + rewrite list_lookup_insert_ne by congruence. reflexivity.
  - intros v. rewrite app_assoc, <- (proj2 (H1 v)). unfold edgesOf.
    destruct (decide (v = b)) as [->|Hne].
    + rewrite list_lookup_insert_eq by lia. rewrite Hxb. reflexivity.
    + rewrite list_lookup_insert_ne by congruence. rewrite app_nil_r. reflexivity.
Qed.

(** ** [graphPopulateGraph] *)

Lemma extends_refl (g : Graph) : extends g g.
Proof. split_and!; auto. Qed.

Lemma extends_trans (g1 g2 g3 : Graph) :
  extends g1 g2 -> extends g2 g3 -> extends g1 g3.
Proof.
  intros (L1 & N1 & E1) (L2 & N2 & E2). split_and!; [lia | | auto].
  intros v Hv. rewrite N2 by lia. auto.
Qed.

(** One record, read by [graphPopulateGraph]. *)
Lemma populate_step (g : Graph) (a b : string) (d : Z) :
  exists g2 va vb,
    (forall rest, graphPopulateGraph g ((a, b, d) :: rest) =
                  if d <=? 0 then None else graphPopulateGraph g2 rest) /\
    extends g g2 /\
    (va < length g2)%nat /\ (vb < length g2)%nat /\
    (forall v, (v < length g2)%nat -> (v < length g)%nat \/ v = va \/ v = vb) /\
    nameOf g2 va = a /\ nameOf g2 vb = b /\
    (forall name, name ∈ cityName <$> g2 <->
                  name ∈ cityName <$> g \/ name = a \/ name = b) /\
    forall v, edgesOf g2 v =
      edgesOf g v ++ (if decide (v = va) then [mkEdge va vb d] else [])
                  ++ (if decide (v = vb) then [mkEdge vb va d] else []).
Proof.
  destruct (checkStringsKnown g a b) as [[g1 va] vb] eqn:Ec.
  destruct (checkStringsKnown_spec _ _ _ _ _ _ Ec)
    as (Hva & Hvb & Na & Nb & L1 & F1 & N1 & E1 & M1).
  destruct (addEdge_spec g1 va vb d Hva Hvb) as (g2 & E2 & L2 & N2 & Ed2).
  exists g2, va, vb. split_and!.
  - intros rest. simpl. rewrite Ec, E2. reflexivity.
  - split_and!; [lia | |].
    + intros v Hv. rewrite N2. auto.
    + intros v e He. rewrite Ed2, E1. apply elem_of_app. left. assumption.
  - lia.
  - lia.
  - intros v Hv. apply F1. lia.
  - rewrite N2. assumption.
  - rewrite N2. assumption.
  - intros name. rewrite <- M1. rewrite <- (addEdge_names _ _ _ _ _ E2). reflexivity.
  - intros v. rewrite Ed2, E1. reflexivity.
Qed.

Lemma populate_exit_iff (records : list (string * string * Z)) : forall g,
  graphPopulateGraph g records = None <-> Exists (fun r => r.2 <= 0) records.
Proof.
  induction records as [|[[a b] d] records IH]; intros g.
  - simpl. split; [discriminate | intros H; inversion H].
  - destruct (populate_step g a b d) as (g2 & va & vb & Hstep & _).
    rewrite Hstep, Exists_cons. simpl.
    destruct (Z.leb_spec d 0) as [Hd|Hd].
    + split; auto.
    + rewrite IH. split; [auto | intros [H|H]; [lia | assumption]].
Qed.

Lemma populate_extends (records : list (string * string * Z)) : forall g g',
  graphPopulateGraph g records = Some g' -> extends g g'.
Proof.
  induction records as [|[[a b] d] records IH]; intros g g' H.
  - inversion H. apply extends_refl.
  - destruct (populate_step g a b d) as (g2 & va & vb & Hstep & Hext & _).
    rewrite Hstep in H. destruct (d <=? 0); [discriminate|].
    eapply extends_trans; [exact Hext | apply IH; assumption].
Qed.

Lemma populate_names (records : list (string * string * Z)) : forall g g',
  graphPopulateGraph g records = Some g' ->
  forall name, name ∈ cityName <$> g' <->
               name ∈ cityName <$> g \/ name ∈ record_names records.
Proof.
  induction records as [|[[a b] d] records IH]; intros g g' H name.
  - inversion H; subst. simpl. rewrite elem_of_nil. tauto.
  - destruct (populate_step g a b d) as (g2 & va & vb & Hstep & _ & _ & _ & _ & _ & _ & M & _).
    rewrite Hstep in H. destruct (d <=? 0); [discriminate|].
    rewrite (IH g2 g' H), M. simpl. rewrite !elem_of_cons. tauto.
Qed.

Lemma populate_undirected (records : list (string * string * Z)) : forall g g',
  graphPopulateGraph g records = Some g' -> undirected g -> undirected g'.
Proof.
  induction records as [|[[a b] d] records IH]; intros g g' H Hu.
  - inversion H; subst. assumption.
  - destruct (populate_step g a b d)
      as (g2 & va & vb & Hstep & _ & _ & _ & _ & _ & _ & _ & Ed).
    rewrite Hstep in H. destruct (d <=? 0); [discriminate|].
    apply (IH g2 g' H). intros v e He. rewrite Ed in He. rewrite Ed.
    apply elem_of_app in He as [He|He].
    + apply elem_of_app. left. apply Hu. assumption.
    + apply elem_of_app. right. apply elem_of_app in He as [He|He].
      * destruct (decide (v = va)) as [->|]; [|inversion He].
        apply list_elem_of_singleton in He. subst e. simpl.
        apply elem_of_app. right.
        destruct (decide (vb = vb)); [left | congruence].
      * destruct (decide (v = vb)) as [->|]; [|inversion He].
        apply list_elem_of_singleton in He. subst e. simpl.
        apply elem_of_app. left.
        destruct (decide (va = va)); [left | congruence].
Qed.

Lemma populate_record_edges (records : list (string * string * Z)) : forall g g',
  graphPopulateGraph g records = Some g' ->
  forall a b d, (a, b, d) ∈ records ->
  exists va vb, (va < length g')%nat /\ (vb < length g')%nat /\
    nameOf g' va = a /\ nameOf g' vb = b /\
    mkEdge va vb d ∈ edgesOf g' va /\ mkEdge vb va d ∈ edgesOf g' vb.
Proof.
  induction records as [|[[a0 b0] d0] records IH]; intros g g' H a b d Hin.
  - inversion Hin.
  - destruct (populate_step g a0 b0 d0)
      as (g2 & va & vb & Hstep & _ & Hva & Hvb & _ & Na & Nb & _ & Ed).
    rewrite Hstep in H. destruct (d0 <=? 0); [discriminate|].
    apply elem_of_cons in Hin as [Heq|Hin]; [|eapply IH; eassumption].
    inversion Heq; subst a0 b0 d0. clear Heq.
    destruct (populate_extends _ _ _ H) as (L & N & E).
    exists va, vb. split_and!; try lia.
    + rewrite N by assumption. congruence.
    + rewrite N by assumption. congruence.
    + apply E. rewrite Ed. apply elem_of_app. right. apply elem_of_app. left.
      destruct (decide (va = va)); [left | congruence].
    + apply E. rewrite Ed. apply elem_of_app. right. apply elem_of_app. right.
      destruct (decide (vb = vb)); [left | congruence].
Qed.

(** Every vertex of a graph built from records has an edge. *)
Lemma populate_no_isolated (records : list (string * string * Z)) : forall g g',
  graphPopulateGraph g records = Some g' ->
  (forall v, (v < length g)%nat -> edgesOf g v <> []) ->
  forall v, (v < length g')%nat -> edgesOf g' v <> [].
Proof.
  induction records as [|[[a b] d] records IH]; intros g g' H Hg.
  - inversion H; subst. assumption.
  - destruct (populate_step g a b d)
      as (g2 & va & vb & Hstep & _ & _ & _ & Hnew & _ & _ & _ & Ed).
    rewrite Hstep in H. destruct (d <=? 0); [discriminate|].
    apply (IH g2 g' H). intros v Hv. rewrite Ed. intros Hnil.
    apply app_eq_nil in Hnil as [Hold Hnil]. apply app_eq_nil in Hnil as [Ha Hb].
    destruct (Hnew v Hv) as [Hlt | [-> | ->]].
    + exact (Hg v Hlt Hold).
    + destruct (decide (va = va)); [discriminate | congruence].
    + destruct (decide (vb = vb)); [discriminate | congruence].
Qed.

Lemma populate_no_self_loops (records : list (string * string * Z)) : forall g g',
  Forall (fun r => r.1.1 <> r.1.2) records ->
  graphPopulateGraph g records = Some g' -> no_self_loops g -> no_self_loops g'.
Proof.
  induction records as [|[[a b] d] records IH]; intros g g' Hall H Hg.
  - inversion H; subst. assumption.
  - inversion Hall as [|? ? Hab Hrest]; subst. simpl in Hab.
    destruct (populate_step g a b d)
      as (g2 & va & vb & Hstep & _ & _ & _ & _ & Na & Nb & _ & Ed).
    rewrite Hstep in H. destruct (d <=? 0); [discriminate|].
    apply (IH g2 g' Hrest H). intros v e He. rewrite Ed in He.
    assert (va <> vb) as Hne by congruence.
    apply elem_of_app in He as [He|He]; [apply Hg; assumption|].
    apply elem_of_app in He as [He|He].
    + destruct (decide (v = va)) as [->|]; [|inversion He].
      apply list_elem_of_singleton in He. subst e. simpl. congruence.
    + destruct (decide (v = vb)) as [->|]; [|inversion He].
      apply list_elem_of_singleton in He. subst e. simpl. congruence.
Qed.

(** * A run does not depend on the runs before it *)

Lemma graphSetVertex_rel (R R' : nat -> Vertex -> Vertex -> Prop)
  (g g2 g' : Graph) (v : nat) (f : Vertex -> Vertex) :
  rel_graph R g g2 ->
  (forall x y, R v x y -> R' v (f x) (f y)) ->
  (forall w x y, w <> v -> R w x y -> R' w x y) ->
  graphSetVertex g v f = Ok g' ->
  exists g2', graphSetVertex g2 v f = Ok g2' /\ rel_graph R' g' g2'.
Proof.
  intros [L A] Hv Hw H. apply graphSetVertex_inv in H as (x & Hx & ->).
  destruct (lookup_lt_is_Some_2 g2 v) as [y Hy].
  { rewrite <- L. eapply lookup_lt_Some. eassumption. }
  rewrite (graphSetVertex_Some _ _ _ _ Hy). eexists. split; [reflexivity|].
  split; [rewrite !length_insert; assumption|].
  intros w a b Ha Hb. destruct (decide (w = v)) as [->|Hne].
  - rewrite list_lookup_insert_eq in Ha by (eapply lookup_lt_Some; eassumption).
    rewrite list_lookup_insert_eq in Hb by (eapply lookup_lt_Some; eassumption).
    inversion Ha; inversion Hb; subst. apply Hv. eauto.
  - rewrite list_lookup_insert_ne in Ha by congruence.
    rewrite list_lookup_insert_ne in Hb by congruence. eapply Hw; eauto.
Qed.

Section Lockstep.

Variable R : nat -> Vertex -> Vertex -> Prop.
Hypothesis R_blind : position_blind R.

Lemma setPosition_rel (g g2 g' : Graph) (v : nat) (p : Z) :
  rel_graph R g g2 ->
  graphSetVertex g v (vertexSetPositionInHeap p) = Ok g' ->
  exists g2', graphSetVertex g2 v (vertexSetPositionInHeap p) = Ok g2' /\
              rel_graph R g' g2'.
Proof.
  intros A H. eapply graphSetVertex_rel; [exact A | | | exact H].
  - intros x y. apply R_blind.
  - auto.
Qed.

Lemma swapNode_rel (g g2 g' : Graph) (h h' : MinHeap) (c o : Z) :
  rel_graph R g g2 -> swapNode g h c o = Ok (g', h') ->
  exists g2', swapNode g2 h c o = Ok (g2', h') /\ rel_graph R g' g2'.
Proof.
  intros A H. unfold swapNode in *.
  inv_bind H as tempNode Ht. inv_bind H as other Ho.
  inv_bind H as g1 E1. inv_bind H as g3 E3. inversion H; subst g3 h'. clear H.
  rewrite Ht. step. rewrite Ho. step.
  destruct (setPosition_rel _ _ _ _ _ A E1) as (g21 & E21 & A1).
  destruct (setPosition_rel _ _ _ _ _ A1 E3) as (g22 & E22 & A2).
  rewrite E21. step. rewrite E22. step. eauto.
Qed.

Lemma siftUp_rel (fuel : nat) : forall (g g2 g' : Graph) (h h' : MinHeap) (c : Z),
  rel_graph R g g2 -> siftUp fuel g h c = Ok (g', h') ->
  exists g2', siftUp fuel g2 h c = Ok (g2', h') /\ rel_graph R g' g2'.
Proof.
  induction fuel as [|fuel IH]; intros g g2 g' h h' c A H;
    rewrite siftUp_eq in H; rewrite siftUp_eq;
    inv_bind H as cur Hc; inv_bind H as par Hp;
    rewrite Hc; step; rewrite Hp; step;
    destruct (value cur <? value par); try discriminate.
  - inversion H; subst. eauto.
  - inv_bind H as st Hst. destruct st as [g1 h1].
    destruct (swapNode_rel _ _ _ _ _ _ _ A Hst) as (g21 & E21 & A1).
    rewrite E21. step. eapply IH; eassumption.
  - inversion H; subst. eauto.
Qed.

End Lockstep.

Lemma minHeapEnqueue_rel (R R' : nat -> Vertex -> Vertex -> Prop)
  (g g2 g' : Graph) (h h' : MinHeap) (v : nat) :
  position_blind R' ->
  (forall x y p, R v x y ->
     distanceFromSource x = distanceFromSource y /\
     R' v (vertexSetPositionInHeap p x) (vertexSetPositionInHeap p y)) ->
  (forall w x y, w <> v -> R w x y -> R' w x y) ->
  rel_graph R g g2 -> minHeapEnqueue g h v = Ok (g', h') ->
  exists g2', minHeapEnqueue g2 h v = Ok (g2', h') /\ rel_graph R' g' g2'.
Proof.
  intros Hblind Hv Hw A H. unfold minHeapEnqueue in *.
  inv_bind H as x Hx. inv_bind H as g1 E1. inv_bind H as h2 E2.
  apply graphGetVertex_Ok in Hx.
  destruct (lookup_lt_is_Some_2 g2 v) as [y Hy].
  { rewrite <- (proj1 A). eapply lookup_lt_Some. eassumption. }
  destruct (Hv x y 0 (proj2 A v x y Hx Hy)) as [Hd _].
  destruct (graphSetVertex_rel R R' g g2 g1 v
              (vertexSetPositionInHeap (Z.of_nat (length h))) A
              (fun a b r => proj2 (Hv a b _ r)) Hw E1) as (g21 & E21 & A1).
  unfold graphGetVertex. rewrite Hy. step. rewrite E21. step.
  unfold nodeConstructor in *. rewrite <- Hd, E2. step.
  eapply siftUp_rel; eassumption.
Qed.

Lemma reset_rel_blind (s i : nat) : position_blind (reset_rel s i).
Proof.
  intros v x y p (A & B & C). split_and!; [intros H; rewrite (A H) | |]; auto.
Qed.

Lemma same_but_position_vertex (x y : Vertex) (p : Z) :
  static x = static y -> distanceFromSource x = distanceFromSource y ->
  previous x = previous y -> visited x = visited y ->
  vertexSetPositionInHeap p x = vertexSetPositionInHeap p y.
Proof.
  destruct x, y. unfold static, vertexSetPositionInHeap. simpl.
  intros H ? ? ?. inversion H. congruence.
Qed.

Lemma resetVertex_length (s i : nat) (g g' : Graph) (h h' : MinHeap) :
  resetVertex s (g, h) i = Ok (g', h') -> length g' = length g.
Proof.
  unfold resetVertex. intros H.
  inv_bind H as g1 E1. inv_bind H as g2 E2. inv_bind H as g3 E3.
  apply graphSetVertex_lookup in E2 as (L2 & _).
  apply graphSetVertex_lookup in E3 as (L3 & _).
  unfold minHeapEnqueue in H. inv_bind H as x Hx. inv_bind H as g4 E4.
  inv_bind H as h5 E5. apply siftUp_frame in H as [F _].
  apply same_but_position_length in F.
  apply graphSetVertex_lookup in E4 as (L4 & _).
  assert (length g1 = length g) as L1.
  { destruct (decide (i = s)); [inversion E1; reflexivity|].
    apply graphSetVertex_lookup in E1 as (L1 & _). assumption. }
  congruence.
Qed.

(** The body of the reset loop, run on both sides. *)
Lemma resetVertex_rel (s i : nat) (g g2 g' : Graph) (h h' : MinHeap) :
  rel_graph (reset_rel s i) g g2 ->
  resetVertex s (g, h) i = Ok (g', h') ->
  exists g2', resetVertex s (g2, h) i = Ok (g2', h') /\
              rel_graph (reset_rel s (S i)) g' g2'.
Proof.
  intros A H. unfold resetVertex in *.
  inv_bind H as ga Ea. inv_bind H as gb Eb. inv_bind H as gc Ec.
  set (R1 := fun v x y => reset_rel s i v x y /\
               (v = i -> distanceFromSource x = distanceFromSource y)).
  set (R2 := fun v x y => R1 v x y /\ (v = i -> previous x = previous y)).
  set (R3 := fun v x y => R2 v x y /\ (v = i -> visited x = visited y)).
  assert (exists g2a,
            (if decide (i = s) then Ok g2
             else graphSetVertex g2 i (vertexSetDistanceFromSource INT_MAX)) = Ok g2a /\
            rel_graph R1 ga g2a) as (g2a & E2a & Aa).
  { destruct (decide (i = s)) as [->|Hne].
    - inversion Ea; subst ga. exists g2. split; [reflexivity|].
      split; [apply A|]. intros v x y Hx Hy. pose proof (proj2 A v x y Hx Hy) as Hr.
      split; [assumption|]. apply Hr.
    - eapply graphSetVertex_rel; [exact A | | | exact Ea].
      + intros x y (_ & B & _). unfold R1, reset_rel. simpl.
        split_and!; auto with lia.
      + intros w x y Hw Hr. split; [assumption | congruence]. }
  assert (exists g2b, graphSetVertex g2a i (vertexSetPrevious None) = Ok g2b /\
                      rel_graph R2 gb g2b) as (g2b & E2b & Ab).
  { eapply graphSetVertex_rel; [exact Aa | | | exact Eb].
    - intros x y ((_ & B & C) & D). unfold R2, R1, reset_rel. simpl.
      split_and!; auto with lia.
    - intros w x y Hw Hr. split; [assumption | congruence]. }
  assert (exists g2c, graphSetVertex g2b i (vertexSetVisited false) = Ok g2c /\
                      rel_graph R3 gc g2c) as (g2c & E2c & Ac).
  { eapply graphSetVertex_rel; [exact Ab | | | exact Ec].
    - intros x y (((_ & B & C) & D) & E). unfold R3, R2, R1, reset_rel. simpl.
      split_and!; auto with lia.
    - intros w x y Hw Hr. split; [assumption | congruence]. }
  rewrite E2a. step. rewrite E2b. step. rewrite E2c. step.
  eapply (minHeapEnqueue_rel R3 (reset_rel s (S i))); [| | | exact Ac | exact H].
  - apply reset_rel_blind.
  - intros x y p ((((_ & B & C) & D) & E) & F).
    split; [auto|]. unfold reset_rel. simpl.
    split_and!; auto.
    intros _. apply same_but_position_vertex; auto.
  - intros w x y Hw ((((A1 & B & C) & _) & _) & _). unfold reset_rel.
    split_and!; auto. intros Hlt. apply A1. lia.
Qed.

Lemma forEach_lockstep {A S : Type} (body : S -> A -> result S)
  (Rel : list A -> S -> S -> Prop) (l : list A) (s s2 : S) :
  Rel [] s s2 ->
  (forall done a rest s s2 s', l = done ++ a :: rest -> Rel done s s2 ->
     body s a = Ok s' -> exists s2', body s2 a = Ok s2' /\ Rel (done ++ [a]) s' s2') ->
  forall s', forEach body s l = Ok s' ->
  exists s2', forEach body s2 l = Ok s2' /\ Rel l s' s2'.
Proof.
  intros H0 Hstep.
  assert (forall rest done s s2 s', l = done ++ rest -> Rel done s s2 ->
            forEach body s rest = Ok s' ->
            exists s2', forEach body s2 rest = Ok s2' /\ Rel l s' s2') as H.
  { induction rest as [|a rest IH]; intros done t t2 t' El HR E; simpl in E.
    - rewrite app_nil_r in El. subst. inversion E; subst. simpl. eauto.
    - inv_bind E as t1 E1.
      destruct (Hstep done a rest t t2 t1 El HR E1) as (t21 & E21 & HR1).
      simpl. rewrite E21. step. apply (IH (done ++ [a]) t1); [|assumption..].
      rewrite <- app_assoc. assumption. }
  intros s' E. apply (H l [] s s2 s'); auto.
Qed.

Lemma same_static_vertex (g g2 : Graph) (v : nat) (x y : Vertex) :
  same_static g g2 -> g !! v = Some x -> g2 !! v = Some y -> static x = static y.
Proof.
  intros Hst Hx Hy. destruct (same_static_lookup _ _ _ _ Hst Hx) as (y' & Hy' & E).
  congruence.
Qed.

(** The reset phase leaves nothing of the state of the graph: from two
    graphs with the same cities and edges, and the same heap, it reaches
    the same state. *)
Lemma dijkstrasReset_static (g g2 : Graph) (h : MinHeap) (s : nat)
  (st : Graph * MinHeap) :
  same_static g g2 -> dijkstrasReset g h s = Ok st -> dijkstrasReset g2 h s = Ok st.
Proof.
  intros Hst H. unfold dijkstrasReset in *. inv_bind H as ga Ea.
  pose proof (same_static_length _ _ Hst) as L.
  assert (rel_graph (fun _ x y => static x = static y) g g2) as A0.
  { split; [congruence|]. intros v x y. apply same_static_vertex. assumption. }
  assert (exists g2a, graphSetVertex g2 s (vertexSetDistanceFromSource 0) = Ok g2a /\
                      rel_graph (reset_rel s 0) ga g2a) as (g2a & E2a & Aa).
  { eapply graphSetVertex_rel; [exact A0 | | | exact Ea].
    - intros x y E. unfold reset_rel. simpl. split_and!; auto with lia.
    - intros w x y Hw E. unfold reset_rel. split_and!; auto with lia. }
  rewrite E2a. step. rewrite <- (proj1 Aa).
  destruct st as [g' h'].
  destruct (forEach_lockstep (resetVertex s)
              (fun done t t2 => t.2 = t2.2 /\
                 rel_graph (reset_rel s (length done)) t.1 t2.1)
              (seq 0 (length ga)) (ga, h) (g2a, h)) with (s' := (g', h'))
    as ([g2' h2'] & E2 & Eh & A').
  - simpl. auto.
  - intros done a rest [t th] [t2 th2] [t' th'] El [Eth At] Et. simpl in *. subst th2.
    apply seq_split_index in El as [-> _].
    destruct (resetVertex_rel s (length done) t t2 t' th th' At Et) as (t2' & Et2 & At').
    exists (t2', th'). split; [assumption|]. simpl. split; [reflexivity|].
    rewrite length_app. simpl.
    replace (length done + 1)%nat with (S (length done)) by lia. assumption.
  - assumption.
  - simpl in *. subst h2'. rewrite E2. do 2 f_equal.
    rewrite length_seq in A'. destruct A' as [L' A'].
    apply list_eq. intros v.
    destruct (g' !! v) as [x|] eqn:Hx.
    + destruct (lookup_lt_is_Some_2 g2' v) as [y Hy].
      { rewrite <- L'. eapply lookup_lt_Some. eassumption. }
      rewrite Hy. f_equal. symmetry.
      apply (proj1 (A' v x y Hx Hy)).
      apply lookup_lt_Some in Hx.
      assert (length g' = length ga) as <-; [|assumption].
      apply (forEach_partial (resetVertex s)
               (fun t : Graph * MinHeap => length t.1 = length ga) _
               (ga, h) (g', h') H); [reflexivity|].
      intros a [t th] [t1 th1] _ Ht Eb. simpl in *. rewrite <- Ht.
      eapply resetVertex_length. eassumption.
    + apply lookup_ge_None_2. rewrite <- L'.
      apply lookup_ge_None_1. assumption.
Qed.

(** A run from an empty heap is determined by the cities and the edges of
    the graph: what earlier runs have left in the vertices plays no part. *)
Lemma dijkstras_static_only (g g2 : Graph) (s : nat) :
  same_static g g2 -> dijkstras g [] s = dijkstras g2 [] s.
Proof.
  intros Hst. unfold dijkstras.
  destruct (decide (s < length g)%nat) as [Hs|Hs].
  - destruct (dijkstrasReset_spec g s Hs) as (st & E & _).
    rewrite E, (dijkstrasReset_static g g2 [] s st Hst E). reflexivity.
  - pose proof (same_static_length _ _ Hst) as L.
    unfold dijkstrasReset, graphSetVertex, graphGetVertex.
    rewrite (proj2 (lookup_ge_None g s)) by lia.
    rewrite (proj2 (lookup_ge_None g2 s)) by lia. reflexivity.
Qed.

(** * The entries of the heap *)

Lemma payload_NoDup (h : MinHeap) : NoDup (vertex <$> h) -> NoDup (payload <$> h).
Proof.
  intros H. apply (NoDup_fmap_1 snd). rewrite <- list_fmap_compose. exact H.
Qed.

Lemma payloads_sub_elem (h h' : MinHeap) :
  payloads_sub h h' -> forall p, p ∈ payload <$> h -> p ∈ payload <$> h'.
Proof.
  intros Hsub p Hp. apply list_elem_of_fmap in Hp as (n & -> & Hn).
  apply list_elem_of_lookup_1 in Hn as [i Hi].
  destruct (Hsub _ _ Hi) as (i' & n' & Hn' & E).
  apply list_elem_of_fmap. exists n'. split; [congruence|].
  eapply list_elem_of_lookup_2. eassumption.
Qed.

(** Two heaps without repeated vertices that hold the same values and
    vertices hold them equally often. *)
Lemma payloads_perm (h h' : MinHeap) :
  NoDup (vertex <$> h) -> NoDup (vertex <$> h') ->
  payloads_sub h h' -> payloads_sub h' h ->
  payload <$> h' ≡ₚ payload <$> h.
Proof.
  intros N N' S S'. apply NoDup_Permutation; try (apply payload_NoDup; assumption).
  intros p. split; apply payloads_sub_elem; assumption.
Qed.

Lemma drain_perm (fuel : nat) : forall (g : Graph) (h : MinHeap),
  heap_wf g h -> (length h <= fuel)%nat ->
  exists out,
    drain fuel g h = Ok out /\
    (fun p : nat * Z => (p.2, p.1)) <$> out ≡ₚ payload <$> h.
Proof.
  induction fuel as [|fuel IH]; intros g h Hwf Hfuel; rewrite drain_eq.
  - assert (h = []) as -> by (apply length_zero_iff_nil; lia).
    simpl. exists []. split; reflexivity.
  - destruct h as [|top rest] eqn:Eh.
    + simpl. exists []. split; reflexivity.
    + rewrite <- Eh in *.
      assert (h !! 0%nat = Some top) as Htop by (rewrite Eh; reflexivity).
      assert (minHeapIsEmpty h = false) as ->.
      { destruct (minHeapIsEmpty h) eqn:E; [|reflexivity].
        apply minHeapIsEmpty_nil in E. congruence. }
      change 0 with (Z.of_nat 0). rewrite (heapAt_Some _ _ _ Htop). step.
      destruct (minHeapDequeue_spec g h top Hwf Htop)
        as (g' & h' & E & Hwf' & _ & Hlen & Hsub & Hsub' & _).
      rewrite E. step.
      destruct (IH g' h' Hwf' ltac:(lia)) as (out & Eo & Hperm).
      rewrite Eo. step. exists ((vertex top, value top) :: out).
      split; [reflexivity|].
      rewrite fmap_cons, Hperm. simpl.
      rewrite (payloads_perm (drop 1 h) h'); [rewrite Eh; reflexivity | | | |];
        try assumption.
      * pose proof (heap_wf_NoDup g h Hwf) as N. rewrite Eh in N. rewrite Eh. simpl.
        rewrite drop_0. apply NoDup_cons in N. apply N.
      * eapply heap_wf_NoDup. eassumption.
Qed.

(** * Example graphs and heaps *)

Lemma built_wf (records : list (string * string * Z)) :
  Forall (fun r => r.2 <= INT_MAX) records -> graph_wf (built records).
Proof.
  intros Hall. unfold built.
  destruct (graphPopulateGraph [] records) as [g|] eqn:E; [|apply graph_wf_nil].
  simpl. eapply graphPopulateGraph_wf; [apply graph_wf_nil | exact Hall | exact E].
Qed.

Lemma two_islands_wf : graph_wf two_islands.
Proof. apply built_wf. repeat constructor; simpl; unfold INT_MAX; lia. Qed.

Lemma triangle_wf : graph_wf triangle.
Proof. apply built_wf. repeat constructor; simpl; unfold INT_MAX; lia. Qed.

Lemma two_islands_no_self_loops : no_self_loops two_islands.
Proof.
  intros v e He.
  do 4 (destruct v as [|v];
        [apply list_elem_of_singleton in He; subst e; simpl; lia|]).
  inversion He.
Qed.

Lemma two_islands_reachable (v : nat) :
  reachable two_islands 0 v -> v = 0%nat \/ v = 1%nat.
Proof.
  induction 1 as [|v e Hr IH He]; [auto|].
  destruct IH as [-> | ->];
    apply list_elem_of_singleton in He; subst e; simpl; auto.
Qed.

Lemma two_islands_run : dijkstras two_islands [] 0 = Ok (two_islands_after, []).
Proof. vm_compute. reflexivity. Qed.

(** A self-loop whose distance, added to the distance of its vertex, does
    not fit an [int]: B is the last vertex taken off the heap, the loop
    B-B is relaxed, and [minHeapDecreaseNodeValue] reads slot 0 of the
    empty heap. *)
Lemma self_loop_fault :
  dijkstras (built [("A", "B", 1); ("B", "B", INT_MAX)]%string) [] 0 = Fault.
Proof. vm_compute. reflexivity. Qed.

Lemma reached_in_run :
  (st ← dijkstrasReset three_islands [] 4; dijkstrasRounds 4 st.1 st.2)
  = Ok (reached_graph, reached_heap).
Proof. vm_compute. reflexivity. Qed.

Lemma reached_heap_wf : heap_wf reached_graph reached_heap.
Proof. apply heap_wf_b_sound. vm_compute. reflexivity. Qed.

Lemma reached_heap_ordered : heap_ordered reached_heap.
Proof. apply heap_ordered_b_sound. vm_compute. reflexivity. Qed.

Lemma reached_heap_dequeue :
  minHeapDequeue reached_graph reached_heap =
  (s ← minHeapSiftDown sifting_graph sifting_heap; Ok (0%nat, s)) /\
  minHeapDequeue reached_graph reached_heap =
  Ok (0%nat,
      ([ mkVertex 0 "A" [mkEdge 0 1 1] (Some 1%nat) (- INT_MAX) 0 false;
         mkVertex 1 "B" [mkEdge 1 0 1; mkEdge 1 2 1; mkEdge 1 3 1] (Some 2%nat)
           INT_MIN 0 true;
         mkVertex 2 "C" [mkEdge 2 1 1] None INT_MAX 0 true;
         mkVertex 3 "D" [mkEdge 3 1 1] (Some 1%nat) (- INT_MAX) 1 false;
         mkVertex 4 "E" [mkEdge 4 5 1] None 0 0 true;
         mkVertex 5 "F" [mkEdge 5 4 1] (Some 4%nat) 1 0 true;
         mkVertex 6 "G" [mkEdge 6 7 1] None INT_MAX 2 false;
         mkVertex 7 "H" [mkEdge 7 6 1] None INT_MAX 0 false ],
       [ mkNode INT_MAX 0 true true 7;
         mkNode (- INT_MAX) 1 false false 3;
         mkNode INT_MAX 2 false false 6 ])).
Proof. split; vm_compute; reflexivity. Qed.

Lemma small_heap_wf : heap_wf small_graph small_heap.
Proof. apply heap_wf_b_sound. vm_compute. reflexivity. Qed.

Lemma small_heap_ordered : heap_ordered small_heap.
Proof. apply heap_ordered_b_sound. vm_compute. reflexivity. Qed.

Lemma small_heap_range : heap_range small_heap.
Proof. apply heap_range_b_sound. vm_compute. reflexivity. Qed.

Lemma small_heap_without_D : ~ in_heap small_heap 3.
Proof.
  intros (i & n & Hn & E).
  do 3 (destruct i as [|i]; [inversion Hn; subst n; discriminate|]).
  discriminate.
Qed.

(** * Shortest distances *)

Section Shortest.

Variable g0 : Graph.
Variable s : nat.
Variable W : Z.
Hypothesis Hg0 : graph_wf g0.
Hypothesis Hs : (s < length g0)%nat.
Hypothesis HW0 : 0 <= W.
Hypothesis HW : forall v e, e ∈ edgesOf g0 v -> edge_distance e <= W.
Hypothesis Hbound : Z.of_nat (length g0) * W < INT_MAX.

(** What one edge of the vertex in hand does to the distances. *)
Lemma relaxEdge_effect (u : nat) (du : Z) (g : Graph) (h : MinHeap) (e : Edge) :
  relaxing g0 s W u du g h -> e ∈ edgesOf g0 u ->
  0 <= du -> du + W <= (Z.of_nat (length g0) - Z.of_nat (length h)) * W ->
  exists g' h',
    relaxEdge u (g, h) e = Ok (g', h') /\
    relaxing g0 s W u du g' h' /\ length h' = length h /\
    (forall w, visitedOf g' w = visitedOf g w) /\
    (forall w, distOf g' w <= distOf g w) /\
    (forall w, distOf g' w = distOf g w \/ du <= distOf g' w) /\
    (distOf g' (edge_end e) <= du + edge_distance e \/
     visitedOf g (edge_end e) = true).
Proof.
  intros Hrx He Hdu0 Hdub.
  destruct (relaxEdge_phase1 g0 s W Hg0 Hs HW0 HW Hbound u du g h e Hrx He Hdu0 Hdub)
    as (g' & h' & E & Hrx' & Hlen & _ & Hmono).
  exists g', h'. split_and!; try assumption.
  - intros w. apply (relaxEdge_frame _ _ _ _ _ _ E).
  - destruct Hrx as [[Hst Hwf _ _ Hrange _ _ _ _] (Hu & _ & Hdu) _ _].
    destruct (graph_wf_edgesOf g0 u e Hg0 He) as (_ & _ & Hw1 & Hw2).
    pose proof (HW u e He) as HwW.
    assert (wrap_int (distOf g u + edge_distance e) = du + edge_distance e) as Ealt.
    { rewrite Hdu. apply wrap_int_id. unfold in_int, INT_MIN, INT_MAX in *. nia. }
    destruct (relaxEdge_change _ _ _ _ _ _ E) as [Hother Hend].
    intros w. destruct (decide (w = edge_end e)) as [->|Hne].
    + destruct Hend as [[-> _] | (_ & -> & _)]; [auto|]. rewrite Ealt. right. lia.
    + left. apply Hother. assumption.
  - destruct Hrx as [[Hst Hwf _ _ Hrange _ _ _ _] (Hu & _ & Hdu) Hvis _].
    destruct (graph_wf_edgesOf g0 u e Hg0 He) as (_ & Hend & Hw1 & Hw2).
    pose proof (HW u e He) as HwW.
    pose proof (same_static_length _ _ Hst) as Lg.
    assert (wrap_int (distOf g u + edge_distance e) = du + edge_distance e) as Ealt.
    { rewrite Hdu. apply wrap_int_id. unfold in_int, INT_MIN, INT_MAX in *. nia. }
    destruct (relaxEdge_cases u g h e ltac:(lia) ltac:(lia) Hwf)
      as (g'' & h'' & E'' & Hcase).
    { rewrite Ealt. intros Hv Hlt.
      destruct (proj1 (Hvis (edge_end e) Hend) Hv) as [Heq|]; [|assumption].
      rewrite Heq, Hdu in Hlt. lia. }
    rewrite E in E''. inversion E''; subst g'' h''. rewrite Ealt in Hcase.
    destruct Hcase as [([Hv|Hle] & -> & ->) | (_ & _ & _ & _ & _ & Db & _)].
    + right. assumption.
    + left. assumption.
    + left. rewrite Db. destruct (decide (edge_end e = edge_end e)); [lia | congruence].
Qed.

(** What a round does to the distances, as long as the vertex taken off
    has been reached. *)
Lemma dijkstrasRound_effect (g : Graph) (h : MinHeap) (top : Node) :
  phase1 g0 s W g h -> h !! 0%nat = Some top -> value top < INT_MAX ->
  exists g' h', dijkstrasRound g h = Ok (g', h') /\
    phase1 g0 s W g' h' /\ length h = S (length h') /\
    (vertex top < length g0)%nat /\
    visitedOf g (vertex top) = false /\
    distOf g (vertex top) = value top /\
    distOf g' (vertex top) = value top /\
    (forall w, visitedOf g' w = if decide (w = vertex top) then true else visitedOf g w) /\
    (forall w, distOf g' w <= distOf g w) /\
    (forall w, distOf g' w = distOf g w \/ value top <= distOf g' w) /\
    (forall e, e ∈ edgesOf g0 (vertex top) ->
       distOf g' (edge_end e) <= value top + edge_distance e \/
       visitedOf g (edge_end e) = true) /\
    (forall w, (w < length g0)%nat -> visitedOf g w = false -> value top <= distOf g w).
Proof.
  intros Hp1 Htop Hval.
  destruct (dijkstrasRound_phase1 g0 s W Hg0 Hs HW0 HW Hbound g h top Hp1 Htop Hval)
    as (g' & h' & E & Hp1' & Hlen).
  exists g', h'. split; [assumption|]. split; [assumption|]. split; [assumption|].
  destruct Hp1 as [[Hst Hwf Hord Hmir Hrange Hbnd Hsrc Hfin Hfront] Hvis Hprev].
  destruct (minHeapDequeue_spec g h top Hwf Htop)
    as (g1 & h1 & E1 & Hwf1 & F1 & Hlen1 & Sa & Sb & Hord1).
  pose proof (dequeue_in_heap g h h1 top Hwf Htop Sa Sb) as Hin1.
  set (u := vertex top) in *.
  pose proof (same_static_length _ _ Hst) as Lg.
  destruct (same_but_position_fields _ _ F1) as [L1 Hf1].
  assert (same_static g0 g1) as Hst1.
  { eapply same_static_trans; [exact Hst|].
    apply same_but_position_static. assumption. }
  destruct (Hmir _ _ Htop) as (xtop & Hxtop & Vtop). fold u in Hxtop.
  assert (u < length g0)%nat as Hu by (apply lookup_lt_Some in Hxtop; lia).
  assert (distOf g u = value top) as Hdu
    by (rewrite (distOf_lookup _ _ _ Hxtop); congruence).
  set (du := value top) in *.
  destruct (lookup_lt_is_Some_2 g1 u ltac:(lia)) as [xu Hxu].
  assert (edges xu = edgesOf g0 u) as Hedges.
  { rewrite <- (edgesOf_lookup _ _ _ Hxu). apply same_static_edgesOf. assumption. }
  assert (forall w, distOf g1 w = distOf g w) as D1 by (intros w; apply Hf1).
  assert (forall w, prevOf g1 w = prevOf g w) as P1 by (intros w; apply Hf1).
  assert (forall w, visitedOf g1 w = visitedOf g w) as V1 by (intros w; apply Hf1).
  assert (payloads_sub h1 h) as Sh.
  { intros i n Hn. destruct (Sa _ _ Hn) as (i' & n' & Hn' & En).
    rewrite lookup_drop in Hn'. eauto. }
  assert (0 <= du) as Hdu0 by (rewrite <- Hdu; apply Hrange).
  assert (du <= (Z.of_nat (length g0) - Z.of_nat (length h)) * W) as Hdub.
  { rewrite <- Hdu. apply Hbnd. lia. }
  assert (visitedOf g u = false) as Hunvisited.
  { apply Hvis; [assumption|]. exists 0%nat, top. auto. }
  assert (relaxing g0 s W u du g1 h1) as Hrx.
  { constructor.
    - constructor; auto.
      + apply Hord1; [assumption|]. eapply heap_mirror_range; eassumption.
      + eapply heap_mirror_sub; eassumption.
      + intros w. rewrite D1. apply Hrange.
      + intros w. rewrite D1. intros Hw. specialize (Hbnd w Hw). nia.
      + rewrite D1, P1. assumption.
      + intros w. rewrite V1, D1. apply Hfin.
      + intros w e. rewrite V1, D1. apply Hfront.
    - split_and!; auto.
      + rewrite Hin1. tauto.
      + rewrite D1. assumption.
    - intros w Hw. rewrite V1, Hin1, (Hvis w Hw).
      destruct (decide (w = u)) as [->|]; [|tauto].
      split; [auto|]. intros _. exists 0%nat, top. auto.
    - intros w Hw. specialize (Hprev w Hw). unfold prev_ok in *.
      rewrite P1, D1. destruct (prevOf g w) as [p|]; [|assumption].
      destruct Hprev as (A & B & C & D & e & He & Hend & Hd).
      split_and!; auto.
      + rewrite V1. auto.
      + exists e. rewrite D1. auto. }
  destruct (forEach_total (relaxEdge u)
    (fun done st =>
       relaxing g0 s W u du st.1 st.2 /\ length st.2 = length h1 /\
       (forall w, visitedOf st.1 w = visitedOf g1 w) /\
       (forall w, distOf st.1 w <= distOf g1 w) /\
       (forall w, distOf st.1 w = distOf g1 w \/ du <= distOf st.1 w) /\
       Forall (fun e => distOf st.1 (edge_end e) <= du + edge_distance e \/
                        visitedOf g1 (edge_end e) = true) done)
    (edges xu) (g1, h1)) as ([g2 h2] & E2 & Hrx2 & Hlen2 & Hv2 & Hm2 & Hd2 & Hall2).
  - simpl. split_and!; auto with lia.
  - intros done e more [ga ha] El (Hrxa & Hlena & Hva & Hma & Hda & Halla). simpl in *.
    assert (e ∈ edgesOf g0 u) as He.
    { rewrite <- Hedges, El. apply elem_of_app. right. left. }
    destruct (relaxEdge_effect u du ga ha e Hrxa He Hdu0 ltac:(nia))
      as (gb & hb & Eb & Hrxb & Hlenb & Hvb & Hmb & Hdb & Heb).
    exists (gb, hb). split; [assumption|]. simpl.
    split_and!; [assumption | congruence | | | |].
    + intros w. rewrite Hvb. apply Hva.
    + intros w. specialize (Hmb w). specialize (Hma w). lia.
    + intros w. destruct (Hdb w) as [Eq|Hge]; [|auto].
      rewrite Eq. apply Hda.
    + apply Forall_app. split.
      * eapply Forall_impl; [exact Halla|]. simpl. intros e' [He'|He']; [|auto].
        left. specialize (Hmb (edge_end e')). lia.
      * constructor; [|constructor]. destruct Heb as [Heb|Heb]; [auto|].
        right. rewrite <- Hva. assumption.
  - simpl in *.
    destruct Hrx2 as [[Hst2 _ _ _ _ _ _ _ _] (_ & _ & Hdu2) _ _].
    pose proof (same_static_length _ _ Hst2) as L2.
    destruct (graphSetVertex_total g2 u (vertexSetVisited true) ltac:(lia))
      as [g3 E3].
    destruct (set_visited_fields _ _ _ _ E3) as (_ & S3 & P3 & D3 & Pv3 & V3).
    assert (dijkstrasRound g h = Ok (g3, h2)) as E'.
    { rewrite dijkstrasRound_eq, E1. step. simpl.
      unfold graphGetVertex. rewrite Hxu. step. rewrite E2. step. simpl.
      rewrite E3. reflexivity. }
    rewrite E in E'. inversion E'; subst g' h'. clear E'.
    split_and!.
    + assumption.
    + assumption.
    + assumption.
    + rewrite D3. assumption.
    + intros w. rewrite V3, Hv2, V1. reflexivity.
    + intros w. rewrite D3, <- D1. apply Hm2.
    + intros w. rewrite D3, <- D1. apply Hd2.
    + intros e He. rewrite D3, <- V1. rewrite <- Hedges in He.
      rewrite Forall_forall in Hall2. apply Hall2. assumption.
    + intros w Hw Hvw. apply (Hvis w Hw) in Hvw as (i & n & Hn & En).
      pose proof (heap_root_min h top Hord Htop i n Hn) as Hle.
      destruct (Hmir _ _ Hn) as (x & Hx & Vx). rewrite En in Hx.
      rewrite (distOf_lookup _ _ _ Hx). lia.
Qed.

(** A round that takes a reached vertex off the heap keeps [front_inv]. *)
Lemma dijkstrasRound_front (g : Graph) (h : MinHeap) (top : Node) :
  phase1 g0 s W g h -> front_inv g0 g ->
  h !! 0%nat = Some top -> value top < INT_MAX ->
  exists g' h', dijkstrasRound g h = Ok (g', h') /\
    phase1 g0 s W g' h' /\ front_inv g0 g' /\ length h = S (length h').
Proof.
  intros Hp1 [Hrel Hahead] Htop Hval.
  destruct (dijkstrasRound_effect g h top Hp1 Htop Hval)
    as (g' & h' & E & Hp1' & Hlen & Hu & Hun & Hdu0 & Hdu & Hv & Hmono & Hnew
        & Hedges & Hmin).
  exists g', h'. split_and!; try assumption.
  set (u := vertex top) in *. set (du := value top) in *.
  assert (forall v, visitedOf g v = true -> distOf g v <= du) as Hbefore.
  { intros v Hvv. rewrite <- Hdu0. apply (Hahead v u Hvv Hu Hun). }
  assert (forall v, visitedOf g v = true -> distOf g' v = distOf g v) as Hkeep.
  { intros v Hvv. destruct (Hnew v) as [Eq|Hge]; [assumption|].
    specialize (Hbefore v Hvv). specialize (Hmono v). lia. }
  constructor.
  - intros v e. rewrite Hv. destruct (decide (v = u)) as [->|Hne].
    + intros _ He. rewrite Hdu.
      destruct (Hedges e He) as [Hle|Hvis]; [assumption|].
      destruct (graph_wf_edgesOf g0 u e Hg0 He) as (_ & _ & Hw1 & _).
      specialize (Hbefore _ Hvis). specialize (Hmono (edge_end e)). lia.
    + intros Hvv He. rewrite (Hkeep v Hvv).
      specialize (Hrel v e Hvv He). specialize (Hmono (edge_end e)). lia.
  - intros v w. rewrite !Hv. destruct (decide (w = u)) as [->|Hwu]; [discriminate|].
    intros Hvv Hw Hvw.
    assert (du <= distOf g' w) as Hduw.
    { destruct (Hnew w) as [Eq|Hge]; [|assumption].
      rewrite Eq. apply Hmin; assumption. }
    destruct (decide (v = u)) as [->|Hvu]; [lia|].
    rewrite (Hkeep v Hvv). specialize (Hbefore v Hvv). lia.
Qed.

(** The loop runs through rounds that take reached vertices off the heap
    until the heap is empty or its minimum is the sentinel; [Q] is any
    property of the state that the rounds keep. *)
Lemma phase1_prefix_with (Q : Graph -> MinHeap -> Prop) :
  (forall g h g' h', Q g h -> h <> [] -> dijkstrasRound g h = Ok (g', h') -> Q g' h') ->
  forall (fuel : nat) (g : Graph) (h : MinHeap),
  phase1 g0 s W g h -> front_inv g0 g -> Q g h -> (length h <= fuel)%nat ->
  exists gm hm fuel',
    phase1 g0 s W gm hm /\ front_inv g0 gm /\ Q gm hm /\
    (forall top, hm !! 0%nat = Some top -> INT_MAX <= value top) /\
    (length hm <= fuel')%nat /\
    dijkstrasLoop fuel g h = dijkstrasLoop fuel' gm hm.
Proof.
  intros HQ. induction fuel as [|fuel IH]; intros g h Hp1 Hf Hq Hfuel.
  - assert (h = []) as -> by (apply length_zero_iff_nil; lia).
    exists g, [], 0%nat. split_and!; auto. intros top Ht. discriminate.
  - destruct h as [|top rest] eqn:Eh.
    { exists g, [], (S fuel). split_and!; auto. intros top Ht. discriminate. }
    rewrite <- Eh in *.
    assert (h !! 0%nat = Some top) as Htop by (rewrite Eh; reflexivity).
    assert (h <> []) as Hne by (rewrite Eh; discriminate).
    destruct (Z.lt_ge_cases (value top) INT_MAX) as [Hfin|Hinf].
    + destruct (dijkstrasRound_front g h top Hp1 Hf Htop Hfin)
        as (g1 & h1 & E1 & Hp1' & Hf' & Hlen).
      destruct (IH g1 h1 Hp1' Hf' (HQ _ _ _ _ Hq Hne E1) ltac:(lia))
        as (gm & hm & fuel' & A & B & C & D & E & F).
      exists gm, hm, fuel'. split_and!; try assumption.
      rewrite dijkstrasLoop_eq.
      assert (minHeapIsEmpty h = false) as ->.
      { destruct (minHeapIsEmpty h) eqn:Ee; [|reflexivity].
        apply minHeapIsEmpty_nil in Ee. congruence. }
      rewrite E1. step. assumption.
    + exists g, h, (S fuel). split_and!; auto.
      intros top' Ht'. assert (top' = top) by congruence. subst. assumption.
Qed.

Lemma phase1_prefix (fuel : nat) (g : Graph) (h : MinHeap) :
  phase1 g0 s W g h -> front_inv g0 g -> (length h <= fuel)%nat ->
  exists gm hm fuel',
    phase1 g0 s W gm hm /\ front_inv g0 gm /\
    (forall top, hm !! 0%nat = Some top -> INT_MAX <= value top) /\
    (length hm <= fuel')%nat /\
    dijkstrasLoop fuel g h = dijkstrasLoop fuel' gm hm.
Proof.
  intros Hp1 Hf Hfuel.
  destruct (phase1_prefix_with (fun _ _ => True) ltac:(auto) fuel g h Hp1 Hf I Hfuel)
    as (gm & hm & fuel' & A & B & _ & C & D & E).
  eauto 10.
Qed.

(** After a run that has returned: the vertices that were visited before
    the heap ran out of reached vertices are settled, and all their edges
    are relaxed. *)
Lemma dijkstras_relaxed (g' : Graph) (h' : MinHeap) :
  dijkstras g0 [] s = Ok (g', h') ->
  exists V, settled g0 s g' V /\ same_static g0 g' /\
    (forall v, V v -> visitedOf g' v = true) /\
    forall v e, V v -> e ∈ edgesOf g0 v ->
      distOf g' (edge_end e) <= distOf g' v + edge_distance e.
Proof.
  unfold dijkstras. intros H.
  destruct (dijkstrasReset_spec g0 s Hs) as ([g1 h1] & E1 & Hinv).
  rewrite E1 in H. simpl in H.
  pose proof (reset_phase1 g0 s W Hs HW0 g1 h1 Hinv) as Hp1.
  assert (front_inv g0 g1) as Hf1.
  { destruct Hinv as (_ & _ & _ & _ & _ & _ & _ & Hdone). simpl in *.
    assert (forall v, visitedOf g1 v = false) as Hnv.
    { intros v. destruct (decide (v < length g0)%nat) as [Hv|Hv].
      - apply Hdone. assumption.
      - apply visitedOf_out. destruct Hp1 as [[Hst _ _ _ _ _ _ _ _] _ _].
        rewrite (same_static_length _ _ Hst). lia. }
    constructor; intros v ? Hv; rewrite Hnv in Hv; discriminate. }
  destruct (phase1_prefix (length h1) g1 h1 Hp1 Hf1 ltac:(lia))
    as (gm & hm & fuel' & Hpm & [Hrel Hahead] & Hstop & Hfuel & Eloop).
  rewrite Eloop in H.
  pose proof (phase1_settled g0 s W Hg0 Hs gm hm Hpm Hstop) as Hset.
  apply dijkstrasLoop_frame in H as Hkept.
  exists (fun v => (v < length g0)%nat /\ visitedOf gm v = true).
  destruct Hkept as [Hst Hk].
  split_and!.
  - eapply (settled_kept g0 s Hs gm g'); [| split; eassumption | exact Hset].
    intros v [_ Hv]. exact Hv.
  - eapply same_static_trans; [apply Hpm | exact Hst].
  - intros v [_ Hv]. apply (Hk v Hv).
  - intros v e [Hvl Hv] He.
    destruct Hset as (_ & Hclosed & _).
    destruct (Hclosed v e (conj Hvl Hv) He) as [_ Hve].
    destruct (Hk v Hv) as (_ & -> & _). destruct (Hk _ Hve) as (_ & -> & _).
    apply Hrel; assumption.
Qed.

(** On a graph all of whose vertices can be reached from the source, the
    heap never runs out of reached vertices: the run returns, self-loops
    or not, and every vertex ends visited, with a distance below the
    sentinel. *)
Lemma dijkstras_connected :
  (forall v, (v < length g0)%nat -> reachable g0 s v) ->
  exists g', dijkstras g0 [] s = Ok (g', []) /\ same_static g0 g' /\
    settled g0 s g' (fun v => (v < length g0)%nat).
Proof.
  intros Hconn. unfold dijkstras.
  destruct (dijkstrasReset_spec g0 s Hs) as ([g1 h1] & E1 & Hinv).
  rewrite E1. step.
  pose proof (reset_phase1 g0 s W Hs HW0 g1 h1 Hinv) as Hp1.
  assert (front_inv g0 g1) as Hf1.
  { destruct Hinv as (_ & _ & _ & _ & _ & _ & _ & Hdone). simpl in *.
    assert (forall v, visitedOf g1 v = false) as Hnv.
    { intros v. destruct (decide (v < length g0)%nat) as [Hv|Hv].
      - apply Hdone. assumption.
      - apply visitedOf_out. destruct Hp1 as [[Hst _ _ _ _ _ _ _ _] _ _].
        rewrite (same_static_length _ _ Hst). lia. }
    constructor; intros v ? Hv; rewrite Hnv in Hv; discriminate. }
  destruct (phase1_prefix (length h1) g1 h1 Hp1 Hf1 ltac:(lia))
    as (gm & hm & fuel' & Hpm & _ & Hstop & Hfuel & Eloop).
  rewrite Eloop.
  pose proof (phase1_settled g0 s W Hg0 Hs gm hm Hpm Hstop) as Hset.
  assert (same_static g0 gm) as Hstm by apply Hpm.
  assert (forall v, (v < length g0)%nat -> visitedOf gm v = true) as Hall.
  { intros v Hv.
    apply (settled_reachable g0 s gm _ Hset v (Hconn v Hv)). }
  assert (hm = []) as ->.
  { destruct hm as [|top rest]; [reflexivity|]. exfalso.
    destruct Hpm as [[_ _ _ Hmir _ _ _ _ _] Hvis _].
    destruct (Hmir 0%nat top eq_refl) as (x & Hx & _).
    assert (vertex top < length g0)%nat as Hlt.
    { apply lookup_lt_Some in Hx. rewrite (same_static_length _ _ Hstm) in Hx.
      assumption. }
    assert (visitedOf gm (vertex top) = false) as Hun.
    { apply Hvis; [assumption|]. exists 0%nat, top. auto. }
    rewrite (Hall _ Hlt) in Hun. discriminate. }
  exists gm. split; [rewrite dijkstrasLoop_eq; reflexivity|].
  split; [assumption|].
  destruct Hset as (Hsrc & Hclosed & Hsettled).
  split_and!.
  - assumption.
  - intros v e Hv He. destruct (graph_wf_edgesOf g0 v e Hg0 He) as (_ & Hend & _).
    assumption.
  - intros v Hv. destruct (Hsettled v (conj Hv (Hall v Hv))) as (A & B & C).
    split; [assumption|]. split; [assumption|].
    destruct (prevOf gm v) as [p|]; [|assumption].
    destruct C as ([Hp _] & Hrest). split; assumption.
Qed.

End Shortest.

(** No route of the graph from the source is shorter than the distance
    that a run records. *)
Lemma chain_lower_bound (g0 : Graph) (s : nat) (g' : Graph) (V : nat -> Prop) :
  settled g0 s g' V -> distOf g' s = 0 ->
  (forall v e, V v -> e ∈ edgesOf g0 v ->
     distOf g' (edge_end e) <= distOf g' v + edge_distance e) ->
  forall d path len, chain g0 s d path len -> V d /\ distOf g' d <= len.
Proof.
  intros (Hsrc & Hclosed & Hall) Hs0 Hrel d path len Hc.
  induction Hc as [|p e path len Hc [Vp IH] He].
  - split; [assumption | lia].
  - split; [eapply Hclosed; eassumption|].
    specialize (Hrel p e Vp He). lia.
Qed.

(** * The order in which the vertices are visited *)

Section Order.

Variable g0 : Graph.
Hypothesis Hg0 : graph_wf g0.
Hypothesis Hloops : no_self_loops g0.

Lemma dijkstrasRound_order (g : Graph) (h : MinHeap) (rank : nat -> nat) (k : nat) :
  order_inv g0 g h rank k -> h <> [] ->
  exists g' h' u, dijkstrasRound g h = Ok (g', h') /\
    order_inv g0 g' h' (fun v => if decide (v = u) then k else rank v) (S k).
Proof.
  intros (Hst & Hwf & Hk & Hvis & Hrank & Hprev) Hne.
  destruct h as [|top rest] eqn:Eh; [congruence|]. rewrite <- Eh in *.
  assert (h !! 0%nat = Some top) as Htop by (rewrite Eh; reflexivity).
  destruct (minHeapDequeue_spec g h top Hwf Htop)
    as (g1 & h1 & E1 & Hwf1 & F1 & Hlen1 & Sa & Sb & _).
  pose proof (dequeue_in_heap g h h1 top Hwf Htop Sa Sb) as Hin1.
  set (u := vertex top) in *.
  pose proof (same_static_length _ _ Hst) as Lg.
  destruct (same_but_position_fields _ _ F1) as [L1 Hf1].
  assert (same_static g0 g1) as Hst1.
  { eapply same_static_trans; [exact Hst|].
    apply same_but_position_static. assumption. }
  assert (u < length g0)%nat as Hu.
  { destruct (Hwf _ _ Htop) as (_ & _ & _ & x & Hx & _).
    apply lookup_lt_Some in Hx. fold u in Hx. lia. }
  assert (visitedOf g u = false) as Hun.
  { apply Hvis; [assumption|]. exists 0%nat, top. auto. }
  assert (forall w, prevOf g1 w = prevOf g w) as P1 by (intros w; apply Hf1).
  assert (forall w, visitedOf g1 w = visitedOf g w) as V1 by (intros w; apply Hf1).
  destruct (lookup_lt_is_Some_2 g1 u ltac:(lia)) as [xu Hxu].
  assert (edges xu = edgesOf g0 u) as Hedges.
  { rewrite <- (edgesOf_lookup _ _ _ Hxu). apply same_static_edgesOf. assumption. }
  destruct (forEach_total (relaxEdge u)
    (fun (_ : list Edge) st =>
       same_static g0 st.1 /\ heap_wf st.1 st.2 /\ length st.2 = length h1 /\
       (forall v, in_heap st.2 v <-> in_heap h1 v) /\
       (forall v, visitedOf st.1 v = visitedOf g v) /\
       (forall p, prevOf st.1 u = Some p -> visitedOf g p = true) /\
       forall v p, prevOf st.1 v = Some p ->
         (p < length g0)%nat /\ (visitedOf g p = true \/ p = u) /\
         (visitedOf g v = true -> visitedOf g p = true /\ (rank p < rank v)%nat))
    (edges xu) (g1, h1))
    as ([g2 h2] & E2 & Hst2 & Hwf2 & Hlen2 & Hin2 & Hv2 & Hpu2 & Hp2).
  - simpl. split_and!; auto.
    + intros p. rewrite P1. intros Hp. apply (Hprev u p Hp).
    + intros v p. rewrite P1. intros Hp.
      destruct (Hprev v p Hp) as (A & B & C). split_and!; auto.
  - intros done e more [ga ha] El (Hsta & Hwfa & Hlena & Hina & Hva & Hpua & Hpa).
    simpl in *.
    assert (e ∈ edgesOf g0 u) as He.
    { rewrite <- Hedges, El. apply elem_of_app. right. left. }
    destruct (graph_wf_edgesOf g0 u e Hg0 He) as (_ & Hend & _).
    pose proof (Hloops u e He) as Hnot.
    pose proof (same_static_length _ _ Hsta) as La.
    destruct (relaxEdge_cases u ga ha e ltac:(lia) ltac:(lia) Hwfa)
      as (gb & hb & Eb & Hcase).
    { intros Hv _. rewrite Hva in Hv. apply Hina, Hin1.
      split; [|assumption]. apply Hvis; assumption. }
    exists (gb, hb). split; [assumption|]. simpl.
    destruct Hcase as [(_ & -> & ->) |
      (Hvv & _ & Sb' & Hwfb & Hlenb & _ & Pb & Vb & Ib & _)].
    + split_and!; auto.
    + rewrite Hva in Hvv. split_and!.
      * eapply same_static_trans; eassumption.
      * assumption.
      * congruence.
      * intros v. rewrite Ib. apply Hina.
      * intros v. rewrite Vb. apply Hva.
      * intros p. rewrite Pb. destruct (decide (u = edge_end e)); [congruence|].
        apply Hpua.
      * intros v p. rewrite Pb. destruct (decide (v = edge_end e)) as [->|Hne'].
        -- intros Hp. inversion Hp; subst p. split_and!; auto. congruence.
        -- apply Hpa.
  - simpl in *.
    pose proof (same_static_length _ _ Hst2) as L2.
    destruct (graphSetVertex_total g2 u (vertexSetVisited true) ltac:(lia))
      as [g3 E3].
    destruct (set_visited_fields _ _ _ _ E3) as (_ & S3 & P3 & D3 & Pv3 & V3).
    exists g3, h2, u. split.
    { rewrite dijkstrasRound_eq, E1. step. simpl.
      unfold graphGetVertex. rewrite Hxu. step. rewrite E2. step. simpl.
      rewrite E3. reflexivity. }
    assert (forall p, visitedOf g p = true -> p <> u) as Hold.
    { intros p Hp ->. congruence. }
    split_and!.
    + eapply same_static_trans; eassumption.
    + eapply heap_wf_same_position; eassumption.
    + lia.
    + intros v Hv. rewrite V3, Hv2, Hin2, Hin1.
      destruct (decide (v = u)) as [->|Hvu].
      * split; [discriminate | tauto].
      * rewrite (Hvis v Hv). tauto.
    + intros v. rewrite V3, Hv2. destruct (decide (v = u)); [lia|].
      intros Hv. specialize (Hrank v Hv). lia.
    + intros v p. rewrite Pv3, !V3, !Hv2. intros Hp.
      destruct (Hp2 v p Hp) as (A & B & C). split; [assumption|].
      split.
      * destruct (decide (p = u)); [reflexivity|]. destruct B; [assumption | contradiction].
      * destruct (decide (v = u)) as [->|Hvu].
        -- intros _. pose proof (Hpu2 p Hp) as Hpv.
           destruct (decide (p = u)) as [->|]; [congruence|]. apply Hrank. assumption.
        -- intros Hv. destruct (C Hv) as [Hpv Hlt].
           destruct (decide (p = u)) as [->|]; [congruence | assumption].
Qed.

Lemma dijkstrasLoop_order (fuel : nat) : forall (g : Graph) (h : MinHeap) rank k,
  order_inv g0 g h rank k -> (length h <= fuel)%nat ->
  exists g' rank' k', dijkstrasLoop fuel g h = Ok (g', []) /\
    order_inv g0 g' [] rank' k'.
Proof.
  induction fuel as [|fuel IH]; intros g h rank k Hinv Hfuel; rewrite dijkstrasLoop_eq.
  - assert (h = []) as -> by (apply length_zero_iff_nil; lia).
    simpl. eauto.
  - destruct (minHeapIsEmpty h) eqn:Eempty.
    + apply minHeapIsEmpty_nil in Eempty. subst h. eauto.
    + assert (h <> []) as Hne by (intros ->; discriminate).
      destruct (dijkstrasRound_order g h rank k Hinv Hne) as (g1 & h1 & u & E1 & Hinv1).
      rewrite E1. step. eapply IH; [exact Hinv1|].
      destruct Hinv as (_ & _ & Hk & _). destruct Hinv1 as (_ & _ & Hk1 & _). lia.
Qed.

(** Once every vertex is visited, the chain of predecessors of a vertex
    ends: the loop that collects the route returns. *)
Lemma routeLoop_order (g : Graph) (rank : nat -> nat) (k : nat) :
  order_inv g0 g [] rank k ->
  forall r v fuel acc, (v < length g0)%nat -> rank v = r -> (r <= fuel)%nat ->
  exists names, routeLoop fuel g v acc = Ok names.
Proof.
  intros (Hst & _ & _ & Hvis & Hrank & Hprev).
  pose proof (same_static_length _ _ Hst) as Lg.
  assert (forall v, (v < length g0)%nat -> visitedOf g v = true) as Hall.
  { intros v Hv. destruct (visitedOf g v) eqn:E; [reflexivity|].
    apply (Hvis v Hv) in E as (i & n & Hn & _). discriminate. }
  induction r as [r IH] using lt_wf_ind. intros v fuel acc Hv Hr Hfuel.
  destruct (lookup_lt_is_Some_2 g v ltac:(lia)) as [x Hx].
  rewrite routeLoop_eq. unfold graphGetVertex. rewrite Hx. step.
  destruct (previous x) as [p|] eqn:Ep; [|eauto].
  rewrite <- (prevOf_lookup _ _ _ Hx) in Ep.
  destruct (Hprev v p Ep) as (Hp & _ & Hlt). specialize (Hlt (Hall v Hv)).
  destruct fuel as [|fuel]; [lia|].
  destruct (lookup_lt_is_Some_2 g p ltac:(lia)) as [xp Hxp]. rewrite Hxp. step.
  destruct (graph_wf_static _ _ Hst Hg0 p xp Hxp) as [-> _].
  apply (IH (rank p)); [lia | assumption | reflexivity | lia].
Qed.

End Order.

Lemma reset_order (g0 : Graph) (s : nat) (g : Graph) (h : MinHeap) :
  reset_inv g0 s (length g0) (g, h) -> order_inv g0 g h (fun _ => 0%nat) 0.
Proof.
  unfold reset_inv. simpl.
  intros (Hst & Hwf & _ & _ & Hlen & Hin & _ & Hdone).
  pose proof (same_static_length _ _ Hst) as Lg.
  assert (forall v, visitedOf g v = false) as Hnv.
  { intros v. destruct (decide (v < length g0)%nat) as [Hv|Hv].
    - apply Hdone. assumption.
    - apply visitedOf_out. lia. }
  split_and!; auto.
  - intros v Hv. rewrite Hin. split; auto.
  - intros v Hv. rewrite Hnv in Hv. discriminate.
  - intros v p Hp. destruct (decide (v < length g0)%nat) as [Hv|Hv].
    + destruct (Hdone v Hv) as (_ & Hnone & _). congruence.
    + rewrite prevOf_out in Hp by lia. discriminate.
Qed.

(** On a graph without self-loops every query is answered: the run
    returns, and so does the writing of the route. *)
Lemma query_total (g : Graph) (s d : nat) :
  graph_wf g -> no_self_loops g -> (s < length g)%nat -> (d < length g)%nat ->
  exists g' text,
    dijkstras g [] s = Ok (g', []) /\ same_static g g' /\
    (forall v, (v < length g)%nat -> visitedOf g' v = true) /\
    dijkstrasWriteToFile g' s d = Ok text.
Proof.
  intros Hwf Hloops Hs Hd.
  destruct (dijkstrasReset_spec g s Hs) as ([g1 h1] & E1 & Hinv).
  destruct (dijkstrasLoop_order g Hwf Hloops (length h1) g1 h1 _ _
              (reset_order g s g1 h1 Hinv) ltac:(lia))
    as (g' & rank & k & Eloop & Hord).
  assert (same_static g g') as Hst by apply Hord.
  pose proof (same_static_length _ _ Hst) as Lg.
  destruct (lookup_lt_is_Some_2 g' s ltac:(lia)) as [xs Hxs].
  destruct (lookup_lt_is_Some_2 g' d ltac:(lia)) as [xd Hxd].
  assert (forall v, (v < length g)%nat -> visitedOf g' v = true) as Hall.
  { destruct Hord as (_ & _ & _ & Hvis & _). intros v Hv.
    destruct (visitedOf g' v) eqn:E; [reflexivity|].
    apply (Hvis v Hv) in E as (i & n & Hn & _). discriminate. }
  destruct (routeLoop_order g Hwf g' rank k Hord (rank d) d (length g') [cityName xd]
              Hd eq_refl) as [names Hnames].
  { destruct Hord as (_ & _ & Hk & _ & Hrank & _). simpl in Hk.
    specialize (Hrank d (Hall d Hd)). lia. }
  exists g'. eexists. split_and!.
  - unfold dijkstras. rewrite E1. step. exact Eloop.
  - assumption.
  - assumption.
  - unfold dijkstrasWriteToFile, graphGetVertex. rewrite Hxs, Hxd. step.
    rewrite Hnames. step. reflexivity.
Qed.

(** * The queries of a batch *)

Lemma string_app_nil_r (a : string) : (a ++ "")%string = a.
Proof. induction a as [|ch a IH]; simpl; [reflexivity | rewrite IH; reflexivity]. Qed.

Lemma graphGetVertexNumber_from_names (name : string) (l : list Vertex) :
  forall (l2 : list Vertex) i, cityName <$> l = cityName <$> l2 ->
  graphGetVertexNumber_from l i name = graphGetVertexNumber_from l2 i name.
Proof.
  induction l as [|x l IH]; intros [|y l2] i H; simpl in *; try discriminate.
  - reflexivity.
  - inversion H as [[Hxy Hrest]]. rewrite Hxy. rewrite (IH l2 (S i) Hrest). reflexivity.
Qed.

Lemma same_static_names (g g2 : Graph) :
  same_static g g2 -> cityName <$> g = cityName <$> g2.
Proof.
  unfold same_static. intros H.
  assert (forall l : list Vertex,
            cityName <$> l = (fun t : nat * string * list Edge => t.1.2) <$> (static <$> l))
    as Hn.
  { intros l. rewrite <- list_fmap_compose. reflexivity. }
  rewrite !Hn, H. reflexivity.
Qed.

Lemma graphGetVertexNumber_static (g g2 : Graph) (name : string) :
  same_static g g2 -> graphGetVertexNumber g2 name = graphGetVertexNumber g name.
Proof.
  intros H. unfold graphGetVertexNumber. symmetry.
  apply graphGetVertexNumber_from_names, same_static_names. assumption.
Qed.

Lemma fastestRoute_eq (g : Graph) (h : MinHeap) (start end_ : string)
  (rest : list (string * string)) (written : string) :
  fastestRoute g h ((start, end_) :: rest) written =
  match graphGetVertexNumber g start, graphGetVertexNumber g end_ with
  | Some startVertexNumber, Some endVertexNumber =>
      st ← dijkstras g h startVertexNumber;
      text ← dijkstrasWriteToFile st.1 startVertexNumber endVertexNumber;
      fastestRoute st.1 st.2 rest (written ++ text)
  | _, _ => Ok (written, None)
  end.
Proof.
  simpl. destruct (graphGetVertexNumber g start); [|reflexivity].
  destruct (graphGetVertexNumber g end_); [|reflexivity].
  destruct (dijkstras g h n) as [[g' h']| |]; reflexivity.
Qed.

(** The text written before a batch comes first in the output, and plays
    no other part. *)
Lemma fastestRoute_written (pairs : list (string * string)) :
  forall g h written,
  fastestRoute g h pairs written =
  (r ← fastestRoute g h pairs ""; Ok ((written ++ r.1)%string, r.2)).
Proof.
  induction pairs as [|[a b] pairs IH]; intros g h written.
  - simpl. rewrite string_app_nil_r. reflexivity.
  - rewrite !fastestRoute_eq.
    destruct (graphGetVertexNumber g a) as [va|];
      [|simpl; rewrite string_app_nil_r; reflexivity].
    destruct (graphGetVertexNumber g b) as [vb|];
      [|simpl; rewrite string_app_nil_r; reflexivity].
    destruct (dijkstras g h va) as [[g' h']| |]; [|reflexivity..]. step. simpl.
    destruct (dijkstrasWriteToFile g' va vb) as [text| |]; [|reflexivity..]. step.
    rewrite (IH g' h' (written ++ text)%string), (IH g' h' text).
    simpl. destruct (fastestRoute g' h' pairs "") as [[out r]| |]; [|reflexivity..].
    step. simpl. rewrite string_app_assoc. reflexivity.
Qed.

Lemma fastestRoute_app (p1 : list (string * string)) :
  forall g h p2 written,
  fastestRoute g h (p1 ++ p2) written =
  (r ← fastestRoute g h p1 written;
   match r.2 with
   | Some st => fastestRoute st.1 st.2 p2 r.1
   | None => Ok r
   end).
Proof.
  induction p1 as [|[a b] p1 IH]; intros g h p2 written.
  - reflexivity.
  - rewrite <- app_comm_cons, !fastestRoute_eq.
    destruct (graphGetVertexNumber g a) as [va|]; [|reflexivity].
    destruct (graphGetVertexNumber g b) as [vb|]; [|reflexivity].
    destruct (dijkstras g h va) as [[g' h']| |]; [|reflexivity..]. step. simpl.
    destruct (dijkstrasWriteToFile g' va vb) as [text| |]; [|reflexivity..]. step.
    apply IH.
Qed.

(** A batch that has run to its end leaves the cities and the edges of
    the graph as they were, and the heap as it found it when it was empty. *)
Lemma fastestRoute_frame (pairs : list (string * string)) :
  forall g written out g' h',
  fastestRoute g [] pairs written = Ok (out, Some (g', h')) ->
  same_static g g' /\ h' = [].
Proof.
  induction pairs as [|[a b] pairs IH]; intros g written out g' h' H.
  - inversion H; subst. split; [apply same_static_refl | reflexivity].
  - rewrite fastestRoute_eq in H.
    destruct (graphGetVertexNumber g a) as [va|]; [|discriminate].
    destruct (graphGetVertexNumber g b) as [vb|]; [|discriminate].
    inv_bind H as st Hst. destruct st as [g1 h1]. inv_bind H as text Ht. simpl in *.
    pose proof (dijkstras_static _ _ _ _ Hst) as S1.
    assert (h1 = []) as ->.
    { unfold dijkstras in Hst. inv_bind Hst as r Hr. destruct r as [gr hr].
      eapply dijkstrasLoop_empty. eassumption. }
    destruct (IH _ _ _ _ _ H) as [S2 ->].
    split; [eapply same_static_trans; eassumption | reflexivity].
Qed.

(** A batch that is not empty gives the same result on two graphs with
    the same cities and edges. *)
Lemma fastestRoute_static (g g2 : Graph) (pairs : list (string * string))
  (written : string) :
  same_static g g2 -> pairs <> [] ->
  fastestRoute g2 [] pairs written = fastestRoute g [] pairs written.
Proof.
  intros Hst Hne. destruct pairs as [|[a b] pairs]; [congruence|].
  rewrite !fastestRoute_eq, !(graphGetVertexNumber_static g g2) by assumption.
  destruct (graphGetVertexNumber g a) as [va|]; [|reflexivity].
  destruct (graphGetVertexNumber g b) as [vb|]; [|reflexivity].
  rewrite (dijkstras_static_only g g2 va Hst). reflexivity.
Qed.

(** ** The table of results *)

Lemma printResultLine_ok (g : Graph) (i : nat) :
  (forall p, prevOf g i = Some p -> (p < length g)%nat) ->
  (exists line, printResultLine g i = Ok line) <->
  (i < length g)%nat /\ (distOf g i = 0 \/ prevOf g i <> None).
Proof.
  intros Hp. unfold printResultLine, graphGetVertex, vertexGetPreviousCityName.
  destruct (g !! i) as [x|] eqn:Hx.
  - pose proof (lookup_lt_Some _ _ _ Hx) as Hi.
    rewrite (distOf_lookup _ _ _ Hx), (prevOf_lookup _ _ _ Hx).
    rewrite (prevOf_lookup _ _ _ Hx) in Hp. step.
    destruct (Z.eqb_spec (distanceFromSource x) 0) as [E|E].
    + split; [auto | eauto].
    + destruct (previous x) as [p|]; step.
      * destruct (lookup_lt_is_Some_2 g p (Hp p eq_refl)) as [xp Hxp].
        unfold graphGetVertex. rewrite Hxp. step. split; [|eauto].
        intros _. split; [assumption|]. right. discriminate.
      * split; [intros [line H]; discriminate|].
        intros [_ [H|H]]; [contradiction | congruence].
  - step. split; [intros [line H]; discriminate|].
    intros [Hi _]. apply lookup_lt_is_Some_2 in Hi as [x Hx']. congruence.
Qed.

Lemma forEach_lines (line : nat -> result string) (l : list nat) : forall printed,
  (exists table, forEach (fun printed i => t ← line i; Ok (printed ++ t)%string)
                   printed l = Ok table) <->
  forall i, i ∈ l -> exists t, line i = Ok t.
Proof.
  induction l as [|a l IH]; intros printed; simpl.
  - split; [intros _ i Hi; inversion Hi | eauto].
  - destruct (line a) as [t| |] eqn:Ea; step.
    + rewrite IH. split.
      * intros H i Hi. apply elem_of_cons in Hi as [->|Hi]; eauto.
      * intros H i Hi. apply H. right. assumption.
    + split; [intros [? H]; discriminate|].
      intros H. destruct (H a) as [t Ht]; [left|]. congruence.
    + split; [intros [? H]; discriminate|].
      intros H. destruct (H a) as [t Ht]; [left|]. congruence.
Qed.

(** ** Names that fit the buffers *)

Lemma scanName_fits (name : string) :
  (String.length name < STRING_SIZE)%nat -> scanName name = Ok name.
Proof.
  intros H. unfold scanName.
  destruct (Nat.ltb_spec (String.length name) STRING_SIZE); [reflexivity | lia].
Qed.

Lemma graphPopulateGraph_cons (g : Graph) (r : string * string * Z)
  (rest : list (string * string * Z)) :
  graphPopulateGraph g (r :: rest) =
  match graphPopulateGraph g [r] with
  | None => None
  | Some g' => graphPopulateGraph g' rest
  end.
Proof.
  destruct r as [[a b] d]. simpl.
  destruct (checkStringsKnown g a b) as [[g1 va] vb].
  destruct (d <=? 0); [reflexivity|].
  destruct (addEdge g1 va vb d); reflexivity.
Qed.

(** With names that fit the buffers, reading the records is the reading
    loop on the records. *)
Lemma graphPopulateGraphFile_fits (records : list (string * string * Z)) :
  Forall (fun r => (String.length r.1.1 < STRING_SIZE)%nat /\
                   (String.length r.1.2 < STRING_SIZE)%nat) records ->
  forall g, graphPopulateGraphFile g records = Ok (graphPopulateGraph g records).
Proof.
  induction 1 as [|[[a b] d] rest [Ha Hb] _ IH]; intros g; [reflexivity|].
  simpl in Ha, Hb.
  rewrite graphPopulateGraph_cons.
  cbn [graphPopulateGraphFile]. rewrite (scanName_fits a Ha), (scanName_fits b Hb).
  step. destruct (graphPopulateGraph g [(a, b, d)]) as [g'|]; [apply IH | reflexivity].
Qed.

Lemma fastestRouteFile_fits (pairs : list (string * string)) :
  Forall (fun p => (String.length p.1 < STRING_SIZE)%nat /\
                   (String.length p.2 < STRING_SIZE)%nat) pairs ->
  forall g h written,
    fastestRouteFile g h pairs written = fastestRoute g h pairs written.
Proof.
  induction 1 as [|[a b] rest [Ha Hb] _ IH]; intros g h written; [reflexivity|].
  simpl in Ha, Hb.
  change ((a, b) :: rest) with ([(a, b)] ++ rest) at 2.
  rewrite fastestRoute_app.
  cbn [fastestRouteFile]. rewrite (scanName_fits a Ha), (scanName_fits b Hb).
  step. destruct (fastestRoute g h [(a, b)] written) as [[out [[g' h']|]]| |];
    simpl; auto.
Qed.

(** * Routes in both directions *)

Lemma chain_cons (g : Graph) (a : nat) (e : Edge) :
  e ∈ edgesOf g a ->
  forall v path len, chain g (edge_end e) v path len ->
  chain g a v (a :: path) (edge_distance e + len).
Proof.
  intros He v path len Hc. induction Hc as [|p e' path len Hc IH He'].
  - replace (edge_distance e + 0) with (0 + edge_distance e) by lia.
    apply (chain_edge g a a e [a] 0); [constructor | assumption].
  - replace (edge_distance e + (len + edge_distance e'))
      with ((edge_distance e + len) + edge_distance e') by lia.
    apply (chain_edge g a p e' (a :: path)); assumption.
Qed.

(** In a graph whose edges all have their mirror image, a route can be
    walked backwards, and is as long. *)
Lemma chain_rev (g : Graph) (s d : nat) (path : list nat) (len : Z) :
  undirected g -> chain g s d path len -> chain g d s (rev path) len.
Proof.
  intros Hu Hc. induction Hc as [|p e path len Hc IH He].
  - constructor.
  - rewrite rev_unit.
    replace (len + edge_distance e) with (edge_distance e + len) by lia.
    apply (chain_cons g (edge_end e) (mkEdge (edge_end e) p (edge_distance e)));
      [apply Hu; assumption | assumption].
Qed.

Lemma reachable_chain (g : Graph) (s d : nat) :
  reachable g s d <-> exists path len, chain g s d path len.
Proof.
  split.
  - induction 1 as [|v e Hr (path & len & Hc) He].
    + exists [s], 0. constructor.
    + eexists _, _. eapply chain_edge; eassumption.
  - intros (path & len & Hc). induction Hc as [|p e path len Hc IH He].
    + constructor.
    + eapply reach_edge; eassumption.
Qed.

Lemma reachable_sym (g : Graph) (s d : nat) :
  undirected g -> reachable g s d -> reachable g d s.
Proof.
  intros Hu Hr. apply reachable_chain in Hr as (path & len & Hc).
  apply reachable_chain. eexists _, _. apply chain_rev; eassumption.
Qed.

(** What a run that has returned records for a vertex that can be
    reached: the length of a route, and of no longer one than any other. *)
Lemma run_shortest (g : Graph) (s d : nat) (g' : Graph) (h' : MinHeap) :
  graph_wf g -> (s < length g)%nat ->
  Z.of_nat (length g) * max_weight g < INT_MAX ->
  dijkstras g [] s = Ok (g', h') -> reachable g s d ->
  (exists path, chain g s d path (distOf g' d)) /\
  forall path len, chain g s d path len -> distOf g' d <= len.
Proof.
  intros Hwf Hs Hbound Hrun Hreach.
  destruct (dijkstras_relaxed g s (max_weight g) Hwf Hs (max_weight_nonneg g)
              (max_weight_edge g) Hbound g' h' Hrun) as (V & Hset & Hst & _ & Hrel).
  destruct (dijkstras_source g g' h' s Hwf Hrun) as [Hs0 _].
  pose proof (settled_reachable g s g' V Hset d Hreach) as Vd.
  split.
  - destruct (settled_route g s g' V Hwf Hst Hset _ d Vd eq_refl) as (init & Hc & _).
    eauto.
  - intros path len Hc.
    apply (chain_lower_bound g s g' V Hset Hs0 Hrel d path len Hc).
Qed.

(** * The vertices that cannot be reached *)

(** The sentinel and one more edge. *)
Lemma wrap_int_over (d : Z) :
  1 <= d <= INT_MAX -> wrap_int (INT_MAX + d) = INT_MIN + d - 1.
Proof.
  unfold wrap_int, INT_MAX, INT_MIN. intros H.
  replace (2147483647 + d + 2147483648) with ((d - 1) + 1 * 4294967296) by lia.
  rewrite Z_mod_plus_full, Z.mod_small by lia. lia.
Qed.

Section Unreached.

Variable g0 : Graph.
Variable W : Z.
Variable V : nat -> Prop.
Hypothesis Hg0 : graph_wf g0.
Hypothesis Hloops : no_self_loops g0.
Hypothesis HW0 : 0 <= W.
Hypothesis HW : forall v e, e ∈ edgesOf g0 v -> edge_distance e <= W.
Hypothesis Hbound : Z.of_nat (length g0) * W < INT_MAX.

Lemma dijkstrasRound_unreached (g : Graph) (h : MinHeap) (rank : nat -> nat) (k : nat) :
  order_inv g0 g h rank k -> h <> [] ->
  (forall v, V v -> visitedOf g v = true) -> unreached_inv g0 W V k g ->
  exists g' h' rank', dijkstrasRound g h = Ok (g', h') /\
    order_inv g0 g' h' rank' (S k) /\
    (forall v, V v -> visitedOf g' v = true) /\ unreached_inv g0 W V (S k) g'.
Proof.
  intros Hord Hne HV Hun.
  destruct (dijkstrasRound_order g0 Hg0 Hloops g h rank k Hord Hne)
    as (g' & h' & u0 & E & Hord').
  exists g', h', (fun v => if decide (v = u0) then k else rank v).
  split; [exact E|]. split; [exact Hord'|].
  destruct (dijkstrasRound_frame _ _ _ _ E) as [[_ Hkept] _].
  split; [intros v Hv; apply (Hkept v (HV v Hv))|].
  destruct Hord as (Hst & Hwf & Hk & Hvis & _ & _).
  pose proof (same_static_length _ _ Hst) as Lg.
  destruct h as [|top rest] eqn:Eh; [congruence|]. rewrite <- Eh in *.
  assert (h !! 0%nat = Some top) as Htop by (rewrite Eh; reflexivity).
  assert (0 < length h)%nat as Hlen by (rewrite Eh; simpl; lia).
  destruct (minHeapDequeue_spec g h top Hwf Htop) as (ga & ha & Ea & _).
  set (u := vertex top) in *.
  assert (u < length g0)%nat as Hu.
  { destruct (Hwf _ _ Htop) as (_ & _ & _ & x & Hx & _).
    apply lookup_lt_Some in Hx. fold u in Hx. lia. }
  assert (~ V u) as HnV.
  { intros Hv. apply HV in Hv.
    assert (visitedOf g u = false); [|congruence].
    apply Hvis; [assumption|]. exists 0%nat, top. auto. }
  rewrite dijkstrasRound_eq, Ea in E. cbn [mbind result_bind] in E. simpl in E.
  inv_bind E as xu Hxu. inv_bind E as s2 Hs2. destruct s2 as [g2 h2]. simpl in E.
  inv_bind E as g3 Hg3. inversion E; subst g3 h2. clear E.
  apply graphGetVertex_Ok in Hxu.
  apply minHeapDequeue_frame in Ea as [Fa _].
  destruct (same_but_position_fields _ _ Fa) as [_ Hfa].
  assert (edges xu = edgesOf g0 u) as Hedges.
  { rewrite <- (edgesOf_lookup _ _ _ Hxu). apply same_static_edgesOf.
    eapply same_static_trans; [exact Hst|].
    apply same_but_position_static. assumption. }
  assert (forall w, distOf ga w = distOf g w) as Da by (intros w; apply Hfa).
  assert (forall w, visitedOf ga w = visitedOf g w) as Va by (intros w; apply Hfa).
  assert (distOf g2 u = distOf g u /\
          (forall w, visitedOf g2 w = visitedOf g w) /\
          unreached_inv g0 W V (S k) g2) as (_ & _ & Hun2).
  { apply (forEach_partial (relaxEdge u)
             (fun st => distOf st.1 u = distOf g u /\
                        (forall w, visitedOf st.1 w = visitedOf g w) /\
                        unreached_inv g0 W V (S k) st.1)
             (edges xu) (ga, ha) (g2, h') Hs2).
    - simpl. split_and!; auto. intros w Hw HVw. rewrite Da.
      destruct (Hun w Hw HVw) as [->|Hr]; [auto|]. right. nia.
    - intros e [gb hb] [gc hc] He (Hdu & Hvb & Hunb) Ec. simpl in *.
      rewrite Hedges in He.
      destruct (graph_wf_edgesOf g0 u e Hg0 He) as (_ & Hend & Hw1 & Hw2).
      pose proof (HW u e He) as HwW. pose proof (Hloops u e He) as Hnot.
      destruct (relaxEdge_frame _ _ _ _ _ _ Ec) as (_ & _ & Vc & _).
      destruct (relaxEdge_change _ _ _ _ _ _ Ec) as [Hother Hchg].
      split_and!.
      + rewrite <- Hdu. apply Hother. congruence.
      + intros w. rewrite Vc. apply Hvb.
      + intros w Hw HVw. destruct (decide (w = edge_end e)) as [->|Hwe].
        * destruct Hchg as [[-> _] | (_ & -> & _)]; [auto|].
          right. rewrite Hdu.
          destruct (Hun u Hu HnV) as [->|Hr].
          -- rewrite wrap_int_over by lia. nia.
          -- rewrite wrap_int_id by (unfold in_int, INT_MIN, INT_MAX in *; nia). nia.
        * destruct (Hother w Hwe) as [-> _]. auto. }
  destruct (set_visited_fields _ _ _ _ Hg3) as (_ & _ & _ & D3 & _ & _).
  intros w Hw HVw. rewrite D3. auto.
Qed.

Lemma dijkstrasLoop_unreached (fuel : nat) : forall (g : Graph) (h : MinHeap) rank k,
  order_inv g0 g h rank k -> (length h <= fuel)%nat ->
  (forall v, V v -> visitedOf g v = true) -> unreached_inv g0 W V k g ->
  exists g' k', dijkstrasLoop fuel g h = Ok (g', []) /\
    (k' <= length g0)%nat /\ unreached_inv g0 W V k' g'.
Proof.
  induction fuel as [|fuel IH]; intros g h rank k Hord Hfuel HV Hun;
    rewrite dijkstrasLoop_eq.
  - assert (h = []) as -> by (apply length_zero_iff_nil; lia).
    simpl. exists g, k. split_and!; auto. destruct Hord as (_ & _ & Hk & _). lia.
  - destruct (minHeapIsEmpty h) eqn:Eempty.
    + apply minHeapIsEmpty_nil in Eempty. subst h.
      exists g, k. split_and!; auto. destruct Hord as (_ & _ & Hk & _). lia.
    + assert (h <> []) as Hne by (intros ->; discriminate).
      destruct (dijkstrasRound_unreached g h rank k Hord Hne HV Hun)
        as (g1 & h1 & rank1 & E1 & Hord1 & HV1 & Hun1).
      rewrite E1. step. eapply IH; try eassumption.
      destruct Hord as (_ & _ & Hk & _). destruct Hord1 as (_ & _ & Hk1 & _). lia.
Qed.

End Unreached.

(** * The rounds of the loop, one node each *)

(** [minHeapDecreaseNodeValue] writes to the slot that the vertex
    records, be the vertex in that slot or not: the heap keeps its nodes. *)
Lemma minHeapDecreaseNodeValue_any (g g' : Graph) (h h' : MinHeap) (v : nat) :
  heap_wf g h -> minHeapDecreaseNodeValue g h v = Ok (g', h') ->
  heap_wf g' h' /\ same_but_position g g' /\
  forall w, in_heap h' w <-> in_heap h w.
Proof.
  intros Hwf H. unfold minHeapDecreaseNodeValue in H.
  inv_bind H as x Hx. inv_bind H as h1 Hh1.
  unfold heapUpdate in Hh1. inv_bind Hh1 as n Hn. inversion Hh1; subst h1. clear Hh1.
  apply heapAt_inv in Hn as (k & Ek & Hk). rewrite Ek, Nat2Z.id in H.
  pose proof (lookup_lt_Some _ _ _ Hk) as Hlt.
  set (h1 := <[k := nodeSetValue (distanceFromSource x) n]> h) in *.
  assert (length h1 = length h) as L1 by apply length_insert.
  assert (heap_wf g h1) as Hwf1.
  { intros i m Hm. rewrite L1. destruct (decide (i = k)) as [->|Hik].
    - unfold h1 in Hm. rewrite list_lookup_insert_eq in Hm by assumption.
      inversion Hm; subst m. apply (Hwf _ _ Hk).
    - unfold h1 in Hm. rewrite list_lookup_insert_ne in Hm by congruence.
      apply (Hwf _ _ Hm). }
  destruct (siftUp_spec (length h1) g h1 k Hwf1 ltac:(lia) ltac:(lia))
    as (g2 & h2 & E & Hwf2 & F2 & L2 & Sa & Sb & _).
  rewrite E in H. inversion H; subst g2 h2. clear H.
  split; [assumption|]. split; [assumption|].
  assert (forall w, in_heap h1 w <-> in_heap h w) as Hin1.
  { intros w. split; intros (i & m & Hm & Em).
    - destruct (decide (i = k)) as [->|Hik].
      + unfold h1 in Hm. rewrite list_lookup_insert_eq in Hm by assumption.
        inversion Hm; subst m. exists k, n. auto.
      + unfold h1 in Hm. rewrite list_lookup_insert_ne in Hm by congruence.
        exists i, m. auto.
    - destruct (decide (i = k)) as [->|Hik].
      + exists k, (nodeSetValue (distanceFromSource x) n). split.
        * unfold h1. apply list_lookup_insert_eq. assumption.
        * assert (m = n) by congruence. subst m. assumption.
      + exists i, m. split; [|assumption].
        unfold h1. rewrite list_lookup_insert_ne by congruence. assumption. }
  intros w. rewrite <- Hin1. split; apply payloads_sub_in_heap; assumption.
Qed.

(** An edge of the vertex in hand leaves the nodes of the heap where
    they are, whatever it does to the distances. *)
Lemma relaxEdge_heap (u : nat) (g g' : Graph) (h h' : MinHeap) (e : Edge) :
  heap_wf g h -> relaxEdge u (g, h) e = Ok (g', h') ->
  heap_wf g' h' /\ forall w, in_heap h' w <-> in_heap h w.
Proof.
  intros Hwf H. unfold relaxEdge in H. inv_bind H as xv Hxv.
  destruct (visited xv).
  { inversion H; subst. tauto. }
  inv_bind H as xu Hxu.
  destruct (_ <? _).
  2:{ inversion H; subst. tauto. }
  inv_bind H as g1 Hg1. inv_bind H as g2 Hg2.
  apply set_distance_fields in Hg1 as (_ & _ & P1 & _).
  apply set_previous_fields in Hg2 as (_ & _ & P2 & _).
  assert (heap_wf g2 h) as Hwf2.
  { eapply heap_wf_same_position; [|exact Hwf].
    eapply same_position_trans; eassumption. }
  apply (minHeapDecreaseNodeValue_any _ _ _ _ _ Hwf2) in H as (A & _ & B).
  split; assumption.
Qed.

(** A round that returns has taken the node of slot 0 off the heap and
    has left the other nodes in it; the vertex of that node is visited
    now, and no other vertex has changed sides. *)
Lemma dijkstrasRound_heap (g0 g g' : Graph) (h h' : MinHeap) (top : Node) :
  heap_holds g0 g h -> h !! 0%nat = Some top ->
  dijkstrasRound g h = Ok (g', h') ->
  heap_holds g0 g' h' /\ length h = S (length h') /\
  (exists st, minHeapDequeue g h = Ok (vertex top, st)) /\
  (forall w, in_heap h' w <-> in_heap h w /\ w <> vertex top) /\
  (forall w, visitedOf g' w = if decide (w = vertex top) then true else visitedOf g w).
Proof.
  intros (Hst & Hwf & Hvis) Htop H.
  destruct (minHeapDequeue_spec g h top Hwf Htop)
    as (g1 & h1 & E1 & Hwf1 & F1 & Hlen1 & Sa & Sb & _).
  pose proof (dequeue_in_heap g h h1 top Hwf Htop Sa Sb) as Hin1.
  rewrite dijkstrasRound_eq, E1 in H. simpl in H.
  set (u := vertex top) in *.
  inv_bind H as xu Hxu. inv_bind H as s2 Hs2. destruct s2 as [g2 h2]. simpl in H.
  inv_bind H as g3 Hg3. inversion H; subst g3 h2. clear H.
  destruct (same_but_position_fields _ _ F1) as [L1 Hf1].
  assert (same_static g0 g1) as Hst1.
  { eapply same_static_trans; [exact Hst|].
    apply same_but_position_static. assumption. }
  assert (heap_wf g2 h' /\ (forall w, in_heap h' w <-> in_heap h1 w) /\
          same_static g1 g2 /\ length h' = length h1 /\
          forall w, visitedOf g2 w = visitedOf g1 w) as (Hwf2 & Hin2 & Hst2 & Hlen2 & Hv2).
  { apply (forEach_partial (relaxEdge u)
             (fun st => heap_wf st.1 st.2 /\ (forall w, in_heap st.2 w <-> in_heap h1 w) /\
                        same_static g1 st.1 /\ length st.2 = length h1 /\
                        forall w, visitedOf st.1 w = visitedOf g1 w)
             (edges xu) (g1, h1) (g2, h') Hs2).
    - simpl. split_and!; auto using same_static_refl; tauto.
    - intros e [ga ha] [gb hb] _ (Hwfa & Hina & Hsta & Hlena & Hva) E. simpl in *.
      destruct (relaxEdge_heap u ga gb ha hb e Hwfa E) as [Hwfb Hinb].
      apply relaxEdge_frame in E as (Sb' & Lb & Vb & _).
      split_and!.
      + assumption.
      + intros w. rewrite Hinb. apply Hina.
      + eapply same_static_trans; eassumption.
      + congruence.
      + intros w. rewrite Vb. apply Hva. }
  destruct (set_visited_fields _ _ _ _ Hg3) as (_ & S3 & P3 & _ & _ & V3).
  assert (forall w, visitedOf g' w = if decide (w = u) then true else visitedOf g w) as Hv.
  { intros w. rewrite V3, Hv2. destruct (decide (w = u)); [reflexivity|]. apply Hf1. }
  assert (forall w, in_heap h' w <-> in_heap h w /\ w <> u) as Hin.
  { intros w. rewrite Hin2. apply Hin1. }
  split_and!.
  - split_and!.
    + eapply same_static_trans; [exact Hst1|].
      eapply same_static_trans; eassumption.
    + eapply heap_wf_same_position; eassumption.
    + intros w Hw. rewrite Hv, Hin. destruct (decide (w = u)) as [->|Hwu].
      * split; [discriminate | tauto].
      * rewrite (Hvis w Hw). tauto.
  - lia.
  - eauto.
  - assumption.
  - assumption.
Qed.

Lemma dijkstrasRounds_eq (k : nat) (g : Graph) (h : MinHeap) :
  dijkstrasRounds (S k) g h =
  (st ← dijkstrasRound g h; dijkstrasRounds k st.1 st.2).
Proof.
  simpl. destruct (dijkstrasRound g h) as [[g' h']| |]; reflexivity.
Qed.

Lemma visitOrder_eq (k : nat) (g : Graph) (h : MinHeap) :
  visitOrder (S k) g h =
  (r ← minHeapDequeue g h;
   st ← dijkstrasRound g h;
   rest ← visitOrder k st.1 st.2;
   Ok (r.1 :: rest)).
Proof.
  simpl. destruct (minHeapDequeue g h) as [[u ?]| |]; simpl; auto.
  destruct (dijkstrasRound g h) as [[g' h']| |]; reflexivity.
Qed.

(** A loop that returns has gone through as many rounds as the heap had
    nodes; the vertices it has taken off are the vertices of these nodes,
    each of them once; after [k] rounds, [k] nodes are gone, and the
    vertex that the next round takes off is not seen in the heap again. *)
Lemma dijkstrasLoop_rounds (g0 : Graph) (fuel : nat) :
  forall (g g' : Graph) (h h' : MinHeap),
  heap_holds g0 g h -> dijkstrasLoop fuel g h = Ok (g', h') ->
  h' = [] /\ heap_holds g0 g' [] /\
  dijkstrasRounds (length h) g h = Ok (g', []) /\
  exists order,
    visitOrder (length h) g h = Ok order /\
    order ≡ₚ vertex <$> h /\
    forall k, (k < length h)%nat ->
      exists gk hk u gn hn,
        dijkstrasRounds k g h = Ok (gk, hk) /\
        length hk = (length h - k)%nat /\
        order !! k = Some u /\ in_heap hk u /\
        dijkstrasRound gk hk = Ok (gn, hn) /\
        forall w, in_heap hn w <-> in_heap hk w /\ w <> u.
Proof.
  induction fuel as [|fuel IH]; intros g g' h h' Hinv H;
    rewrite dijkstrasLoop_eq in H; destruct (minHeapIsEmpty h) eqn:Ee.
  - apply minHeapIsEmpty_nil in Ee. subst h. inversion H; subst.
    split_and!; auto. exists []. split_and!; auto. simpl. intros; lia.
  - discriminate.
  - apply minHeapIsEmpty_nil in Ee. subst h. inversion H; subst.
    split_and!; auto. exists []. split_and!; auto. simpl. intros; lia.
  - destruct h as [|top rest] eqn:Eh; [discriminate|]. rewrite <- Eh in *.
    assert (h !! 0%nat = Some top) as Htop by (rewrite Eh; reflexivity).
    inv_bind H as st Hst. destruct st as [g1 h1].
    destruct (dijkstrasRound_heap g0 g g1 h h1 top Hinv Htop Hst)
      as (Hinv1 & Hlen & (sd & Ed) & Hin & Hv).
    destruct (IH g1 g' h1 h' Hinv1 H) as (He & Hinv' & Er & order & Eo & Hperm & Hk).
    split; [assumption|]. split; [assumption|].
    rewrite Hlen. split.
    { rewrite dijkstrasRounds_eq, Hst. exact Er. }
    exists (vertex top :: order). split_and!.
    + rewrite visitOrder_eq, Ed, Hst. step. simpl. rewrite Eo. reflexivity.
    + destruct Hinv as (_ & Hwf & _). destruct Hinv1 as (_ & Hwf1 & _).
      apply NoDup_Permutation.
      * constructor.
        -- rewrite Hperm, <- in_heap_elem_of, Hin. tauto.
        -- rewrite Hperm. eapply heap_wf_NoDup. eassumption.
      * eapply heap_wf_NoDup. eassumption.
      * intros w. rewrite elem_of_cons, Hperm, <- !in_heap_elem_of, Hin.
        destruct (decide (w = vertex top)) as [->|]; [|tauto].
        split; [|auto]. intros _. exists 0%nat, top. auto.
    + intros k Hklt. destruct k as [|k].
      * exists g, h, (vertex top), g1, h1. split_and!; auto with lia.
        exists 0%nat, top. auto.
      * destruct (Hk k ltac:(lia)) as (gk & hk & u & gn & hn & Ek & Hl & A & B & C & D).
        exists gk, hk, u, gn, hn. split_and!; auto with lia.
        rewrite dijkstrasRounds_eq, Hst. exact Ek.
Qed.

(** * The route to a destination whose distance fits *)

Section Exact.

Variable g0 : Graph.
Variable s : nat.
Hypothesis Hg0 : graph_wf g0.
Hypothesis Hs : (s < length g0)%nat.

(** One edge of the vertex in hand, when the sum fits. *)
Lemma relaxEdge_steady (u : nat) (du : Z) (g : Graph) (h : MinHeap) (e : Edge) :
  steady_at g0 s u du g h -> e ∈ edgesOf g0 u -> 0 <= du < INT_MAX ->
  (visitedOf g (edge_end e) = false -> du + edge_distance e <= INT_MAX) ->
  exists g' h',
    relaxEdge u (g, h) e = Ok (g', h') /\
    steady_at g0 s u du g' h' /\ length h' = length h /\
    (forall w, visitedOf g' w = visitedOf g w) /\
    (forall w, distOf g' w <= distOf g w) /\
    (forall w, distOf g' w = distOf g w \/ du <= distOf g' w) /\
    (distOf g' (edge_end e) <= du + edge_distance e \/
     visitedOf g (edge_end e) = true).
Proof.
  intros [[Hst Hwf Hord Hmir Hrange Hsrc Hfin Hchain] (Hu & Hnu & Hdu) Hvis Hprev]
         He Hdu0 Hfit.
  destruct (graph_wf_edgesOf g0 u e Hg0 He) as (_ & Hend & Hw1 & Hw2).
  pose proof (same_static_length _ _ Hst) as Lg.
  set (v := edge_end e) in *.
  assert (visitedOf g v = false ->
          wrap_int (distOf g u + edge_distance e) = du + edge_distance e) as Ealt.
  { intros Hv. specialize (Hfit Hv). rewrite Hdu. apply wrap_int_id.
    unfold in_int, INT_MIN, INT_MAX in *. lia. }
  destruct (relaxEdge_cases u g h e ltac:(fold v; lia) ltac:(lia) Hwf)
    as (g' & h' & E & Hcase).
  { fold v. intros Hv Hlt. rewrite (Ealt Hv) in Hlt.
    destruct (proj1 (Hvis v Hend) Hv) as [->|]; [lia | assumption]. }
  fold v in Hcase.
  exists g', h'. split; [assumption|].
  destruct Hcase as [(Hno & -> & ->) |
    (Hv & Hlt & Sb & Hwfb & Hlenb & Db & Pb & Vb & Ib & Hmirb & Hordb)].
  - split_and!; auto with lia.
    + constructor; auto. constructor; auto.
    + destruct (visitedOf g v) eqn:Ev; [right; reflexivity|].
      left. destruct Hno as [Hno|Hno]; [discriminate|].
      rewrite (Ealt eq_refl) in Hno. assumption.
  - rewrite (Ealt Hv) in *. specialize (Hfit Hv).
    pose proof (Hrange v) as Hrv.
    assert (v <> u) as Hvu by (intros Eq; rewrite Eq in *; lia).
    assert (v <> s) as Hvs by (intros Eq; rewrite Eq in *; destruct Hsrc; lia).
    assert (forall w, distOf g' w <= distOf g w) as Hmono.
    { intros w. rewrite Db. destruct (decide (w = v)) as [->|]; lia. }
    assert (exists path, chain g0 s u path du) as (pu & Hpu).
    { rewrite <- Hdu. apply Hchain; [assumption | lia]. }
    split_and!; auto.
    + constructor.
      * constructor; auto.
        -- eapply same_static_trans; eassumption.
        -- intros w. rewrite Db. destruct (decide (w = v)); [lia | auto].
        -- destruct Hsrc as [A B]. rewrite Db, Pb.
           destruct (decide (s = v)); [congruence | auto].
        -- intros w. rewrite Vb, Db. intros Hw.
           destruct (decide (w = v)) as [->|]; [congruence | auto].
        -- intros w Hw. rewrite Db. destruct (decide (w = v)) as [->|].
           ++ intros _. eexists. eapply chain_edge; eassumption.
           ++ apply Hchain. assumption.
      * split_and!; auto.
        -- rewrite Ib. assumption.
        -- rewrite Db. destruct (decide (u = v)); [congruence | assumption].
      * intros w Hw. rewrite Vb, Ib. auto.
      * intros w Hw. unfold prev_ok. rewrite Pb, Db.
        destruct (decide (w = v)) as [->|Hwv].
        -- split_and!; auto; try lia.
           exists e. split_and!; auto.
           rewrite Db. destruct (decide (u = v)); [congruence | lia].
        -- specialize (Hprev w Hw). unfold prev_ok in Hprev.
           destruct (prevOf g w) as [p|]; [|assumption].
           destruct Hprev as (Hp & Hok & Hws & Hwfin & e' & He' & Hend' & Hd').
           assert (p <> v) as Hpv.
           { intros ->. destruct Hok as [Hok|Hok]; congruence. }
           split_and!; auto.
           ++ rewrite Vb. assumption.
           ++ exists e'. split_and!; auto. rewrite Db.
              destruct (decide (p = v)); [congruence | assumption].
    + intros w. rewrite Db. destruct (decide (w = v)); [right; lia | left; reflexivity].
    + left. rewrite Db. destruct (decide (v = v)); [lia | congruence].
Qed.

(** A round that takes a reached vertex off the heap, when the sums that
    it forms fit. *)
Lemma dijkstrasRound_steady (g : Graph) (h : MinHeap) (top : Node) :
  steady g0 s g h -> h !! 0%nat = Some top -> value top < INT_MAX ->
  (forall e, e ∈ edgesOf g0 (vertex top) -> visitedOf g (edge_end e) = false ->
     value top + edge_distance e <= INT_MAX) ->
  exists g' h', dijkstrasRound g h = Ok (g', h') /\
    steady g0 s g' h' /\ length h = S (length h') /\
    (vertex top < length g0)%nat /\
    visitedOf g (vertex top) = false /\
    distOf g (vertex top) = value top /\
    distOf g' (vertex top) = value top /\
    (forall w, visitedOf g' w = if decide (w = vertex top) then true else visitedOf g w) /\
    (forall w, distOf g' w <= distOf g w) /\
    (forall w, distOf g' w = distOf g w \/ value top <= distOf g' w) /\
    (forall e, e ∈ edgesOf g0 (vertex top) ->
       distOf g' (edge_end e) <= value top + edge_distance e \/
       visitedOf g (edge_end e) = true) /\
    (forall w, (w < length g0)%nat -> visitedOf g w = false -> value top <= distOf g w).
Proof.
  intros [[Hst Hwf Hord Hmir Hrange Hsrc Hfin Hchain] Hvis Hprev] Htop Hval Hfit.
  destruct (minHeapDequeue_spec g h top Hwf Htop)
    as (g1 & h1 & E1 & Hwf1 & F1 & Hlen1 & Sa & Sb & Hord1).
  pose proof (dequeue_in_heap g h h1 top Hwf Htop Sa Sb) as Hin1.
  set (u := vertex top) in *.
  pose proof (same_static_length _ _ Hst) as Lg.
  destruct (same_but_position_fields _ _ F1) as [L1 Hf1].
  assert (same_static g0 g1) as Hst1.
  { eapply same_static_trans; [exact Hst|].
    apply same_but_position_static. assumption. }
  destruct (Hmir _ _ Htop) as (xtop & Hxtop & Vtop). fold u in Hxtop.
  assert (u < length g0)%nat as Hu by (apply lookup_lt_Some in Hxtop; lia).
  assert (distOf g u = value top) as Hdu
    by (rewrite (distOf_lookup _ _ _ Hxtop); congruence).
  set (du := value top) in *.
  destruct (lookup_lt_is_Some_2 g1 u ltac:(lia)) as [xu Hxu].
  assert (edges xu = edgesOf g0 u) as Hedges.
  { rewrite <- (edgesOf_lookup _ _ _ Hxu). apply same_static_edgesOf. assumption. }
  assert (forall w, distOf g1 w = distOf g w) as D1 by (intros w; apply Hf1).
  assert (forall w, prevOf g1 w = prevOf g w) as P1 by (intros w; apply Hf1).
  assert (forall w, visitedOf g1 w = visitedOf g w) as V1 by (intros w; apply Hf1).
  assert (payloads_sub h1 h) as Sh.
  { intros i n Hn. destruct (Sa _ _ Hn) as (i' & n' & Hn' & En).
    rewrite lookup_drop in Hn'. eauto. }
  assert (0 <= du) as Hdu0 by (rewrite <- Hdu; apply Hrange).
  assert (heap_range h) as Hhr.
  { intros i n Hn. destruct (Hmir _ _ Hn) as (x & Hx & Vx).
    rewrite Vx, <- (distOf_lookup _ _ _ Hx). apply Hrange. }
  assert (visitedOf g u = false) as Hunvisited.
  { apply Hvis; [assumption|]. exists 0%nat, top. auto. }
  assert (steady_at g0 s u du g1 h1) as Hrx.
  { constructor.
    - constructor; auto.
      + eapply heap_mirror_sub; eassumption.
      + intros w. rewrite D1. apply Hrange.
      + rewrite D1, P1. assumption.
      + intros w. rewrite V1, D1. apply Hfin.
      + intros w. rewrite D1. apply Hchain.
    - split_and!; auto.
      + rewrite Hin1. tauto.
      + rewrite D1. assumption.
    - intros w Hw. rewrite V1, Hin1, (Hvis w Hw).
      destruct (decide (w = u)) as [->|]; [|tauto].
      split; [auto|]. intros _. exists 0%nat, top. auto.
    - intros w Hw. specialize (Hprev w Hw). unfold prev_ok in *.
      rewrite P1, D1. destruct (prevOf g w) as [p|]; [|assumption].
      destruct Hprev as (A & B & C & D & e & He & Hend & Hd).
      split_and!; auto.
      + rewrite V1. auto.
      + exists e. rewrite D1. auto. }
  destruct (forEach_total (relaxEdge u)
    (fun done st =>
       steady_at g0 s u du st.1 st.2 /\ length st.2 = length h1 /\
       (forall w, visitedOf st.1 w = visitedOf g1 w) /\
       (forall w, distOf st.1 w <= distOf g1 w) /\
       (forall w, distOf st.1 w = distOf g1 w \/ du <= distOf st.1 w) /\
       Forall (fun e => distOf st.1 (edge_end e) <= du + edge_distance e \/
                        visitedOf g1 (edge_end e) = true) done)
    (edges xu) (g1, h1)) as ([g2 h2] & E2 & Hrx2 & Hlen2 & Hv2 & Hm2 & Hd2 & Hall2).
  - simpl. split_and!; auto with lia.
  - intros done e more [ga ha] El (Hrxa & Hlena & Hva & Hma & Hda & Halla). simpl in *.
    assert (e ∈ edgesOf g0 u) as He.
    { rewrite <- Hedges, El. apply elem_of_app. right. left. }
    destruct (relaxEdge_steady u du ga ha e Hrxa He ltac:(lia))
      as (gb & hb & Eb & Hrxb & Hlenb & Hvb & Hmb & Hdb & Heb).
    { rewrite Hva, V1. apply Hfit. assumption. }
    exists (gb, hb). split; [assumption|]. simpl.
    split_and!; [assumption | congruence | | | |].
    + intros w. rewrite Hvb. apply Hva.
    + intros w. specialize (Hmb w). specialize (Hma w). lia.
    + intros w. destruct (Hdb w) as [Eq|Hge]; [|auto].
      rewrite Eq. apply Hda.
    + apply Forall_app. split.
      * eapply Forall_impl; [exact Halla|]. simpl. intros e' He'.
        specialize (Hmb (edge_end e')).
        destruct He' as [He'|He']; [left; lia | auto].
      * constructor; [|constructor].
        destruct Heb as [Heb|Heb]; [auto|].
        right. rewrite <- Hva. assumption.
  - simpl in *.
    destruct Hrx2 as [[Hst2 Hwf2 Hord2 Hmir2 Hrange2 Hsrc2 Hfin2 Hchain2]
                      (_ & Hnu2 & Hdu2) Hvis2 Hprev2].
    pose proof (same_static_length _ _ Hst2) as L2.
    destruct (graphSetVertex_total g2 u (vertexSetVisited true) ltac:(lia))
      as [g3 E3].
    destruct (set_visited_fields _ _ _ _ E3) as (_ & S3 & P3 & D3 & Pv3 & V3).
    exists g3, h2. split.
    { rewrite dijkstrasRound_eq, E1. step. simpl.
      unfold graphGetVertex. rewrite Hxu. step. rewrite E2. step. simpl.
      rewrite E3. reflexivity. }
    split.
    { constructor.
      * constructor; auto.
        -- eapply same_static_trans; eassumption.
        -- eapply heap_wf_same_position; eassumption.
        -- intros i n Hn. destruct (Hmir2 _ _ Hn) as (x & Hx & Vx).
           destruct (lookup_lt_is_Some_2 g3 (vertex n)) as [y Hy].
           { apply lookup_lt_Some in Hx.
             rewrite (same_static_length _ _ S3). assumption. }
           exists y. split; [assumption|].
           rewrite <- (distOf_lookup _ _ _ Hy), D3, (distOf_lookup _ _ _ Hx).
           assumption.
        -- intros w. rewrite D3. apply Hrange2.
        -- rewrite D3, Pv3. assumption.
        -- intros w. rewrite V3, D3. destruct (decide (w = u)) as [->|]; [|auto].
           intros _. rewrite Hdu2. assumption.
        -- intros w. rewrite D3. apply Hchain2.
      * intros w Hw. rewrite V3. destruct (decide (w = u)) as [->|Hwu].
        -- split; [discriminate | tauto].
        -- rewrite (Hvis2 w Hw). tauto.
      * intros w Hw. specialize (Hprev2 w Hw). unfold prev_ok in *.
        rewrite Pv3, D3. destruct (prevOf g2 w) as [p|]; [|assumption].
        destruct Hprev2 as (A & B & C & D & e & He & Hend & Hd).
        split_and!; auto.
        -- rewrite V3. destruct (decide (p = u)); [reflexivity|].
           destruct B; [assumption | contradiction].
        -- exists e. rewrite D3. auto. }
    split_and!.
    + simpl in Hlen1. lia.
    + assumption.
    + assumption.
    + assumption.
    + rewrite D3. assumption.
    + intros w. rewrite V3, Hv2, V1. reflexivity.
    + intros w. rewrite D3, <- D1. apply Hm2.
    + intros w. rewrite D3, <- D1. apply Hd2.
    + intros e He. rewrite D3, <- V1. rewrite <- Hedges in He.
      rewrite Forall_forall in Hall2. apply Hall2. assumption.
    + intros w Hw Hvw. apply (Hvis w Hw) in Hvw as (i & n & Hn & En).
      pose proof (heap_root_min h top Hord Htop i n Hn) as Hle.
      destruct (Hmir _ _ Hn) as (x & Hx & Vx). rewrite En in Hx.
      rewrite (distOf_lookup _ _ _ Hx). lia.
Qed.

Lemma chain_lt (x : nat) (path : list nat) (len : Z) :
  chain g0 s x path len -> (x < length g0)%nat.
Proof.
  induction 1 as [|p e path len Hc IH He]; [assumption|].
  apply (graph_wf_edgesOf g0 p e Hg0 He).
Qed.

(** No route from the source to a visited vertex is shorter than its
    distance, and none to any other vertex is shorter than the distance
    of [u], the nearest of the vertices still to come. *)
Lemma front_lower_bound (g : Graph) (h : MinHeap) (u : nat) :
  steady g0 s g h -> front_inv g0 g ->
  (u < length g0)%nat -> visitedOf g u = false ->
  (forall w, (w < length g0)%nat -> visitedOf g w = false -> distOf g u <= distOf g w) ->
  forall x path len, chain g0 s x path len ->
    (x < length g0)%nat /\
    (visitedOf g x = true -> distOf g x <= len) /\
    (visitedOf g x = false -> distOf g u <= len).
Proof.
  intros [[_ _ _ _ Hrange [Hs0 _] _ _] _ _] [Hrel Hahead] Hu Hun Hmin x path len Hc.
  induction Hc as [|p e path len Hc (Hp & IHv & IHn) He].
  - split; [assumption|]. split; intros Hv.
    + lia.
    + rewrite <- Hs0. apply Hmin; assumption.
  - destruct (graph_wf_edgesOf g0 p e Hg0 He) as (_ & Hend & Hw1 & _).
    split; [assumption|].
    destruct (visitedOf g p) eqn:Evp.
    + specialize (IHv eq_refl). specialize (Hrel p e Evp He). split; intros Hv.
      * lia.
      * specialize (Hmin _ Hend Hv). lia.
    + specialize (IHn eq_refl). split; intros Hv.
      * specialize (Hahead _ u Hv Hu Hun). lia.
      * lia.
Qed.

Lemma reset_steady (g : Graph) (h : MinHeap) :
  reset_inv g0 s (length g0) (g, h) -> steady g0 s g h /\ front_inv g0 g.
Proof.
  unfold reset_inv. simpl.
  intros (Hst & Hwf & Hord & Hmir & Hlen & Hin & Hds & Hdone).
  pose proof (same_static_length _ _ Hst) as Lg.
  assert (forall v, visitedOf g v = false) as Hnv.
  { intros v. destruct (decide (v < length g0)%nat) as [Hv|Hv].
    - apply Hdone. assumption.
    - apply visitedOf_out. lia. }
  assert (forall v, distOf g v = 0 \/ distOf g v = INT_MAX) as Hd.
  { intros v. destruct (decide (v < length g0)%nat) as [Hv|Hv].
    - destruct (Hdone v Hv) as (-> & _). destruct (decide (v = s)); auto.
    - left. apply distOf_out. lia. }
  split.
  - constructor.
    + constructor; auto.
      * intros v. destruct (Hd v) as [-> | ->]; unfold INT_MAX; lia.
      * split; [assumption|]. apply Hdone. assumption.
      * intros v Hv. rewrite Hnv in Hv. discriminate.
      * intros v Hv Hfin. destruct (Hdone v Hv) as (Hdv & _).
        destruct (decide (v = s)) as [->|]; [|lia].
        rewrite Hds. eexists. constructor.
    + intros v Hv. rewrite Hin. split; auto.
    + intros v Hv. unfold prev_ok. destruct (Hdone v Hv) as (Hdv & -> & _).
      rewrite Hdv. destruct (decide (v = s)); auto.
  - constructor; intros v ? Hv; rewrite Hnv in Hv; discriminate.
Qed.

Lemma steady_rooted (g : Graph) (h : MinHeap) (d : nat) :
  steady g0 s g h -> (d < length g0)%nat -> distOf g d < INT_MAX ->
  rooted g0 s g (fun v => (v < length g0)%nat /\ (visitedOf g v = true \/ v = d)).
Proof.
  intros [[Hst Hwf Hord Hmir Hrange Hsrc Hfin Hchain] Hvis Hprev] Hd Hdd v [Hv Hvd].
  split; [assumption|].
  assert (distOf g v < INT_MAX) as Hfv.
  { destruct Hvd as [Hvv | ->]; [apply Hfin; assumption | assumption]. }
  pose proof (Hrange v). split; [lia|].
  specialize (Hprev v Hv). unfold prev_ok in Hprev.
  destruct (prevOf g v) as [p|].
  - destruct Hprev as (A & B & C & D & e & He & Hend & Hde).
    split; [auto|]. exists e. auto.
  - destruct Hprev as [-> | E]; [|lia]. split; [reflexivity | apply Hsrc].
Qed.

Lemma rooted_kept (g g' : Graph) (V : nat -> Prop) :
  (forall v, V v -> distOf g' v = distOf g v /\ prevOf g' v = prevOf g v) ->
  rooted g0 s g V -> rooted g0 s g' V.
Proof.
  intros Hk Hall v Hv. destruct (Hall v Hv) as (Hlt & Hd & Hp).
  destruct (Hk v Hv) as (Dv & Pv). rewrite Dv, Pv.
  split_and!; try lia.
  destruct (prevOf g v) as [p|]; [|assumption].
  destruct Hp as (Vp & e & He & Hend & Hde). split; [assumption|].
  exists e. destruct (Hk p Vp) as (Dp & _). rewrite Dp. auto.
Qed.

Variable d : nat.

(** A round that takes a vertex other than [d] off the heap while [d]
    is still to come, when the sums that it forms fit. *)
Lemma dijkstrasRound_ahead (g : Graph) (h : MinHeap) (top : Node) :
  steady g0 s g h -> front_inv g0 g ->
  h !! 0%nat = Some top -> value top < INT_MAX ->
  visitedOf g d = false -> vertex top <> d ->
  (forall e, e ∈ edgesOf g0 (vertex top) -> visitedOf g (edge_end e) = false ->
     value top + edge_distance e <= INT_MAX) ->
  exists g' h', dijkstrasRound g h = Ok (g', h') /\
    steady g0 s g' h' /\ front_inv g0 g' /\ visitedOf g' d = false.
Proof.
  intros Hp1 Hf Htop Hval Hdun Hne Hfit.
  pose proof Hp1 as [[Hst Hwf Hord Hmir Hrange Hsrc Hfin Hchain] Hvis Hprev].
  set (u := vertex top) in *. set (du := value top) in *.
  destruct (Hmir _ _ Htop) as (xtop & Hxtop & Vtop). fold u in Hxtop.
  pose proof (same_static_length _ _ Hst) as Lg.
  assert (u < length g0)%nat as Hu by (apply lookup_lt_Some in Hxtop; lia).
  assert (visitedOf g u = false) as Hun.
  { apply Hvis; [assumption|]. exists 0%nat, top. auto. }
  destruct (dijkstrasRound_steady g h top Hp1 Htop Hval Hfit)
    as (g' & h' & E & Hp1' & Hlen & _ & _ & Hdu0 & Hdu' & Hv & Hmono & Hnew
        & Hedges & Hmin').
  fold u in Hdu0, Hdu', Hv, Hedges. fold du in Hdu0, Hdu', Hnew, Hedges, Hmin'.
  exists g', h'. split; [assumption|]. split; [assumption|].
  split; [|rewrite Hv; destruct (decide (d = u)); [congruence | assumption]].
  destruct Hf as [Hrel Hahead].
  assert (forall v, visitedOf g v = true -> distOf g v <= du) as Hbefore.
  { intros v Hvv. rewrite <- Hdu0. apply (Hahead v u Hvv Hu Hun). }
  assert (forall v, visitedOf g v = true -> distOf g' v = distOf g v) as Hkeep.
  { intros v Hvv. destruct (Hnew v) as [Eq|Hge]; [assumption|].
    specialize (Hbefore v Hvv). specialize (Hmono v). lia. }
  constructor.
  - intros v e. rewrite Hv. destruct (decide (v = u)) as [->|Hne'].
    + intros _ He. rewrite Hdu'.
      destruct (Hedges e He) as [Hle|Hvis']; [assumption|].
      destruct (graph_wf_edgesOf g0 u e Hg0 He) as (_ & _ & Hw1 & _).
      specialize (Hbefore _ Hvis'). specialize (Hmono (edge_end e)). lia.
    + intros Hvv He. rewrite (Hkeep v Hvv).
      specialize (Hrel v e Hvv He). specialize (Hmono (edge_end e)). lia.
  - intros v w. rewrite !Hv. destruct (decide (w = u)) as [->|Hwu]; [discriminate|].
    intros Hvv Hw Hvw.
    assert (du <= distOf g' w) as Hduw.
    { destruct (Hnew w) as [Eq|Hge]; [|assumption].
      rewrite Eq. apply Hmin'; assumption. }
    destruct (decide (v = u)) as [->|Hvu]; [lia|].
    rewrite (Hkeep v Hvv). specialize (Hbefore v Hvv). lia.
Qed.

(** The round that takes [d] off the heap, when it returns: [d] is
    visited and keeps its distance and its predecessor, whatever the
    round does to the vertices that are still to come. *)
Lemma dijkstrasRound_self (g g' : Graph) (h h' : MinHeap) (top : Node) :
  steady g0 s g h -> h !! 0%nat = Some top -> vertex top = d ->
  (forall e, e ∈ edgesOf g0 d -> edge_end e = d ->
     distOf g d + edge_distance e <= INT_MAX) ->
  dijkstrasRound g h = Ok (g', h') ->
  visitedOf g' d = true /\ distOf g' d = distOf g d /\ prevOf g' d = prevOf g d.
Proof.
  intros [[Hst Hwf Hord Hmir Hrange Hsrc Hfin Hchain] Hvis Hprev] Htop Hvd Hself H.
  destruct (minHeapDequeue_spec g h top Hwf Htop)
    as (g1 & h1 & E1 & _ & F1 & _).
  rewrite Hvd in E1.
  rewrite dijkstrasRound_eq, E1 in H. simpl in H.
  inv_bind H as xu Hxu. inv_bind H as s2 Hs2. destruct s2 as [g2 h2]. simpl in H.
  inv_bind H as g3 Hg3. inversion H; subst g3 h2. clear H.
  destruct (same_but_position_fields _ _ F1) as [L1 Hf1].
  apply graphGetVertex_Ok in Hxu.
  assert (same_static g0 g1) as Hst1.
  { eapply same_static_trans; [exact Hst|].
    apply same_but_position_static. assumption. }
  assert (edges xu = edgesOf g0 d) as Hedges.
  { rewrite <- (edgesOf_lookup _ _ _ Hxu). apply same_static_edgesOf. assumption. }
  assert (distOf g2 d = distOf g d /\ prevOf g2 d = prevOf g d) as [D2 P2].
  { apply (forEach_partial (relaxEdge d)
             (fun st => distOf st.1 d = distOf g d /\ prevOf st.1 d = prevOf g d)
             (edges xu) (g1, h1) (g2, h') Hs2).
    - simpl. destruct (Hf1 d) as (A & B & _). split; congruence.
    - intros e [ga ha] [gb hb] He [Da Pa] E. simpl in *.
      rewrite Hedges in He.
      destruct (graph_wf_edgesOf g0 d e Hg0 He) as (_ & _ & Hw1 & Hw2).
      destruct (relaxEdge_change _ _ _ _ _ _ E) as [Hother Hend].
      destruct (decide (edge_end e = d)) as [Eq|Hne].
      + rewrite Eq in Hend.
        destruct Hend as [[A B] | (Hlt & _)]; [split; congruence|].
        exfalso. rewrite Da in Hlt.
        specialize (Hself e He Eq). pose proof (Hrange d) as Hr.
        rewrite wrap_int_id in Hlt by (unfold in_int, INT_MIN, INT_MAX in *; lia).
        lia.
      + destruct (Hother d ltac:(congruence)) as [A B]. split; congruence. }
  destruct (set_visited_fields _ _ _ _ Hg3) as (_ & _ & _ & D3 & P3 & V3).
  rewrite V3, D3, P3. destruct (decide (d = d)); [auto | congruence].
Qed.

(** The vertex at the top of the heap while [d] is still to come: no
    route to [d] is shorter than its distance. *)
Lemma top_before (g : Graph) (h : MinHeap) (top : Node) :
  steady g0 s g h -> front_inv g0 g -> visitedOf g d = false ->
  h !! 0%nat = Some top -> (d < length g0)%nat ->
  distOf g (vertex top) = value top /\
  forall path len, chain g0 s d path len -> value top <= len.
Proof.
  intros Hp1 Hf Hdun Htop Hd.
  pose proof Hp1 as [[Hst Hwf Hord Hmir Hrange Hsrc Hfin Hchain] Hvis Hprev].
  set (u := vertex top).
  destruct (Hmir _ _ Htop) as (xtop & Hxtop & Vtop). fold u in Hxtop.
  pose proof (same_static_length _ _ Hst) as Lg.
  assert (u < length g0)%nat as Hu by (apply lookup_lt_Some in Hxtop; lia).
  assert (distOf g u = value top) as Hdu
    by (rewrite (distOf_lookup _ _ _ Hxtop); congruence).
  assert (visitedOf g u = false) as Hun.
  { apply Hvis; [assumption|]. exists 0%nat, top. auto. }
  assert (forall w, (w < length g0)%nat -> visitedOf g w = false ->
                    distOf g u <= distOf g w) as Hmin.
  { intros w Hw Hvw. apply (Hvis w Hw) in Hvw as (i & n & Hn & En).
    pose proof (heap_root_min h top Hord Htop i n Hn) as Hle.
    destruct (Hmir _ _ Hn) as (x & Hx & Vx). rewrite En in Hx.
    rewrite (distOf_lookup _ _ _ Hx), Hdu. lia. }
  split; [assumption|]. intros path len Hc.
  destruct (front_lower_bound g h u Hp1 Hf Hu Hun Hmin _ _ _ Hc) as (_ & _ & Hn).
  rewrite <- Hdu. auto.
Qed.

Hypothesis Hroute : exists path len, chain g0 s d path len /\ len < INT_MAX.

(** The loop from a state in which [d] is still to come, when it
    returns: [d] has been taken off with the length of a shortest route as
    its distance, and leads back to the source. *)
Lemma dijkstrasLoop_upto (fuel : nat) : forall (g g' : Graph) (h h' : MinHeap),
  steady g0 s g h -> front_inv g0 g -> visitedOf g d = false ->
  sums_fit_from g0 d g h ->
  dijkstrasLoop fuel g h = Ok (g', h') ->
  (forall path len, chain g0 s d path len -> distOf g' d <= len) /\
  same_static g0 g' /\
  exists V, rooted g0 s g' V /\ V d.
Proof.
  destruct Hroute as (pd & ld & Hcd & Hldlt).
  pose proof (chain_lt _ _ _ Hcd) as Hd.
  induction fuel as [|fuel IH]; intros g g' h h' Hp1 Hf Hdun Hfit H;
    rewrite dijkstrasLoop_eq in H;
    (destruct (minHeapIsEmpty h) eqn:Ee;
     [exfalso; apply minHeapIsEmpty_nil in Ee; subst h;
      apply (sd_vis _ _ _ _ Hp1 d Hd) in Hdun as (i & n & Hn & _); discriminate|]).
  - discriminate.
  - destruct h as [|top rest] eqn:Eh; [discriminate|]. rewrite <- Eh in *.
    assert (h !! 0%nat = Some top) as Htop by (rewrite Eh; reflexivity).
    inv_bind H as st Hst. destruct st as [g1 h1].
    destruct (top_before g h top Hp1 Hf Hdun Htop Hd) as [Hdu Hlow].
    pose proof (Hlow _ _ Hcd) as Hduld.
    assert (forall e, e ∈ edgesOf g0 (vertex top) ->
              visitedOf g (edge_end e) = false ->
              (vertex top = d -> edge_end e = d) ->
              value top + edge_distance e <= INT_MAX) as Hnow.
    { intros e He Hve Hself. rewrite <- Hdu.
      apply (Hfit 0%nat g h top e eq_refl Hdun Htop He Hve Hself). }
    assert (sums_fit_from g0 d g1 h1) as Hfit1.
    { intros k gk hk top' e Hk. apply (Hfit (S k)).
      rewrite dijkstrasRounds_eq, Hst. exact Hk. }
    destruct (decide (vertex top = d)) as [Hvd|Hne].
    + pose proof Hp1 as [[Hst0 Hwf Hord Hmir Hrange Hsrc Hfin Hchain] Hvis Hprev].
      rewrite Hvd in Hdu.
      destruct (dijkstrasRound_self g g1 h h1 top Hp1 Htop Hvd) as (Hv1 & Hd1 & Hp1d).
      { intros e He Hend. rewrite Hdu. rewrite <- Hvd in He. apply Hnow; auto.
        rewrite Hend. assumption. }
      { assumption. }
      apply dijkstrasRound_frame in Hst as [[S1 K1] _].
      apply dijkstrasLoop_frame in H as [S2 K2].
      destruct (K2 d Hv1) as (_ & Dd & Pd).
      split.
      { intros path len Hc. rewrite Dd, Hd1, Hdu. apply (Hlow _ _ Hc). }
      split.
      { eapply same_static_trans; [exact Hst0|].
        eapply same_static_trans; eassumption. }
      exists (fun v => (v < length g0)%nat /\ (visitedOf g v = true \/ v = d)).
      split; [|auto].
      apply (rooted_kept g g').
      * intros v [_ [Hvv | ->]].
        -- destruct (K1 v Hvv) as (A & B & C). destruct (K2 v A) as (_ & B' & C').
           split; congruence.
        -- split; congruence.
      * apply (steady_rooted g h d Hp1 Hd). lia.
    + destruct (dijkstrasRound_ahead g h top Hp1 Hf Htop ltac:(lia) Hdun Hne)
        as (ga & ha & E & Hp1' & Hf' & Hdun').
      { intros e He Hve. apply Hnow; [assumption | assumption | contradiction]. }
      rewrite E in Hst. inversion Hst; subst ga ha.
      eapply IH; eassumption.
Qed.

(** The rounds come to the one that takes [d] off the heap. *)
Lemma dijkstrasRounds_reach (n : nat) : forall (g : Graph) (h : MinHeap),
  (length h <= n)%nat ->
  steady g0 s g h -> front_inv g0 g -> visitedOf g d = false ->
  sums_fit_from g0 d g h ->
  exists k gk hk top,
    dijkstrasRounds k g h = Ok (gk, hk) /\
    steady g0 s gk hk /\ front_inv g0 gk /\ visitedOf gk d = false /\
    hk !! 0%nat = Some top /\ vertex top = d.
Proof.
  destruct Hroute as (pd & ld & Hcd & Hldlt).
  pose proof (chain_lt _ _ _ Hcd) as Hd.
  induction n as [|n IH]; intros g h Hlen Hp1 Hf Hdun Hfit;
    (destruct h as [|top rest] eqn:Eh;
     [apply (sd_vis _ _ _ _ Hp1 d Hd) in Hdun as (i & x & Hx & _); discriminate|]).
  - simpl in Hlen. lia.
  - rewrite <- Eh in *.
    assert (h !! 0%nat = Some top) as Htop by (rewrite Eh; reflexivity).
    destruct (decide (vertex top = d)) as [Hvd|Hne].
    + exists 0%nat, g, h, top. simpl. auto 10.
    + destruct (top_before g h top Hp1 Hf Hdun Htop Hd) as [Hdu Hlow].
      pose proof (Hlow _ _ Hcd) as Hduld.
      assert (forall e, e ∈ edgesOf g0 (vertex top) ->
                visitedOf g (edge_end e) = false ->
                value top + edge_distance e <= INT_MAX) as Hnow.
      { intros e He Hve. rewrite <- Hdu.
        apply (Hfit 0%nat g h top e eq_refl Hdun Htop He Hve).
        intros; contradiction. }
      destruct (dijkstrasRound_ahead g h top Hp1 Hf Htop ltac:(lia) Hdun Hne Hnow)
        as (ga & ha & E & Hp1' & Hf' & Hdun').
      destruct (dijkstrasRound_steady g h top Hp1 Htop ltac:(lia) Hnow)
        as (gb & hb & E' & _ & Hl & _).
      rewrite E in E'. inversion E'; subst gb hb.
      destruct (IH ga ha ltac:(rewrite Eh in Hl, Hlen; simpl in *; lia) Hp1' Hf' Hdun')
        as (k & gk & hk & topk & Hk & R).
      { intros k gk hk top' e Hk. apply (Hfit (S k)).
        rewrite dijkstrasRounds_eq, E. exact Hk. }
      exists (S k), gk, hk, topk. split; [|assumption].
      rewrite dijkstrasRounds_eq, E. exact Hk.
Qed.

(** After a run that has returned, when [d] has a route shorter than the
    sentinel and the sums before [d] fit. *)
Lemma dijkstras_upto (g' : Graph) (h' : MinHeap) :
  sums_fit_before g0 s d ->
  dijkstras g0 [] s = Ok (g', h') ->
  (forall path len, chain g0 s d path len -> distOf g' d <= len) /\
  same_static g0 g' /\
  exists V, rooted g0 s g' V /\ V d.
Proof.
  unfold dijkstras. intros Hfit H.
  destruct (dijkstrasReset_spec g0 s Hs) as ([g1 h1] & E1 & Hinv).
  rewrite E1 in H. simpl in H.
  destruct (reset_steady g1 h1 Hinv) as [Hp1 Hf].
  destruct Hroute as (pd & ld & Hcd & _).
  pose proof (chain_lt _ _ _ Hcd) as Hd.
  eapply dijkstrasLoop_upto; try eassumption.
  - destruct Hinv as (_ & _ & _ & _ & _ & _ & _ & Hdone). apply (Hdone d Hd).
  - apply Hfit. assumption.
Qed.

End Exact.

(** ** A condition on the graph *)

Section Criterion.

Variable g0 : Graph.
Variable s d : nat.
Variable ld : Z.
Hypothesis Hg0 : graph_wf g0.
Hypothesis Hs : (s < length g0)%nat.
Hypothesis Hfits : route_fits g0 s d ld.

(** As long as [d] is still to come, the rounds take reached vertices off
    the heap, and their sums fit. *)
Lemma dijkstrasRounds_steady (k : nat) : forall (g gk : Graph) (h hk : MinHeap),
  steady g0 s g h -> front_inv g0 g ->
  dijkstrasRounds k g h = Ok (gk, hk) -> visitedOf gk d = false ->
  steady g0 s gk hk /\ front_inv g0 gk.
Proof.
  destruct Hfits as ([[pd Hcd] Hdmin] & Hldlt & Hsums).
  pose proof (chain_lt g0 s Hg0 Hs _ _ _ Hcd) as Hd.
  induction k as [|k IH]; intros g gk h hk Hp1 Hf Hk Hdunk.
  - simpl in Hk. inversion Hk; subst. auto.
  - rewrite dijkstrasRounds_eq in Hk. inv_bind Hk as st Hst. destruct st as [ga ha].
    simpl in Hk.
    assert (visitedOf ga d = false) as Hduna.
    { destruct (visitedOf ga d) eqn:E; [|reflexivity].
      assert (visited_kept ga gk) as [_ K]; [|destruct (K d E); congruence].
      clear -Hk. revert ga ha Hk. induction k as [|k IHk]; intros ga ha Hk.
      - simpl in Hk. inversion Hk. apply visited_kept_refl.
      - rewrite dijkstrasRounds_eq in Hk. inv_bind Hk as st Hst. destruct st as [gb hb].
        simpl in Hk. apply dijkstrasRound_frame in Hst as [K1 _].
        eapply visited_kept_trans; [exact K1|]. eapply IHk. eassumption. }
    assert (visitedOf g d = false) as Hdun.
    { destruct (visitedOf g d) eqn:E; [|reflexivity].
      apply dijkstrasRound_frame in Hst as [[_ K] _]. destruct (K d E). congruence. }
    destruct h as [|top rest] eqn:Eh.
    { apply (sd_vis _ _ _ _ Hp1 d Hd) in Hdun as (i & n & Hn & _). discriminate. }
    rewrite <- Eh in *.
    assert (h !! 0%nat = Some top) as Htop by (rewrite Eh; reflexivity).
    destruct (top_before g0 s Hg0 Hs d g h top Hp1 Hf Hdun Htop Hd) as [Hdu Hlow].
    pose proof (Hlow _ _ Hcd) as Hduld.
    assert (vertex top <> d) as Hne.
    { intros Hvd.
      assert (visitedOf ga d = true); [|congruence].
      pose proof Hst as Hst'. rewrite dijkstrasRound_eq in Hst'.
      inv_bind Hst' as r Hr. inv_bind Hst' as xu Hxu. inv_bind Hst' as s2 Hs2.
      inv_bind Hst' as g3 Hg3. inversion Hst'; subst g3.
      destruct (minHeapDequeue_spec g h top (sc_wf _ _ _ _ (sd_common _ _ _ _ Hp1)) Htop)
        as (g1 & h1 & E1 & _).
      rewrite E1 in Hr. inversion Hr; subst r. simpl in Hg3.
      destruct (set_visited_fields _ _ _ _ Hg3) as (_ & _ & _ & _ & _ & V3).
      rewrite V3, Hvd. destruct (decide (d = d)); [reflexivity | congruence]. }
    assert (vertex top < length g0)%nat as Hu.
    { destruct (sc_mir _ _ _ _ (sd_common _ _ _ _ Hp1) _ _ Htop) as (x & Hx & _).
      apply lookup_lt_Some in Hx.
      pose proof (same_static_length _ _ (sc_static _ _ _ _ (sd_common _ _ _ _ Hp1))).
      lia. }
    assert (visitedOf g (vertex top) = false) as Hun.
    { apply (sd_vis _ _ _ _ Hp1); [assumption|]. exists 0%nat, top. auto. }
    assert (shortest g0 s (vertex top) (value top)) as Hshort.
    { split.
      - rewrite <- Hdu. apply (sc_chain _ _ _ _ (sd_common _ _ _ _ Hp1)); [assumption | lia].
      - apply (top_before g0 s Hg0 Hs (vertex top) g h top Hp1 Hf Hun Htop Hu). }
    destruct (dijkstrasRound_ahead g0 s Hg0 Hs d g h top Hp1 Hf Htop ltac:(lia) Hdun Hne)
      as (gb & hb & E & Hp1' & Hf' & _).
    { intros e He Hve. apply (Hsums _ e _ Hshort Hduld He); [contradiction|].
      intros path len Hc.
      destruct (graph_wf_edgesOf g0 _ e Hg0 He) as (_ & Hend & _).
      apply (proj2 (top_before g0 s Hg0 Hs (edge_end e) g h top Hp1 Hf Hve Htop Hend)
               _ _ Hc). }
    rewrite E in Hst. inversion Hst; subst gb hb.
    eapply IH; eassumption.
Qed.

(** The condition on the graph is enough for the sums before [d] to
    fit. *)
Lemma route_fits_before : sums_fit_before g0 s d.
Proof.
  intros g1 h1 E1 k gk hk top e Hk Hdun Htop He Hve Hself.
  destruct (dijkstrasReset_spec g0 s Hs) as (st & E & Hinv).
  rewrite E1 in E. inversion E; subst st. clear E.
  destruct (reset_steady g0 s Hs g1 h1 Hinv) as [Hp1 Hf].
  destruct (dijkstrasRounds_steady k g1 gk h1 hk Hp1 Hf Hk Hdun) as [Hpk Hfk].
  destruct Hfits as ([[pd Hcd] Hdmin] & Hldlt & Hsums).
  pose proof (chain_lt g0 s Hg0 Hs _ _ _ Hcd) as Hd.
  destruct (top_before g0 s Hg0 Hs d gk hk top Hpk Hfk Hdun Htop Hd) as [Hdu Hlow].
  pose proof (Hlow _ _ Hcd) as Hduld.
  assert (vertex top < length g0)%nat as Hu.
  { destruct (sc_mir _ _ _ _ (sd_common _ _ _ _ Hpk) _ _ Htop) as (x & Hx & _).
    apply lookup_lt_Some in Hx.
    pose proof (same_static_length _ _ (sc_static _ _ _ _ (sd_common _ _ _ _ Hpk))).
    lia. }
  assert (visitedOf gk (vertex top) = false) as Hun.
  { apply (sd_vis _ _ _ _ Hpk); [assumption|]. exists 0%nat, top. auto. }
  rewrite Hdu. apply (Hsums (vertex top) e (value top)); auto.
  - split.
    + rewrite <- Hdu. apply (sc_chain _ _ _ _ (sd_common _ _ _ _ Hpk)); [assumption | lia].
    + apply (top_before g0 s Hg0 Hs (vertex top) gk hk top Hpk Hfk Hun Htop Hu).
  - destruct (graph_wf_edgesOf g0 _ e Hg0 He) as (_ & Hend & _).
    apply (proj2 (top_before g0 s Hg0 Hs (edge_end e) gk hk top Hpk Hfk Hve Htop Hend)).
Qed.

End Criterion.

(** ** Sums below the sentinel *)

Lemma sums_below_before (g : Graph) (s d : nat) :
  sums_below g s -> sums_fit_before g s d.
Proof.
  intros Hb g1 h1 E1 k gk hk top e Hk _ Htop He Hve _.
  specialize (Hb g1 h1 k gk hk top e E1 Hk Htop He Hve). lia.
Qed.

(** When the sums stay below the sentinel, every vertex that can be
    reached has a route shorter than the sentinel. *)
Lemma sums_below_route (g : Graph) (s : nat) :
  graph_wf g -> (s < length g)%nat -> sums_below g s ->
  forall d, reachable g s d ->
    exists path len, chain g s d path len /\ len < INT_MAX.
Proof.
  intros Hwf Hs Hb d Hr.
  induction Hr as [|v e Hr Hv He].
  - exists [s], 0. split; [constructor | unfold INT_MAX; lia].
  - destruct (dijkstrasReset_spec g s Hs) as ([g1 h1] & E1 & Hinv).
    destruct (reset_steady g s Hs g1 h1 Hinv) as [Hp1 Hf].
    pose proof Hv as (pv & lv & Hcv & Hlv).
    pose proof (chain_lt g s Hwf Hs _ _ _ Hcv) as Hvlt.
    assert (visitedOf g1 v = false) as Hvun.
    { destruct Hinv as (_ & _ & _ & _ & _ & _ & _ & Hdone). apply (Hdone v Hvlt). }
    destruct (dijkstrasRounds_reach g s Hwf Hs v Hv (length h1) g1 h1
                (le_n _) Hp1 Hf Hvun (sums_below_before g s v Hb g1 h1 E1))
      as (k & gk & hk & top & Hk & Hpk & Hfk & Hvunk & Htop & Hvtop).
    destruct (top_before g s Hwf Hs v gk hk top Hpk Hfk Hvunk Htop Hvlt) as [Hdu Hlow].
    pose proof (Hlow _ _ Hcv) as Hle.
    rewrite Hvtop in Hdu.
    destruct (graph_wf_edgesOf g v e Hwf He) as (_ & Hend & _).
    pose proof Hpk as [[_ _ _ _ _ _ Hfin Hchain] _ _].
    destruct (visitedOf gk (edge_end e)) eqn:Eve.
    + destruct (Hchain _ Hend (Hfin _ Eve)) as [path Hc].
      eexists _, _. split; [exact Hc | apply Hfin; assumption].
    + destruct (Hchain v Hvlt ltac:(lia)) as [path Hc].
      eexists _, _. split; [eapply chain_edge; eassumption|].
      rewrite <- Hvtop in He. specialize (Hb g1 h1 k gk hk top e E1 Hk Htop He Eve).
      rewrite Hvtop in Hb. assumption.
Qed.

(** ** Three long edges *)

Lemma far_towns_wf : graph_wf far_towns.
Proof. apply built_wf. repeat constructor; simpl; unfold INT_MAX; lia. Qed.

Lemma far_towns_edges (v : nat) (e : Edge) :
  e ∈ edgesOf far_towns v ->
  (v < 4)%nat /\ edge_distance e = 1000000000 /\
  (edge_end e = v + 1 \/ edge_end e + 1 = v)%nat.
Proof.
  intros He. destruct v as [|[|[|[|v]]]].
  - apply list_elem_of_singleton in He; subst e; simpl; lia.
  - change (edgesOf far_towns 1)
      with [mkEdge 1 0 1000000000; mkEdge 1 2 1000000000] in He.
    apply elem_of_cons in He as [->|He]; [simpl; lia|].
    apply list_elem_of_singleton in He; subst e; simpl; lia.
  - change (edgesOf far_towns 2)
      with [mkEdge 2 1 1000000000; mkEdge 2 3 1000000000] in He.
    apply elem_of_cons in He as [->|He]; [simpl; lia|].
    apply list_elem_of_singleton in He; subst e; simpl; lia.
  - apply list_elem_of_singleton in He; subst e; simpl; lia.
  - inversion He.
Qed.

Lemma far_towns_chains :
  chain far_towns 0 0 [0%nat] 0 /\
  chain far_towns 0 1 [0%nat; 1%nat] 1000000000 /\
  chain far_towns 0 2 [0%nat; 1%nat; 2%nat] 2000000000.
Proof.
  assert (chain far_towns 0 0 [0%nat] 0) as H0 by constructor.
  assert (chain far_towns 0 1 [0%nat; 1%nat] 1000000000) as H1.
  { apply (chain_edge far_towns 0 0 (mkEdge 0 1 1000000000) [0%nat] 0 H0).
    vm_compute. left. }
  split; [assumption|]. split; [assumption|].
  apply (chain_edge far_towns 0 1 (mkEdge 1 2 1000000000) [0%nat; 1%nat] 1000000000 H1).
  vm_compute. right. left.
Qed.

(** A route from A to the vertex [v] has [v] edges at least. *)
Lemma far_towns_lower (v : nat) (path : list nat) (len : Z) :
  chain far_towns 0 v path len -> Z.of_nat v * 1000000000 <= len.
Proof.
  induction 1 as [|p e path len Hc IH He]; [lia|].
  destruct (far_towns_edges p e He) as (_ & -> & Hend). lia.
Qed.

Lemma far_towns_fits : route_fits far_towns 0 2 2000000000.
Proof.
  destruct far_towns_chains as (H0 & H1 & H2).
  split; [|split].
  - split; [eauto|]. intros path len Hc. apply far_towns_lower in Hc. lia.
  - unfold INT_MAX. lia.
  - intros u e lu [[path Hc] Hmin] Hle He Hself Hnear.
    apply far_towns_lower in Hc.
    destruct (far_towns_edges u e He) as (Hu & -> & Hend).
    destruct u as [|[|[|u]]].
    + specialize (Hmin _ _ H0). unfold INT_MAX. lia.
    + specialize (Hmin _ _ H1). unfold INT_MAX. lia.
    + specialize (Hself eq_refl). lia.
    + lia.
Qed.

(** ** The number of rounds *)

Lemma reset_heap_holds (g g1 : Graph) (h1 : MinHeap) (s : nat) :
  (s < length g)%nat -> dijkstrasReset g [] s = Ok (g1, h1) -> heap_holds g g1 h1.
Proof.
  intros Hs E. destruct (dijkstrasReset_spec g s Hs) as (st & E1 & Hinv).
  rewrite E in E1. inversion E1; subst st. clear E1.
  destruct Hinv as (Hst & Hwf & _ & _ & Hlen & Hin & _ & Hdone). simpl in *.
  split_and!; auto. intros v Hv. rewrite Hin. split; [auto|].
  intros _. apply Hdone. assumption.
Qed.

(** Each round takes one node off the heap. *)
Lemma dijkstrasRounds_length (g0 : Graph) (k : nat) :
  forall (g gk : Graph) (h hk : MinHeap),
  heap_holds g0 g h -> dijkstrasRounds k g h = Ok (gk, hk) ->
  length h = (k + length hk)%nat.
Proof.
  induction k as [|k IH]; intros g gk h hk Hh Hk.
  - simpl in Hk. inversion Hk. reflexivity.
  - rewrite dijkstrasRounds_eq in Hk. inv_bind Hk as st Hst. destruct st as [ga ha].
    simpl in Hk. destruct h as [|top rest] eqn:Eh.
    { unfold dijkstrasRound, minHeapDequeue in Hst. simpl in Hst. discriminate. }
    rewrite <- Eh in *.
    destruct (dijkstrasRound_heap g0 g ga h ha top Hh ltac:(rewrite Eh; reflexivity) Hst)
      as (Hh' & Hl & _).
    rewrite (IH _ _ _ _ Hh' Hk) in Hl. lia.
Qed.

(** On [triangle] the sums of the run from A stay below the sentinel. *)
Lemma triangle_sums_below : sums_below triangle 0.
Proof.
  intros g1 h1 k gk hk top e E1 Hk Htop He Hve.
  pose proof (dijkstrasRounds_length triangle k g1 gk h1 hk
                (reset_heap_holds triangle g1 h1 0 ltac:(vm_compute; lia) E1) Hk) as Hlen.
  vm_compute in E1. injection E1 as <- <-.
  assert (k < 3)%nat as Hk3.
  { apply lookup_lt_Some in Htop. simpl in Hlen. lia. }
  clear Hlen.
  destruct k as [|[|[|k]]]; [| | |lia];
    vm_compute in Hk; injection Hk as <- <-;
    vm_compute in Htop; injection Htop as <-;
    vm_compute in He;
    repeat (apply elem_of_cons in He as [->|He]);
    try (inversion He; fail);
    vm_compute in Hve; try discriminate;
    vm_compute; reflexivity.
Qed.

(** * The claims about the heap *)

(** ** C4 *)

(** C4: the code does not keep the min-heap invariant on a heap that a
    run hands to it.  The run from E on [three_islands] has reached
    [reached_heap] after four rounds: the heap is well formed and ordered,
    A and D at -INT_MAX, H and G at the sentinel.  [minHeapDequeue] moves
    the node of G to slot 0 and calls [minHeapSiftDown], where
    [rightValue - leftValue] is [INT_MAX - (- INT_MAX)], which does not fit
    an [int]; wrapped, it is -2, the right child is taken, and the heap is
    left with [INT_MAX] in slot 0 above [- INT_MAX] in slot 1. *)
Theorem sift_down_overflow_unordered :
  (st ← dijkstrasReset three_islands [] 4; dijkstrasRounds 4 st.1 st.2)
  = Ok (reached_graph, reached_heap) /\
  heap_wf reached_graph reached_heap /\ heap_ordered reached_heap /\
  minHeapDequeue reached_graph reached_heap =
  (s ← minHeapSiftDown sifting_graph sifting_heap; Ok (0%nat, s)) /\
  (exists left right,
     heapAt sifting_heap 1 = Ok left /\ heapAt sifting_heap 2 = Ok right /\
     ~ in_int (value right - value left)) /\
  exists u g' h',
    minHeapDequeue reached_graph reached_heap = Ok (u, (g', h')) /\
    ~ heap_ordered h'.
Proof.
  split; [exact reached_in_run|].
  split; [exact reached_heap_wf|]. split; [exact reached_heap_ordered|].
  split; [exact (proj1 reached_heap_dequeue)|]. split.
  - eexists _, _. split_and!; [reflexivity | reflexivity |].
    unfold in_int, INT_MIN, INT_MAX. simpl. lia.
  - eexists _, _, _. split; [exact (proj2 reached_heap_dequeue)|].
    intros Hord. apply heap_ordered_b_complete in Hord.
    vm_compute in Hord. discriminate.
Qed.

(** ** C7 *)

(** C7: the values do not come off in non-decreasing order.  From
    [reached_heap], the heap of the run from E on [three_islands] after
    four rounds, well formed and ordered, [minHeapDequeue] returns A, H, D
    and G, with the values -INT_MAX, INT_MAX, -INT_MAX, INT_MAX: the first
    call leaves the heap out of order, through the difference in
    [minHeapSiftDown] that does not fit an [int]. *)
Theorem sift_down_overflow_unsorted :
  (st ← dijkstrasReset three_islands [] 4; dijkstrasRounds 4 st.1 st.2)
  = Ok (reached_graph, reached_heap) /\
  heap_wf reached_graph reached_heap /\ heap_ordered reached_heap /\
  minHeapDequeue reached_graph reached_heap =
  (s ← minHeapSiftDown sifting_graph sifting_heap; Ok (0%nat, s)) /\
  (exists left right,
     heapAt sifting_heap 1 = Ok left /\ heapAt sifting_heap 2 = Ok right /\
     ~ in_int (value right - value left)) /\
  drain (length reached_heap) reached_graph reached_heap =
  Ok [(0%nat, - INT_MAX); (7%nat, INT_MAX); (3%nat, - INT_MAX); (6%nat, INT_MAX)] /\
  ~ Sorted Z.le [- INT_MAX; INT_MAX; - INT_MAX; INT_MAX].
Proof.
  split; [exact reached_in_run|].
  split; [exact reached_heap_wf|]. split; [exact reached_heap_ordered|].
  split; [exact (proj1 reached_heap_dequeue)|].
  split.
  { eexists _, _. split_and!; [reflexivity | reflexivity |].
    unfold in_int, INT_MIN, INT_MAX. simpl. lia. }
  split; [vm_compute; reflexivity|].
  intros Hs.
  inversion Hs as [|? ? Hs1 _]; subst.
  inversion Hs1 as [|? ? _ Hr]; subst.
  inversion Hr as [|? ? Hle]; subst. unfold INT_MAX in Hle. lia.
Qed.

(** ** C8 *)

(** C8: the round of the sift-down loop does not take the smaller child.
    In the heap that [minHeapDequeue] hands to [minHeapSiftDown] when it is
    called on [reached_heap], slot 0 holds INT_MAX over -INT_MAX on the
    left and INT_MAX on the right: [rightValue <= leftValue] does not hold,
    [rightValue - leftValue] does not fit an [int], and the round swaps
    with the right child. *)
Theorem sift_down_overflow_right_child :
  minHeapDequeue reached_graph reached_heap =
  (s ← minHeapSiftDown sifting_graph sifting_heap; Ok (0%nat, s)) /\
  heap_wf sifting_graph sifting_heap /\
  exists cur left right s,
    heapAt sifting_heap 0 = Ok cur /\
    heapAt sifting_heap 1 = Ok left /\ heapAt sifting_heap 2 = Ok right /\
    hasChildLeft cur = true /\ hasChildRight cur = true /\
    value left <= value cur /\ ~ value right <= value left /\
    ~ in_int (value right - value left) /\
    siftDownStep sifting_graph sifting_heap 0 = Ok (Some (2, s)).
Proof.
  split; [exact (proj1 reached_heap_dequeue)|].
  split; [apply heap_wf_b_sound; vm_compute; reflexivity|].
  eexists _, _, _, _. split_and!; try reflexivity.
  - simpl. unfold INT_MAX. lia.
  - simpl. unfold INT_MAX. lia.
  - unfold in_int, INT_MIN, INT_MAX. simpl. lia.
Qed.

(** * The claims about the graph and the runs *)

(** ** C1 *)

(** C1 does not hold of the code: on the graph of the records A-B(1),
    C-D(1), with source A, the run returns, D cannot be reached from A,
    and yet D ends with the distance [INT_MIN] and the predecessor C.  C is
    taken off the heap with the sentinel as its distance, and
    [alternateRoute] is [INT_MAX + 1], wrapped. *)
Theorem sentinel_overflow_unreachable :
  exists g',
    dijkstras two_islands [] 0 = Ok (g', []) /\
    ~ reachable two_islands 0 3 /\
    distOf g' 2 = INT_MAX /\ prevOf g' 2 = None /\
    distOf g' 3 = INT_MIN /\ prevOf g' 3 = Some 2%nat.
Proof.
  exists two_islands_after. split; [exact two_islands_run|].
  split.
  - intros Hr. apply two_islands_reachable in Hr. lia.
  - vm_compute. auto.
Qed.

(** ** C2 *)

(** C2, as stated, fails: for the unreachable destination C of
    [two_islands], whose distance is the sentinel after the run from A,
    [dijkstrasWriteToFile] writes a distance and a route line. *)
Lemma no_route_counterexample :
  exists g',
    dijkstras two_islands [] 0 = Ok (g', []) /\
    distOf g' 2 = INT_MAX /\
    dijkstrasWriteToFile g' 0 2 =
    Ok ("A to C is 2147483647km" ++ nl ++ nl ++ "Route:" ++ nl
          ++ "C" ++ nl ++ nl ++ nl ++ nl)%string.
Proof.
  exists two_islands_after. split; [exact two_islands_run|].
  split; vm_compute; reflexivity.
Qed.

(** C2, amended: after a run that has returned, for a destination whose
    distance is the sentinel, [dijkstrasWriteToFile] makes no difference:
    it writes the line "<source> to <destination> is 2147483647km", the
    line "Route:" and a route that is the name of the destination alone. *)
Theorem unreachable_rendering (g g' : Graph) (h' : MinHeap) (s d : nat) :
  dijkstras g [] s = Ok (g', h') -> (d < length g)%nat ->
  distOf g' d = INT_MAX ->
  dijkstrasWriteToFile g' s d =
  Ok (nameOf g s ++ " to " ++ nameOf g d ++ " is 2147483647km" ++ nl ++ nl
        ++ "Route:" ++ nl
        ++ nameOf g d ++ nl ++ nl ++ nl ++ nl)%string.
Proof.
  intros Hrun Hd Hdist.
  pose proof (dijkstras_static _ _ _ _ Hrun) as Hst.
  pose proof (same_static_length _ _ Hst) as Lg.
  apply dijkstras_inv in Hrun as (Hs & g1 & h1 & Hinv & Hloop).
  pose proof (dijkstrasLoop_sentinel _ _ _ _ _ Hloop (reset_sentinel _ _ _ _ Hinv))
    as Hsent.
  destruct (Hsent d) as [_ Hprev]. specialize (Hprev Hdist).
  destruct (lookup_lt_is_Some_2 g' s ltac:(lia)) as [xs Hxs].
  destruct (lookup_lt_is_Some_2 g' d ltac:(lia)) as [xd Hxd].
  unfold dijkstrasWriteToFile, graphGetVertex. rewrite Hxs, Hxd. step.
  rewrite routeLoop_eq. unfold graphGetVertex. rewrite Hxd. step.
  rewrite <- (prevOf_lookup _ _ _ Hxd), Hprev. step.
  rewrite <- (distOf_lookup _ _ _ Hxd), Hdist.
  rewrite <- (nameOf_lookup _ _ _ Hxs), <- (nameOf_lookup _ _ _ Hxd).
  rewrite !(same_static_nameOf _ _ _ Hst).
  replace (showInt INT_MAX) with "2147483647"%string by (vm_compute; reflexivity).
  cbn [printRoute rev app]. rewrite !string_app_assoc. reflexivity.
Qed.

Lemma unreachable_rendering_witness :
  exists g',
    dijkstras two_islands [] 0 = Ok (g', []) /\
    dijkstrasWriteToFile g' 0 2 =
    Ok (nameOf two_islands 0 ++ " to " ++ nameOf two_islands 2
          ++ " is 2147483647km" ++ nl ++ nl ++ "Route:" ++ nl
          ++ nameOf two_islands 2 ++ nl ++ nl ++ nl ++ nl)%string.
Proof.
  exists two_islands_after. split; [exact two_islands_run|].
  apply (unreachable_rendering two_islands two_islands_after [] 0 2 two_islands_run).
  - vm_compute. lia.
  - reflexivity.
Defined.

(** ** C3 *)

(** C3 does not hold of the code: the record ("X", "X", 5), read into the
    empty graph, makes two vertices named X.  [checkStringsKnown] compares
    each of the two names with the names of the graph and never with one
    another. *)
Theorem duplicate_name_record :
  exists g,
    graphPopulateGraph [] [("X", "X", 5)]%string = Some g /\
    length g = 2%nat /\
    nameOf g 0 = "X"%string /\ nameOf g 1 = "X"%string /\
    graphGetVertexNumber g "X" = Some 0%nat.
Proof. eexists. split; [reflexivity|]. vm_compute. auto. Qed.

(** ** C5 *)




(** ** C6 *)

(** C6: on a graph whose edges have positive distances, after a run from
    [s] that returns, the distance of [s] is 0 and [s] has no predecessor;
    and on a graph without self-loops the run returns. *)
Theorem source_distance_zero (g : Graph) (s : nat) :
  graph_wf g ->
  (forall g' h', dijkstras g [] s = Ok (g', h') ->
     distOf g' s = 0 /\ prevOf g' s = None) /\
  (no_self_loops g -> (s < length g)%nat ->
   exists g', dijkstras g [] s = Ok (g', [])).
Proof.
  intros Hwf. split.
  - intros g' h' Hrun. eapply dijkstras_source; eassumption.
  - intros Hloops Hs. destruct (dijkstras_total g s Hwf Hloops Hs) as (g' & E & _).
    eauto.
Qed.

Lemma source_distance_zero_witness :
  exists g',
    dijkstras two_islands [] 0 = Ok (g', []) /\
    distOf g' 0 = 0 /\ prevOf g' 0 = None.
Proof.
  destruct (source_distance_zero two_islands 0 two_islands_wf) as [Hsrc Htotal].
  destruct (Htotal two_islands_no_self_loops ltac:(vm_compute; lia)) as [g' Hrun].
  exists g'. split; [exact Hrun|]. exact (Hsrc g' [] Hrun).
Defined.

(** ** C9 *)

(** C9: with a source that is a vertex of the graph and an empty heap, the
    reset phase returns; after it every vertex but the source is at the
    sentinel and the source at 0, no vertex has a predecessor or is marked
    as visited, the heap has as many nodes as the graph has vertices and
    holds every vertex exactly once, and [minHeapDequeue] returns the
    source. *)
Theorem reset_phase_state (g : Graph) (s : nat) :
  (s < length g)%nat ->
  exists g1 h1,
    dijkstrasReset g [] s = Ok (g1, h1) /\
    same_static g g1 /\
    (forall v, (v < length g)%nat ->
       distOf g1 v = (if decide (v = s) then 0 else INT_MAX) /\
       prevOf g1 v = None /\ visitedOf g1 v = false) /\
    minHeapGetSize h1 = Z.of_nat (length g) /\
    NoDup (vertex <$> h1) /\
    (forall v, v ∈ vertex <$> h1 <-> (v < length g)%nat) /\
    exists g2 h2, minHeapDequeue g1 h1 = Ok (s, (g2, h2)).
Proof.
  intros Hs. destruct (dijkstrasReset_spec g s Hs) as ([g1 h1] & E & Hinv).
  exists g1, h1. split; [assumption|].
  destruct (reset_first_dequeue g s g1 h1 Hs Hinv) as (top & Htop & Hvt).
  destruct Hinv as (Hst & Hwf & _ & _ & Hlen & Hin & _ & Hdone). simpl in *.
  split_and!; auto.
  - unfold minHeapGetSize. congruence.
  - eapply heap_wf_NoDup; eassumption.
  - intros v. rewrite <- in_heap_elem_of. apply Hin.
  - destruct (minHeapDequeue_spec g1 h1 top Hwf Htop) as (g2 & h2 & E2 & _).
    rewrite Hvt in E2. eauto.
Qed.

Lemma reset_phase_state_witness :
  exists g1 h1,
    dijkstrasReset two_islands [] 1 = Ok (g1, h1) /\
    same_static two_islands g1 /\
    (forall v, (v < length two_islands)%nat ->
       distOf g1 v = (if decide (v = 1%nat) then 0 else INT_MAX) /\
       prevOf g1 v = None /\ visitedOf g1 v = false) /\
    minHeapGetSize h1 = Z.of_nat (length two_islands) /\
    NoDup (vertex <$> h1) /\
    (forall v, v ∈ vertex <$> h1 <-> (v < length two_islands)%nat) /\
    exists g2 h2, minHeapDequeue g1 h1 = Ok (1%nat, (g2, h2)).
Proof.
  apply (reset_phase_state two_islands 1). vm_compute. lia.
Defined.

(** ** C10 *)

(** C10: whatever heap it is given, a run that returns leaves the heap
    empty, and so does a query of [fastestRoute], which hands the same
    heap to the next query.  A run that is given the empty heap and
    returns has enqueued every vertex once and has gone through
    [numberOfCities] rounds; after [k] of them [k] nodes are gone, the
    next round takes the node of one vertex off and leaves the other
    nodes, and no more, in the heap; the vertices taken off are the
    vertices enqueued, each of them once, and all are visited at the end.
    On a graph without self-loops whose edges have positive distances,
    given the empty heap and a source of the graph, the run returns. *)
Theorem heap_empty_after_run (g : Graph) (s : nat) :
  (forall h g' h', dijkstras g h s = Ok (g', h') -> h' = []) /\
  (forall h start end_ text g' h',
     answerQuery g h start end_ = Ok (text, (g', h')) -> h' = []) /\
  (forall g' h', dijkstras g [] s = Ok (g', h') ->
     exists g1 h1 order,
       dijkstrasReset g [] s = Ok (g1, h1) /\
       vertex <$> h1 ≡ₚ seq 0 (length g) /\
       dijkstrasRounds (length g) g1 h1 = Ok (g', []) /\
       visitOrder (length g) g1 h1 = Ok order /\
       order ≡ₚ vertex <$> h1 /\
       (forall k, (k < length g)%nat ->
          exists gk hk u gn hn,
            dijkstrasRounds k g1 h1 = Ok (gk, hk) /\
            length hk = (length g - k)%nat /\
            order !! k = Some u /\ in_heap hk u /\
            dijkstrasRound gk hk = Ok (gn, hn) /\
            forall w, in_heap hn w <-> in_heap hk w /\ w <> u) /\
       forall v, (v < length g)%nat -> visitedOf g' v = true) /\
  (graph_wf g -> no_self_loops g -> (s < length g)%nat ->
   exists g', dijkstras g [] s = Ok (g', []) /\ same_static g g').
Proof.
  assert (forall g h s g' h', dijkstras g h s = Ok (g', h') -> h' = []) as Hrun.
  { intros ga h sa g' h' H. unfold dijkstras in H. inv_bind H as st Hst.
    destruct st as [g1 h1]. eapply dijkstrasLoop_empty. eassumption. }
  split_and!.
  - intros h g' h'. apply Hrun.
  - intros h start end_ text g' h' H. unfold answerQuery in H.
    inv_bind H as a Ha. inv_bind H as b Hb. inv_bind H as st Hst.
    destruct st as [g1 h1]. inv_bind H as t Ht. inversion H; subst.
    eapply Hrun. eassumption.
  - intros g' h' H. destruct (dijkstras_inv _ _ _ _ H) as (Hs & _).
    destruct (dijkstrasReset_spec g s Hs) as ([g1 h1] & E1 & Hinv).
    unfold dijkstras in H. rewrite E1 in H. simpl in H.
    destruct Hinv as (Hst & Hwf & _ & _ & Hlen & Hin & _ & Hdone). simpl in *.
    assert (heap_holds g g1 h1) as Hholds.
    { split_and!; auto. intros v Hv. rewrite Hin. split; [auto|].
      intros _. apply Hdone. assumption. }
    destruct (dijkstrasLoop_rounds g (length h1) g1 g' h1 h' Hholds H)
      as (_ & (_ & _ & Hvis) & Er & order & Eo & Hperm & Hk).
    rewrite Hlen in *.
    exists g1, h1, order. split_and!; auto.
    + apply NoDup_Permutation.
      * eapply heap_wf_NoDup. eassumption.
      * apply NoDup_seq.
      * intros v. rewrite <- in_heap_elem_of, Hin, elem_of_seq. lia.
    + intros v Hv. destruct (visitedOf g' v) eqn:E; [reflexivity|].
      apply (Hvis v Hv) in E as (i & n & Hn & _). discriminate.
  - apply dijkstras_total.
Qed.

Lemma heap_empty_after_run_witness :
  exists g' g'' order,
    dijkstras two_islands [] 0 = Ok (g', []) /\
    dijkstras g' [] 2 = Ok (g'', []) /\
    order ≡ₚ seq 0 4 /\
    forall v, (v < 4)%nat -> visitedOf g' v = true.
Proof.
  destruct (heap_empty_after_run two_islands 0) as (_ & _ & Hrounds & Htotal).
  destruct (Htotal two_islands_wf two_islands_no_self_loops ltac:(vm_compute; lia))
    as (g' & Hrun & Hst).
  destruct (heap_empty_after_run g' 2) as (_ & _ & _ & Htotal').
  destruct (Htotal' (graph_wf_static _ _ Hst two_islands_wf)
              (no_self_loops_static _ _ Hst two_islands_no_self_loops)
              ltac:(rewrite (same_static_length _ _ Hst); vm_compute; lia))
    as (g'' & Hrun' & _).
  destruct (Hrounds g' [] Hrun) as (g1 & h1 & order & _ & Hall & _ & _ & Hperm & _ & Hvis).
  exists g', g'', order. split_and!; try assumption.
  rewrite Hperm. exact Hall.
Defined.

(** * More about the graph: building it and looking cities up *)

(** ** X1 *)

(** X1: [graphGetVertexNumber] returns the number of the first vertex
    that carries the name, and calls [exit(-1)] (here [None]) exactly when
    no vertex of the graph carries it. *)
Theorem lookup_first_match (g : Graph) (name : string) :
  match graphGetVertexNumber g name with
  | Some i =>
      (i < length g)%nat /\ nameOf g i = name /\
      forall j, (j < i)%nat -> nameOf g j <> name
  | None => forall v, (v < length g)%nat -> nameOf g v <> name
  end.
Proof.
  unfold graphGetVertexNumber.
  pose proof (graphGetVertexNumber_from_spec name g 0) as H.
  destruct (graphGetVertexNumber_from g 0 name) as [r|].
  - destruct H as (k & x & -> & Hx & En & Hfirst). simpl.
    pose proof (lookup_lt_Some _ _ _ Hx) as Hk.
    split_and!; [assumption | rewrite (nameOf_lookup _ _ _ Hx); assumption |].
    intros j Hj Ej.
    destruct (lookup_lt_is_Some_2 g j ltac:(lia)) as [y Hy].
    apply (Hfirst j y Hj Hy). rewrite <- (nameOf_lookup _ _ _ Hy). assumption.
  - intros v Hv Ev. apply H. rewrite <- Ev. apply nameOf_elem. assumption.
Qed.

(** ** X2 *)

(** X2: in the graph that [graphPopulateGraph] builds from the empty
    graph, [graphGetVertexNumber] knows a name exactly when a record
    mentions it; and when no record names the same city twice, looking up
    the name of a vertex gives the number of that vertex back. *)
Theorem built_cities_known (records : list (string * string * Z)) (g : Graph) :
  graphPopulateGraph [] records = Some g ->
  (forall name, is_Some (graphGetVertexNumber g name) <->
                name ∈ record_names records) /\
  (Forall (fun r => r.1.1 <> r.1.2) records ->
   forall v, (v < length g)%nat -> graphGetVertexNumber g (nameOf g v) = Some v).
Proof.
  intros H. split.
  - intros name. rewrite graphGetVertexNumber_known, (populate_names _ _ _ H).
    simpl. rewrite elem_of_nil. tauto.
  - intros Hdistinct v Hv. apply graphGetVertexNumber_unique; [|assumption].
    apply (distinct_records_unique_names records Hdistinct [] g); [|assumption].
    simpl. apply NoDup_nil_2.
Qed.

Lemma built_cities_known_witness :
  (forall name, is_Some (graphGetVertexNumber triangle name) <->
                name ∈ ["A"; "B"; "B"; "C"; "A"; "C"]%string) /\
  forall v, (v < 3)%nat -> graphGetVertexNumber triangle (nameOf triangle v) = Some v.
Proof.
  destruct (built_cities_known
              [("A", "B", 4); ("B", "C", 5); ("A", "C", 10)]%string triangle eq_refl)
    as [Hknown Hback].
  split; [exact Hknown|].
  apply Hback. repeat constructor; simpl; discriminate.
Defined.

(** ** X3 *)

(** X3: [graphPopulateGraph] calls [exit(-1)] (here [None]) exactly when
    one of the records has a distance that is zero or negative; otherwise
    every record is read and a graph is built, whatever the names are. *)
Theorem populate_exits_on_bad_distance (g : Graph)
  (records : list (string * string * Z)) :
  graphPopulateGraph g records = None <-> Exists (fun r => r.2 <= 0) records.
Proof. apply populate_exit_iff. Qed.

(** ** X4 *)

(** X4: the graph that [graphPopulateGraph] builds from the empty graph
    is undirected: every edge has its mirror image, of the same distance,
    at the vertex it leads to.  Every record has left two vertices that
    carry its two names, joined by an edge of its distance in both
    directions, and no vertex is without an edge. *)
Theorem built_graph_edges (records : list (string * string * Z)) (g : Graph) :
  graphPopulateGraph [] records = Some g ->
  undirected g /\
  (forall v, (v < length g)%nat -> edgesOf g v <> []) /\
  forall a b d, (a, b, d) ∈ records ->
    exists va vb, (va < length g)%nat /\ (vb < length g)%nat /\
      nameOf g va = a /\ nameOf g vb = b /\
      mkEdge va vb d ∈ edgesOf g va /\ mkEdge vb va d ∈ edgesOf g vb.
Proof.
  intros H. split_and!.
  - apply (populate_undirected records [] g H). intros v e He. inversion He.
  - apply (populate_no_isolated records [] g H). intros v Hv. simpl in Hv. lia.
  - apply (populate_record_edges records [] g H).
Qed.

Lemma built_graph_edges_witness :
  undirected triangle /\
  (forall v, (v < 3)%nat -> edgesOf triangle v <> []) /\
  forall a b d, (a, b, d) ∈ [("A", "B", 4); ("B", "C", 5); ("A", "C", 10)]%string ->
    exists va vb, (va < 3)%nat /\ (vb < 3)%nat /\
      nameOf triangle va = a /\ nameOf triangle vb = b /\
      mkEdge va vb d ∈ edgesOf triangle va /\ mkEdge vb va d ∈ edgesOf triangle vb.
Proof.
  exact (built_graph_edges
           [("A", "B", 4); ("B", "C", 5); ("A", "C", 10)]%string triangle eq_refl).
Defined.

(** * More about the heap: its entries *)

(** ** X5 *)

(** X5: on a heap whose flags and positions agree with the array, be it
    ordered or not, [minHeapEnqueue] adds one entry, the vertex with its
    distance, [minHeapDequeue] takes the entry of slot 0 away, and
    [minHeapDecreaseNodeValue] gives the entry of the vertex the distance
    of the vertex as its value; the other entries come out as they went
    in, each once, and nothing but [positionInHeap] changes in the
    graph. *)
Theorem heap_entries_kept (g : Graph) (h : MinHeap) :
  heap_wf g h ->
  (forall v x, g !! v = Some x -> ~ in_heap h v ->
     exists g' h', minHeapEnqueue g h v = Ok (g', h') /\
       same_but_position g g' /\
       payload <$> h' ≡ₚ (payload <$> h) ++ [(distanceFromSource x, v)]) /\
  (forall top rest, h = top :: rest ->
     exists g' h', minHeapDequeue g h = Ok (vertex top, (g', h')) /\
       same_but_position g g' /\
       payload <$> h' ≡ₚ payload <$> rest) /\
  (forall v x k n, g !! v = Some x -> h !! k = Some n -> vertex n = v ->
     exists g' h', minHeapDecreaseNodeValue g h v = Ok (g', h') /\
       same_but_position g g' /\
       payload <$> h' ≡ₚ payload <$> <[k := nodeSetValue (distanceFromSource x) n]> h).
Proof.
  intros Hwf. pose proof (heap_wf_NoDup g h Hwf) as Hnd. split_and!.
  - intros v x Hx Hnot.
    destruct (minHeapEnqueue_spec g h v x Hwf Hx Hnot)
      as (g' & h' & E & Hwf' & F & _ & Sa & Sb & _).
    exists g', h'. split_and!; [assumption..|].
    assert (payload <$> h' ≡ₚ
            payload <$> (h ++ [nodeConstructor (Z.of_nat (length h)) x v])) as Hp.
    { apply payloads_perm; try assumption; [|eapply heap_wf_NoDup; eassumption].
      rewrite fmap_app. simpl.
      apply NoDup_app. split_and!; [assumption | | apply NoDup_singleton].
      intros w Hw Hwv. apply list_elem_of_singleton in Hwv. subst w.
      apply Hnot. apply in_heap_elem_of. assumption. }
    rewrite Hp, fmap_app. reflexivity.
  - intros top rest ->.
    destruct (minHeapDequeue_spec g (top :: rest) top Hwf eq_refl)
      as (g' & h' & E & Hwf' & F & _ & Sa & Sb & _).
    exists g', h'. split_and!; [assumption..|]. simpl in Sa, Sb. rewrite drop_0 in Sa, Sb.
    apply payloads_perm; try assumption; [|eapply heap_wf_NoDup; eassumption].
    simpl in Hnd. apply NoDup_cons in Hnd. apply Hnd.
  - intros v x k n Hx Hn Hv.
    destruct (minHeapDecreaseNodeValue_spec g h v x k n Hwf Hx Hn Hv)
      as (g' & h' & E & Hwf' & F & _ & Sa & Sb & _).
    exists g', h'. split_and!; [assumption..|].
    apply payloads_perm; try assumption; [|eapply heap_wf_NoDup; eassumption].
    rewrite list_fmap_insert. simpl. rewrite list_insert_id; [assumption|].
    rewrite list_lookup_fmap, Hn. reflexivity.
Qed.

Lemma heap_entries_kept_witness :
  (exists g' h', minHeapEnqueue small_graph small_heap 3 = Ok (g', h') /\
     same_but_position small_graph g' /\
     payload <$> h' ≡ₚ [(1, 0%nat); (4, 1%nat); (2, 2%nat); (3, 3%nat)]) /\
  (exists g' h', minHeapDequeue small_graph small_heap = Ok (0%nat, (g', h')) /\
     same_but_position small_graph g' /\
     payload <$> h' ≡ₚ [(4, 1%nat); (2, 2%nat)]) /\
  (exists g' h', minHeapDecreaseNodeValue small_graph small_heap 1 = Ok (g', h') /\
     same_but_position small_graph g' /\
     payload <$> h' ≡ₚ [(1, 0%nat); (0, 1%nat); (2, 2%nat)]).
Proof.
  destruct (heap_entries_kept small_graph small_heap small_heap_wf)
    as (Henq & Hdeq & Hdec).
  split; [|split].
  - exact (Henq 3%nat (mkVertex 3 "D" [] None 3 (-1) false) eq_refl
             small_heap_without_D).
  - exact (Hdeq (mkNode 1 0 true true 0) _ eq_refl).
  - exact (Hdec 1%nat (mkVertex 1 "B" [] None 0 1 false) 1%nat
             (mkNode 4 1 false false 1) eq_refl eq_refl eq_refl).
Defined.

(** ** X6 *)

(** X6: taking the minimum off a heap, whose flags and positions agree
    with the array, until it is empty returns every entry of the heap,
    vertex and value, once: none is lost on the way and none comes
    twice. *)
Theorem drain_returns_entries (g : Graph) (h : MinHeap) :
  heap_wf g h ->
  exists out,
    drain (length h) g h = Ok out /\
    (fun p : nat * Z => (p.2, p.1)) <$> out ≡ₚ payload <$> h.
Proof. intros Hwf. apply drain_perm; [assumption | lia]. Qed.

Lemma drain_returns_entries_witness :
  exists out,
    drain 3 small_graph small_heap = Ok out /\
    (fun p : nat * Z => (p.2, p.1)) <$> out ≡ₚ [(1, 0%nat); (4, 1%nat); (2, 2%nat)].
Proof. exact (drain_returns_entries small_graph small_heap small_heap_wf). Defined.

(** * More about the runs and the queries *)

Lemma loop_town_wf : graph_wf loop_town.
Proof. apply built_wf. repeat constructor; simpl; unfold INT_MAX; lia. Qed.

Lemma triangle_no_self_loops : no_self_loops triangle.
Proof.
  intros v e He.
  do 3 (destruct v as [|v];
        [apply elem_of_cons in He as [->|He];
           [simpl; lia | apply list_elem_of_singleton in He; subst e; simpl; lia]|]).
  inversion He.
Qed.

Lemma triangle_undirected : undirected triangle.
Proof.
  apply (populate_undirected [("A", "B", 4); ("B", "C", 5); ("A", "C", 10)]%string
           [] triangle eq_refl).
  intros v e He. inversion He.
Qed.

Lemma triangle_reachable (v : nat) : (v < 3)%nat -> reachable triangle 0 v.
Proof.
  intros Hv. destruct v as [|[|[|v]]]; [| | |lia].
  - constructor.
  - apply (reach_edge triangle 0 0 (mkEdge 0 1 4) (reach_source _ _)).
    vm_compute. left.
  - apply (reach_edge triangle 0 0 (mkEdge 0 2 10) (reach_source _ _)).
    vm_compute. right. left.
Qed.

Lemma graphGetVertexNumber_lt (g : Graph) (name : string) (i : nat) :
  graphGetVertexNumber g name = Some i -> (i < length g)%nat.
Proof.
  unfold graphGetVertexNumber. intros H.
  pose proof (graphGetVertexNumber_from_spec name g 0) as Hs. rewrite H in Hs.
  destruct Hs as (k & x & -> & Hx & _). simpl. eapply lookup_lt_Some. eassumption.
Qed.

(** A batch on a graph without self-loops: every pair is answered, up to
    the first one with a name that no vertex carries. *)
Lemma query_batch (g : Graph) (pairs : list (string * string)) :
  graph_wf g -> no_self_loops g ->
  exists out r,
    fastestRoute g [] pairs "" = Ok (out, r) /\
    (r = None <->
     Exists (fun p => graphGetVertexNumber g p.1 = None \/
                      graphGetVertexNumber g p.2 = None) pairs).
Proof.
  intros Hwf Hloops.
  assert (forall (g2 : Graph) (written : string), same_static g g2 ->
            exists out r,
              fastestRoute g2 [] pairs written = Ok (out, r) /\
              (r = None <->
               Exists (fun p => graphGetVertexNumber g p.1 = None \/
                                graphGetVertexNumber g p.2 = None) pairs)) as H.
  { induction pairs as [|[a b] pairs IH]; intros g2 written Hst.
    - exists written, (Some (g2, [])). split; [reflexivity|].
      split; [discriminate | intros H; inversion H].
    - rewrite fastestRoute_eq, !(graphGetVertexNumber_static g g2) by assumption.
      destruct (graphGetVertexNumber g a) as [va|] eqn:Ea.
      2:{ exists written, None. split; [reflexivity|]. split; [|reflexivity].
          intros _. left. simpl. auto. }
      destruct (graphGetVertexNumber g b) as [vb|] eqn:Eb.
      2:{ exists written, None. split; [reflexivity|]. split; [|reflexivity].
          intros _. left. simpl. auto. }
      pose proof (same_static_length _ _ Hst) as L.
      apply graphGetVertexNumber_lt in Ea as Hva.
      apply graphGetVertexNumber_lt in Eb as Hvb.
      destruct (query_total g2 va vb (graph_wf_static _ _ Hst Hwf)
                  (no_self_loops_static _ _ Hst Hloops) ltac:(lia) ltac:(lia))
        as (g' & text & Hrun & Hst' & _ & Hw).
      rewrite Hrun. step. simpl. rewrite Hw. step.
      destruct (IH g' (written ++ text)%string) as (out & r & E & Hr).
      { eapply same_static_trans; eassumption. }
      exists out, r. split; [assumption|].
      rewrite Hr, Exists_cons. simpl. rewrite Ea, Eb.
      split; [auto | intros [[?|?]|?]; [discriminate.. | assumption]]. }
  apply H. apply same_static_refl.
Qed.

(** ** X7 *)

(** X7: the reset at the start of [dijkstras] leaves nothing of an
    earlier run: a run that follows another one, on the graph and the
    heap that it has left, gives the very result of the same run on the
    graph as it was built. *)
Theorem rerun_independent (g : Graph) (s1 s2 : nat) (g1 : Graph) (h1 : MinHeap) :
  dijkstras g [] s1 = Ok (g1, h1) -> dijkstras g1 h1 s2 = dijkstras g [] s2.
Proof.
  intros H. pose proof (dijkstras_static _ _ _ _ H) as Hst.
  assert (h1 = []) as ->.
  { unfold dijkstras in H. inv_bind H as r Hr. destruct r as [gr hr].
    eapply dijkstrasLoop_empty. eassumption. }
  symmetry. apply dijkstras_static_only. assumption.
Qed.

Lemma rerun_independent_witness :
  dijkstras two_islands_after [] 2 = dijkstras two_islands [] 2.
Proof. exact (rerun_independent two_islands 0 2 two_islands_after [] two_islands_run). Defined.

(** ** X8 *)

(** X8: on a graph whose edges have positive distances and in which
    [numberOfCities] times the largest distance of an edge stays below
    [INT_MAX], the distance that a run from [s] records for a vertex [d]
    that can be reached is the length of a shortest route: some route of
    the graph from [s] to [d] has that length, and none is shorter.  On a
    graph without self-loops the run returns. *)
Theorem shortest_distance (g : Graph) (s d : nat) :
  graph_wf g -> (s < length g)%nat ->
  Z.of_nat (length g) * max_weight g < INT_MAX ->
  reachable g s d ->
  (no_self_loops g -> exists g', dijkstras g [] s = Ok (g', [])) /\
  forall g' h', dijkstras g [] s = Ok (g', h') ->
    (exists path, chain g s d path (distOf g' d)) /\
    forall path len, chain g s d path len -> distOf g' d <= len.
Proof.
  intros Hwf Hs Hbound Hreach. split.
  - intros Hloops. destruct (dijkstras_total g s Hwf Hloops Hs) as (g' & E & _).
    eauto.
  - intros g' h' Hrun. eapply run_shortest; eassumption.
Qed.

Lemma shortest_distance_witness :
  exists g',
    dijkstras triangle [] 0 = Ok (g', []) /\
    distOf g' 2 = 9 /\
    (exists path, chain triangle 0 2 path (distOf g' 2)) /\
    forall path len, chain triangle 0 2 path len -> distOf g' 2 <= len.
Proof.
  destruct (shortest_distance triangle 0 2 triangle_wf ltac:(vm_compute; lia)
              ltac:(vm_compute; reflexivity) (triangle_reachable 2 ltac:(lia)))
    as [Htotal Hshort].
  assert (exists g', dijkstras triangle [] 0 = Ok (g', []) /\ distOf g' 2 = 9)
    as (g' & Hrun & Hd) by (eexists; split; vm_compute; reflexivity).
  exists g'. split; [exact Hrun|]. split; [exact Hd|]. exact (Hshort g' [] Hrun).
Defined.

(** ** X9 *)

(** X9: in an undirected graph within the same bound, the distance that
    a run from [s] records for [d] is the distance that a run from [d]
    records for [s], for every [d] that can be reached from [s]. *)
Theorem distance_symmetric (g : Graph) (s d : nat) (g1 g2 : Graph) (h1 h2 : MinHeap) :
  graph_wf g -> undirected g ->
  Z.of_nat (length g) * max_weight g < INT_MAX ->
  (s < length g)%nat -> (d < length g)%nat -> reachable g s d ->
  dijkstras g [] s = Ok (g1, h1) -> dijkstras g [] d = Ok (g2, h2) ->
  distOf g1 d = distOf g2 s.
Proof.
  intros Hwf Hund Hbound Hs Hd Hreach Hrun1 Hrun2.
  pose proof (reachable_sym g s d Hund Hreach) as Hback.
  destruct (run_shortest g s d g1 h1 Hwf Hs Hbound Hrun1 Hreach)
    as [(path1 & Hc1) Hmin1].
  destruct (run_shortest g d s g2 h2 Hwf Hd Hbound Hrun2 Hback)
    as [(path2 & Hc2) Hmin2].
  pose proof (Hmin2 _ _ (chain_rev g s d path1 _ Hund Hc1)).
  pose proof (Hmin1 _ _ (chain_rev g d s path2 _ Hund Hc2)).
  lia.
Qed.

Lemma distance_symmetric_witness :
  exists g1 g2,
    dijkstras triangle [] 0 = Ok (g1, []) /\ dijkstras triangle [] 2 = Ok (g2, []) /\
    distOf g1 2 = distOf g2 0.
Proof.
  assert (exists g1, dijkstras triangle [] 0 = Ok (g1, [])) as [g1 Hrun1]
    by (eexists; vm_compute; reflexivity).
  assert (exists g2, dijkstras triangle [] 2 = Ok (g2, [])) as [g2 Hrun2]
    by (eexists; vm_compute; reflexivity).
  exists g1, g2. split; [exact Hrun1|]. split; [exact Hrun2|].
  apply (distance_symmetric triangle 0 2 g1 g2 [] [] triangle_wf triangle_undirected
           ltac:(vm_compute; reflexivity) ltac:(vm_compute; lia) ltac:(vm_compute; lia)
           (triangle_reachable 2 ltac:(lia)) Hrun1 Hrun2).
Defined.

(** ** X10 *)

(** X10: on a graph within the bound all of whose vertices can be
    reached from the source, self-loops or not, the run returns with an
    empty heap, and every vertex holds a distance from 0 up to, but not
    including, the sentinel; the source has no predecessor, and every
    other vertex has one, an edge from which accounts for its distance. *)
Theorem connected_run (g : Graph) (s : nat) :
  graph_wf g -> (s < length g)%nat ->
  Z.of_nat (length g) * max_weight g < INT_MAX ->
  (forall v, (v < length g)%nat -> reachable g s v) ->
  exists g', dijkstras g [] s = Ok (g', []) /\ same_static g g' /\
    forall v, (v < length g)%nat ->
      0 <= distOf g' v < INT_MAX /\
      match prevOf g' v with
      | None => v = s /\ distOf g' v = 0
      | Some p =>
          (p < length g)%nat /\
          exists e, e ∈ edgesOf g p /\ edge_end e = v /\
                    distOf g' v = distOf g' p + edge_distance e
      end.
Proof.
  intros Hwf Hs Hbound Hconn.
  destruct (dijkstras_connected g s (max_weight g) Hwf Hs (max_weight_nonneg g)
              (max_weight_edge g) Hbound Hconn) as (g' & E & Hst & _ & _ & Hall).
  exists g'. split; [assumption|]. split; [assumption|].
  intros v Hv. destruct (Hall v Hv) as (_ & Hd & Hp). split; [assumption|].
  destruct (prevOf g' v) as [p|]; assumption.
Qed.

Lemma connected_run_witness :
  exists g', dijkstras loop_town [] 0 = Ok (g', []) /\ same_static loop_town g' /\
    forall v, (v < 2)%nat ->
      0 <= distOf g' v < INT_MAX /\
      match prevOf g' v with
      | None => v = 0%nat /\ distOf g' v = 0
      | Some p =>
          (p < 2)%nat /\
          exists e, e ∈ edgesOf loop_town p /\ edge_end e = v /\
                    distOf g' v = distOf g' p + edge_distance e
      end.
Proof.
  apply (connected_run loop_town 0 loop_town_wf).
  - vm_compute. lia.
  - vm_compute. reflexivity.
  - intros v Hv. destruct v as [|[|v]].
    + constructor.
    + apply (reach_edge loop_town 0 0 (mkEdge 0 1 1) (reach_source _ _)).
      vm_compute. left.
    + vm_compute in Hv. lia.
Defined.

(** ** X11 *)

(** X11: on a graph without self-loops within the bound, the run
    returns, and the vertices that can be reached from the source are
    those that end with a distance from 0 up to, but not including, the
    sentinel: a vertex that cannot be reached ends at the sentinel or with
    a negative distance. *)
Theorem reached_iff_distance (g : Graph) (s : nat) :
  graph_wf g -> no_self_loops g -> (s < length g)%nat ->
  Z.of_nat (length g) * max_weight g < INT_MAX ->
  exists g', dijkstras g [] s = Ok (g', []) /\
    forall d, (d < length g)%nat ->
      (reachable g s d <-> 0 <= distOf g' d < INT_MAX) /\
      (~ reachable g s d -> distOf g' d = INT_MAX \/ INT_MIN <= distOf g' d < 0).
Proof.
  intros Hwf Hloops Hs Hbound.
  set (W := max_weight g) in *.
  pose proof (max_weight_nonneg g) as HW0. fold W in HW0.
  pose proof (max_weight_edge g) as HW. fold W in HW.
  destruct (dijkstrasReset_spec g s Hs) as ([g1 h1] & E1 & Hinv).
  pose proof (reset_phase1 g s W Hs HW0 g1 h1 Hinv) as Hp1.
  assert (front_inv g g1) as Hf1.
  { destruct Hinv as (_ & _ & _ & _ & _ & _ & _ & Hdone). simpl in *.
    assert (forall v, visitedOf g1 v = false) as Hnv.
    { intros v. destruct (decide (v < length g)%nat) as [Hv|Hv].
      - apply Hdone. assumption.
      - apply visitedOf_out. destruct Hp1 as [[Hst _ _ _ _ _ _ _ _] _ _].
        rewrite (same_static_length _ _ Hst). lia. }
    constructor; intros v ? Hv; rewrite Hnv in Hv; discriminate. }
  destruct (phase1_prefix_with g s W Hwf Hs HW0 HW Hbound
              (fun ga ha => exists rank k, order_inv g ga ha rank k))
    with (fuel := length h1) (g := g1) (h := h1)
    as (gm & hm & fuel' & Hpm & _ & (rank & k & Hord) & Hstop & Hfuel & Eloop);
    try assumption.
  { intros ga ha gb hb (rank & k & Hord) Hne E.
    destruct (dijkstrasRound_order g Hwf Hloops ga ha rank k Hord Hne)
      as (gb' & hb' & u & E' & Hord').
    rewrite E in E'. inversion E'; subst. eauto. }
  { exists (fun _ => 0%nat), 0%nat. apply (reset_order g s). assumption. }
  { lia. }
  pose proof (phase1_settled g s W Hwf Hs gm hm Hpm Hstop) as Hset.
  set (V := fun v => (v < length g)%nat /\ visitedOf gm v = true) in *.
  assert (unreached_inv g W V k gm) as Hun.
  { intros w Hw HVw. left.
    destruct Hpm as [[Hst _ Hordh Hmir Hrange _ _ _ _] Hvis _].
    assert (visitedOf gm w = false) as Hvw.
    { destruct (visitedOf gm w) eqn:Evw; [|reflexivity].
      exfalso. apply HVw. split; assumption. }
    apply (Hvis w Hw) in Hvw as (i & n & Hn & En).
    destruct (lookup_lt_is_Some_2 hm 0%nat) as [top Ht].
    { apply lookup_lt_Some in Hn. lia. }
    pose proof (heap_root_min hm top Hordh Ht i n Hn).
    specialize (Hstop top Ht).
    destruct (Hmir _ _ Hn) as (x & Hx & Vx). rewrite En in Hx.
    pose proof (Hrange w) as Hr. rewrite (distOf_lookup _ _ _ Hx) in *. lia. }
  destruct (dijkstrasLoop_unreached g W V Hwf Hloops HW0 HW Hbound fuel' gm hm rank k
              Hord Hfuel ltac:(intros v [_ Hv]; exact Hv) Hun)
    as (g' & k' & Eloop' & Hk' & Hun').
  exists g'. split.
  { unfold dijkstras. rewrite E1. step. rewrite Eloop. exact Eloop'. }
  apply dijkstrasLoop_frame in Eloop' as Hkept.
  assert (same_static g gm) as Hstm by apply Hpm.
  assert (settled g s g' V) as Hset'.
  { eapply (settled_kept g s Hs gm g'); [| exact Hkept | exact Hset].
    intros v [_ Hv]. exact Hv. }
  assert (same_static g g') as Hst'.
  { eapply same_static_trans; [exact Hstm | apply Hkept]. }
  intros d Hd.
  assert (V d -> reachable g s d) as Hreach.
  { intros Vd.
    destruct (settled_route g s g' V Hwf Hst' Hset' _ d Vd eq_refl)
      as (init & Hc & _).
    apply reachable_chain. eauto. }
  assert (~ V d -> distOf g' d = INT_MAX \/ INT_MIN <= distOf g' d < 0) as Hout.
  { intros HnV. destruct (Hun' d Hd HnV) as [E|E]; [left; exact E|].
    right. unfold INT_MIN, INT_MAX in *. nia. }
  assert (V d \/ ~ V d) as HVd.
  { unfold V. destruct (visitedOf gm d); [left; auto | right; intros [_ ?]; discriminate]. }
  split; [split|].
  - intros Hr. pose proof (settled_reachable g s g' V Hset' d Hr) as Vd.
    destruct Hset' as (_ & _ & Hall). apply (Hall d Vd).
  - intros Hrange. destruct HVd as [Vd|HnV]; [auto|].
    exfalso. destruct (Hout HnV); unfold INT_MIN, INT_MAX in *; lia.
  - intros Hnr. destruct HVd as [Vd|HnV]; [|auto].
    exfalso. auto.
Qed.

Lemma reached_iff_distance_witness :
  exists g', dijkstras two_islands [] 0 = Ok (g', []) /\
    forall d, (d < 4)%nat ->
      (reachable two_islands 0 d <-> 0 <= distOf g' d < INT_MAX) /\
      (~ reachable two_islands 0 d ->
       distOf g' d = INT_MAX \/ INT_MIN <= distOf g' d < 0).
Proof.
  apply (reached_iff_distance two_islands 0 two_islands_wf two_islands_no_self_loops).
  - vm_compute. lia.
  - vm_compute. reflexivity.
Defined.

(** ** X12 *)

(** X12: on a graph without self-loops whose edges have positive
    distances, whatever they are, a query between two vertices of the
    graph is answered: the run returns with an empty heap and every vertex
    visited, and the loop of [dijkstrasWriteToFile] that follows the
    predecessors ends, so that a text is written. *)
Theorem query_always_answered (g : Graph) (s d : nat) :
  graph_wf g -> no_self_loops g -> (s < length g)%nat -> (d < length g)%nat ->
  exists g' text,
    dijkstras g [] s = Ok (g', []) /\ same_static g g' /\
    (forall v, (v < length g)%nat -> visitedOf g' v = true) /\
    dijkstrasWriteToFile g' s d = Ok text.
Proof. apply query_total. Qed.

Lemma query_always_answered_witness :
  exists g' text,
    dijkstras two_islands [] 0 = Ok (g', []) /\ same_static two_islands g' /\
    (forall v, (v < 4)%nat -> visitedOf g' v = true) /\
    dijkstrasWriteToFile g' 0 3 = Ok text.
Proof.
  apply (query_always_answered two_islands 0 3 two_islands_wf
           two_islands_no_self_loops); vm_compute; lia.
Defined.

(** ** X13 *)

(** X13: the answer to a query of a batch does not depend on the queries
    before it: when [fastestRoute] has answered all the pairs, what it has
    written is what it writes for the pairs but the last, followed by what
    it writes for the last pair alone on the graph as it was built, and
    the state it leaves is the state that this one query leaves. *)
Theorem batch_last_query (g : Graph) (pairs : list (string * string))
  (a b out : string) (st : Graph * MinHeap) :
  fastestRoute g [] (pairs ++ [(a, b)]) "" = Ok (out, Some st) ->
  exists before st0 text,
    fastestRoute g [] pairs "" = Ok (before, Some st0) /\
    fastestRoute g [] [(a, b)] "" = Ok (text, Some st) /\
    out = (before ++ text)%string.
Proof.
  intros H. rewrite fastestRoute_app in H. inv_bind H as r Hr.
  destruct r as [before [[g1 h1]|]]; cbn [fst snd] in H; [|discriminate].
  destruct (fastestRoute_frame _ _ _ _ _ _ Hr) as [Hst ->].
  rewrite (fastestRoute_static g g1) in H by (assumption || discriminate).
  rewrite fastestRoute_written in H. inv_bind H as r2 Hr2.
  destruct r2 as [text r2]. simpl in H. inversion H; subst.
  exists before, (g1, []), text. auto.
Qed.

Lemma batch_last_query_witness :
  exists out st before st0 text,
    fastestRoute two_islands []
      (app [("A"%string, "B"%string)] [("C"%string, "D"%string)]) "" =
      Ok (out, Some st) /\
    fastestRoute two_islands [] [("A", "B")]%string "" = Ok (before, Some st0) /\
    fastestRoute two_islands [] [("C", "D")]%string "" = Ok (text, Some st) /\
    out = (before ++ text)%string.
Proof.
  assert (exists out st,
            fastestRoute two_islands []
      (app [("A"%string, "B"%string)] [("C"%string, "D"%string)]) "" =
            Ok (out, Some st)) as (out & st & Hrun)
    by (eexists _, _; vm_compute; reflexivity).
  destruct (batch_last_query two_islands [("A", "B")]%string "C" "D" out st Hrun)
    as (before & st0 & text & H1 & H2 & H3).
  exists out, st, before, st0, text. auto.
Defined.

(** ** X14 *)



(** ** X15 *)

(** X15: [dijkstrasPrintResult] takes every vertex whose distance is not
    0 to have a predecessor, and reads its name through the pointer: it
    prints its table exactly when every vertex has the distance 0 or a
    predecessor, and reads through [NULL] otherwise, as it does for a
    vertex that a run has left at the sentinel. *)
Theorem print_result_needs_predecessors (g : Graph) :
  (forall v p, prevOf g v = Some p -> (p < length g)%nat) ->
  (exists text, dijkstrasPrintResult g = Ok text) <->
  forall v, (v < length g)%nat -> distOf g v = 0 \/ prevOf g v <> None.
Proof.
  intros Hp. unfold dijkstrasPrintResult.
  match goal with
  | |- (exists text, (table ← forEach ?body ?header ?l; _) = Ok text) <-> _ =>
      assert ((exists text, (table ← forEach body header l; Ok (table ++ nl)%string)
                            = Ok text) <->
              exists table, forEach body header l = Ok table) as ->
  end.
  { split.
    - intros [text H]. inv_bind H as table Ht. eauto.
    - intros [table Ht]. rewrite Ht. step. eauto. }
  rewrite (forEach_lines (printResultLine g)). split.
  - intros H v Hv. destruct (H v) as [line Hline]; [apply elem_of_seq; lia|].
    apply (proj1 (printResultLine_ok g v (Hp v))). eauto.
  - intros H i Hi. apply elem_of_seq in Hi.
    apply (proj2 (printResultLine_ok g i (Hp i))). split; [lia|]. apply H. lia.
Qed.

Lemma print_result_needs_predecessors_witness :
  ~ exists text, dijkstrasPrintResult two_islands_after = Ok text.
Proof.
  intros H.
  assert (forall v p, prevOf two_islands_after v = Some p ->
                      (p < length two_islands_after)%nat) as Hp.
  { intros v p Hv.
    do 4 (destruct v as [|v];
          [vm_compute in Hv; try discriminate; inversion Hv; vm_compute; lia|]).
    discriminate. }
  pose proof (proj1 (print_result_needs_predecessors two_islands_after Hp) H) as Hall.
  destruct (Hall 2%nat ltac:(vm_compute; lia)) as [E|E].
  - vm_compute in E. discriminate.
  - apply E. reflexivity.
Defined.

(** ** X16 *)

(** X16: the program as a whole comes to an end on every input whose
    names fit the buffers they are read into (fewer than [STRING_SIZE]
    bytes) and whose records name two different cities each, with
    distances that are [int]s: it builds the graph and answers every pair,
    and leaves through [exit(-1)] (here [None] for the state) exactly when
    a record has a distance that is zero or negative, or a pair has a name
    that no record mentions. *)
Theorem program_always_ends (records : list (string * string * Z))
  (pairs : list (string * string)) :
  Forall (fun r => r.1.1 <> r.1.2 /\ r.2 <= INT_MAX /\
                   (String.length r.1.1 < STRING_SIZE)%nat /\
                   (String.length r.1.2 < STRING_SIZE)%nat) records ->
  Forall (fun p => (String.length p.1 < STRING_SIZE)%nat /\
                   (String.length p.2 < STRING_SIZE)%nat) pairs ->
  exists out r,
    mainProgram records pairs = Ok (out, r) /\
    (r = None <->
     Exists (fun r => r.2 <= 0) records \/
     Exists (fun p => p.1 ∉ record_names records \/ p.2 ∉ record_names records)
       pairs).
Proof.
  intros Hall Hfit. unfold mainProgram, graphConstructor, minHeapConstructor.
  rewrite graphPopulateGraphFile_fits
    by (eapply Forall_impl; [exact Hall|]; simpl; tauto).
  step.
  destruct (graphPopulateGraph [] records) as [g|] eqn:Eg.
  - rewrite (fastestRouteFile_fits pairs Hfit).
    assert (graph_wf g) as Hwf.
    { eapply graphPopulateGraph_wf; [apply graph_wf_nil | | exact Eg].
      eapply Forall_impl; [exact Hall|]. simpl. tauto. }
    assert (no_self_loops g) as Hloops.
    { eapply (populate_no_self_loops records []); [| exact Eg |].
      - eapply Forall_impl; [exact Hall|]. simpl. tauto.
      - intros v e He. inversion He. }
    assert (forall name, graphGetVertexNumber g name = None <->
                         name ∉ record_names records) as Hknown.
    { intros name.
      rewrite eq_None_not_Some, graphGetVertexNumber_known,
        (populate_names records [] g Eg name).
      simpl. rewrite elem_of_nil. tauto. }
    destruct (query_batch g pairs Hwf Hloops) as (out & r & E & Hr).
    exists out, r. split; [assumption|]. rewrite Hr. split.
    + intros Hex. right. eapply Exists_impl; [exact Hex|]. simpl.
      intros p. rewrite !Hknown. tauto.
    + intros [Hbad|Hex].
      * apply populate_exit_iff with (g := []) in Hbad. congruence.
      * eapply Exists_impl; [exact Hex|]. simpl. intros p. rewrite !Hknown. tauto.
  - exists EmptyString, None. split; [reflexivity|]. split; [|reflexivity].
    intros _. left. apply (populate_exit_iff records []). assumption.
Qed.

Lemma program_always_ends_witness :
  exists out r,
    mainProgram [("A", "B", 4); ("B", "C", 5); ("A", "C", 10)]%string
      [("A"%string, "C"%string); ("C"%string, "B"%string)] = Ok (out, r) /\
    (r = None <->
     Exists (fun r => r.2 <= 0) [("A", "B", 4); ("B", "C", 5); ("A", "C", 10)]%string \/
     Exists (fun p => p.1 ∉ record_names [("A", "B", 4); ("B", "C", 5); ("A", "C", 10)]%string \/
                      p.2 ∉ record_names [("A", "B", 4); ("B", "C", 5); ("A", "C", 10)]%string)
       [("A"%string, "C"%string); ("C"%string, "B"%string)]).
Proof.
  apply (program_always_ends [("A", "B", 4); ("B", "C", 5); ("A", "C", 10)]%string
           [("A"%string, "C"%string); ("C"%string, "B"%string)]).
  - repeat constructor; simpl; (discriminate || (unfold INT_MAX, STRING_SIZE; lia)).
  - repeat constructor; simpl; unfold STRING_SIZE; lia.
Defined.

(** ** X17 *)

(** X17: a query from a city to itself is answered with the distance 0
    and a route that is the name of the city alone, on every graph whose
    edges have positive distances, self-loops at the city included. *)
Theorem self_query (g : Graph) (s : nat) (g' : Graph) (h' : MinHeap) :
  graph_wf g -> dijkstras g [] s = Ok (g', h') ->
  dijkstrasWriteToFile g' s s =
  Ok (nameOf g s ++ " to " ++ nameOf g s ++ " is 0km" ++ nl ++ nl
        ++ "Route:" ++ nl
        ++ nameOf g s ++ nl ++ nl ++ nl ++ nl)%string.
Proof.
  intros Hwf Hrun.
  pose proof (dijkstras_static _ _ _ _ Hrun) as Hst.
  pose proof (same_static_length _ _ Hst) as Lg.
  destruct (dijkstras_source g g' h' s Hwf Hrun) as [Hd Hp].
  apply dijkstras_inv in Hrun as (Hs & _).
  destruct (lookup_lt_is_Some_2 g' s ltac:(lia)) as [xs Hxs].
  unfold dijkstrasWriteToFile, graphGetVertex. rewrite Hxs. step.
  rewrite routeLoop_eq. unfold graphGetVertex. rewrite Hxs. step.
  rewrite <- (prevOf_lookup _ _ _ Hxs), Hp. step.
  rewrite <- (distOf_lookup _ _ _ Hxs), Hd.
  rewrite <- (nameOf_lookup _ _ _ Hxs), (same_static_nameOf _ _ _ Hst).
  replace (showInt 0) with "0"%string by (vm_compute; reflexivity).
  cbn [printRoute rev app]. rewrite !string_app_assoc. reflexivity.
Qed.

Lemma self_query_witness :
  exists g',
    dijkstras loop_town [] 1 = Ok (g', []) /\
    dijkstrasWriteToFile g' 1 1 =
    Ok ("B to B is 0km" ++ nl ++ nl ++ "Route:" ++ nl ++ "B" ++ nl ++ nl ++ nl ++ nl)%string.
Proof.
  assert (exists g', dijkstras loop_town [] 1 = Ok (g', [])) as [g' Hrun]
    by (eexists; vm_compute; reflexivity).
  exists g'. split; [exact Hrun|].
  exact (self_query loop_town 1 g' [] loop_town_wf Hrun).
Defined.

(** * More about the heap: the order of its values *)

(** ** X18 *)

(** X18: on a heap whose values are distances (0 .. INT_MAX),
    whose child flags and recorded positions agree with the occupancy of
    the array ([heap_wf]) and which is a min-heap ([heap_ordered]), each of
    [minHeapEnqueue] (of a vertex that is not in the heap, with a distance
    in that range), [minHeapDequeue] (of a non-empty heap) and
    [minHeapDecreaseNodeValue] (of a vertex that is in the heap and whose
    distance is at most the value of its entry) returns, and returns a heap
    of the same kind. *)
Theorem heap_invariant_preserved (g : Graph) (h : MinHeap) :
  heap_wf g h -> heap_ordered h -> heap_range h ->
  (forall v x, g !! v = Some x -> ~ in_heap h v ->
     0 <= distanceFromSource x <= INT_MAX ->
     exists g' h', minHeapEnqueue g h v = Ok (g', h') /\
       heap_wf g' h' /\ heap_ordered h' /\ heap_range h') /\
  (forall top, h !! 0%nat = Some top ->
     exists g' h', minHeapDequeue g h = Ok (vertex top, (g', h')) /\
       heap_wf g' h' /\ heap_ordered h' /\ heap_range h') /\
  (forall v x k n, g !! v = Some x -> h !! k = Some n -> vertex n = v ->
     0 <= distanceFromSource x <= value n ->
     exists g' h', minHeapDecreaseNodeValue g h v = Ok (g', h') /\
       heap_wf g' h' /\ heap_ordered h' /\ heap_range h').
Proof.
  intros Hwf Hord Hrange. split_and!.
  - intros v x Hx Hnot Hd.
    destruct (minHeapEnqueue_spec g h v x Hwf Hx Hnot)
      as (g' & h' & E & Hwf' & _ & _ & _ & Hsub & Hord').
    exists g', h'. split_and!; auto.
    apply (heap_range_sub _ _ Hsub). intros i n Hn.
    destruct (decide (i < length h)%nat) as [Hi|Hi].
    + rewrite lookup_app_l in Hn by assumption. eauto.
    + apply lookup_lt_Some in Hn as Hlt. rewrite length_app in Hlt. simpl in Hlt.
      assert (i = length h) as -> by lia.
      rewrite list_lookup_middle in Hn by reflexivity.
      inversion Hn; subst n. simpl. assumption.
  - intros top Htop.
    destruct (minHeapDequeue_spec g h top Hwf Htop)
      as (g' & h' & E & Hwf' & _ & _ & Hsub & _ & Hord').
    exists g', h'. split_and!; auto.
    intros i n Hn. destruct (Hsub _ _ Hn) as (i' & n' & Hn' & En).
    rewrite lookup_drop in Hn'. rewrite <- (payload_value _ _ En). eauto.
  - intros v x k n Hx Hn Hv Hd.
    destruct (minHeapDecreaseNodeValue_spec g h v x k n Hwf Hx Hn Hv)
      as (g' & h' & E & Hwf' & _ & _ & _ & Hsub & Hord').
    exists g', h'. split_and!; auto with lia.
    apply (heap_range_sub _ _ Hsub). intros i m Hm.
    destruct (decide (i = k)) as [->|Hik].
    + rewrite list_lookup_insert_eq in Hm by (eapply lookup_lt_Some; eassumption).
      inversion Hm; subst m. simpl. pose proof (Hrange _ _ Hn). lia.
    + rewrite list_lookup_insert_ne in Hm by congruence. eauto.
Qed.

Lemma heap_invariant_preserved_witness :
  (exists g' h', minHeapEnqueue small_graph small_heap 3 = Ok (g', h') /\
     heap_wf g' h' /\ heap_ordered h' /\ heap_range h') /\
  (exists g' h', minHeapDequeue small_graph small_heap = Ok (0%nat, (g', h')) /\
     heap_wf g' h' /\ heap_ordered h' /\ heap_range h') /\
  (exists g' h', minHeapDecreaseNodeValue small_graph small_heap 1 = Ok (g', h') /\
     heap_wf g' h' /\ heap_ordered h' /\ heap_range h').
Proof.
  destruct (heap_invariant_preserved small_graph small_heap
              small_heap_wf small_heap_ordered small_heap_range)
    as (Henq & Hdeq & Hdec).
  split; [|split].
  - apply (Henq 3%nat (mkVertex 3 "D" [] None 3 (-1) false) eq_refl
             small_heap_without_D).
    simpl. unfold INT_MAX. lia.
  - apply (Hdeq (mkNode 1 0 true true 0) eq_refl).
  - apply (Hdec 1%nat (mkVertex 1 "B" [] None 0 1 false) 1%nat
             (mkNode 4 1 false false 1) eq_refl eq_refl eq_refl).
    simpl. lia.
Defined.

(** ** X19 *)

(** X19: on a non-empty heap that is well formed and a min-heap,
    [minHeapDequeue] returns the vertex of slot 0, whose value is at most
    the value of every entry; and when the values are distances
    (0 .. INT_MAX), taking the minimum off until the heap is empty returns
    as many values as the heap had entries, in non-decreasing order. *)
Theorem dequeue_minimum_sorted (g : Graph) (h : MinHeap) :
  heap_wf g h -> heap_ordered h ->
  (forall top, h !! 0%nat = Some top ->
     (exists g' h', minHeapDequeue g h = Ok (vertex top, (g', h'))) /\
     forall i n, h !! i = Some n -> value top <= value n) /\
  (heap_range h ->
   exists out, drain (length h) g h = Ok out /\ length out = length h /\
     StronglySorted Z.le (snd <$> out)).
Proof.
  intros Hwf Hord. split.
  - intros top Htop. split.
    + destruct (minHeapDequeue_spec g h top Hwf Htop) as (g' & h' & E & _).
      eauto.
    + eapply heap_root_min; eassumption.
  - intros Hrange.
    destruct (drain_spec (length h) g h Hwf Hord Hrange ltac:(lia))
      as (out & E & Hlen & Hs & _).
    eauto.
Qed.

Lemma dequeue_minimum_sorted_witness :
  ((exists g' h', minHeapDequeue small_graph small_heap = Ok (0%nat, (g', h'))) /\
   forall i n, small_heap !! i = Some n -> 1 <= value n) /\
  exists out, drain 3 small_graph small_heap = Ok out /\ length out = 3%nat /\
    StronglySorted Z.le (snd <$> out).
Proof.
  destruct (dequeue_minimum_sorted small_graph small_heap
              small_heap_wf small_heap_ordered) as (Hmin & Hsorted).
  split.
  - apply (Hmin (mkNode 1 0 true true 0) eq_refl).
  - apply (Hsorted small_heap_range).
Defined.

(** ** X20 *)

(** X20: the sift-up loop of [minHeapEnqueue] and
    [minHeapDecreaseNodeValue] leaves an entry where it is when its value
    is equal to (or larger than) its parent's, and swaps it with the parent
    when it is strictly smaller; a round of the sift-down loop of
    [minHeapDequeue] on an entry with two children whose values are
    distances (0 .. INT_MAX) swaps, when the entry's value is at least one
    of the children's, with the right child when
    [rightValue <= leftValue] and with the left child otherwise, and leaves
    the loop when the entry is strictly smaller than both. *)
Theorem tie_handling :
  (forall fuel g h k cur parent,
     heapAt h k = Ok cur -> heapAt h (parentOf k) = Ok parent ->
     (value parent <= value cur -> siftUp fuel g h k = Ok (g, h)) /\
     (value cur < value parent ->
      siftUp (S fuel) g h k =
      '(g', h') ← swapNode g h k (parentOf k); siftUp fuel g' h' (parentOf k))) /\
  (forall g h k cur left right,
     heapAt h k = Ok cur ->
     hasChildLeft cur = true -> hasChildRight cur = true ->
     heapAt h (2 * k + 1) = Ok left -> heapAt h (2 * k + 2) = Ok right ->
     0 <= value left <= INT_MAX -> 0 <= value right <= INT_MAX ->
     (value left <= value cur \/ value right <= value cur ->
      siftDownStep g h k =
      if value right <=? value left
      then s ← swapNode g h k (2 * k + 2); Ok (Some (2 * k + 2, s))
      else s ← swapNode g h k (2 * k + 1); Ok (Some (2 * k + 1, s))) /\
     (value cur < value left -> value cur < value right ->
      siftDownStep g h k = Ok None)).
Proof.
  split.
  - intros fuel g h k cur parent Hc Hp. split; intros Hv.
    + rewrite siftUp_eq, Hc. step. rewrite Hp. step.
      destruct (Z.ltb_spec (value cur) (value parent)); [lia | reflexivity].
    + rewrite siftUp_eq, Hc. step. rewrite Hp. step.
      destruct (Z.ltb_spec (value cur) (value parent)); [reflexivity | lia].
  - intros g h k cur left right Hc Hl Hr Hleft Hright Rl Rr.
    unfold siftDownStep. rewrite Hc. step. rewrite Hl, Hr. step.
    rewrite Hleft. step. rewrite Hright. step.
    rewrite wrap_int_id by (unfold in_int, INT_MIN, INT_MAX in *; lia).
    split.
    + intros Hv.
      assert ((value left <=? value cur) || (value right <=? value cur) = true) as ->.
      { apply orb_true_iff. rewrite !Z.leb_le. assumption. }
      destruct (Z.leb_spec (value right - value left) 0);
        destruct (Z.leb_spec (value right) (value left)); try lia; reflexivity.
    + intros H1 H2.
      assert ((value left <=? value cur) || (value right <=? value cur) = false) as ->.
      { apply orb_false_iff. rewrite !Z.leb_gt. auto. }
      reflexivity.
Qed.

Lemma tie_handling_witness :
  siftUp 3 small_graph tie_up_heap 2 = Ok (small_graph, tie_up_heap) /\
  siftDownStep small_graph tie_down_heap 0
  = (s ← swapNode small_graph tie_down_heap 0 2; Ok (Some (2, s))).
Proof.
  destruct tie_handling as (Hup & Hdown). split.
  - refine (proj1 (Hup 3%nat small_graph tie_up_heap 2 (mkNode 2 2 false false 2)
                     (mkNode 2 0 true true 0) eq_refl eq_refl) _).
    simpl. lia.
  - refine (proj1 (Hdown small_graph tie_down_heap 0 (mkNode 5 0 true true 0)
                     (mkNode 2 1 false false 1) (mkNode 2 2 false false 2)
                     eq_refl eq_refl eq_refl eq_refl eq_refl _ _) _);
      simpl; unfold INT_MAX; lia.
Defined.

(** * Further properties of the recorded routes *)

(** ** X21 *)

(** X21: the condition on the graph alone.  On a graph whose edges have
    positive distances, let [ld] be the length of a shortest route from [s]
    to [d], below [INT_MAX], and let the length of a shortest route to a
    vertex that is not farther than [d], plus the distance of an edge
    from it to a vertex that is not nearer, never exceed [INT_MAX]
    ([route_fits]).  Then a run from [s] that returns records [ld] for
    [d], and [dijkstrasWriteToFile] writes a route from [s] to [d] of that
    length. *)
Theorem shortest_route_recorded (g : Graph) (s d : nat) (ld : Z) :
  graph_wf g -> (s < length g)%nat -> route_fits g s d ld ->
  forall g' h', dijkstras g [] s = Ok (g', h') ->
    distOf g' d = ld /\
    exists path,
      chain g s d path ld /\
      head path = Some s /\ last path = Some d /\
      dijkstrasWriteToFile g' s d =
      Ok (nameOf g s ++ " to " ++ nameOf g d ++ " is " ++ showInt ld
            ++ "km" ++ nl ++ nl
            ++ "Route:" ++ nl
            ++ printRoute (nameOf g <$> path)
            ++ nl ++ nl)%string.
Proof.
  intros Hwf Hs Hfits g' h' Hrun.
  pose proof Hfits as ([[pd Hcd] Hmin] & Hlt & _).
  assert (exists path len, chain g s d path len /\ len < INT_MAX) as Hway
    by (exists pd, ld; auto).
  destruct (dijkstras_upto g s Hwf Hs d Hway g' h'
              (route_fits_before g s d ld Hwf Hs Hfits) Hrun)
    as (Hlow & Hst & V & Hroot & Hd).
  destruct (rooted_write g s g' V Hwf Hst Hroot d Hs Hd) as (path & Hchain & Hw).
  assert (distOf g' d = ld) as E.
  { specialize (Hlow _ _ Hcd). specialize (Hmin _ _ Hchain). lia. }
  rewrite E in *. split; [reflexivity|].
  exists path. destruct (chain_ends _ _ _ _ _ Hchain) as [Hh Hl]. auto.
Qed.

Lemma shortest_route_recorded_witness :
  exists g' path,
    dijkstras far_towns [] 0 = Ok (g', []) /\
    distOf g' 2 = 2000000000 /\
    chain far_towns 0 2 path 2000000000 /\
    head path = Some 0%nat /\ last path = Some 2%nat /\
    dijkstrasWriteToFile g' 0 2 =
    Ok (nameOf far_towns 0 ++ " to " ++ nameOf far_towns 2 ++ " is "
          ++ showInt 2000000000 ++ "km" ++ nl ++ nl
          ++ "Route:" ++ nl
          ++ printRoute (nameOf far_towns <$> path)
          ++ nl ++ nl)%string.
Proof.
  assert (exists g', dijkstras far_towns [] 0 = Ok (g', [])) as [g' Hrun]
    by (eexists; vm_compute; reflexivity).
  destruct (shortest_route_recorded far_towns 0 2 2000000000 far_towns_wf
              ltac:(vm_compute; lia) far_towns_fits g' [] Hrun)
    as (Hld & path & H).
  exists g', path. split; [exact Hrun|]. split; [exact Hld | exact H].
Defined.

(** ** X22 *)

(** X22: the precondition on the sentinel is enough.  On a graph whose
    edges have positive distances, when every sum that relaxation forms in
    the run from [s] stays below [INT_MAX] ([sums_below]), a run that
    returns leaves with every destination [d] that can be reached from [s]
    a distance below [INT_MAX] that is the length of a shortest route, and
    [dijkstrasWriteToFile] writes a route from [s] to [d] of that length;
    and on a graph without self-loops the run returns. *)
Theorem route_below_sentinel (g : Graph) (s d : nat) :
  graph_wf g -> (s < length g)%nat -> sums_below g s -> reachable g s d ->
  (no_self_loops g -> exists g', dijkstras g [] s = Ok (g', [])) /\
  forall g' h', dijkstras g [] s = Ok (g', h') ->
    distOf g' d < INT_MAX /\
    (forall path len, chain g s d path len -> distOf g' d <= len) /\
    exists path,
      chain g s d path (distOf g' d) /\
      head path = Some s /\ last path = Some d /\
      dijkstrasWriteToFile g' s d =
      Ok (nameOf g s ++ " to " ++ nameOf g d ++ " is " ++ showInt (distOf g' d)
            ++ "km" ++ nl ++ nl
            ++ "Route:" ++ nl
            ++ printRoute (nameOf g <$> path)
            ++ nl ++ nl)%string.
Proof.
  intros Hwf Hs Hb Hr. split.
  - intros Hloops. destruct (dijkstras_total g s Hwf Hloops Hs) as (g' & E & _).
    eauto.
  - intros g' h' Hrun.
    pose proof (sums_below_route g s Hwf Hs Hb d Hr) as Hway.
    destruct (dijkstras_upto g s Hwf Hs d Hway g' h'
                (sums_below_before g s d Hb) Hrun)
      as (Hlow & Hst & V & Hroot & Hd).
    split; [apply (Hroot d Hd)|]. split; [assumption|].
    destruct (rooted_write g s g' V Hwf Hst Hroot d Hs Hd) as (path & Hchain & Hw).
    exists path. destruct (chain_ends _ _ _ _ _ Hchain) as [Hh Hl]. auto.
Qed.

Lemma route_below_sentinel_witness :
  exists g' path,
    dijkstras triangle [] 0 = Ok (g', []) /\
    distOf g' 2 = 9 /\
    chain triangle 0 2 path 9 /\
    head path = Some 0%nat /\ last path = Some 2%nat /\
    dijkstrasWriteToFile g' 0 2 =
    Ok ("A to C is 9km" ++ nl ++ nl ++ "Route:" ++ nl
          ++ printRoute (nameOf triangle <$> path) ++ nl ++ nl)%string.
Proof.
  assert (exists g', dijkstras triangle [] 0 = Ok (g', [])) as [g' Hrun]
    by (eexists; vm_compute; reflexivity).
  assert (reachable triangle 0 2) as Hreach.
  { apply (reach_edge triangle 0 0 (mkEdge 0 2 10) (reach_source _ _)).
    vm_compute. right. left. }
  destruct (route_below_sentinel triangle 0 2 triangle_wf
              ltac:(vm_compute; lia) triangle_sums_below Hreach)
    as [_ Hroute].
  destruct (Hroute g' [] Hrun) as (_ & _ & path & Hc & Hh & Hl & Hw).
  assert (distOf g' 2 = 9) as E.
  { vm_compute in Hrun. injection Hrun as <-. reflexivity. }
  rewrite E in *.
  exists g', path. split_and!; auto.
Defined.
